(** * jaison: a fault-tolerant JSON decoder

    Shallow embedding of the tokenizer ([lib/tokenizer.ts]), of the
    stack-based parser ([lib/parser.ts]) and of the entry point
    ([lib/index.js]) of jaison, and the properties of the decoder
    [decode = parse ∘ tokenize].

    Conventions of the embedding.
    - A JavaScript string is the list of its UTF-16 code units ([str]).
    - A JavaScript number is an IEEE-754 binary64 value ([spec_float]).
    - Objects and arrays live in a store ([heap]); a value that is an object
      or an array is a reference into that store, so that the aliasing
      between a container on the parser's stack and the slot of its parent
      is the one of the source.
    - [throw] is the [Throw] outcome of the parser's result type. *)

From Stdlib Require Import ZArith NArith Lia String Ascii Bool.
From Stdlib Require Import Floats.SpecFloat.
From stdpp Require Import base tactics option list.

Set Default Proof Using "Type".
Set Warnings "-register-all".
Local Open Scope N_scope.
Local Open Scope nat_scope.

(** ** Strings as sequences of UTF-16 code units *)

Abbreviation str := (list N).

(** The code unit of an ASCII character. *)
Definition ch (a : ascii) : N := N_of_ascii a.

(** The code units of an ASCII literal. *)
Definition lit (s : string) : str := map ch (list_ascii_of_string s).

(** [s.slice(a, b)] for non-negative [a] and [b]. *)
Definition slice (s : str) (a b : nat) : str := take (b - a) (drop a s).

(** [s.slice(a)]. *)
Definition slice_from (s : str) (a : nat) : str := drop a s.

(** [s.endsWith(c)] for a one-character string [c]. *)
Definition endsWith (s : str) (c : N) : bool :=
  match last s with
  | Some d => (d =? c)%N
  | None => false
  end.

(** Number of leading elements of [l] that satisfy [p]: the distance covered
    by a loop [while (pos < len && p(s[pos])) pos++] started at the position
    where [l] begins. *)
Fixpoint span_len (p : N -> bool) (l : str) : nat :=
  match l with
  | c :: r => if p c then S (span_len p r) else 0
  | [] => 0
  end.

(** [while (pos < len && p(s[pos])) pos++]: the position reached. *)
Definition scan_while (p : N -> bool) (s : str) (pos : nat) : nat :=
  pos + span_len p (drop pos s).

Module Ch.
Definition tab : N := 9.
Definition lf : N := 10.
Definition cr : N := 13.
Definition space : N := 32.
Definition dquote : N := 34.
Definition squote : N := 39.
Definition star : N := 42.
Definition plus : N := 43.
Definition comma : N := 44.
Definition minus : N := 45.
Definition dot : N := 46.
Definition slash : N := 47.
Definition zero : N := 48.
Definition nine : N := 57.
Definition colon : N := 58.
Definition lbracket : N := 91.
Definition backslash : N := 92.
Definition rbracket : N := 93.
Definition lbrace : N := 123.
Definition rbrace : N := 125.
(** U+FF1A FULLWIDTH COLON and U+FF0C FULLWIDTH COMMA *)
Definition zh_colon : N := 65306.
Definition zh_comma : N := 65292.
End Ch.

Definition is_digit (c : N) : bool := (48 <=? c)%N && (c <=? 57)%N.

(** The class [\s] of a JavaScript regular expression: WhiteSpace and
    LineTerminator code units. *)
Definition is_regex_space (c : N) : bool :=
  ((9 <=? c)%N && (c <=? 13)%N) || (c =? 32)%N || (c =? 160)%N
  || (c =? 5760)%N || ((8192 <=? c)%N && (c <=? 8202)%N)
  || (c =? 8232)%N || (c =? 8233)%N || (c =? 8239)%N || (c =? 8287)%N
  || (c =? 12288)%N || (c =? 65279)%N.

(** ** Shared constants ([lib/constants.ts]) *)

Inductive token_type :=
  STRING | BRACKET | PUNCTUATION | NUMBER | IDENTIFIER | COMMENT.

Inductive container_type := OBJECT | ARRAY.

#[global] Instance token_type_eq_dec : EqDecision token_type.
Proof. solve_decision. Defined.

#[global] Instance container_type_eq_dec : EqDecision container_type.
Proof. solve_decision. Defined.

Module RADIX.
Definition BINARY : N := 2.
Definition OCTAL : N := 8.
Definition DECIMAL : N := 10.
Definition HEXADECIMAL : N := 16.
End RADIX.

Definition TRUE_ALIAS : list str := map lit ["t"; "tr"; "tru"; "true"]%string.
Definition FALSE_ALIAS : list str :=
  map lit ["f"; "fa"; "fal"; "fals"; "false"]%string.
Definition NULL_ALIAS : list str :=
  map lit ["n"; "nu"; "nul"; "null"; "no"; "non"; "none"; "nil"; "nill"]%string.
Definition UNDEFINED_ALIAS : list str :=
  map lit ["u"; "un"; "und"; "unde"; "undef"; "undefi"; "undefin";
           "undefined"]%string.

(** [set.has(x)] *)
Definition has (set : list str) (x : str) : bool := bool_decide (x ∈ set).

(** ** Tokens *)

(** [radix], [isNegative] and [isPositive] are optional in the source; an
    absent flag is falsy and is [false] here, an absent radix is [None]. *)
Record Token := mkToken {
  type : token_type;
  value : str;
  radix : option N;
  isNegative : bool;
  isPositive : bool
}.

Definition simple_token (t : token_type) (v : str) : Token :=
  mkToken t v None false false.

(** ** The tokenizer ([lib/tokenizer.ts]) *)

Module Tokenizer.

(** The index at which the regular expression of [parseStringToken] matches
    [beforeNewline]: a backslash, a double or single quote, an optional
    comma or colon, and the end of the text. The pattern is anchored at the
    end, so a match starts three code units before the end (with the
    optional separator) or two (without); the leftmost one is tried
    first. *)
Definition matchEscapedQuote (b : str) : option nat :=
  let n := length b in
  let at_ i c := bool_decide (b !! i = Some c) in
  let quote i := at_ i Ch.dquote || at_ i Ch.squote in
  if (3 <=? n) && at_ (n - 3) Ch.backslash && quote (n - 2)
     && (at_ (n - 1) Ch.comma || at_ (n - 1) Ch.colon)
  then Some (n - 3)
  else if (2 <=? n) && at_ (n - 2) Ch.backslash && quote (n - 1)
  then Some (n - 2)
  else None.

(** The scanning loop of [parseStringToken]. [rest] is the input from
    [pos] on. The result is the final [pos] and, when the scan terminated
    early on a badly escaped quote, the token text built there. *)
Fixpoint scanString (s : str) (startPos : nat) (quoteChar : N)
    (rest : str) (pos : nat) {struct rest} : nat * option str :=
  match rest with
  | [] => (pos, None)
  | c :: rest1 =>
    if (c =? quoteChar)%N then (pos + 1, None)
    else if (c =? Ch.backslash)%N then
      match rest1 with
      | [] => (pos + 2, None)
      | _ :: rest2 => scanString s startPos quoteChar rest2 (pos + 2)
      end
    else if (c =? Ch.lf)%N || (c =? Ch.cr)%N then
      let beforeNewline := slice s (startPos + 1) pos in
      match matchEscapedQuote beforeNewline with
      | Some index =>
        (startPos + 1 + index,
         Some (quoteChar :: take index beforeNewline ++ [quoteChar]))
      | None => scanString s startPos quoteChar rest1 (pos + 1)
      end
    else scanString s startPos quoteChar rest1 (pos + 1)
  end.

(** The loop that escapes the unescaped double quotes of a single-quoted
    string; [prev] is [innerContent[i - 1]], absent when [i = 0]. *)
Fixpoint escapeDoubleQuotes (prev : option N) (innerContent : str) : str :=
  match innerContent with
  | [] => []
  | c :: r =>
    (if (c =? Ch.dquote)%N && negb (bool_decide (prev = Some Ch.backslash))
     then [Ch.backslash; Ch.dquote]
     else [c]) ++ escapeDoubleQuotes (Some c) r
  end.

Record StringTokenResult := mkStringTokenResult {
  st_token : Token;
  st_newPos : nat;
  skippedBadEscape : bool
}.

Definition parseStringToken (s : str) (startPos : nat) : StringTokenResult :=
  let quoteChar := default 0%N (s !! startPos) in
  let '(pos, early) :=
    scanString s startPos quoteChar (drop (startPos + 1) s) (startPos + 1) in
  let tokenValue :=
    match early with
    | Some tv => tv
    | None =>
      let tv := slice s startPos pos in
      if endsWith tv quoteChar then tv else tv ++ [quoteChar]
    end in
  let tokenValue :=
    if (quoteChar =? Ch.squote)%N then
      let innerContent := slice tokenValue 1 (length tokenValue - 1) in
      Ch.dquote :: escapeDoubleQuotes None innerContent ++ [Ch.dquote]
    else tokenValue in
  mkStringTokenResult (simple_token STRING tokenValue) pos
    (bool_decide (is_Some early)).

Definition parsePunctuationToken (c : N) : Token :=
  let normalizedPunctuation :=
    if (c =? Ch.zh_colon)%N then Ch.colon
    else if (c =? Ch.zh_comma)%N then Ch.comma
    else c in
  simple_token PUNCTUATION [normalizedPunctuation].

(** The characters that end an identifier: the double quote, the four
    brackets, the ASCII and fullwidth comma and colon, and the class [\s]. *)
Definition is_identifier_stop (c : N) : bool :=
  (c =? Ch.dquote)%N || (c =? Ch.lbrace)%N || (c =? Ch.rbrace)%N
  || (c =? Ch.lbracket)%N || (c =? Ch.rbracket)%N || (c =? Ch.comma)%N
  || (c =? Ch.colon)%N || (c =? Ch.zh_colon)%N || (c =? Ch.zh_comma)%N
  || is_regex_space c.

(** A token (or [null]) and the new position. *)
Definition parseIdentifierToken (s : str) (startPos : nat)
    : option Token * nat :=
  let pos := scan_while (fun c => negb (is_identifier_stop c)) s startPos in
  if startPos <? pos
  then (Some (simple_token IDENTIFIER (slice s startPos pos)), pos)
  else (None, pos + 1).

(** [/[\d.eE+-]/] *)
Definition is_decimal_run (c : N) : bool :=
  is_digit c || (c =? Ch.dot)%N || (c =? 101)%N || (c =? 69)%N
  || (c =? Ch.plus)%N || (c =? Ch.minus)%N.

(** [/[0-9a-fA-F]/] *)
Definition is_hex_digit (c : N) : bool :=
  is_digit c || ((97 <=? c)%N && (c <=? 102)%N)
  || ((65 <=? c)%N && (c <=? 70)%N).

(** [/[0-7]/] *)
Definition is_octal_digit (c : N) : bool := (48 <=? c)%N && (c <=? 55)%N.

(** [/[01]/] *)
Definition is_binary_digit (c : N) : bool := (c =? 48)%N || (c =? 49)%N.

Definition parseNumberToken (s : str) (startPos : nat) : option Token * nat :=
  let len := length s in
  let at_ i c := bool_decide (s !! i = Some c) in
  let isNegative := at_ startPos Ch.minus in
  let isPositive := negb isNegative && at_ startPos Ch.plus in
  let pos := if isNegative || isPositive then startPos + 1 else startPos in
  let number radix pos :=
    let numberValue :=
      slice s (if isNegative || isPositive then startPos + 1 else startPos)
            pos in
    (Some (mkToken NUMBER numberValue (Some radix) isNegative isPositive),
     pos) in
  match s !! pos with
  | None =>
    (* just a sign *)
    parseIdentifierToken s startPos
  | Some firstChar =>
    if at_ startPos Ch.dot || ((startPos <? pos) && (firstChar =? Ch.dot)%N)
    then
      if (firstChar =? Ch.dot)%N
         && match s !! (pos + 1) with
            | Some d => is_digit d
            | None => false
            end
      then number RADIX.DECIMAL (scan_while is_decimal_run s (pos + 1))
      else parseIdentifierToken s startPos
    else if is_digit firstChar then
      if (firstChar =? Ch.zero)%N && (pos + 1 <? len) then
        let nextChar := default 0%N (s !! (pos + 1)) in
        if (nextChar =? 120)%N || (nextChar =? 88)%N then
          number RADIX.HEXADECIMAL (scan_while is_hex_digit s (pos + 2))
        else if (nextChar =? 111)%N || (nextChar =? 79)%N then
          number RADIX.OCTAL (scan_while is_octal_digit s (pos + 2))
        else if (nextChar =? 98)%N || (nextChar =? 66)%N then
          number RADIX.BINARY (scan_while is_binary_digit s (pos + 2))
        else number RADIX.DECIMAL (scan_while is_decimal_run s (pos + 1))
      else number RADIX.DECIMAL (scan_while is_decimal_run s pos)
    else parseIdentifierToken s startPos
  end.

(** The loop [while (pos < len - 1)] of a block comment; [rest] is the
    input from [pos] on. *)
Fixpoint skipBlock (rest : str) (pos : nat) {struct rest} : nat :=
  match rest with
  | c :: ((c' :: _) as rest1) =>
    if (c =? Ch.star)%N && (c' =? Ch.slash)%N then pos + 2
    else skipBlock rest1 (pos + 1)
  | _ => pos
  end.

Definition is_newline (c : N) : bool := (c =? Ch.lf)%N || (c =? Ch.cr)%N.

(** [isComment] and [newPos]. *)
Definition skipComment (s : str) (startPos : nat) : bool * nat :=
  let len := length s in
  let at_ i c := bool_decide (s !! i = Some c) in
  if len <=? startPos + 1 then (false, startPos + 1)
  else if at_ (startPos + 1) Ch.slash then
    let pos := scan_while (fun c => negb (is_newline c)) s (startPos + 2) in
    let pos :=
      if (pos <? len) && (at_ pos Ch.lf || at_ pos Ch.cr) then
        let pos := pos + 1 in
        if (pos <? len) && at_ (pos - 1) Ch.cr && at_ pos Ch.lf
        then pos + 1 else pos
      else pos in
    (true, pos)
  else if at_ (startPos + 1) Ch.star then
    let pos := skipBlock (drop (startPos + 2) s) (startPos + 2) in
    let pos :=
      if (len - 1 <=? pos) && negb (at_ (pos - 1) Ch.star && at_ pos Ch.slash)
      then len else pos in
    (true, pos)
  else (false, startPos).

(** One iteration of the loop of [tokenize]: the tokens pushed and the new
    position. *)
Definition tokenize_step (s : str) (pos : nat) (char : N) : list Token * nat :=
  let len := length s in
  let at_ i c := bool_decide (s !! i = Some c) in
  if (char <=? Ch.space)%N then ([], pos + 1)
  else
    let commentResult :=
      if (char =? Ch.slash)%N then skipComment s pos else (false, pos) in
    if commentResult.1 then ([], commentResult.2)
    else if (char =? Ch.dquote)%N || (char =? Ch.squote)%N then
      let stringToken := parseStringToken s pos in
      let pos := st_newPos stringToken in
      let pos :=
        if skippedBadEscape stringToken then
          if (pos <? len) && at_ pos Ch.backslash && (pos + 1 <? len)
             && (at_ (pos + 1) Ch.dquote || at_ (pos + 1) Ch.squote)
          then
            let pos := pos + 2 in
            if (pos <? len) && (at_ pos Ch.comma || at_ pos Ch.colon)
            then pos + 1 else pos
          else pos
        else pos in
      ([st_token stringToken], pos)
    else if (char =? Ch.lbrace)%N || (char =? Ch.rbrace)%N
            || (char =? Ch.lbracket)%N || (char =? Ch.rbracket)%N then
      ([simple_token BRACKET [char]], pos + 1)
    else if (char =? Ch.comma)%N || (char =? Ch.colon)%N
            || (char =? Ch.zh_colon)%N || (char =? Ch.zh_comma)%N then
      ([parsePunctuationToken char], pos + 1)
    else if is_digit char || (char =? Ch.minus)%N || (char =? Ch.plus)%N
            || (char =? Ch.dot)%N then
      let numberToken := parseNumberToken s pos in
      (option_list numberToken.1, numberToken.2)
    else
      let identifierToken := parseIdentifierToken s pos in
      (option_list identifierToken.1, identifierToken.2).

(** The loop [while (pos < len)]. Every iteration advances [pos], so
    [length s] iterations are enough ([tokenize_loop_fuel]). *)
Fixpoint tokenize_loop (fuel : nat) (s : str) (pos : nat) (tokens : list Token)
    : list Token :=
  match fuel with
  | 0 => tokens
  | S fuel =>
    match s !! pos with
    | None => tokens
    | Some char =>
      let '(pushed, pos') := tokenize_step s pos char in
      tokenize_loop fuel s pos' (tokens ++ pushed)
    end
  end.

Definition tokenize (jsonString : str) : list Token :=
  tokenize_loop (length jsonString) jsonString 0 [].

End Tokenizer.

(** ** The JavaScript built-ins the parser calls *)

Module JS.

(** *** Numbers: IEEE-754 binary64 *)

Abbreviation number := spec_float.

Definition prec : Z := 53.
Definition emax : Z := 1024.

Definition NaN : number := S754_nan.

(** The Number value of the non-negative decimal [m × 10^e]: the nearest
    binary64 value, ties to even. *)
Definition of_decimal (m : N) (e : Z) : number :=
  match m with
  | N0 => S754_zero false
  | Npos p =>
    if (0 <=? e)%Z
    then binary_normalize prec emax (Zpos p * 10 ^ e) 0 false
    else SFdiv prec emax (S754_finite false p 0)
           (S754_finite false (Z.to_pos (10 ^ (- e))) 0)
  end.

Definition of_N (n : N) : number := of_decimal n 0.

(** Unary minus. *)
Definition neg (x : number) : number := SFopp x.

(** The value of a digit in a radix up to 36. *)
Definition digit_value (c : N) : option N :=
  if is_digit c then Some (c - 48)%N
  else if (97 <=? c)%N && (c <=? 122)%N then Some (c - 87)%N
  else if (65 <=? c)%N && (c <=? 90)%N then Some (c - 55)%N
  else None.

Definition is_radix_digit (R : N) (c : N) : bool :=
  match digit_value c with
  | Some d => (d <? R)%N
  | None => false
  end.

(** The mathematical integer a run of digits denotes in radix [R]. *)
Definition digits_value (R : N) (ds : str) : N :=
  fold_left (fun acc c => (acc * R + default 0 (digit_value c))%N) ds 0%N.

Definition take_while (p : N -> bool) (l : str) : str := take (span_len p l) l.
Definition drop_while (p : N -> bool) (l : str) : str := drop (span_len p l) l.

(** A leading sign: whether it is a minus, and the rest. *)
Definition split_sign (l : str) : bool * str :=
  match l with
  | c :: r =>
    if (c =? Ch.minus)%N then (true, r)
    else if (c =? Ch.plus)%N then (false, r)
    else (false, l)
  | [] => (false, [])
  end.

Definition signed (negative : bool) (x : number) : number :=
  if negative then neg x else x.

(** [parseInt(string, radix)] for a radix from 2 to 36 (ECMAScript
    19.2.5): leading white space is skipped, a sign is read, the prefix
    [0x] is stripped in radix 16, and the longest run of digits of the radix
    is the value; an empty run gives NaN. *)
Definition parseInt (string : str) (radix : N) : number :=
  let trimmed := drop_while is_regex_space string in
  let '(sign, text) := split_sign trimmed in
  if (radix <? 2)%N || (36 <? radix)%N then NaN
  else
    let text :=
      match text with
      | c0 :: c1 :: r =>
        if (radix =? 16)%N && (c0 =? 48)%N && ((c1 =? 120)%N || (c1 =? 88)%N)
        then r else text
      | _ => text
      end in
    match take_while (is_radix_digit radix) text with
    | [] => NaN
    | digits => signed sign (of_N (digits_value radix digits))
    end.

(** The exponent part after the mantissa of a decimal literal: [e] or [E],
    an optional sign and at least one digit; 0 when there is none. *)
Definition exponent_part (l : str) : Z :=
  match l with
  | c :: r =>
    if (c =? 101)%N || (c =? 69)%N then
      let '(sign, r) := split_sign r in
      match take_while is_digit r with
      | [] => 0%Z
      | ds =>
        let e := Z.of_N (digits_value 10 ds) in
        if sign then (- e)%Z else e
      end
    else 0%Z
  | [] => 0%Z
  end.

(** [parseFloat(string)] (ECMAScript 19.2.4): the Number value of the
    longest prefix of the trimmed text that is a StrDecimalLiteral, NaN when
    there is none. *)
Definition parseFloat (string : str) : number :=
  let trimmed := drop_while is_regex_space string in
  let '(sign, r) := split_sign trimmed in
  if bool_decide (take 8 r = lit "Infinity") then S754_infinity sign
  else
    let ip := take_while is_digit r in
    let r1 := drop_while is_digit r in
    let '(fp, r2) :=
      match r1 with
      | c :: r' =>
        if (c =? Ch.dot)%N
        then (take_while is_digit r', drop_while is_digit r')
        else ([], r1)
      | [] => ([], r1)
      end in
    match ip ++ fp with
    | [] => NaN
    | ds =>
      signed sign
        (of_decimal (digits_value 10 ds)
           (exponent_part r2 - Z.of_nat (length fp)))
    end.

(** *** Strings *)

(** [toLowerCase] on the ASCII letters. The case mappings of Unicode
    outside ASCII are not modelled: no code unit outside ASCII lower-cases
    to one of the letters of the alias tables. *)
Definition toLowerCase (s : str) : str :=
  map (fun c => if (65 <=? c)%N && (c <=? 90)%N then (c + 32)%N else c) s.

(** [a.join(sep)] *)
Fixpoint join {A} (sep : list A) (l : list (list A)) : list A :=
  match l with
  | [] => []
  | [x] => x
  | x :: r => x ++ sep ++ join sep r
  end.

Definition hex_digit_value (c : N) : option N :=
  match digit_value c with
  | Some d => if (d <? 16)%N then Some d else None
  | None => None
  end.

(** The character an escape letter of a JSON string stands for. *)
Definition simple_escape (c : N) : option N :=
  if (c =? Ch.dquote)%N then Some Ch.dquote
  else if (c =? Ch.backslash)%N then Some Ch.backslash
  else if (c =? Ch.slash)%N then Some Ch.slash
  else if (c =? 98)%N then Some 8%N
  else if (c =? 102)%N then Some 12%N
  else if (c =? 110)%N then Some 10%N
  else if (c =? 114)%N then Some 13%N
  else if (c =? 116)%N then Some 9%N
  else None.

(** The characters of a JSON string after its opening quote: the decoded
    content and the text after the closing quote; [None] is a SyntaxError. *)
Fixpoint string_chars (l : str) {struct l} : option (str * str) :=
  match l with
  | [] => None
  | c :: r =>
    if (c =? Ch.dquote)%N then Some ([], r)
    else if (c =? Ch.backslash)%N then
      match r with
      | [] => None
      | e :: r1 =>
        if (e =? 117)%N then
          match r1 with
          | h1 :: h2 :: h3 :: h4 :: r2 =>
            match hex_digit_value h1, hex_digit_value h2,
                  hex_digit_value h3, hex_digit_value h4 with
            | Some d1, Some d2, Some d3, Some d4 =>
              match string_chars r2 with
              | Some (content, rest) =>
                Some ((d1 * 4096 + d2 * 256 + d3 * 16 + d4)%N :: content, rest)
              | None => None
              end
            | _, _, _, _ => None
            end
          | _ => None
          end
        else
          match simple_escape e with
          | Some x =>
            match string_chars r1 with
            | Some (content, rest) => Some (x :: content, rest)
            | None => None
            end
          | None => None
          end
      end
    else if (c <? 32)%N then None
    else
      match string_chars r with
      | Some (content, rest) => Some (c :: content, rest)
      | None => None
      end
  end.

(** The white space of the JSON grammar. *)
Definition is_json_space (c : N) : bool :=
  (c =? Ch.tab)%N || (c =? Ch.lf)%N || (c =? Ch.cr)%N || (c =? Ch.space)%N.

(** [JSON.parse(text)] on a text whose value is a string: the decoded
    string, or [None] for a SyntaxError. The parser applies [JSON.parse] to
    the text of STRING tokens only, and [Tokenizer.parseStringToken] gives
    them a double quote as first character, so that no other production of
    the JSON grammar can apply; a text that is not a single string literal
    is a SyntaxError here. *)
Definition JSON_parse (text : str) : option str :=
  match drop_while is_json_space text with
  | c :: r =>
    if (c =? Ch.dquote)%N then
      match string_chars r with
      | Some (content, rest) =>
        match drop_while is_json_space rest with
        | [] => Some content
        | _ => None
        end
      | None => None
      end
    else None
  | [] => None
  end.

End JS.

(** ** Values and the object store *)

(** A decoded value: a primitive, or a reference to an object or an array
    of the store. *)
Inductive jsvalue :=
| VUndefined
| VNull
| VBool (b : bool)
| VNumber (n : JS.number)
| VString (s : str)
| VRef (a : nat).

(** The [[Prototype]] of an object: [Object.prototype] (the one of an
    object literal), [null], or an object of the store. *)
Inductive prototype :=
| ObjectPrototype
| NullPrototype
| RefPrototype (a : nat).

(** An object with its own properties in the order of their creation, or
    an array. *)
Inductive jsobject :=
| JSObject (proto : prototype) (props : list (str * jsvalue))
| JSArray (elems : list jsvalue).

Abbreviation heap := (list jsobject).

Module Store.

Definition proto_key : str := lit "__proto__".

Definition has_key {V} (props : list (str * V)) (k : str) : bool :=
  bool_decide (k ∈ props.*1).

(** Create the own data property [k], or update it where it is. The list
    [props] holds the own properties of an object in the order of their
    creation; the order in which the object lists them to a caller is
    [own_property_order] below. *)
Fixpoint set_own {V} (props : list (str * V)) (k : str) (v : V)
    : list (str * V) :=
  match props with
  | [] => [(k, v)]
  | (k', v') :: r =>
    if bool_decide (k' = k) then (k, v) :: r else (k', v') :: set_own r k v
  end.

(** The array index a property name stands for (ECMAScript 6.1.7): the
    name is the canonical decimal text of an integer from 0 to 2^32 - 2. *)
Definition array_index (k : str) : option N :=
  match k with
  | [] => None
  | d :: r =>
    if forallb is_digit k && (negb (d =? Ch.zero)%N || bool_decide (r = []))
    then
      let n := JS.digits_value 10 k in
      if (n <? 4294967295)%N then Some n else None
    else None
  end.

(** Insert a property whose name is the array index [n] into properties
    sorted by index. *)
Fixpoint insert_index {V} (n : N) (kv : str * V) (l : list (N * (str * V)))
    : list (N * (str * V)) :=
  match l with
  | [] => [(n, kv)]
  | (m, kv') :: r =>
    if (n <? m)%N then (n, kv) :: l else (m, kv') :: insert_index n kv r
  end.

(** The properties whose names are array indices, in ascending order of
    the index. *)
Fixpoint index_properties {V} (props : list (str * V))
    : list (N * (str * V)) :=
  match props with
  | [] => []
  | kv :: r =>
    match array_index kv.1 with
    | Some n => insert_index n kv (index_properties r)
    | None => index_properties r
    end
  end.

(** The order in which an object lists its own properties
    (OrdinaryOwnPropertyKeys, ECMAScript 10.1.11.1, which [Object.keys],
    [for-in] and [JSON.stringify] follow): the names that are array
    indices first, in ascending numeric order, then the other names in the
    order of their creation. *)
Definition own_property_order {V} (props : list (str * V)) : list (str * V) :=
  (index_properties props).*2
  ++ filter (fun kv => array_index kv.1 = None) props.

(** Whether the lookup of [__proto__] along a prototype chain ends in the
    accessor property of [Object.prototype] ([true]), or in a data property
    of an object of the chain or in [null] ([false]). *)
Fixpoint reaches_proto_accessor (fuel : nat) (h : heap) (p : prototype)
    : bool :=
  match p with
  | ObjectPrototype => true
  | NullPrototype => false
  | RefPrototype b =>
    match fuel with
    | 0 => false
    | S fuel =>
      match h !! b with
      | Some (JSObject p' props) =>
        if has_key props proto_key then false
        else reaches_proto_accessor fuel h p'
      | Some (JSArray _) => true
      | None => false
      end
    end
  end.

(** The assignment [o[k] = v] on the object at address [a] (OrdinarySet).
    No property of the built-in prototypes is read-only and [__proto__] of
    [Object.prototype] is their only accessor, so the assignment creates or
    updates an own data property, except for the key [__proto__] when the
    object has no such own property and inherits the accessor: the setter
    then replaces the prototype when [v] is an object or [null] and does
    nothing for another value. (The parser assigns only freshly created
    objects, so the setter cannot meet a cyclic chain.) *)
Definition property_set (h : heap) (a : nat) (k : str) (v : jsvalue) : heap :=
  match h !! a with
  | Some (JSObject p props) =>
    if bool_decide (k = proto_key) && negb (has_key props k)
       && reaches_proto_accessor (length h) h p
    then
      match v with
      | VRef b => <[a := JSObject (RefPrototype b) props]> h
      | VNull => <[a := JSObject NullPrototype props]> h
      | _ => h
      end
    else <[a := JSObject p (set_own props k v)]> h
  | _ => h
  end.

(** [o.push(v)] on the array at address [a]. *)
Definition array_push (h : heap) (a : nat) (v : jsvalue) : heap :=
  match h !! a with
  | Some (JSArray elems) => <[a := JSArray (elems ++ [v])]> h
  | _ => h
  end.

End Store.

(** ** The value a caller observes *)

(** The tree below a value. [TObjectPrototype] stands for the built-in
    [Object.prototype] in the prototype slot of an object. *)
Inductive tree :=
| TUndefined
| TNull
| TBool (b : bool)
| TNumber (n : JS.number)
| TString (s : str)
| TArray (elems : list tree)
| TObject (proto : tree) (props : list (str * tree))
| TObjectPrototype.

(** Read the tree below [v] out of the store, the own properties of every
    object in the order in which the object lists them. The references of
    a store built by the parser go from an object to objects created after
    it, so [length h] levels are enough. *)
Fixpoint reify (fuel : nat) (h : heap) (v : jsvalue) : option tree :=
  match v with
  | VUndefined => Some TUndefined
  | VNull => Some TNull
  | VBool b => Some (TBool b)
  | VNumber n => Some (TNumber n)
  | VString s => Some (TString s)
  | VRef a =>
    match fuel with
    | 0 => None
    | S fuel =>
      match h !! a with
      | Some (JSArray elems) => TArray <$> mapM (reify fuel h) elems
      | Some (JSObject p props) =>
        p' ← match p with
             | ObjectPrototype => Some TObjectPrototype
             | NullPrototype => Some TNull
             | RefPrototype b => reify fuel h (VRef b)
             end;
        props' ← mapM (fun kv => pair kv.1 <$> reify fuel h kv.2) props;
        Some (TObject p' (Store.own_property_order props'))
      | None => None
      end
    end
  end.

(** ** The parser ([lib/parser.ts]) *)

(** What [parse] can throw. *)
Inductive error :=
| UnmatchedClosingBrace
| UnmatchedClosingBracket
| UnexpectedKeyToken (tokenValue : str)
| UnexpectedPunctuation
| SyntaxError.

Inductive result (A : Type) :=
| Ok (a : A)
| Throw (e : error).
Arguments Ok {A} a.
Arguments Throw {A} e.

(** A container of the parser's stack: [type], [value] (the address of the
    object or array being filled) and the pending key [_key]. *)
Record Container := mkContainer {
  ctype : container_type;
  cvalue : nat;
  ckey : option str
}.

(** The mutable state of a run of [parse]: the store of objects and arrays,
    the [Container] records by identity, the array [stacks] of references to
    them (the last one on top), and the local variable [currentContainer]
    ([None] for [null]). *)
Record state := mkState {
  heap_of : heap;
  containers : list Container;
  stacks : list nat;
  currentContainer : option nat
}.

Module Parser.
Import Store.

Definition init : state := mkState [] [] [] None.

(** The record [currentContainer] refers to. *)
Definition current (st : state) : option Container :=
  r ← currentContainer st; containers st !! r.

Definition set_heap (h : heap) (st : state) : state :=
  mkState h (containers st) (stacks st) (currentContainer st).

(** [c._key = k] ([Some k]) and [delete c._key] ([None]) on the record [r]. *)
Definition set_key (r : nat) (k : option str) (st : state) : state :=
  mkState (heap_of st)
    (alter (fun c => mkContainer (ctype c) (cvalue c) k) r (containers st))
    (stacks st) (currentContainer st).

(** [tokens[index + 1].value === ','] with its bound check. *)
Definition next_is_comma (tokens : list Token) (index : nat) : bool :=
  match tokens !! (index + 1) with
  | Some t => bool_decide (value t = [Ch.comma])
  | None => false
  end.

(** *** Leaf decoding *)

Definition parseIdentifierValue (token : Token) : jsvalue :=
  let tokenValue := value token in
  let tokenValueLower := JS.toLowerCase tokenValue in
  if has TRUE_ALIAS tokenValueLower then VBool true
  else if has FALSE_ALIAS tokenValueLower then VBool false
  else if has NULL_ALIAS tokenValueLower then VNull
  else if has UNDEFINED_ALIAS tokenValueLower then VUndefined
  else VString tokenValue.

(** The replacement of a control character: a backslash, [u] and the four
    hexadecimal digits of its code. *)
Definition escape_control (code : N) : str :=
  let hex d := if (d <? 10)%N then (48 + d)%N else (87 + d)%N in
  [Ch.backslash; 117%N; 48%N; 48%N; hex (code / 16)%N; hex (code mod 16)%N].

Definition parseStringValue (token : Token) : result str :=
  let stringValue :=
    mbind (M := list)
      (fun c => if (c <? 32)%N then escape_control c else [c]) (value token) in
  match JS.JSON_parse stringValue with
  | Some s => Ok s
  | None => Throw SyntaxError
  end.

Definition parseNumberValue (token : Token) : JS.number :=
  let numValue := value token in
  let v :=
    if bool_decide (radix token = Some RADIX.HEXADECIMAL)
    then JS.parseInt numValue 16
    else if bool_decide (radix token = Some RADIX.OCTAL)
    then JS.parseInt (slice_from numValue 2) 8
    else if bool_decide (radix token = Some RADIX.BINARY)
    then JS.parseInt (slice_from numValue 2) 2
    else JS.parseFloat numValue in
  if isNegative token then JS.neg v else v.

Definition parseValueToken (token : Token) : result jsvalue :=
  match type token with
  | IDENTIFIER => Ok (parseIdentifierValue token)
  | STRING =>
    match parseStringValue token with
    | Ok s => Ok (VString s)
    | Throw e => Throw e
    end
  | NUMBER => Ok (VNumber (parseNumberValue token))
  | _ => Ok VNull
  end.

(** *** Containers *)

(** The common body of [createObjectContainer] and [createArrayContainer]:
    allocate the value, link it into the current container, push the new
    record. The record itself is returned as [newContainer]. *)
Definition createContainer (t : container_type) (st : state) : state * nat :=
  let a := length (heap_of st) in
  let fresh :=
    match t with
    | OBJECT => JSObject ObjectPrototype []
    | ARRAY => JSArray []
    end in
  let st := set_heap (heap_of st ++ [fresh]) st in
  let st :=
    match currentContainer st, current st with
    | Some r, Some c =>
      match ctype c, ckey c with
      | OBJECT, Some k =>
        set_key r None
          (set_heap (property_set (heap_of st) (cvalue c) k (VRef a)) st)
      | OBJECT, None => st
      | ARRAY, _ => set_heap (array_push (heap_of st) (cvalue c) (VRef a)) st
      end
    | _, _ => st
    end in
  let newContainer := length (containers st) in
  (mkState (heap_of st) (containers st ++ [mkContainer t a None])
     (stacks st ++ [newContainer]) (currentContainer st),
   newContainer).

Definition createObjectContainer (st : state) : state * nat :=
  createContainer OBJECT st.

Definition createArrayContainer (st : state) : state * nat :=
  createContainer ARRAY st.

(** What the handler of a bracket token tells the loop. *)
Inductive BracketResult :=
| BracketReturn (v : jsvalue)
| BracketContinue (newContainer : option nat) (skipNext : bool).

Definition closeContainer (st : state) (tokens : list Token) (index : nat)
    (errorMessage : error) : result (BracketResult * state) :=
  match last (stacks st) with
  | Some completedContainer =>
    let stacks' := removelast (stacks st) in
    let st' :=
      mkState (heap_of st) (containers st) stacks' (currentContainer st) in
    match last stacks' with
    | Some top => Ok (BracketContinue (Some top) (next_is_comma tokens index), st')
    | None =>
      Ok (BracketReturn
            match containers st !! completedContainer with
            | Some c => VRef (cvalue c)
            | None => VUndefined
            end, st')
    end
  | None => Throw errorMessage
  end.

Definition handleBracketToken (token : Token) (st : state)
    (tokens : list Token) (index : nat) : result (BracketResult * state) :=
  if bool_decide (value token = [Ch.lbrace]) then
    let '(st', c) := createObjectContainer st in
    Ok (BracketContinue (Some c) false, st')
  else if bool_decide (value token = [Ch.rbrace]) then
    closeContainer st tokens index UnmatchedClosingBrace
  else if bool_decide (value token = [Ch.lbracket]) then
    let '(st', c) := createArrayContainer st in
    Ok (BracketContinue (Some c) false, st')
  else if bool_decide (value token = [Ch.rbracket]) then
    closeContainer st tokens index UnmatchedClosingBracket
  else Ok (BracketContinue None false, st).

(** *** Keys and punctuation *)

Inductive KeyResult :=
| isKey (key : str)
| keyShouldContinue
| keyShouldThrow.

Definition handleObjectKey (token : Token) : result KeyResult :=
  match type token with
  | STRING =>
    match parseStringValue token with
    | Ok s => Ok (isKey s)
    | Throw e => Throw e
    end
  | NUMBER =>
    if isNegative token then Ok (isKey (Ch.minus :: value token))
    else if isPositive token then Ok (isKey (Ch.plus :: value token))
    else Ok (isKey (value token))
  | IDENTIFIER => Ok (isKey (value token))
  | PUNCTUATION =>
    if bool_decide (value token = [Ch.comma]) then Ok keyShouldContinue
    else Ok keyShouldThrow
  | _ => Ok keyShouldThrow
  end.

(** [currentContainer.value[currentContainer._key] = null;
     delete currentContainer._key] when the current container is an object
    with a pending key; nothing otherwise. *)
Definition resolve_pending_key (st : state) : state :=
  match currentContainer st, current st with
  | Some r, Some c =>
    match ctype c, ckey c with
    | OBJECT, Some k =>
      set_key r None
        (set_heap (property_set (heap_of st) (cvalue c) k VNull) st)
    | _, _ => st
    end
  | _, _ => st
  end.

(** [None] is [shouldThrow]; otherwise [shouldContinue] and the state. *)
Definition handlePunctuationToken (token : Token) (tokens : list Token)
    (index : nat) (st : state) : option state :=
  if bool_decide (stacks st = []) then None
  else if bool_decide (value token = [Ch.comma]) then
    match current st with
    | Some c =>
      match ctype c with
      | ARRAY => Some (set_heap (array_push (heap_of st) (cvalue c) VNull) st)
      | OBJECT => Some st
      end
    | None => Some st
    end
  else if bool_decide (value token = [Ch.colon]) then
    match tokens !! (index + 1) with
    | Some nextToken =>
      if bool_decide (value nextToken = [Ch.comma])
         || bool_decide (value nextToken = [Ch.rbrace])
      then Some (resolve_pending_key st)
      else Some st
    | None => Some (resolve_pending_key st)
    end
  else Some st.

(** *** Assignment *)

Inductive AssignResult :=
| AssignReturn (v : jsvalue)
| AssignContinue (skipNext : bool).

(** The key [undefined] of a container without pending key is the property
    name [undefined]. *)
Definition assignValue (v : jsvalue) (st : state) (tokens : list Token)
    (index : nat) : AssignResult * state :=
  match currentContainer st, current st with
  | Some r, Some c =>
    let st' :=
      match ctype c with
      | OBJECT =>
        set_key r None
          (set_heap
             (property_set (heap_of st) (cvalue c)
                (default (lit "undefined") (ckey c)) v) st)
      | ARRAY => set_heap (array_push (heap_of st) (cvalue c) v) st
      end in
    (AssignContinue (next_is_comma tokens index), st')
  | _, _ => (AssignReturn v, st)
  end.

Definition handleUnclosedContainers (st : state) : jsvalue * state :=
  match stacks st with
  | first :: _ =>
    let st' := resolve_pending_key st in
    (match containers st' !! first with
     | Some c => VRef (cvalue c)
     | None => VUndefined
     end, st')
  | [] => (VUndefined, st)
  end.

(** *** The loop of [parse] *)

(** The outcome of one iteration: the next value of [i] (after the
    increment of the [for]), a returned value, or an exception. *)
Inductive step :=
| Next (i : nat) (st : state)
| Return (v : jsvalue) (st : state)
| Raise (e : error).

(** The texts of the IDENTIFIER tokens that follow each other from the
    start of [tokens]. *)
Fixpoint identifier_run (tokens : list Token) : list str :=
  match tokens with
  | t :: r =>
    match type t with
    | IDENTIFIER => value t :: identifier_run r
    | _ => []
    end
  | [] => []
  end.

(** The body of the loop is given section by section, in the order of the
    source. *)

(** Handle bracket tokens (container creation/closing). *)
Definition step_bracket (tokens : list Token) (i : nat) (token : Token)
    (st : state) : step :=
  match handleBracketToken token st tokens i with
  | Throw e => Raise e
  | Ok (BracketReturn v, st') => Return v st'
  | Ok (BracketContinue newContainer skipNext, st') =>
    let st' :=
      match newContainer with
      | Some c => mkState (heap_of st') (containers st') (stacks st') (Some c)
      | None => st'
      end in
    Next (if skipNext then i + 2 else i + 1) st'
  end.

(** The condition of the section that handles object keys: the current
    container is an object without pending key. *)
Definition is_key_position (st : state) : bool :=
  match current st with
  | Some c =>
    match ctype c, ckey c with
    | OBJECT, None => true
    | _, _ => false
    end
  | None => false
  end.

(** Handle object key parsing. *)
Definition step_key (i : nat) (token : Token) (st : state) : step :=
  match handleObjectKey token with
  | Throw e => Raise e
  | Ok (isKey key) =>
    match currentContainer st with
    | Some r => Next (i + 1) (set_key r (Some key) st)
    | None => Next (i + 1) st
    end
  | Ok keyShouldContinue => Next (i + 1) st
  | Ok keyShouldThrow => Raise (UnexpectedKeyToken (value token))
  end.

(** Handle punctuation tokens. *)
Definition step_punctuation (tokens : list Token) (i : nat) (token : Token)
    (st : state) : step :=
  match handlePunctuationToken token tokens i st with
  | None => Raise UnexpectedPunctuation
  | Some st' => Next (i + 1) st'
  end.

(** Parse value tokens: the decoded value and the index [i] after the
    merge of consecutive identifiers. *)
Definition decode_value (tokens : list Token) (i : nat) (token : Token)
    (st : state) : result (jsvalue * nat) :=
  let single :=
    match parseValueToken token with
    | Ok v => Ok (v, i)
    | Throw e => Throw e
    end in
  match type token, currentContainer st with
  | IDENTIFIER, Some _ =>
    let identifierValues :=
      value token :: identifier_run (drop (i + 1) tokens) in
    let j := i + length identifierValues in
    if 1 <? length identifierValues
    then Ok (VString (JS.join [Ch.space] identifierValues), j - 1)
    else single
  | _, _ => single
  end.

(** Parse a value token and assign the value to the current container, or
    return it if top-level. *)
Definition step_value (tokens : list Token) (i : nat) (token : Token)
    (st : state) : step :=
  match decode_value tokens i token st with
  | Throw e => Raise e
  | Ok (v, i) =>
    match assignValue v st tokens i with
    | (AssignReturn v, st') => Return v st'
    | (AssignContinue skipNext, st') =>
      Next (if skipNext then i + 2 else i + 1) st'
    end
  end.

Definition parse_step (tokens : list Token) (i : nat) (token : Token)
    (st : state) : step :=
  if bool_decide (type token = BRACKET) then step_bracket tokens i token st
  else if is_key_position st then step_key i token st
  else if bool_decide (type token = PUNCTUATION)
  then step_punctuation tokens i token st
  else step_value tokens i token st.

(** [for (let i = 0; i < tokenLength; i++)]. Every iteration increases [i],
    so [length tokens + 1] rounds reach the end ([parse_loop_fuel]); [None]
    is a loop that was given too few rounds. *)
Fixpoint parse_loop (fuel : nat) (tokens : list Token) (i : nat) (st : state)
    : option (result (jsvalue * state)) :=
  match fuel with
  | 0 => None
  | S fuel =>
    match tokens !! i with
    | None => Some (Ok (handleUnclosedContainers st))
    | Some token =>
      match parse_step tokens i token st with
      | Next i' st' => parse_loop fuel tokens i' st'
      | Return v st' => Some (Ok (v, st'))
      | Raise e => Some (Throw e)
      end
    end
  end.

Definition parse (tokens : list Token) : option (result (jsvalue * state)) :=
  parse_loop (length tokens + 1) tokens 0 init.

End Parser.

(** ** The decoder *)

(** [parse(tokenize(input))], with the returned value read out of the
    store. *)
Definition decode (input : str) : option (result tree) :=
  match Parser.parse (Tokenizer.tokenize input) with
  | Some (Ok (v, st)) =>
    t ← reify (length (heap_of st)) (heap_of st) v; Some (Ok t)
  | Some (Throw e) => Some (Throw e)
  | None => None
  end.

(** ** The entry point ([lib/index.js]) *)

(** Three backquotes: the fence of a Markdown code block. *)
Definition fence : str := [96%N; 96%N; 96%N].

(** The class [[\w+\-]] of the language tag after an opening fence. *)
Definition is_fence_tag (c : N) : bool :=
  is_digit c || ((97 <=? c)%N && (c <=? 122)%N)
  || ((65 <=? c)%N && (c <=? 90)%N) || (c =? 95)%N
  || (c =? Ch.plus)%N || (c =? Ch.minus)%N.

(** [jsonString.replace(/^\s*```[\w+\-]*\s*\n?/, '')]. The pattern is
    anchored at the start of the input; its greedy quantifiers take the
    white space before the fence, the tag and the white space after it, and
    nothing is left for the optional line feed. *)
Definition strip_opening_fence (s : str) : str :=
  let r := JS.drop_while is_regex_space s in
  if bool_decide (take 3 r = fence)
  then JS.drop_while is_regex_space (JS.drop_while is_fence_tag (drop 3 r))
  else s.

(** Whether [/\n?\s*```\s*$/] matches at the start of [r]: [r] is a fence
    between two runs of white space. *)
Definition closing_fence_at (r : str) : bool :=
  let r1 := JS.drop_while is_regex_space r in
  bool_decide (take 3 r1 = fence) && forallb is_regex_space (drop 3 r1).

(** The leftmost position at which the pattern matches; [r] is the input
    from [p] on. *)
Fixpoint find_closing_fence (r : str) (p : nat) : option nat :=
  if closing_fence_at r then Some p
  else
    match r with
    | [] => None
    | _ :: r' => find_closing_fence r' (S p)
    end.

(** [jsonString.replace(/\n?\s*```\s*$/i, '')]: the match runs to the end
    of the input. *)
Definition strip_closing_fence (s : str) : str :=
  match find_closing_fence s 0 with
  | Some p => take p s
  | None => s
  end.

(** The argument of [jaison]: a string, or [null], [undefined] or a value
    of another type. *)
Inductive argument :=
| ArgString (s : str)
| ArgOther.

(** What a call of [jaison] does: it returns a value, throws an error of
    the parser, or throws [Invalid input: jsonString must be a string].
    The modules [./tokenizer] and [./parser] it loads are the ones modelled
    above from their TypeScript sources. *)
Inductive outcome :=
| Returns (t : tree)
| Throws (e : error)
| ThrowsInvalidInput.

Definition jaison (jsonString : argument) : option outcome :=
  match jsonString with
  | ArgOther => Some ThrowsInvalidInput
  | ArgString jsonString =>
    let jsonString := strip_opening_fence jsonString in
    let jsonString := strip_closing_fence jsonString in
    match decode jsonString with
    | Some (Ok t) => Some (Returns t)
    | Some (Throw e) => Some (Throws e)
    | None => None
    end
  end.

(** ** Strict JSON (RFC 8259, ECMA-404) and its decoder *)

(** This module does not embed code of jaison. It is the reference the
    decoder is compared with: the grammar of the JSON texts as a syntax
    tree that keeps the white space ([json], [render], [valid]), and the
    value [JSON.parse] returns for such a text ([denote], ECMAScript
    25.5.1: every member is defined with CreateDataProperty, so that a
    member named [__proto__] is an own property like any other). *)

Module Strict.

(** A character of a string: a code unit written as it is, a
    two-character escape, or a [u] escape with four hexadecimal digits. *)
Inductive jchar :=
| JChar (c : N)
| JEscape (e : N)
| JUnicode (h1 h2 h3 h4 : N).

(** A number: the sign, the digits of the integer part, the digits of the
    fraction, and the exponent: its marker, its sign (as text) and its
    digits. *)
Record jnumber := mkNumber {
  jneg : bool;
  jint : str;
  jfrac : option str;
  jexp : option (N * str * str)
}.

(** A JSON value as it is written. White space is kept: an element is a
    value between two runs of white space; an empty array or object holds
    one run. *)
Inductive json :=
| JNull
| JTrue
| JFalse
| JNumber (n : jnumber)
| JString (s : list jchar)
| JArray (w : str) (elems : list (str * json * str))
| JObject (w : str)
    (members : list (str * list jchar * str * (str * json * str))).

(** *** The text of a value *)

Definition render_char (c : jchar) : str :=
  match c with
  | JChar c => [c]
  | JEscape e => [Ch.backslash; e]
  | JUnicode h1 h2 h3 h4 => [Ch.backslash; 117%N; h1; h2; h3; h4]
  end.

Definition render_string (s : list jchar) : str :=
  Ch.dquote :: concat (map render_char s) ++ [Ch.dquote].

(** The text of a number without its sign. *)
Definition magnitude_text (n : jnumber) : str :=
  jint n
  ++ match jfrac n with
     | Some f => Ch.dot :: f
     | None => []
     end
  ++ match jexp n with
     | Some (marker, sign, digits) => marker :: sign ++ digits
     | None => []
     end.

Definition render_number (n : jnumber) : str :=
  (if jneg n then [Ch.minus] else []) ++ magnitude_text n.

Fixpoint render (j : json) : str :=
  match j with
  | JNull => lit "null"
  | JTrue => lit "true"
  | JFalse => lit "false"
  | JNumber n => render_number n
  | JString s => render_string s
  | JArray w [] => [Ch.lbracket] ++ w ++ [Ch.rbracket]
  | JArray _ elems =>
    [Ch.lbracket]
    ++ JS.join [Ch.comma]
         (map (fun e => e.1.1 ++ render e.1.2 ++ e.2) elems)
    ++ [Ch.rbracket]
  | JObject w [] => [Ch.lbrace] ++ w ++ [Ch.rbrace]
  | JObject _ members =>
    [Ch.lbrace]
    ++ JS.join [Ch.comma]
         (map (fun m =>
                 m.1.1.1 ++ render_string m.1.1.2 ++ m.1.2 ++ [Ch.colon]
                 ++ m.2.1.1 ++ render m.2.1.2 ++ m.2.2)
              members)
    ++ [Ch.rbrace]
  end.

(** A JSON text: a value between two runs of white space. *)
Definition render_text (e : str * json * str) : str :=
  e.1.1 ++ render e.1.2 ++ e.2.

(** *** Well-formedness *)

Definition valid_ws (w : str) : bool := forallb JS.is_json_space w.

Definition valid_char (c : jchar) : bool :=
  match c with
  | JChar c => (32 <=? c)%N && negb (c =? Ch.dquote)%N
               && negb (c =? Ch.backslash)%N
  | JEscape e => bool_decide (is_Some (JS.simple_escape e))
  | JUnicode h1 h2 h3 h4 =>
    forallb (fun h => bool_decide (is_Some (JS.hex_digit_value h)))
      [h1; h2; h3; h4]
  end.

Definition nonempty_digits (ds : str) : bool :=
  negb (bool_decide (ds = [])) && forallb is_digit ds.

Definition valid_number (n : jnumber) : bool :=
  match jint n with
  | [] => false
  | d :: ds =>
    if (d =? Ch.zero)%N then bool_decide (ds = [])
    else is_digit d && forallb is_digit ds
  end
  && match jfrac n with
     | Some f => nonempty_digits f
     | None => true
     end
  && match jexp n with
     | Some (marker, sign, digits) =>
       ((marker =? 101)%N || (marker =? 69)%N)
       && (bool_decide (sign = []) || bool_decide (sign = [Ch.plus])
           || bool_decide (sign = [Ch.minus]))
       && nonempty_digits digits
     | None => true
     end.

Fixpoint valid (j : json) : bool :=
  match j with
  | JNull | JTrue | JFalse => true
  | JNumber n => valid_number n
  | JString s => forallb valid_char s
  | JArray w elems =>
    valid_ws w
    && forallb (fun e => valid_ws e.1.1 && valid e.1.2 && valid_ws e.2) elems
  | JObject w members =>
    valid_ws w
    && forallb (fun m =>
                  valid_ws m.1.1.1 && forallb valid_char m.1.1.2
                  && valid_ws m.1.2
                  && valid_ws m.2.1.1 && valid m.2.1.2 && valid_ws m.2.2)
         members
  end.

Definition valid_text (e : str * json * str) : bool :=
  valid_ws e.1.1 && valid e.1.2 && valid_ws e.2.

(** *** The value of a text *)

(** The code unit a character of a string stands for. *)
Definition char_value (c : jchar) : N :=
  match c with
  | JChar c => c
  | JEscape e => default 0%N (JS.simple_escape e)
  | JUnicode h1 h2 h3 h4 =>
    let d h := default 0%N (JS.hex_digit_value h) in
    (d h1 * 4096 + d h2 * 256 + d h3 * 16 + d h4)%N
  end.

Definition string_value (s : list jchar) : str := map char_value s.

(** The Number value of a number: the decimal it denotes, rounded, and
    negated after rounding when the sign is there. *)
Definition number_value (n : jnumber) : JS.number :=
  let fraction := default [] (jfrac n) in
  let exponent :=
    match jexp n with
    | Some (_, sign, digits) =>
      let e := Z.of_N (JS.digits_value 10 digits) in
      if bool_decide (sign = [Ch.minus]) then (- e)%Z else e
    | None => 0%Z
    end in
  JS.signed (jneg n)
    (JS.of_decimal (JS.digits_value 10 (jint n ++ fraction))
       (exponent - Z.of_nat (length fraction))).

(** The value a strict decoder returns: members are defined in the order
    of the text, a name that occurs again replaces the value of the
    property where it stands, and the object lists its properties as every
    ordinary object does ([Store.own_property_order]). *)
Fixpoint denote (j : json) : tree :=
  match j with
  | JNull => TNull
  | JTrue => TBool true
  | JFalse => TBool false
  | JNumber n => TNumber (number_value n)
  | JString s => TString (string_value s)
  | JArray _ elems => TArray (map (fun e => denote e.1.2) elems)
  | JObject _ members =>
    TObject TObjectPrototype
      (Store.own_property_order
         (fold_left
            (fun props m =>
               Store.set_own props (string_value m.1.1.2) (denote m.2.1.2))
            members []))
  end.

(** No member of an object of [j] is named [__proto__]. *)
Fixpoint no_proto_key (j : json) : bool :=
  match j with
  | JArray _ elems => forallb (fun e => no_proto_key e.1.2) elems
  | JObject _ members =>
    forallb (fun m =>
               negb (bool_decide (string_value m.1.1.2 = Store.proto_key))
               && no_proto_key m.2.1.2)
      members
  | _ => true
  end.

(** *** The tokens of a text *)

Definition string_token (s : list jchar) : Token :=
  simple_token STRING (render_string s).

Definition number_token (n : jnumber) : Token :=
  mkToken NUMBER (magnitude_text n) (Some RADIX.DECIMAL) (jneg n) false.

Definition comma_token : Token := simple_token PUNCTUATION [Ch.comma].
Definition colon_token : Token := simple_token PUNCTUATION [Ch.colon].

(** The tokens the tokenizer is expected to cut the text of a value
    into. *)
Fixpoint tokens_of (j : json) : list Token :=
  match j with
  | JNull => [simple_token IDENTIFIER (lit "null")]
  | JTrue => [simple_token IDENTIFIER (lit "true")]
  | JFalse => [simple_token IDENTIFIER (lit "false")]
  | JNumber n => [number_token n]
  | JString s => [string_token s]
  | JArray _ elems =>
    [simple_token BRACKET [Ch.lbracket]]
    ++ JS.join [comma_token] (map (fun e => tokens_of e.1.2) elems)
    ++ [simple_token BRACKET [Ch.rbracket]]
  | JObject _ members =>
    [simple_token BRACKET [Ch.lbrace]]
    ++ JS.join [comma_token]
         (map (fun m =>
                 string_token m.1.1.2 :: colon_token :: tokens_of m.2.1.2)
              members)
    ++ [simple_token BRACKET [Ch.rbrace]]
  end.

End Strict.

(** ** Notions used to state the properties *)

(** The code units of an ASCII literal in which a backquote stands for a
    double quote. *)
Definition qlit (s : string) : str :=
  map (fun c => if (c =? 96)%N then Ch.dquote else c) (lit s).

(** The tree of a plain object, and of the number of a natural number. *)
Definition obj (props : list (str * tree)) : tree :=
  TObject TObjectPrototype props.

Definition num (n : N) : tree := TNumber (JS.of_N n).

(** The states the loop of [parse] goes through on [tokens]: [reachable
    tokens i st] when an iteration starts with index [i] in state [st]. *)
Inductive reachable (tokens : list Token) : nat -> state -> Prop :=
| reachable_init : reachable tokens 0 Parser.init
| reachable_next i st token i' st' :
    reachable tokens i st ->
    tokens !! i = Some token ->
    Parser.parse_step tokens i token st = Parser.Next i' st' ->
    reachable tokens i' st'.

(** Whether a cell of the store is an object or an array. *)
Definition kind_of (o : jsobject) : container_type :=
  match o with
  | JSObject _ _ => OBJECT
  | JSArray _ => ARRAY
  end.

(** [n] iterations of the loop of [tokenize] take the position from [pos]
    to [pos'] and push the tokens [toks]. *)
Definition tokenize_run (s : str) (pos n pos' : nat) (toks : list Token)
    : Prop :=
  forall fuel tokens,
    Tokenizer.tokenize_loop (n + fuel) s pos tokens
    = Tokenizer.tokenize_loop fuel s pos' (tokens ++ toks).

(** The loop of [tokenize], started at [pos] where [text] stands, goes
    through [text] in at most [length text] iterations and pushes [toks]. *)
Definition consumes (s : str) (pos : nat) (text : str) (toks : list Token)
    : Prop :=
  exists n,
    n <= length text /\ tokenize_run s pos n (pos + length text) toks.

(** [n] iterations of the loop of [parse] take the index from [i] to [i']
    and the state from [st] to [st']. *)
Definition parse_run (tokens : list Token) (i n i' : nat) (st st' : state)
    : Prop :=
  forall fuel,
    Parser.parse_loop (n + fuel) tokens i st
    = Parser.parse_loop fuel tokens i' st'.

(** What may follow a value in a JSON text: nothing, white space, a comma
    or a closing bracket. *)
Definition delimited (post : str) : Prop :=
  match post with
  | [] => True
  | c :: _ =>
    JS.is_json_space c = true \/ c = Ch.comma \/ c = Ch.rbracket
    \/ c = Ch.rbrace
  end.

(** The positions the scanning loop of [parseStringToken] goes through:
    [scan_reaches s startPos quoteChar pos] when an iteration starts at
    [pos] (which may lie past the end), the iterations before it having met
    neither the closing delimiter nor a newline after a badly escaped
    quote. *)
Inductive scan_reaches (s : str) (startPos : nat) (quoteChar : N)
    : nat -> Prop :=
| scan_start : scan_reaches s startPos quoteChar (startPos + 1)
| scan_plain pos c :
    scan_reaches s startPos quoteChar pos ->
    s !! pos = Some c ->
    c <> quoteChar ->
    c <> Ch.backslash ->
    (Tokenizer.is_newline c = true ->
     Tokenizer.matchEscapedQuote (slice s (startPos + 1) pos) = None) ->
    scan_reaches s startPos quoteChar (pos + 1)
| scan_escape pos :
    scan_reaches s startPos quoteChar pos ->
    s !! pos = Some Ch.backslash ->
    quoteChar <> Ch.backslash ->
    scan_reaches s startPos quoteChar (pos + 2).

(** The state and index after [n] iterations of the loop of [parse] on
    [tokens], when none of them returns or throws. *)
Fixpoint run (n : nat) (tokens : list Token) : option (nat * state) :=
  match n with
  | 0 => Some (0, Parser.init)
  | S n =>
    match run n tokens with
    | Some (i, st) =>
      match tokens !! i with
      | Some token =>
        match Parser.parse_step tokens i token st with
        | Parser.Next i' st' => Some (i', st')
        | _ => None
        end
      | None => None
      end
    | None => None
    end
  end.

(** The shape of the value of a container agrees with its [type]. *)
Definition shape_ok (h : heap) (c : Container) : Prop :=
  kind_of <$> h !! cvalue c = Some (ctype c).

(** The invariant of the loop of [parse]: [currentContainer] is the top of
    the stack ([null] when the stack is empty), the stack holds existing
    records, and the value of every record has the shape of its type. *)
Record wf (st : state) : Prop := {
  wf_current : currentContainer st = last (stacks st);
  wf_stack : Forall (fun r => r < length (containers st)) (stacks st);
  wf_shape : Forall (shape_ok (heap_of st)) (containers st)
}.

(** The own property names of every object of the store are distinct. *)
Definition keys_nodup (h : heap) : Prop :=
  forall a p props, h !! a = Some (JSObject p props) -> NoDup props.*1.

(** The properties [props] with the value of the property [k] replaced by
    [v]. *)
Definition with_value {V} (k : str) (v : V) (props : list (str * V))
    : list (str * V) :=
  map (fun kv => if bool_decide (kv.1 = k) then (k, v) else kv) props.

(** ** Notions for the texts of strict JSON *)

Section strict_notions.
Import Store Parser Strict.

(** The statement proved by induction on the value. *)
Definition tokenizes (j : json) : Prop :=
  forall s pos post,
    drop pos s = render j ++ post -> delimited post ->
    consumes s pos (render j) (tokens_of j).

Definition elem_text (e : str * json * str) : str :=
  e.1.1 ++ render e.1.2 ++ e.2.

Definition member_text (m : str * list jchar * str * (str * json * str)) : str :=
  m.1.1.1 ++ render_string m.1.1.2 ++ m.1.2 ++ [Ch.colon]
  ++ m.2.1.1 ++ render m.2.1.2 ++ m.2.2.

Definition member_tokens (m : str * list jchar * str * (str * json * str))
    : list Token :=
  string_token m.1.1.2 :: colon_token :: tokens_of m.2.1.2.

Definition valid_member (m : str * list jchar * str * (str * json * str))
    : bool :=
  valid_ws m.1.1.1 && forallb valid_char m.1.1.2 && valid_ws m.1.2
  && valid_ws m.2.1.1 && valid m.2.1.2 && valid_ws m.2.2.

(** A value that is a reference points at or after [lo]. *)
Definition ge_value (lo : nat) (v : jsvalue) : Prop :=
  match v with
  | VRef b => lo <= b
  | _ => True
  end.

(** The references of the cell at address [a] go to later cells. *)
Definition fwd_cell (a : nat) (o : jsobject) : Prop :=
  match o with
  | JSObject p props =>
    match p with
    | RefPrototype b => a < b
    | _ => True
    end
    /\ Forall (ge_value (S a)) props.*2
  | JSArray elems => Forall (ge_value (S a)) elems
  end.

Definition heap_fwd (h : heap) : Prop :=
  forall a o, h !! a = Some o -> fwd_cell a o.

(** [delete c._key]. *)
Definition clear_key (c : Container) : Container :=
  mkContainer (ctype c) (cvalue c) None.

(** The value of the container [c] after [v] was assigned or pushed. *)
Definition linked (c : Container) (cell : jsobject) (v : jsvalue) : jsobject :=
  match cell with
  | JSObject p props =>
    JSObject p (set_own props (default (lit "undefined") (ckey c)) v)
  | JSArray elems => JSArray (elems ++ [v])
  end.

(** The loop is about to read a value for the container [c], the record
    [r] on top of the stack: an array, or an object with a pending key
    other than [__proto__]. *)
Record value_slot (st : state) (r : nat) (c : Container) (cell : jsobject)
    : Prop := {
  slot_current : currentContainer st = Some r;
  slot_top : last (stacks st) = Some r;
  slot_record : containers st !! r = Some c;
  slot_cell : heap_of st !! cvalue c = Some cell;
  slot_kind : kind_of cell = ctype c;
  slot_key :
    match ctype c with
    | OBJECT => exists k, ckey c = Some k /\ k <> proto_key
    | ARRAY => ckey c = None
    end
}.

(** The state after the value [v] was read in such a state: [v] is linked
    into the container, the key is cleared, and the store and the records
    have grown by [cells] and [recs]. *)
Definition after_value (st : state) (r : nat) (c : Container)
    (cell : jsobject) (v : jsvalue) (cells : list jsobject)
    (recs : list Container) : state :=
  mkState (<[cvalue c := linked c cell v]> (heap_of st) ++ cells)
    (<[r := clear_key c]> (containers st) ++ recs)
    (stacks st) (Some r).

(** The tokens after a value do not start with an identifier. *)
Definition follows (post : list Token) : Prop :=
  match post with
  | [] => True
  | t :: _ => type t <> IDENTIFIER
  end.

(** The comma the loop skips after a value. *)
Definition skip (post : list Token) : nat :=
  match post with
  | t :: _ => if bool_decide (value t = [Ch.comma]) then 1 else 0
  | [] => 0
  end.

(** The statement proved by induction on the value: from a state that
    expects a value, the loop reads the tokens of [j] and the comma after
    them, and links a value whose tree is the one of [j]. *)
Definition parses (j : json) : Prop :=
  forall tokens i post st r c cell,
    drop i tokens = tokens_of j ++ post ->
    follows post ->
    value_slot st r c cell ->
    heap_fwd (heap_of st) ->
    exists n v cells recs,
      parse_run tokens i n (i + length (tokens_of j) + skip post) st
        (after_value st r c cell v cells recs) /\
      ge_value (length (heap_of st)) v /\
      heap_fwd (heap_of (after_value st r c cell v cells recs)) /\
      reify (length cells) (heap_of (after_value st r c cell v cells recs)) v
      = Some (denote j).

(** A property of the store and the property of the tree it reads as. *)
Definition prop_rel (fuel : nat) (h : heap) (kv : str * jsvalue)
    (kt : str * tree) : Prop :=
  kv.1 = kt.1 /\ reify fuel h kv.2 = Some kt.2.

(** The state after an opening bracket was read in a state that expects a
    value: the new array or object is linked into the container and its
    record is pushed. *)
Definition after_open (t : container_type) (st : state) (r : nat)
    (c : Container) (cell : jsobject) : state :=
  mkState
    (<[cvalue c := linked c cell (VRef (length (heap_of st)))]> (heap_of st)
     ++ [match t with
         | OBJECT => JSObject ObjectPrototype []
         | ARRAY => JSArray []
         end])
    (<[r := clear_key c]> (containers st)
     ++ [mkContainer t (length (heap_of st)) None])
    (stacks st ++ [length (containers st)]) (Some (length (containers st))).

(** The loop is about to read a member name for the object at [n], whose
    record [m] is on top of the stack. *)
Record key_slot (st : state) (m n : nat) (p : prototype)
    (props : list (str * jsvalue)) : Prop := {
  kslot_current : currentContainer st = Some m;
  kslot_top : last (stacks st) = Some m;
  kslot_record : containers st !! m = Some (mkContainer OBJECT n None);
  kslot_cell : heap_of st !! n = Some (JSObject p props)
}.

(** What the proof needs of a member: a well-formed name other than
    [__proto__] and a well-formed value that [parses]. *)
Definition member_ok (m : str * list jchar * str * (str * json * str))
    : Prop :=
  forallb valid_char m.1.1.2 = true /\ string_value m.1.1.2 <> proto_key
  /\ valid m.2.1.2 = true /\ parses m.2.1.2.

(** A decimal literal of JavaScript (StrUnsignedDecimalLiteral, ECMAScript
    7.1.4.1, but [Infinity]) as a number in three parts: digits, an
    optional dot with digits, an optional exponent with one digit at least;
    there is a digit before the exponent. It is wider than the numbers of
    JSON: [01], [1.] and [.5] are such literals. *)
Definition decimal_literal (n : jnumber) : bool :=
  forallb is_digit (jint n)
  && forallb is_digit (default [] (jfrac n))
  && negb (bool_decide (jint n ++ default [] (jfrac n) = []))
  && match jexp n with
     | Some (marker, sign, digits) =>
       ((marker =? 101)%N || (marker =? 69)%N)
       && (bool_decide (sign = []) || bool_decide (sign = [Ch.plus])
           || bool_decide (sign = [Ch.minus]))
       && nonempty_digits digits
     | None => true
     end.

(** Whether a text starts with an exponent: [e] or [E], an optional sign
    and a digit. *)
Definition starts_exponent (l : str) : bool :=
  match l with
  | c :: r =>
    ((c =? 101)%N || (c =? 69)%N)
    && match (JS.split_sign r).2 with
       | d :: _ => is_digit d
       | [] => false
       end
  | [] => false
  end.

(** The text [rest] after the literal [n] does not continue it: it is
    empty, or it starts with a character that is no digit, that is no dot
    when [n] has neither dot nor exponent, and that does not start an
    exponent when [n] has none. *)
Definition ends_literal (n : jnumber) (rest : str) : bool :=
  match rest with
  | [] => true
  | c :: _ =>
    negb (is_digit c)
    && match jexp n with
       | Some _ => true
       | None =>
         negb (starts_exponent rest)
         && match jfrac n with
            | Some _ => true
            | None => negb (c =? Ch.dot)%N
            end
       end
  end.

End strict_notions.

(** ** Notions for the further properties *)

Section further_notions.
Import Store Parser Tokenizer Strict.

(** What every token of the tokenizer satisfies: the text of a STRING token
    starts and ends with a double quote; a BRACKET token is one of the
    four brackets; a PUNCTUATION token is the ASCII comma or colon; a NUMBER
    token has a non-empty text, one of the four radices and at most one
    sign; the text of an IDENTIFIER token is not empty and holds none of
    the characters that end an identifier; there is no COMMENT token. *)
Definition token_wf (t : Token) : bool :=
  match type t with
  | STRING =>
    bool_decide (head (value t) = Some Ch.dquote)
    && bool_decide (last (value t) = Some Ch.dquote)
  | BRACKET =>
    bool_decide (value t ∈ [[Ch.lbrace]; [Ch.rbrace]; [Ch.lbracket];
                            [Ch.rbracket]])
  | PUNCTUATION =>
    bool_decide (value t = [Ch.comma]) || bool_decide (value t = [Ch.colon])
  | NUMBER =>
    negb (bool_decide (value t = []))
    && bool_decide (radix t ∈ [Some RADIX.BINARY; Some RADIX.OCTAL;
                               Some RADIX.DECIMAL; Some RADIX.HEXADECIMAL])
    && negb (isNegative t && isPositive t)
  | IDENTIFIER =>
    negb (bool_decide (value t = []))
    && forallb (fun c => negb (is_identifier_stop c)) (value t)
  | COMMENT => false
  end.

(** A value that is a reference points into the cells from [lo] to [hi],
    the last one excluded. *)
Definition within (lo hi : nat) (v : jsvalue) : Prop :=
  match v with
  | VRef b => lo <= b < hi
  | _ => True
  end.

(** The references of the cell at address [a], its prototype included, go
    to cells after [a] and before [n]. *)
Definition cell_within (a n : nat) (o : jsobject) : Prop :=
  match o with
  | JSObject p props =>
    match p with
    | RefPrototype b => a < b < n
    | _ => True
    end
    /\ Forall (within (S a) n) props.*2
  | JSArray elems => Forall (within (S a) n) elems
  end.

(** Every reference of the store goes to a later cell of the store: the
    objects and arrays form a forest, there is no cycle and no dangling
    reference. *)
Definition forest (h : heap) : Prop :=
  forall a o, h !! a = Some o -> cell_within a (length h) o.

(** The letter after the leading zero that announces the radix [R]. *)
Definition radix_marker (R : N) (p : N) : bool :=
  ((R =? 16)%N && ((p =? 120)%N || (p =? 88)%N))
  || ((R =? 8)%N && ((p =? 111)%N || (p =? 79)%N))
  || ((R =? 2)%N && ((p =? 98)%N || (p =? 66)%N)).

(** Whether [*/] occurs in a text. *)
Fixpoint has_block_end (l : str) : bool :=
  match l with
  | c :: ((c' :: _) as r) =>
    ((c =? Ch.star)%N && (c' =? Ch.slash)%N) || has_block_end r
  | _ => false
  end.

(** The length of the line break at the start of a text: a line feed, a
    carriage return, or both in this order. *)
Definition line_break (rest : str) : nat :=
  match rest with
  | c :: r =>
    if (c =? Ch.cr)%N then
      match r with
      | c' :: _ => if (c' =? Ch.lf)%N then 2 else 1
      | [] => 1
      end
    else if (c =? Ch.lf)%N then 1 else 0
  | [] => 0
  end.

(** A character that is neither white space nor a backquote: the text of
    a JSON value starts and ends with such a character. *)
Definition edge_char (c : N) : Prop :=
  is_regex_space c = false /\ c <> 96%N.

(** A closing bracket token. *)
Definition closing_bracket (t : Token) : bool :=
  bool_decide (type t = BRACKET)
  && (bool_decide (value t = [Ch.rbrace])
      || bool_decide (value t = [Ch.rbracket])).

(** The characters at which [tokenize] calls [parseNumberToken]: a digit, a
    sign or a dot. *)
Definition is_number_start (c : N) : bool :=
  is_digit c || (c =? Ch.minus)%N || (c =? Ch.plus)%N || (c =? Ch.dot)%N.

End further_notions.

(** ** Example inputs and states *)

(** The tokens of [{a:x,a:y] and the state before its second value. *)
Definition ex_c10_tokens : list Token :=
  [simple_token BRACKET (lit "{"); simple_token IDENTIFIER (lit "a");
   simple_token PUNCTUATION (lit ":"); simple_token IDENTIFIER (lit "x");
   simple_token PUNCTUATION (lit ","); simple_token IDENTIFIER (lit "a");
   simple_token PUNCTUATION (lit ":"); simple_token IDENTIFIER (lit "y")].

Definition ex_c10_state : state :=
  mkState [JSObject ObjectPrototype [(lit "a", VString (lit "x"))]]
    [mkContainer OBJECT 0 (Some (lit "a"))] [0] (Some 0).

(** The tokens of [{a{b] and the state at the end of this input. *)
Definition ex_c4_tokens : list Token :=
  [simple_token BRACKET (lit "{"); simple_token IDENTIFIER (lit "a");
   simple_token BRACKET (lit "{"); simple_token IDENTIFIER (lit "b")].

Definition ex_c4_state : state :=
  mkState [JSObject ObjectPrototype [(lit "a", VRef 1)];
           JSObject ObjectPrototype []]
    [mkContainer OBJECT 0 None; mkContainer OBJECT 1 (Some (lit "b"))]
    [0; 1] (Some 1).

(** The tokens of [[{]] followed by one more token, and the state
    before the first closing bracket. *)
Definition ex_c2_tokens : list Token :=
  [simple_token BRACKET (lit "["); simple_token BRACKET (lit "{");
   simple_token BRACKET (lit "]"); simple_token BRACKET (lit "]");
   simple_token IDENTIFIER (lit "ignored")].

Definition ex_c2_state : state :=
  mkState [JSArray [VRef 1]; JSObject ObjectPrototype []]
    [mkContainer ARRAY 0 None; mkContainer OBJECT 1 None] [0; 1] (Some 1).

(** An open array, and an open object with the pending key [age]. *)
Definition ex_c5_state : state :=
  mkState [JSArray []] [mkContainer ARRAY 0 None] [0] (Some 0).

Definition ex_c6_state : state :=
  mkState [JSObject ObjectPrototype []]
    [mkContainer OBJECT 0 (Some (lit "age"))] [0] (Some 0).

(** An array of two strings, the first one with a badly escaped quote
    before the end of its line. *)
Definition ex_c3_input : str :=
  qlit "[`abc\`," ++ [Ch.lf] ++ qlit "`def`]".

(** The strict JSON text [{`__proto__`: 1}], and the text
    [{`__proto__`: {`x`: 1}}]. *)
Definition ex_c1_proto : str * Strict.json * str :=
  ([],
   Strict.JObject []
     [([], map Strict.JChar (lit "__proto__"), [],
       ([Ch.space],
        Strict.JNumber (Strict.mkNumber false (lit "1") None None), []))],
   []).

Definition ex_c1_proto_object : str * Strict.json * str :=
  ([],
   Strict.JObject []
     [([], map Strict.JChar (lit "__proto__"), [],
       ([Ch.space],
        Strict.JObject []
          [([], [Strict.JChar (ch "x")], [],
            ([Ch.space],
             Strict.JNumber (Strict.mkNumber false (lit "1") None None),
             []))],
        []))],
   []).

(** The strict JSON text
    [ {`a`: [1, -2.5e3, `x\n`], `b`: {}, `a`: null} ] followed by a line
    feed. *)
Definition ex_strict_text : str * Strict.json * str :=
  ([Ch.space],
   Strict.JObject []
     [([], [Strict.JChar (ch "a")], [],
       ([Ch.space],
        Strict.JArray []
          [([], Strict.JNumber (Strict.mkNumber false (lit "1") None None),
            []);
           ([Ch.space],
            Strict.JNumber
              (Strict.mkNumber true (lit "2") (Some (lit "5"))
                 (Some (101%N, [], lit "3"))),
            []);
           ([Ch.space],
            Strict.JString [Strict.JChar (ch "x"); Strict.JEscape (ch "n")],
            [])],
        []));
      ([Ch.space], [Strict.JChar (ch "b")], [],
       ([Ch.space], Strict.JObject [] [], []));
      ([Ch.space], [Strict.JChar (ch "a")], [],
       ([Ch.space], Strict.JNull, []))],
   [Ch.lf]).

(** The tokens of [{-5] and the state after the brace: an open object in
    key position. *)
Definition ex_key_tokens : list Token :=
  [simple_token BRACKET (lit "{");
   mkToken NUMBER (lit "5") (Some RADIX.DECIMAL) true false].

Definition ex_key_state : state :=
  mkState [JSObject ObjectPrototype []] [mkContainer OBJECT 0 None] [0]
    (Some 0).

(** The tokens of [[hello world]]. *)
Definition ex_merge_tokens : list Token :=
  [simple_token BRACKET (lit "["); simple_token IDENTIFIER (lit "hello");
   simple_token IDENTIFIER (lit "world"); simple_token BRACKET (lit "]")].

(** The tokens of [[{a:x], the state at the end of this input, and the two
    brackets that are missing. *)
Definition ex_open_tokens : list Token :=
  [simple_token BRACKET (lit "["); simple_token BRACKET (lit "{");
   simple_token IDENTIFIER (lit "a"); simple_token PUNCTUATION (lit ":");
   simple_token IDENTIFIER (lit "x")].

Definition ex_open_state : state :=
  mkState [JSArray [VRef 1];
           JSObject ObjectPrototype [(lit "a", VString (lit "x"))]]
    [mkContainer ARRAY 0 None; mkContainer OBJECT 1 None] [0; 1] (Some 1).

Definition ex_closers : list Token :=
  [simple_token BRACKET (lit "}"); simple_token BRACKET (lit "]")].


(** The decimal [1.5]. *)
Definition ex_number : Strict.jnumber :=
  Strict.mkNumber false (lit "1") (Some (lit "5")) None.

(** The strict JSON text [{`b`:1,`2`:2,`1`:3}], with two names that are
    array indices. *)
Definition ex_index_text : str * Strict.json * str :=
  ([],
   Strict.JObject []
     [([], [Strict.JChar (ch "b")], [],
       ([], Strict.JNumber (Strict.mkNumber false (lit "1") None None), []));
      ([], [Strict.JChar (ch "2")], [],
       ([], Strict.JNumber (Strict.mkNumber false (lit "2") None None), []));
      ([], [Strict.JChar (ch "1")], [],
       ([], Strict.JNumber (Strict.mkNumber false (lit "3") None None), []))],
   []).

(** * Properties *)

Ltac bool_hyps :=
  repeat match goal with
  | H : (_ && _) = true |- _ => apply andb_true_iff in H as [? ?]
  | H : (_ || _) = false |- _ => apply orb_false_iff in H as [? ?]
  | H : negb _ = true |- _ => apply negb_true_iff in H
  | H : negb _ = false |- _ => apply negb_false_iff in H
  | H : (_ <=? _)%N = true |- _ => apply N.leb_le in H
  | H : (_ <=? _)%N = false |- _ => apply N.leb_gt in H
  | H : (_ <? _)%N = true |- _ => apply N.ltb_lt in H
  | H : (_ <? _)%N = false |- _ => apply N.ltb_ge in H
  | H : (_ =? _)%N = true |- _ => apply N.eqb_eq in H
  | H : (_ =? _)%N = false |- _ => apply N.eqb_neq in H
  | H : bool_decide _ = true |- _ => apply bool_decide_eq_true in H
  | H : bool_decide _ = false |- _ => apply bool_decide_eq_false in H
  end.

Section store.
Import Store.

Lemma property_set_length h a k v : length (property_set h a k v) = length h.
Proof.
  unfold property_set.
  repeat case_match; rewrite ?length_insert; done.
Qed.

Lemma array_push_length h a v : length (array_push h a v) = length h.
Proof. unfold array_push. repeat case_match; by rewrite ?length_insert. Qed.

Lemma kind_insert_same (h : heap) a o o' b :
  h !! a = Some o -> kind_of o' = kind_of o ->
  kind_of <$> <[a:=o']> h !! b = kind_of <$> h !! b.
Proof.
  intros Ha Hk. destruct (decide (a = b)) as [->|Hne].
  - rewrite list_lookup_insert_eq by by eapply lookup_lt_Some.
    rewrite Ha. simpl. by rewrite Hk.
  - by rewrite list_lookup_insert_ne.
Qed.

Lemma property_set_kind h a k v b :
  kind_of <$> property_set h a k v !! b = kind_of <$> h !! b.
Proof.
  unfold property_set.
  repeat case_match; try done; by eapply kind_insert_same.
Qed.

Lemma array_push_kind h a v b :
  kind_of <$> array_push h a v !! b = kind_of <$> h !! b.
Proof.
  unfold array_push.
  repeat case_match; try done; by eapply kind_insert_same.
Qed.

End store.

Section parse_loop.
Import Parser.

Lemma step_bracket_advances tokens i token st i' st' :
  step_bracket tokens i token st = Next i' st' -> i < i'.
Proof.
  unfold step_bracket. intros H.
  repeat case_match; simplify_eq; lia.
Qed.

Lemma step_key_advances i token st i' st' :
  step_key i token st = Next i' st' -> i < i'.
Proof.
  unfold step_key. intros H.
  repeat case_match; simplify_eq; lia.
Qed.

Lemma step_punctuation_advances tokens i token st i' st' :
  step_punctuation tokens i token st = Next i' st' -> i < i'.
Proof.
  unfold step_punctuation. intros H.
  repeat case_match; simplify_eq; lia.
Qed.

Lemma decode_value_index tokens i token st v j :
  decode_value tokens i token st = Ok (v, j) -> i <= j.
Proof.
  unfold decode_value. intros H.
  repeat case_match; simplify_eq; simpl; lia.
Qed.

Lemma step_value_advances tokens i token st i' st' :
  step_value tokens i token st = Next i' st' -> i < i'.
Proof.
  unfold step_value. intros H.
  destruct (decode_value tokens i token st) as [[v j]|] eqn:Hd; [|done].
  apply decode_value_index in Hd.
  repeat case_match; simplify_eq; lia.
Qed.

Lemma parse_step_advances tokens i token st i' st' :
  parse_step tokens i token st = Next i' st' -> i < i'.
Proof.
  unfold parse_step. intros H.
  repeat case_match;
    eauto using step_bracket_advances, step_key_advances,
      step_punctuation_advances, step_value_advances.
Qed.

Lemma parse_loop_mono fuel k tokens i st r :
  parse_loop fuel tokens i st = Some r ->
  parse_loop (fuel + k) tokens i st = Some r.
Proof.
  revert i st. induction fuel as [|fuel IH]; intros i st; simpl; [done|].
  destruct (tokens !! i) as [token|]; [|done].
  destruct (parse_step tokens i token st); auto.
Qed.

Lemma parse_loop_enough tokens fuel i st :
  length tokens <= fuel + i -> is_Some (parse_loop (S fuel) tokens i st).
Proof.
  revert i st. induction fuel as [|fuel IH]; intros i st Hlen.
  - simpl. rewrite lookup_ge_None_2 by lia. by eexists.
  - cbn [parse_loop].
    destruct (tokens !! i) as [token|] eqn:E; [|by eexists].
    destruct (parse_step tokens i token st) as [i' st'| |] eqn:Hs;
      [|by eexists..].
    apply parse_step_advances in Hs. apply IH. lia.
Qed.

(** [parse] never runs out of rounds: it returns a value or throws. *)
Lemma parse_total tokens : is_Some (parse tokens).
Proof.
  unfold parse. rewrite Nat.add_1_r. apply parse_loop_enough. lia.
Qed.

(** From a state the loop goes through, the rest of the loop decides the
    result of [parse]. *)
Lemma parse_from tokens i st :
  reachable tokens i st ->
  parse tokens = parse_loop (S (length tokens - i)) tokens i st.
Proof.
  induction 1 as [|i st token i' st' Hr IH Htok Hstep].
  - unfold parse. f_equal. lia.
  - rewrite IH. pose proof (lookup_lt_Some _ _ _ Htok) as Hlt.
    pose proof (parse_step_advances _ _ _ _ _ _ Hstep) as Hadv.
    destruct (parse_loop_enough tokens (length tokens - i') i' st')
      as [r Hr']; [lia|].
    rewrite Hr'. cbn [parse_loop]. rewrite Htok, Hstep.
    replace (length tokens - i)
      with (S (length tokens - i') + (length tokens - i - S (length tokens - i')))
      by lia.
    by apply parse_loop_mono.
Qed.

(** The rest of the loop from a state it goes through, with any number of
    rounds that reaches a result. *)
Lemma parse_from_fuel tokens i st fuel r :
  reachable tokens i st ->
  parse_loop fuel tokens i st = Some r ->
  parse tokens = Some r.
Proof.
  intros Hr Hl. rewrite (parse_from _ _ _ Hr).
  destruct (parse_loop_enough tokens (length tokens - i) i st)
    as [r' Hr']; [lia|].
  rewrite Hr'. f_equal.
  apply (parse_loop_mono _ fuel) in Hr'.
  apply (parse_loop_mono _ (S (length tokens - i))) in Hl.
  rewrite Nat.add_comm in Hl. congruence.
Qed.

End parse_loop.

(** ** The invariant of the loop *)

Section invariant.
Import Store Parser.

Lemma wf_init : wf init.
Proof. by split; simpl; constructor. Qed.

Lemma wf_set_heap h st :
  wf st -> (forall b, kind_of <$> h !! b = kind_of <$> heap_of st !! b) ->
  wf (set_heap h st).
Proof.
  intros [H1 H2 H3] Hk. split; simpl; try done.
  eapply Forall_impl; [exact H3|]. intros c Hc. unfold shape_ok in *.
  simpl. by rewrite Hk.
Qed.

Lemma wf_set_key r k st : wf st -> wf (set_key r k st).
Proof.
  intros [H1 H2 H3]. split; simpl; try done.
  - by rewrite length_alter.
  - apply Forall_alter; [done|]. by intros c Hc.
Qed.

Lemma wf_resolve_pending_key st : wf st -> wf (resolve_pending_key st).
Proof.
  intros Hwf. unfold resolve_pending_key.
  repeat case_match; try done.
  apply wf_set_key, wf_set_heap; [done|]. intros b. apply property_set_kind.
Qed.

Lemma last_snoc_removelast {A} (l : list A) x :
  last l = Some x -> l = removelast l ++ [x].
Proof.
  intros H. destruct l as [|y l] using rev_ind; [done|].
  rewrite last_snoc in H. simplify_eq. by rewrite removelast_last.
Qed.

Lemma wf_createContainer t st st' c :
  wf st -> createContainer t st = (st', c) ->
  wf (mkState (heap_of st') (containers st') (stacks st') (Some c)).
Proof.
  intros [H1 H2 H3] Hc. unfold createContainer in Hc.
  set (fresh := match t with OBJECT => JSObject ObjectPrototype [] | ARRAY => JSArray [] end) in *.
  assert (Hfresh : kind_of fresh = t) by by destruct t.
  set (st0 := set_heap (heap_of st ++ [fresh]) st) in *.
  assert (Hwf0 : wf st0).
  { split; simpl; try done. eapply Forall_impl; [exact H3|]. intros c0 Hc0.
    unfold shape_ok in *. simpl. 
    destruct (heap_of st !! cvalue c0) eqn:E; [|done].
    by erewrite lookup_app_l_Some. }
  assert (Hnew0 : kind_of <$> heap_of st0 !! length (heap_of st) = Some t).
  { simpl. rewrite lookup_app_r by done. rewrite Nat.sub_diag. simpl. by rewrite Hfresh. }
  match type of Hc with (mkState (heap_of ?s) _ _ _, _) = _ => set (st1 := s) in * end.
  assert (Hwf1 : wf st1 /\ kind_of <$> heap_of st1 !! length (heap_of st) = Some t).
  { subst st1. repeat case_match; try done.
    - split; [apply wf_set_key, wf_set_heap; [done|]; intros b; apply property_set_kind|].
      simpl. by rewrite property_set_kind.
    - split; [apply wf_set_heap; [done|]; intros b; apply array_push_kind|].
      simpl. by rewrite array_push_kind. }
  destruct Hwf1 as [[H1' H2' H3'] Hnew1]. simplify_eq. split; simpl.
  - by rewrite last_snoc.
  - rewrite Forall_app. split.
    + eapply Forall_impl; [exact H2'|]. intros r Hr. simpl in Hr. rewrite length_app. lia.
    + constructor; [|constructor]. rewrite length_app. simpl. lia.
  - rewrite Forall_app. split; [done|]. constructor; [|constructor]. done.
Qed.

Lemma step_bracket_wf tokens i token st i' st' :
  wf st -> step_bracket tokens i token st = Next i' st' -> wf st'.
Proof.
  intros Hwf Hs. unfold step_bracket, handleBracketToken in Hs.
  repeat case_match; simplify_eq.
  all: try (by eapply wf_createContainer).
  all: try done.
  all: unfold closeContainer in *; repeat case_match; simplify_eq.
  all: destruct Hwf as [Hw1 Hw2 Hw3]; split; simpl; try done.
  all: match goal with H : last (stacks _) = Some _ |- _ => apply last_snoc_removelast in H; rewrite H in Hw2; apply Forall_app in Hw2 as [Hw2 _]; done end.
Qed.

Lemma step_key_wf i token st i' st' :
  wf st -> step_key i token st = Next i' st' -> wf st'.
Proof.
  intros Hwf Hs. unfold step_key in Hs.
  repeat case_match; simplify_eq; try done. by apply wf_set_key.
Qed.

Lemma step_punctuation_wf tokens i token st i' st' :
  wf st -> step_punctuation tokens i token st = Next i' st' -> wf st'.
Proof.
  intros Hwf Hs. unfold step_punctuation, handlePunctuationToken in Hs.
  repeat case_match; simplify_eq; try done.
  all: try (by apply wf_resolve_pending_key).
  apply wf_set_heap; [done|]; intros b; apply array_push_kind.
Qed.

Lemma step_value_wf tokens i token st i' st' :
  wf st -> step_value tokens i token st = Next i' st' -> wf st'.
Proof.
  intros Hwf Hs. unfold step_value, assignValue in Hs.
  repeat case_match; simplify_eq; try done.
  all: try (by apply wf_set_key, wf_set_heap; [done|]; intros b; apply property_set_kind).
  all: by apply wf_set_heap; [done|]; intros b; apply array_push_kind.
Qed.

Lemma parse_step_wf tokens i token st i' st' :
  wf st -> parse_step tokens i token st = Next i' st' -> wf st'.
Proof.
  unfold parse_step. intros Hwf H.
  repeat case_match;
    eauto using step_bracket_wf, step_key_wf, step_punctuation_wf, step_value_wf.
Qed.

Lemma run_reachable n tokens i st :
  run n tokens = Some (i, st) -> reachable tokens i st.
Proof.
  revert i st. induction n as [|n IH]; simpl; intros i st H.
  - simplify_eq. constructor.
  - destruct (run n tokens) as [[j st0]|]; [|done].
    destruct (tokens !! j) as [token|] eqn:Htok; [|done].
    destruct (parse_step tokens j token st0) eqn:Hs; simplify_eq.
    eapply reachable_next; eauto.
Qed.

Lemma reachable_wf tokens i st : reachable tokens i st -> wf st.
Proof. induction 1; eauto using wf_init, parse_step_wf. Qed.

End invariant.

(** ** Own property names stay distinct *)

Section keys.
Import Store Parser.

Lemma set_own_keys {V} (props : list (str * V)) k v :
  (set_own props k v).*1 = if has_key props k then props.*1 else props.*1 ++ [k].
Proof.
  unfold has_key. induction props as [|[k' v'] props IH]; [done|].
  cbn [set_own]. rewrite fmap_cons. cbn [fst].
  destruct (decide (k' = k)) as [->|Hk].
  - rewrite !bool_decide_eq_true_2; [done| |done]. apply elem_of_cons; by left.
  - rewrite (bool_decide_eq_false_2 (k' = k)) by done.
    rewrite fmap_cons, IH. cbn [fst].
    destruct (decide (k ∈ props.*1)) as [Hin|Hin].
    + rewrite !bool_decide_eq_true_2; [done| |done]. apply elem_of_cons; by right.
    + rewrite !bool_decide_eq_false_2; [done| |done].
      intros [?|?]%elem_of_cons; simplify_eq; done.
Qed.

Lemma set_own_present {V} (props : list (str * V)) k v :
  k ∈ props.*1 ->
  exists l1 v0 l2,
    props = l1 ++ (k, v0) :: l2 /\ (k ∉ l1.*1) /\
    set_own props k v = l1 ++ (k, v) :: l2.
Proof.
  induction props as [|[k' v'] props IH]; [by intros ?%elem_of_nil|].
  rewrite fmap_cons. cbn [set_own fst]. intros Hin.
  destruct (decide (k' = k)) as [->|Hk].
  - rewrite bool_decide_eq_true_2 by done.
    exists [], v', props. split_and!; [done| |done]. by intros ?%elem_of_nil.
  - rewrite bool_decide_eq_false_2 by done.
    apply elem_of_cons in Hin as [?|Hin]; [done|].
    destruct (IH Hin) as (l1 & v0 & l2 & -> & Hni & ->).
    exists ((k', v') :: l1), v0, l2. split_and!; [done| |done].
    rewrite fmap_cons. intros [?|?]%elem_of_cons; simplify_eq; done.
Qed.

Lemma set_own_absent {V} (props : list (str * V)) k v :
  k ∉ props.*1 -> set_own props k v = props ++ [(k, v)].
Proof.
  induction props as [|[k' v'] props IH]; [done|].
  rewrite fmap_cons. cbn [set_own fst].
  intros Hni. apply not_elem_of_cons in Hni as [Hne Hni].
  rewrite bool_decide_eq_false_2 by done. by rewrite IH.
Qed.

Lemma set_own_elem {V} (props : list (str * V)) k v :
  (k, v) ∈ set_own props k v.
Proof.
  induction props as [|[k' v'] props IH]; [by left|]. cbn [set_own].
  case_bool_decide; [by left|by right].
Qed.

Lemma set_own_nodup {V} (props : list (str * V)) k v : NoDup props.*1 -> NoDup (set_own props k v).*1.
Proof.
  intros Hnd. rewrite set_own_keys. unfold has_key. case_bool_decide as Hin; [done|].
  apply NoDup_app. split_and!; [done| |apply NoDup_singleton].
  intros x Hx ->%list_elem_of_singleton. done.
Qed.

Lemma keys_nodup_insert (h : heap) a p props :
  keys_nodup h -> NoDup props.*1 -> keys_nodup (<[a := JSObject p props]> h).
Proof.
  intros Hh Hnd b p' props' Hb.
  destruct (decide (a = b)) as [->|Hne].
  - apply list_lookup_insert_Some in Hb as [(_ & ? & _)|(? & _)]; [|done].
    by simplify_eq.
  - rewrite list_lookup_insert_ne in Hb by done. eauto.
Qed.

Lemma keys_nodup_insert_array (h : heap) a elems :
  keys_nodup h -> keys_nodup (<[a := JSArray elems]> h).
Proof.
  intros Hh b p' props' Hb.
  destruct (decide (a = b)) as [->|Hne].
  - apply list_lookup_insert_Some in Hb as [(_ & ? & _)|(? & _)]; done.
  - rewrite list_lookup_insert_ne in Hb by done. eauto.
Qed.

Lemma property_set_nodup h a k v : keys_nodup h -> keys_nodup (property_set h a k v).
Proof.
  intros Hh. unfold property_set.
  repeat case_match; try done; subst.
  all: apply keys_nodup_insert; [done|]; eauto using set_own_nodup.
Qed.

Lemma array_push_nodup h a v : keys_nodup h -> keys_nodup (array_push h a v).
Proof.
  intros Hh. unfold array_push.
  repeat case_match; try done. by apply keys_nodup_insert_array.
Qed.

Lemma keys_nodup_alloc h o :
  keys_nodup h -> (forall p props, o = JSObject p props -> props = []) ->
  keys_nodup (h ++ [o]).
Proof.
  intros Hh Ho b p props Hb.
  apply lookup_app_Some in Hb as [Hb|[_ Hb]]; [eauto|].
  apply list_lookup_singleton_Some in Hb as [_ ->].
  rewrite (Ho _ _ eq_refl). constructor.
Qed.

Lemma resolve_pending_key_nodup st :
  keys_nodup (heap_of st) -> keys_nodup (heap_of (resolve_pending_key st)).
Proof.
  intros H. unfold resolve_pending_key.
  repeat case_match; try done. simpl. by apply property_set_nodup.
Qed.

Lemma createContainer_nodup t st st' c :
  keys_nodup (heap_of st) -> createContainer t st = (st', c) ->
  keys_nodup (heap_of st').
Proof.
  intros H Hc. unfold createContainer in Hc.
  assert (keys_nodup (heap_of st ++ [match t with OBJECT => JSObject ObjectPrototype [] | ARRAY => JSArray [] end])).
  { apply keys_nodup_alloc; [done|]. intros p props. destruct t; naive_solver. }
  repeat case_match; simplify_eq; simpl; try done.
  all: first [by apply property_set_nodup | by apply array_push_nodup].
Qed.

Lemma parse_step_nodup tokens i token st i' st' :
  keys_nodup (heap_of st) -> parse_step tokens i token st = Next i' st' ->
  keys_nodup (heap_of st').
Proof.
  unfold parse_step. intros Hnd H.
  repeat case_match.
  - unfold step_bracket, handleBracketToken, closeContainer in H.
    repeat case_match; simplify_eq; simpl; try done.
    all: by eapply createContainer_nodup.
  - unfold step_key in H. repeat case_match; simplify_eq; done.
  - unfold step_punctuation, handlePunctuationToken in H.
    repeat case_match; simplify_eq; simpl; try done.
    all: try (by apply resolve_pending_key_nodup).
    by apply array_push_nodup.
  - unfold step_value, assignValue in H.
    repeat case_match; simplify_eq; simpl; try done.
    all: try (by apply property_set_nodup).
    all: by apply array_push_nodup.
Qed.

Lemma reachable_keys_nodup tokens i st :
  reachable tokens i st -> keys_nodup (heap_of st).
Proof.
  induction 1; eauto using parse_step_nodup.
  by intros a p props ?.
Qed.

End keys.

(** ** Facts about the steps of the loop *)

Section steps.
Import Store Parser.

Lemma is_key_position_spec st :
  is_key_position st = true <->
  exists c, current st = Some c /\ ctype c = OBJECT /\ ckey c = None.
Proof.
  unfold is_key_position. split.
  - intros H. repeat case_match; simplify_eq. eauto.
  - intros (c & -> & -> & ->). done.
Qed.

Lemma current_None st : currentContainer st = None -> current st = None.
Proof. unfold current. by intros ->. Qed.

Lemma current_Some st r c :
  currentContainer st = Some r -> containers st !! r = Some c ->
  current st = Some c.
Proof. unfold current. intros -> Hc. simpl. done. Qed.

Lemma wf_empty_stack st : wf st -> stacks st = [] -> currentContainer st = None.
Proof. intros [H _ _] Hs. by rewrite H, Hs. Qed.

Lemma neg_NaN : JS.neg JS.NaN = JS.NaN.
Proof. reflexivity. Qed.

Lemma resolve_pending_key_eq st r c k :
  currentContainer st = Some r -> containers st !! r = Some c ->
  ctype c = OBJECT -> ckey c = Some k ->
  resolve_pending_key st
  = set_key r None (set_heap (property_set (heap_of st) (cvalue c) k VNull) st).
Proof.
  intros Hcur Hc Hty Hk. unfold resolve_pending_key.
  by rewrite Hcur, (current_Some _ _ _ Hcur Hc), Hty, Hk.
Qed.

Lemma property_set_own h a k v p props :
  h !! a = Some (JSObject p props) -> k <> proto_key ->
  property_set h a k v !! a = Some (JSObject p (set_own props k v)).
Proof.
  intros Hh Hk. unfold property_set. rewrite Hh.
  rewrite bool_decide_eq_false_2 by done. simpl.
  apply list_lookup_insert_eq. by eapply lookup_lt_Some.
Qed.

Lemma resolve_pending_key_containers_cvalue st r :
  cvalue <$> containers (resolve_pending_key st) !! r
  = cvalue <$> containers st !! r.
Proof.
  unfold resolve_pending_key. repeat case_match; try done. simpl.
  destruct (decide (n = r)) as [->|Hne].
  - rewrite list_lookup_alter_eq. by destruct (containers st !! r).
  - by rewrite list_lookup_alter_ne.
Qed.

(** The run of identifiers after a token. *)
Lemma identifier_run_ids ids post :
  Forall (fun t => type t = IDENTIFIER) ids -> follows post ->
  identifier_run (ids ++ post) = map value ids.
Proof.
  intros Hids Hpost. induction Hids as [|t ids Ht Hids IH].
  - destruct post as [|t post]; [done|]. simpl in *. by destruct (type t).
  - cbn [app identifier_run map]. rewrite Ht. by rewrite IH.
Qed.

End steps.

(** ** The scan of a string token *)

Section string_scan.
Import Tokenizer.

Lemma drop_lookup_cons {A} (l : list A) i x :
  l !! i = Some x -> drop i l = x :: drop (S i) l.
Proof. intros H. by apply drop_S. Qed.

Lemma scanString_reaches s startPos q p :
  scan_reaches s startPos q p ->
  scanString s startPos q (drop (startPos + 1) s) (startPos + 1)
  = scanString s startPos q (drop p s) p.
Proof.
  induction 1 as [|pos c Hr IH Hc Hq Hb Hnl|pos Hr IH Hc Hq]; [done|..].
  - rewrite IH, (drop_lookup_cons _ _ _ Hc). cbn [scanString].
    rewrite (proj2 (N.eqb_neq _ _) Hq), (proj2 (N.eqb_neq _ _) Hb).
    replace (S pos) with (pos + 1) by lia.
    fold (is_newline c). destruct (is_newline c); [|done].
    by rewrite Hnl.
  - rewrite IH, (drop_lookup_cons _ _ _ Hc). cbn [scanString].
    assert ((Ch.backslash =? q)%N = false) as -> by (apply N.eqb_neq; congruence).
    rewrite N.eqb_refl.
    destruct (drop (S pos) s) as [|c1 rest2] eqn:Hd.
    + assert (drop (pos + 2) s = []) as ->; [|done].
      replace (pos + 2) with (S pos + 1) by lia.
      by rewrite <- drop_drop, Hd.
    + replace (pos + 2) with (S pos + 1) by lia.
      by rewrite <- drop_drop, Hd.
Qed.

Lemma matchEscapedQuote_suffix content q2 sep :
  q2 = Ch.dquote \/ q2 = Ch.squote ->
  sep = [] \/ sep = [Ch.comma] \/ sep = [Ch.colon] ->
  matchEscapedQuote (content ++ [Ch.backslash; q2] ++ sep)
  = Some (length content).
Proof.
  intros Hq Hsep. unfold matchEscapedQuote.
  rewrite !length_app. cbn [length].
  destruct Hsep as [-> | [-> | ->]]; cbn [length].
  - replace (length content + (2 + 0) - 3) with (length content - 1) by lia.
    replace (length content + (2 + 0) - 2) with (length content) by lia.
    replace (length content + (2 + 0) - 1) with (length content + 1) by lia.
    assert (Hl1 : (content ++ [Ch.backslash; q2] ++ []) !! (length content + 1)
                  = Some q2).
    { rewrite lookup_app_r by lia.
      by replace (length content + 1 - length content) with 1 by lia. }
    assert (Hl0 : (content ++ [Ch.backslash; q2] ++ []) !! (length content)
                  = Some Ch.backslash).
    { rewrite lookup_app_r by lia. by rewrite Nat.sub_diag. }
    rewrite !Hl1, !Hl0.
    assert (bool_decide (Some q2 = Some Ch.comma) = false) as ->.
    { apply bool_decide_eq_false_2. destruct Hq as [-> | ->]; done. }
    assert (bool_decide (Some q2 = Some Ch.colon) = false) as ->.
    { apply bool_decide_eq_false_2. destruct Hq as [-> | ->]; done. }
    rewrite !andb_false_r.
    assert ((2 <=? length content + (2 + 0)) = true) as -> by (apply Nat.leb_le; lia).
    rewrite bool_decide_eq_true_2 by done.
    destruct Hq as [-> | ->]; done.
  - replace (length content + (2 + 1) - 3) with (length content) by lia.
    replace (length content + (2 + 1) - 2) with (length content + 1) by lia.
    replace (length content + (2 + 1) - 1) with (length content + 2) by lia.
    assert (Hl2 : (content ++ [Ch.backslash; q2] ++ [Ch.comma]) !! (length content + 2)
                  = Some Ch.comma).
    { rewrite lookup_app_r by lia.
      by replace (length content + 2 - length content) with 2 by lia. }
    assert (Hl1 : (content ++ [Ch.backslash; q2] ++ [Ch.comma]) !! (length content + 1)
                  = Some q2).
    { rewrite lookup_app_r by lia.
      by replace (length content + 1 - length content) with 1 by lia. }
    assert (Hl0 : (content ++ [Ch.backslash; q2] ++ [Ch.comma]) !! (length content)
                  = Some Ch.backslash).
    { rewrite lookup_app_r by lia. by rewrite Nat.sub_diag. }
    rewrite !Hl2, !Hl1, !Hl0.
    assert ((3 <=? length content + (2 + 1)) = true) as -> by (apply Nat.leb_le; lia).
    rewrite (bool_decide_eq_true_2 (Some Ch.backslash = Some Ch.backslash)) by done.
    rewrite (bool_decide_eq_true_2 (Some Ch.comma = Some Ch.comma)) by done.
    destruct Hq as [-> | ->]; done.
  - replace (length content + (2 + 1) - 3) with (length content) by lia.
    replace (length content + (2 + 1) - 2) with (length content + 1) by lia.
    replace (length content + (2 + 1) - 1) with (length content + 2) by lia.
    assert (Hl2 : (content ++ [Ch.backslash; q2] ++ [Ch.colon]) !! (length content + 2)
                  = Some Ch.colon).
    { rewrite lookup_app_r by lia.
      by replace (length content + 2 - length content) with 2 by lia. }
    assert (Hl1 : (content ++ [Ch.backslash; q2] ++ [Ch.colon]) !! (length content + 1)
                  = Some q2).
    { rewrite lookup_app_r by lia.
      by replace (length content + 1 - length content) with 1 by lia. }
    assert (Hl0 : (content ++ [Ch.backslash; q2] ++ [Ch.colon]) !! (length content)
                  = Some Ch.backslash).
    { rewrite lookup_app_r by lia. by rewrite Nat.sub_diag. }
    rewrite !Hl2, !Hl1, !Hl0.
    assert ((3 <=? length content + (2 + 1)) = true) as -> by (apply Nat.leb_le; lia).
    rewrite (bool_decide_eq_true_2 (Some Ch.backslash = Some Ch.backslash)) by done.
    rewrite (bool_decide_eq_true_2 (Some Ch.colon = Some Ch.colon)) by done.
    destruct Hq as [-> | ->]; rewrite ?orb_true_r; done.
Qed.

Lemma drop_app_cons {A} (l : list A) x r :
  drop (length l + 1) (l ++ x :: r) = r.
Proof. induction l; simpl; [by rewrite drop_0|done]. Qed.

Lemma take_app3_length {A} (a b c d : list A) :
  take (length (a ++ b ++ c)) (a ++ b ++ c ++ d) = a ++ b ++ c.
Proof. rewrite !(assoc_L (++)). by rewrite take_app_length. Qed.

Lemma drop_app3_length {A} (a b c d : list A) :
  drop (length (a ++ b ++ c)) (a ++ b ++ c ++ d) = d.
Proof. rewrite !(assoc_L (++)). by rewrite drop_app_length. Qed.

Lemma lookup_app_cons {A} (l : list A) x r : (l ++ x :: r) !! length l = Some x.
Proof. by rewrite list_lookup_middle. Qed.

End string_scan.

(** ** The tokens of a strict JSON text *)

Section tokenizer_strict.
Import Tokenizer Strict.

Lemma json_nested_ind (P : json -> Prop) :
  P JNull -> P JTrue -> P JFalse ->
  (forall n, P (JNumber n)) ->
  (forall s, P (JString s)) ->
  (forall w elems, Forall (fun e => P e.1.2) elems -> P (JArray w elems)) ->
  (forall w members,
     Forall (fun m => P m.2.1.2) members -> P (JObject w members)) ->
  forall j, P j.
Proof.
  intros Hnull Htrue Hfalse Hnum Hstr Harr Hobj.
  fix IH 1.
  intros [ | | |n|s|w elems|w members];
    [exact Hnull|exact Htrue|exact Hfalse|apply Hnum|apply Hstr|..].
  - apply Harr. induction elems as [|[[w1 v] w2] elems IHl]; constructor.
    + apply IH.
    + apply IHl.
  - apply Hobj.
    induction members as [|[[[w1 k] w2] [[w3 v] w4]] members IHl]; constructor.
    + apply IH.
    + apply IHl.
Qed.

Lemma tokenize_run_refl s pos : tokenize_run s pos 0 pos [].
Proof. intros fuel tokens. by rewrite app_nil_r. Qed.

Lemma tokenize_run_trans s p1 n1 p2 t1 n2 p3 t2 :
  tokenize_run s p1 n1 p2 t1 -> tokenize_run s p2 n2 p3 t2 ->
  tokenize_run s p1 (n1 + n2) p3 (t1 ++ t2).
Proof.
  intros H1 H2 fuel tokens.
  rewrite <- Nat.add_assoc, H1, H2. by rewrite app_assoc.
Qed.

Lemma tokenize_run_step s pos c pushed pos' :
  s !! pos = Some c -> tokenize_step s pos c = (pushed, pos') ->
  tokenize_run s pos 1 pos' pushed.
Proof. intros Hc Hs fuel tokens. simpl. by rewrite Hc, Hs. Qed.

(** Reading the input through its suffix. *)
Lemma drop_lookup {A} (s : list A) pos text j :
  drop pos s = text -> s !! (pos + j) = text !! j.
Proof. intros <-. by rewrite lookup_drop. Qed.

Lemma drop_head {A} (s : list A) pos c r : drop pos s = c :: r -> s !! pos = Some c.
Proof.
  intros H. rewrite <- (Nat.add_0_r pos). by rewrite (drop_lookup _ _ _ 0 H).
Qed.

Lemma drop_more {A} (s : list A) pos text post :
  drop pos s = text ++ post -> drop (pos + length text) s = post.
Proof. intros H. by rewrite <- drop_drop, H, drop_app_length. Qed.

Lemma drop_tail {A} (s : list A) pos c r : drop pos s = c :: r -> drop (pos + 1) s = r.
Proof. intros H. by rewrite <- drop_drop, H. Qed.

Lemma tokenize_ws s pos w post :
  valid_ws w = true -> drop pos s = w ++ post ->
  tokenize_run s pos (length w) (pos + length w) [].
Proof.
  revert pos. induction w as [|c w IH]; intros pos Hv Hd.
  - rewrite Nat.add_0_r. apply tokenize_run_refl.
  - simpl in Hv. apply andb_true_iff in Hv as [Hc Hv].
    assert (Hstep : tokenize_step s pos c = ([], pos + 1)).
    { unfold tokenize_step.
      assert ((c <=? Ch.space)%N = true) as ->; [|done].
      unfold JS.is_json_space in Hc.
      repeat (apply orb_true_iff in Hc as [Hc|Hc]);
        apply N.eqb_eq in Hc; subst; done. }
    pose proof (tokenize_run_step _ _ _ _ _ (drop_head _ _ _ _ Hd) Hstep) as H1.
    pose proof (IH (pos + 1) Hv (drop_tail _ _ _ _ Hd)) as H2.
    pose proof (tokenize_run_trans _ _ _ _ _ _ _ _ H1 H2) as H3.
    simpl in *. by replace (pos + S (length w)) with (pos + 1 + length w) by lia.
Qed.

Lemma tokenize_bracket s pos c post :
  c = Ch.lbrace \/ c = Ch.rbrace \/ c = Ch.lbracket \/ c = Ch.rbracket ->
  drop pos s = c :: post ->
  tokenize_run s pos 1 (pos + 1) [simple_token BRACKET [c]].
Proof.
  intros Hc Hd. apply (tokenize_run_step _ _ c); [by eapply drop_head|].
  unfold tokenize_step. destruct Hc as [-> | [-> | [-> | ->]]]; done.
Qed.

Lemma tokenize_comma s pos post :
  drop pos s = Ch.comma :: post ->
  tokenize_run s pos 1 (pos + 1) [comma_token].
Proof.
  intros Hd. apply (tokenize_run_step _ _ Ch.comma); [by eapply drop_head|].
  done.
Qed.

Lemma tokenize_colon s pos post :
  drop pos s = Ch.colon :: post ->
  tokenize_run s pos 1 (pos + 1) [colon_token].
Proof.
  intros Hd. apply (tokenize_run_step _ _ Ch.colon); [by eapply drop_head|].
  done.
Qed.

(** *** Strings *)

Lemma hex_digit_range h :
  is_Some (JS.hex_digit_value h) ->
  (48 <= h <= 57 \/ 97 <= h <= 102 \/ 65 <= h <= 70)%N.
Proof.
  intros [d Hd].
  unfold JS.hex_digit_value, JS.digit_value, is_digit in Hd.
  destruct ((48 <=? h)%N && (h <=? 57)%N) eqn:E1.
  { bool_hyps. lia. }
  destruct ((97 <=? h)%N && (h <=? 122)%N) eqn:E2.
  { destruct (h - 87 <? 16)%N eqn:E3; [|done]. bool_hyps. lia. }
  destruct ((65 <=? h)%N && (h <=? 90)%N) eqn:E3; [|done].
  destruct (h - 55 <? 16)%N eqn:E4; [|done]. bool_hyps. lia.
Qed.

Lemma valid_hex_plain h :
  bool_decide (is_Some (JS.hex_digit_value h)) = true ->
  h <> Ch.dquote /\ h <> Ch.backslash /\ is_newline h = false.
Proof.
  intros H%bool_decide_eq_true%hex_digit_range.
  unfold is_newline, Ch.dquote, Ch.backslash, Ch.lf, Ch.cr.
  split_and!; [lia|lia|].
  apply orb_false_iff. split; apply N.eqb_neq; lia.
Qed.

Lemma scanString_plain s sp q c rest p :
  c <> q -> c <> Ch.backslash -> is_newline c = false ->
  scanString s sp q (c :: rest) p = scanString s sp q rest (p + 1).
Proof.
  intros Hq Hb Hn. cbn [scanString].
  rewrite (proj2 (N.eqb_neq _ _) Hq), (proj2 (N.eqb_neq _ _) Hb).
  fold (is_newline c). by rewrite Hn.
Qed.

Lemma scanString_escape s sp q e rest p :
  q <> Ch.backslash ->
  scanString s sp q (Ch.backslash :: e :: rest) p
  = scanString s sp q rest (p + 2).
Proof.
  intros Hq. cbn [scanString].
  assert ((Ch.backslash =? q)%N = false) as ->
    by (apply N.eqb_neq; congruence).
  done.
Qed.

Lemma scanString_char s sp c rest p :
  valid_char c = true ->
  scanString s sp Ch.dquote (render_char c ++ rest) p
  = scanString s sp Ch.dquote rest (p + length (render_char c)).
Proof.
  intros Hv.
  destruct c as [c|e|h1 h2 h3 h4]; simpl in Hv; cbn [render_char app length].
  - bool_hyps. rewrite scanString_plain; [done|done|done|].
    unfold is_newline. apply orb_false_iff.
    split; apply N.eqb_neq; intros ->; unfold Ch.lf, Ch.cr in *; lia.
  - by apply scanString_escape.
  - rewrite !andb_true_iff in Hv. destruct Hv as (H1 & H2 & H3 & H4 & _).
    apply valid_hex_plain in H1 as (? & ? & ?), H2 as (? & ? & ?),
      H3 as (? & ? & ?), H4 as (? & ? & ?).
    rewrite scanString_escape by done.
    rewrite !scanString_plain by done. f_equal. lia.
Qed.

Lemma scanString_chars s sp chars post p :
  forallb valid_char chars = true ->
  scanString s sp Ch.dquote
    (concat (map render_char chars) ++ Ch.dquote :: post) p
  = (p + length (concat (map render_char chars)) + 1, None).
Proof.
  revert p. induction chars as [|c chars IH]; intros p Hv.
  - simpl. rewrite Nat.add_0_r. done.
  - simpl in Hv. apply andb_true_iff in Hv as [Hc Hv].
    cbn [map concat]. rewrite <- app_assoc.
    rewrite scanString_char by done. rewrite IH by done.
    rewrite length_app. f_equal. lia.
Qed.

Lemma tokenize_string s pos chars post :
  forallb valid_char chars = true ->
  drop pos s = render_string chars ++ post ->
  tokenize_run s pos 1 (pos + length (render_string chars))
    [string_token chars].
Proof.
  intros Hv Hd. unfold render_string in Hd. cbn [app] in Hd.
  apply (tokenize_run_step _ _ Ch.dquote); [by eapply drop_head|].
  unfold tokenize_step. cbn [N.leb N.compare Pos.compare Pos.compare_cont
    Ch.dquote Ch.space Ch.slash N.eqb Pos.eqb fst orb].
  change (34%N) with Ch.dquote.
  assert (Htok : parseStringToken s pos
    = mkStringTokenResult (string_token chars)
        (pos + length (render_string chars)) false).
  { unfold parseStringToken. rewrite (drop_head _ _ _ _ Hd).
    change (default 0%N (Some Ch.dquote)) with Ch.dquote.
    rewrite (drop_tail _ _ _ _ Hd), <- app_assoc.
    change ([Ch.dquote] ++ post) with (Ch.dquote :: post).
    rewrite scanString_chars by done.
    assert (Hslice : slice s pos (pos + 1 + length (concat (map render_char chars)) + 1)
                     = render_string chars).
    { unfold slice. rewrite Hd.
      replace (pos + 1 + length (concat (map render_char chars)) + 1 - pos)
        with (length (render_string chars)).
      2:{ unfold render_string. simpl. rewrite length_app. simpl. lia. }
      change (Ch.dquote :: (concat (map render_char chars) ++ [Ch.dquote]) ++ post)
        with (render_string chars ++ post).
      by rewrite take_app_length. }
    rewrite Hslice.
    assert (endsWith (render_string chars) Ch.dquote = true) as ->.
    { unfold endsWith, render_string.
      rewrite app_comm_cons, last_snoc. done. }
    cbn [N.eqb Pos.eqb Ch.dquote Ch.squote].
    f_equal. unfold render_string. simpl. rewrite length_app. simpl. lia. }
  rewrite Htok. done.
Qed.

(** *** Runs of characters *)

Lemma span_len_app p text post :
  forallb p text = true ->
  match post with [] => True | c :: _ => p c = false end ->
  span_len p (text ++ post) = length text.
Proof.
  intros Ht Hp. induction text as [|c text IH]; simpl in *.
  - destruct post; [done|]. simpl. by rewrite Hp.
  - apply andb_true_iff in Ht as [-> Ht]. by rewrite IH.
Qed.

Lemma scan_while_app p s pos text post :
  drop pos s = text ++ post ->
  forallb p text = true ->
  match post with [] => True | c :: _ => p c = false end ->
  scan_while p s pos = pos + length text.
Proof. intros Hd Ht Hp. unfold scan_while. by rewrite Hd, span_len_app. Qed.

Lemma slice_drop (s : str) pos text post :
  drop pos s = text ++ post -> slice s pos (pos + length text) = text.
Proof.
  intros Hd. unfold slice. rewrite Hd.
  replace (pos + length text - pos) with (length text) by lia.
  by rewrite take_app_length.
Qed.

Lemma delimited_cases post :
  delimited post ->
  match post with
  | [] => True
  | c :: _ =>
    c = Ch.tab \/ c = Ch.lf \/ c = Ch.cr \/ c = Ch.space \/ c = Ch.comma
    \/ c = Ch.rbracket \/ c = Ch.rbrace
  end.
Proof.
  destruct post as [|c post]; [done|]. simpl.
  intros [H|H]; [|tauto]. unfold JS.is_json_space in H.
  repeat (apply orb_true_iff in H as [H|H]); apply N.eqb_eq in H; tauto.
Qed.

Lemma delimited_stop post :
  delimited post ->
  match post with
  | [] => True
  | c :: _ => negb (is_identifier_stop c) = false
  end.
Proof.
  intros H%delimited_cases. destruct post as [|c post]; [done|].
  destruct H as [-> | [-> | [-> | [-> | [-> | [-> | ->]]]]]]; done.
Qed.

Lemma delimited_decimal post :
  delimited post ->
  match post with
  | [] => True
  | c :: _ => is_decimal_run c = false
  end.
Proof.
  intros H%delimited_cases. destruct post as [|c post]; [done|].
  destruct H as [-> | [-> | [-> | [-> | [-> | [-> | ->]]]]]]; done.
Qed.

(** *** Literals *)

Lemma tokenize_literal s pos text post :
  text = lit "null" \/ text = lit "true" \/ text = lit "false" ->
  drop pos s = text ++ post ->
  delimited post ->
  tokenize_run s pos 1 (pos + length text) [simple_token IDENTIFIER text].
Proof.
  intros Ht Hd Hp.
  assert (Hid : parseIdentifierToken s pos
                = (Some (simple_token IDENTIFIER text), pos + length text)).
  { unfold parseIdentifierToken.
    rewrite (scan_while_app _ _ _ text post Hd).
    2:{ destruct Ht as [-> | [-> | ->]]; vm_compute; reflexivity. }
    2:{ by apply delimited_stop. }
    assert ((pos <? pos + length text) = true) as ->.
    { apply Nat.ltb_lt. destruct Ht as [-> | [-> | ->]]; simpl; lia. }
    by rewrite (slice_drop _ _ _ _ Hd). }
  destruct Ht as [-> | [-> | ->]].
  - apply (tokenize_run_step _ _ (ch "n"));
      [exact (drop_head s pos (ch "n") (lit "ull" ++ post) Hd)|].
    unfold tokenize_step. rewrite Hid. done.
  - apply (tokenize_run_step _ _ (ch "t"));
      [exact (drop_head s pos (ch "t") (lit "rue" ++ post) Hd)|].
    unfold tokenize_step. rewrite Hid. done.
  - apply (tokenize_run_step _ _ (ch "f"));
      [exact (drop_head s pos (ch "f") (lit "alse" ++ post) Hd)|].
    unfold tokenize_step. rewrite Hid. done.
Qed.

(** *** Numbers *)

Lemma forallb_digit_decimal ds :
  forallb is_digit ds = true -> forallb is_decimal_run ds = true.
Proof.
  intros H. apply forallb_forall. intros c Hc.
  rewrite forallb_forall in H. unfold is_decimal_run. by rewrite (H c Hc).
Qed.

Lemma valid_number_inv n :
  valid_number n = true ->
  exists d ds,
    jint n = d :: ds /\ is_digit d = true /\ forallb is_digit ds = true /\
    (d = Ch.zero -> ds = []) /\
    match jfrac n with
    | Some f => f <> [] /\ forallb is_digit f = true
    | None => True
    end /\
    match jexp n with
    | Some (marker, sign, digits) =>
      (marker = 101%N \/ marker = 69%N) /\
      (sign = [] \/ sign = [Ch.plus] \/ sign = [Ch.minus]) /\
      digits <> [] /\ forallb is_digit digits = true
    | None => True
    end.
Proof.
  unfold valid_number, nonempty_digits. intros H.
  destruct (jint n) as [|d ds]; [done|].
  apply andb_true_iff in H as [H He]. apply andb_true_iff in H as [Hi Hf].
  exists d, ds. split_and!; [done|..].
  - destruct (d =? Ch.zero)%N eqn:E; [by apply N.eqb_eq in E as ->|].
    by apply andb_true_iff in Hi as [? _].
  - destruct (d =? Ch.zero)%N eqn:E.
    + by apply bool_decide_eq_true in Hi as ->.
    + by apply andb_true_iff in Hi as [_ ?].
  - intros ->. simpl in Hi. by apply bool_decide_eq_true in Hi.
  - destruct (jfrac n) as [f|]; [|done].
    apply andb_true_iff in Hf as [Hne ?]. split; [|done].
    by apply negb_true_iff, bool_decide_eq_false in Hne.
  - destruct (jexp n) as [[[marker sign] digits]|]; [|done].
    apply andb_true_iff in He as [He Hd]. apply andb_true_iff in He as [Hm Hs].
    apply andb_true_iff in Hd as [Hne ?].
    split_and!; [| | |done].
    + apply orb_true_iff in Hm as [Hm|Hm]; apply N.eqb_eq in Hm; tauto.
    + repeat (apply orb_true_iff in Hs as [Hs|Hs]);
        apply bool_decide_eq_true in Hs; tauto.
    + by apply negb_true_iff, bool_decide_eq_false in Hne.
Qed.

Lemma magnitude_decimal_run n :
  valid_number n = true -> forallb is_decimal_run (magnitude_text n) = true.
Proof.
  intros (d & ds & Hi & Hd & Hds & _ & Hf & He)%valid_number_inv.
  unfold magnitude_text. rewrite Hi. rewrite !forallb_app. 
  apply andb_true_iff. split; [|apply andb_true_iff; split].
  - simpl. apply andb_true_iff. split.
    + unfold is_decimal_run. by rewrite Hd.
    + by apply forallb_digit_decimal.
  - destruct (jfrac n) as [f|]; [|done]. destruct Hf as [_ Hf].
    simpl. by apply forallb_digit_decimal.
  - destruct (jexp n) as [[[marker sign] digits]|]; [|done].
    destruct He as (Hm & Hs & _ & Hdg). simpl.
    apply andb_true_iff. split.
    + destruct Hm as [-> | ->]; done.
    + rewrite forallb_app. apply andb_true_iff. split.
      * destruct Hs as [-> | [-> | ->]]; done.
      * by apply forallb_digit_decimal.
Qed.

(** After a leading zero comes a dot, an exponent marker or the end of
    the number. *)
Lemma after_zero n rest post :
  valid_number n = true ->
  magnitude_text n = Ch.zero :: rest ->
  delimited post ->
  match rest ++ post with
  | [] => True
  | c :: _ =>
    c <> 120%N /\ c <> 88%N /\ c <> 111%N /\ c <> 79%N /\ c <> 98%N
    /\ c <> 66%N
  end.
Proof.
  intros (d & ds & Hi & Hd & Hds & Hz & Hf & He)%valid_number_inv Hm Hp.
  unfold magnitude_text in Hm. rewrite Hi in Hm. simpl in Hm.
  injection Hm as -> Hm. rewrite (Hz eq_refl) in Hm. simpl in Hm. subst rest.
  destruct (jfrac n) as [f|]; [simpl; split_and!; done|].
  destruct (jexp n) as [[[marker sign] digits]|].
  { destruct He as ([-> | ->] & _). all: simpl; split_and!; done. }
  simpl. apply delimited_cases in Hp. destruct post as [|c post]; [done|].
  destruct Hp as [-> | [-> | [-> | [-> | [-> | [-> | ->]]]]]]; split_and!; done.
Qed.

Lemma digit_range d : is_digit d = true -> (48 <= d <= 57)%N.
Proof. unfold is_digit. intros H. bool_hyps. lia. Qed.

(** The scan of the digits after the sign, from the position [p] of the
    first digit. *)
Lemma number_scan s p n post :
  valid_number n = true ->
  drop p s = magnitude_text n ++ post ->
  delimited post ->
  exists d,
    s !! p = Some d /\ is_digit d = true /\
    (if (d =? Ch.zero)%N && (p + 1 <? length s)
     then
       let nextChar := default 0%N (s !! (p + 1)) in
       ((nextChar =? 120)%N || (nextChar =? 88)%N) = false /\
       ((nextChar =? 111)%N || (nextChar =? 79)%N) = false /\
       ((nextChar =? 98)%N || (nextChar =? 66)%N) = false /\
       scan_while is_decimal_run s (p + 1) = p + length (magnitude_text n)
     else scan_while is_decimal_run s p = p + length (magnitude_text n)).
Proof.
  intros Hv Hd Hp.
  pose proof (magnitude_decimal_run n Hv) as Hrun.
  destruct (valid_number_inv n Hv) as (d & ds & Hi & Hdig & _).
  assert (Hm : exists rest, magnitude_text n = d :: rest).
  { unfold magnitude_text. rewrite Hi. simpl. eauto. }
  destruct Hm as [rest Hm]. exists d. rewrite Hm in Hd.
  change ((d :: rest) ++ post) with (d :: (rest ++ post)) in Hd.
  split_and!; [by eapply drop_head|done|].
  destruct ((d =? Ch.zero)%N && (p + 1 <? length s)) eqn:E.
  - apply andb_true_iff in E as [->%N.eqb_eq Hlt]. apply Nat.ltb_lt in Hlt.
    pose proof (after_zero n rest post Hv Hm Hp) as Hz.
    pose proof (drop_tail _ _ _ _ Hd) as Hd1.
    destruct (rest ++ post) as [|c rp] eqn:Erp.
    { apply (f_equal length) in Hd1. rewrite length_drop in Hd1.
      simpl in Hd1. lia. }
    cbv zeta. rewrite (drop_head _ _ _ _ Hd1). simpl default.
    destruct Hz as (? & ? & ? & ? & ? & ?).
    split_and!; try (apply orb_false_iff; split; by apply N.eqb_neq).
    rewrite Hm. simpl length. rewrite <- Erp in Hd1.
    rewrite (scan_while_app _ _ _ rest post Hd1); [lia| |by apply delimited_decimal].
    rewrite Hm in Hrun. simpl in Hrun. exact Hrun.
  - change (d :: (rest ++ post)) with ((d :: rest) ++ post) in Hd.
    rewrite <- Hm in Hd.
    rewrite (scan_while_app _ _ _ _ post Hd); [done|done|by apply delimited_decimal].
Qed.

Lemma parseNumberToken_valid s pos n post :
  valid_number n = true ->
  drop pos s = render_number n ++ post ->
  delimited post ->
  parseNumberToken s pos
  = (Some (number_token n), pos + length (render_number n)).
Proof.
  intros Hv Hd Hp. unfold render_number in *.
  destruct (jneg n) eqn:Hneg.
  - cbn [app] in Hd.
    pose proof (drop_head _ _ _ _ Hd) as Hs0.
    pose proof (drop_tail _ _ _ _ Hd) as Hd1.
    destruct (number_scan s (pos + 1) n post Hv Hd1 Hp) as (d & Hs1 & Hdig & Hscan).
    unfold parseNumberToken. rewrite Hs0.
    rewrite (bool_decide_eq_true_2 (Some Ch.minus = Some Ch.minus)) by done.
    cbn [negb andb orb]. rewrite Hs1.
    rewrite (bool_decide_eq_false_2 (Some Ch.minus = Some Ch.dot)) by done.
    assert ((pos <? pos + 1) = true) as -> by (apply Nat.ltb_lt; lia).
    pose proof (digit_range d Hdig) as Hr.
    assert ((d =? Ch.dot)%N = false) as ->
      by (apply N.eqb_neq; unfold Ch.dot; lia).
    cbn [negb andb orb]. rewrite Hdig.
    destruct ((d =? Ch.zero)%N && (pos + 1 + 1 <? length s)).
    + cbv zeta in Hscan. destruct Hscan as (-> & -> & -> & ->).
      unfold number_token. rewrite Hneg. f_equal; [|simpl; lia].
      f_equal. f_equal. by apply (slice_drop _ _ _ post).
    + rewrite Hscan.
      unfold number_token. rewrite Hneg. f_equal; [|simpl; lia].
      f_equal. f_equal. by apply (slice_drop _ _ _ post).
  - cbn [app] in Hd.
    destruct (number_scan s pos n post Hv Hd Hp) as (d & Hs0 & Hdig & Hscan).
    pose proof (digit_range d Hdig) as Hr.
    unfold parseNumberToken. rewrite Hs0.
    rewrite (bool_decide_eq_false_2 (Some d = Some Ch.minus))
      by (unfold Ch.minus; intros [=]; lia).
    rewrite (bool_decide_eq_false_2 (Some d = Some Ch.plus))
      by (unfold Ch.plus; intros [=]; lia).
    rewrite (bool_decide_eq_false_2 (Some d = Some Ch.dot))
      by (unfold Ch.dot; intros [=]; lia).
    cbn [negb andb orb]. rewrite Hs0.
    rewrite Nat.ltb_irrefl. cbn [negb andb orb]. rewrite Hdig.
    destruct ((d =? Ch.zero)%N && (pos + 1 <? length s)).
    + cbv zeta in Hscan. destruct Hscan as (-> & -> & -> & ->).
      unfold number_token. rewrite Hneg. f_equal.
      f_equal. f_equal. by apply (slice_drop _ _ _ post).
    + rewrite Hscan.
      unfold number_token. rewrite Hneg. f_equal.
      f_equal. f_equal. by apply (slice_drop _ _ _ post).
Qed.

Lemma tokenize_step_digit s pos d :
  is_digit d = true ->
  tokenize_step s pos d
  = (option_list (parseNumberToken s pos).1, (parseNumberToken s pos).2).
Proof.
  intros Hd. pose proof (digit_range d Hd) as Hr. unfold tokenize_step.
  assert ((d <=? Ch.space)%N = false) as ->
    by (apply N.leb_gt; unfold Ch.space; lia).
  assert ((d =? Ch.slash)%N = false) as ->
    by (apply N.eqb_neq; unfold Ch.slash; lia).
  cbn [fst].
  assert ((d =? Ch.dquote)%N = false) as ->
    by (apply N.eqb_neq; unfold Ch.dquote; lia).
  assert ((d =? Ch.squote)%N = false) as ->
    by (apply N.eqb_neq; unfold Ch.squote; lia).
  assert ((d =? Ch.lbrace)%N = false) as ->
    by (apply N.eqb_neq; unfold Ch.lbrace; lia).
  assert ((d =? Ch.rbrace)%N = false) as ->
    by (apply N.eqb_neq; unfold Ch.rbrace; lia).
  assert ((d =? Ch.lbracket)%N = false) as ->
    by (apply N.eqb_neq; unfold Ch.lbracket; lia).
  assert ((d =? Ch.rbracket)%N = false) as ->
    by (apply N.eqb_neq; unfold Ch.rbracket; lia).
  assert ((d =? Ch.comma)%N = false) as ->
    by (apply N.eqb_neq; unfold Ch.comma; lia).
  assert ((d =? Ch.colon)%N = false) as ->
    by (apply N.eqb_neq; unfold Ch.colon; lia).
  assert ((d =? Ch.zh_colon)%N = false) as ->
    by (apply N.eqb_neq; unfold Ch.zh_colon; lia).
  assert ((d =? Ch.zh_comma)%N = false) as ->
    by (apply N.eqb_neq; unfold Ch.zh_comma; lia).
  cbn [orb]. by rewrite Hd.
Qed.

Lemma tokenize_number s pos n post :
  valid_number n = true ->
  drop pos s = render_number n ++ post ->
  delimited post ->
  tokenize_run s pos 1 (pos + length (render_number n)) [number_token n].
Proof.
  intros Hv Hd Hp.
  pose proof (parseNumberToken_valid s pos n post Hv Hd Hp) as Hnum.
  unfold render_number in Hd. destruct (jneg n) eqn:Hneg.
  - cbn [app] in Hd.
    apply (tokenize_run_step _ _ Ch.minus); [by eapply drop_head|].
    unfold tokenize_step.
    change ((Ch.minus <=? Ch.space)%N) with false.
    change ((Ch.minus =? Ch.slash)%N) with false.
    change ((Ch.minus =? Ch.dquote)%N) with false.
    change ((Ch.minus =? Ch.squote)%N) with false.
    change ((Ch.minus =? Ch.lbrace)%N) with false.
    change ((Ch.minus =? Ch.rbrace)%N) with false.
    change ((Ch.minus =? Ch.lbracket)%N) with false.
    change ((Ch.minus =? Ch.rbracket)%N) with false.
    change ((Ch.minus =? Ch.comma)%N) with false.
    change ((Ch.minus =? Ch.colon)%N) with false.
    change ((Ch.minus =? Ch.zh_colon)%N) with false.
    change ((Ch.minus =? Ch.zh_comma)%N) with false.
    change ((Ch.minus =? Ch.minus)%N) with true.
    cbn [fst orb]. rewrite orb_true_r. cbn [orb]. by rewrite Hnum.
  - cbn [app] in Hd.
    destruct (valid_number_inv n Hv) as (d & ds & Hi & Hdig & _).
    assert (Hs0 : s !! pos = Some d).
    { unfold magnitude_text in Hd. rewrite Hi in Hd.
      rewrite <- !app_assoc in Hd. cbn [app] in Hd. by eapply drop_head. }
    apply (tokenize_run_step _ _ d); [done|].
    rewrite tokenize_step_digit by done. by rewrite Hnum.
Qed.

(** *** Sequences of tokens *)

Lemma consumes_nil s pos : consumes s pos [] [].
Proof.
  exists 0. split; [done|]. simpl. rewrite Nat.add_0_r.
  apply tokenize_run_refl.
Qed.

Lemma consumes_app s pos t1 t2 k1 k2 :
  consumes s pos t1 k1 ->
  consumes s (pos + length t1) t2 k2 ->
  consumes s pos (t1 ++ t2) (k1 ++ k2).
Proof.
  intros (n1 & Hn1 & H1) (n2 & Hn2 & H2). exists (n1 + n2).
  rewrite length_app. split; [lia|].
  rewrite Nat.add_assoc. by eapply tokenize_run_trans.
Qed.

Lemma consumes_one s pos text tok :
  text <> [] -> tokenize_run s pos 1 (pos + length text) [tok] ->
  consumes s pos text [tok].
Proof.
  intros Hne H. exists 1. split; [|done].
  destruct text; [done|]. simpl. lia.
Qed.

Lemma consumes_ws s pos w post :
  valid_ws w = true -> drop pos s = w ++ post -> consumes s pos w [].
Proof. intros Hv Hd. exists (length w). split; [done|]. by eapply tokenize_ws. Qed.

Lemma consumes_char s pos c tok post :
  drop pos s = c :: post ->
  tokenize_run s pos 1 (pos + 1) [tok] ->
  consumes s pos [c] [tok].
Proof. intros Hd H. by apply consumes_one. Qed.

Lemma delimited_ws_app w post :
  valid_ws w = true -> delimited post -> delimited (w ++ post).
Proof.
  destruct w as [|c w]; [done|]. simpl. intros [H _]%andb_true_iff _. by left.
Qed.

Lemma delimited_comma post : delimited (Ch.comma :: post).
Proof. simpl. tauto. Qed.

Lemma delimited_rbracket post : delimited (Ch.rbracket :: post).
Proof. simpl. tauto. Qed.

Lemma delimited_rbrace post : delimited (Ch.rbrace :: post).
Proof. simpl. tauto. Qed.

Lemma tokenize_element (e : str * json * str) s pos post :
  tokenizes e.1.2 ->
  valid_ws e.1.1 = true -> valid_ws e.2 = true ->
  drop pos s = elem_text e ++ post -> delimited post ->
  consumes s pos (elem_text e) (tokens_of e.1.2).
Proof.
  destruct e as [[w1 v] w2]. unfold elem_text. cbn [fst snd].
  intros Hv Hw1 Hw2 Hd Hp. rewrite <- !app_assoc in Hd.
  enough (H : consumes s pos (w1 ++ render v ++ w2)
                ([] ++ tokens_of v ++ []))
    by (by rewrite app_nil_l, app_nil_r in H).
  apply consumes_app; [by eapply consumes_ws|].
  pose proof (drop_more _ _ _ _ Hd) as Hd1.
  apply consumes_app.
  - apply (Hv _ _ _ Hd1). by apply delimited_ws_app.
  - pose proof (drop_more _ _ _ _ Hd1) as Hd2. by eapply consumes_ws.
Qed.

Lemma join_cons_cons {A} (sep : list A) x y r :
  JS.join sep (x :: y :: r) = x ++ sep ++ JS.join sep (y :: r).
Proof. done. Qed.

Lemma join_singleton {A} (sep : list A) x : JS.join sep [x] = x.
Proof. done. Qed.

Lemma tokenize_elements elems s pos post :
  Forall (fun e => tokenizes e.1.2) elems ->
  forallb (fun e => valid_ws e.1.1 && valid e.1.2 && valid_ws e.2) elems
    = true ->
  drop pos s = JS.join [Ch.comma] (map elem_text elems) ++ post ->
  delimited post ->
  consumes s pos (JS.join [Ch.comma] (map elem_text elems))
    (JS.join [comma_token] (map (fun e => tokens_of e.1.2) elems)).
Proof.
  intros Hall. revert pos. induction Hall as [|e elems He Hall IH];
    intros pos Hv Hd Hp.
  - apply consumes_nil.
  - cbn [forallb] in Hv. apply andb_true_iff in Hv as [Hve Hv].
    apply andb_true_iff in Hve as [Hve Hw2].
    apply andb_true_iff in Hve as [Hw1 Hve].
    destruct elems as [|e' elems].
    + cbn [map] in Hd |- *. rewrite !join_singleton in Hd |- *.
      by apply (tokenize_element _ _ _ post).
    + cbn [map] in Hd |- *. rewrite !join_cons_cons in Hd |- *.
      cbn [map] in IH.
      rewrite <- !app_assoc in Hd.
      apply consumes_app.
      * apply (tokenize_element e s pos _ He Hw1 Hw2 Hd).
        apply delimited_comma.
      * pose proof (drop_more _ _ _ _ Hd) as Hd1. cbn [app] in Hd1.
        apply consumes_app.
        -- eapply consumes_char; [done|]. by eapply tokenize_comma.
        -- pose proof (drop_tail _ _ _ _ Hd1) as Hd2.
           apply IH; [done| |done]. cbn [length]. exact Hd2.
Qed.

Lemma render_string_nonempty k : render_string k <> [].
Proof. done. Qed.

Lemma tokenize_member m s pos post :
  tokenizes m.2.1.2 ->
  valid_member m = true ->
  drop pos s = member_text m ++ post -> delimited post ->
  consumes s pos (member_text m) (member_tokens m).
Proof.
  destruct m as [[[w1 k] w2] [[w3 v] w4]].
  unfold member_text, member_tokens, valid_member. cbn [fst snd].
  intros Hv Hval Hd Hp.
  repeat (apply andb_true_iff in Hval as [Hval ?]).
  rewrite <- !app_assoc in Hd.
  enough (Hgoal : consumes s pos
                (w1 ++ render_string k ++ w2 ++ [Ch.colon] ++ w3
                 ++ render v ++ w4)
                ([] ++ [string_token k] ++ [] ++ [colon_token] ++ []
                 ++ tokens_of v ++ []))
    by (by rewrite app_nil_r in Hgoal).
  apply consumes_app; [by eapply consumes_ws|].
  pose proof (drop_more _ _ _ _ Hd) as Hd1.
  apply consumes_app.
  { apply consumes_one; [done|]. by eapply tokenize_string. }
  pose proof (drop_more _ _ _ _ Hd1) as Hd2.
  apply consumes_app; [by eapply consumes_ws|].
  pose proof (drop_more _ _ _ _ Hd2) as Hd3. cbn [app] in Hd3.
  apply consumes_app.
  { eapply consumes_char; [done|]. by eapply tokenize_colon. }
  pose proof (drop_tail _ _ _ _ Hd3) as Hd4. cbn [length].
  apply consumes_app; [by eapply consumes_ws|].
  pose proof (drop_more _ _ _ _ Hd4) as Hd5.
  apply consumes_app.
  - apply (Hv _ _ _ Hd5). by apply delimited_ws_app.
  - pose proof (drop_more _ _ _ _ Hd5) as Hd6. by eapply consumes_ws.
Qed.

Lemma tokenize_members members s pos post :
  Forall (fun m => tokenizes m.2.1.2) members ->
  forallb valid_member members = true ->
  drop pos s = JS.join [Ch.comma] (map member_text members) ++ post ->
  delimited post ->
  consumes s pos (JS.join [Ch.comma] (map member_text members))
    (JS.join [comma_token] (map member_tokens members)).
Proof.
  intros Hall. revert pos. induction Hall as [|m members Hm Hall IH];
    intros pos Hv Hd Hp.
  - apply consumes_nil.
  - cbn [forallb] in Hv. apply andb_true_iff in Hv as [Hvm Hv].
    destruct members as [|m' members].
    + cbn [map] in Hd |- *. rewrite !join_singleton in Hd |- *.
      by apply (tokenize_member _ _ _ post).
    + cbn [map] in Hd |- *. rewrite !join_cons_cons in Hd |- *.
      cbn [map] in IH.
      rewrite <- !app_assoc in Hd.
      apply consumes_app.
      * apply (tokenize_member m s pos _ Hm Hvm Hd).
        apply delimited_comma.
      * pose proof (drop_more _ _ _ _ Hd) as Hd1. cbn [app] in Hd1.
        apply consumes_app.
        -- eapply consumes_char; [done|]. by eapply tokenize_comma.
        -- pose proof (drop_tail _ _ _ _ Hd1) as Hd2.
           apply IH; [done| |done]. cbn [length]. exact Hd2.
Qed.

Lemma tokenize_value j : valid j = true -> tokenizes j.
Proof.
  induction j as [ | | |n|chars|w elems IH|w members IH]
    using json_nested_ind; intros Hv s pos post Hd Hp.
  - apply consumes_one; [done|]. apply (tokenize_literal _ _ _ post); auto.
  - apply consumes_one; [done|]. apply (tokenize_literal _ _ _ post); auto.
  - apply consumes_one; [done|]. apply (tokenize_literal _ _ _ post); auto.
  - apply consumes_one.
    + destruct (valid_number_inv n Hv) as (d & ds & Hi & _).
      cbn [render]. unfold render_number, magnitude_text. rewrite Hi.
      by destruct (jneg n).
    + by apply (tokenize_number _ _ _ post).
  - apply consumes_one; [done|]. by apply (tokenize_string _ _ _ post).
  - cbn [valid] in Hv. apply andb_true_iff in Hv as [Hw Hv].
    destruct elems as [|e elems].
    + cbn [render tokens_of map JS.join] in Hd |- *.
      rewrite <- !app_assoc in Hd. cbn [app] in Hd.
      change ([Ch.lbracket] ++ w ++ [Ch.rbracket])
        with ([Ch.lbracket] ++ (w ++ [Ch.rbracket])).
      change ([simple_token BRACKET [Ch.lbracket]] ++ [] ++ [simple_token BRACKET [Ch.rbracket]])
        with ([simple_token BRACKET [Ch.lbracket]] ++ ([] ++ [simple_token BRACKET [Ch.rbracket]])).
      apply consumes_app.
      { eapply consumes_char; [done|]. eapply tokenize_bracket; [|done]. tauto. }
      pose proof (drop_tail _ _ _ _ Hd) as Hd1. cbn [length].
      apply consumes_app; [by eapply consumes_ws|].
      pose proof (drop_more _ _ _ _ Hd1) as Hd2.
      eapply consumes_char; [done|]. eapply tokenize_bracket; [|done]. tauto.
    + assert (Hr : render (JArray w (e :: elems))
                   = [Ch.lbracket]
                     ++ JS.join [Ch.comma] (map elem_text (e :: elems))
                     ++ [Ch.rbracket]) by done.
      assert (Ht : tokens_of (JArray w (e :: elems))
                   = [simple_token BRACKET [Ch.lbracket]]
                     ++ JS.join [comma_token]
                          (map (fun e => tokens_of e.1.2) (e :: elems))
                     ++ [simple_token BRACKET [Ch.rbracket]]) by done.
      rewrite Hr in Hd |- *. rewrite Ht.
      rewrite <- !app_assoc in Hd. cbn [app] in Hd.
      apply consumes_app.
      { eapply consumes_char; [done|]. eapply tokenize_bracket; [|done]. tauto. }
      pose proof (drop_tail _ _ _ _ Hd) as Hd1. cbn [length].
      apply consumes_app.
      { apply (tokenize_elements _ _ _ (Ch.rbracket :: post)); try done.
        - apply Forall_forall. intros x Hx. rewrite Forall_forall in IH.
          apply IH; [done|]. rewrite forallb_forall in Hv.
          apply list_elem_of_In in Hx. specialize (Hv x Hx).
          apply andb_true_iff in Hv as [Hv _].
          by apply andb_true_iff in Hv as [_ Hv].
        - apply delimited_rbracket. }
      pose proof (drop_more _ _ _ _ Hd1) as Hd2.
      eapply consumes_char; [done|]. eapply tokenize_bracket; [|done]. tauto.
  - cbn [valid] in Hv. apply andb_true_iff in Hv as [Hw Hv].
    destruct members as [|m members].
    + cbn [render tokens_of map JS.join] in Hd |- *.
      rewrite <- !app_assoc in Hd. cbn [app] in Hd.
      change ([Ch.lbrace] ++ w ++ [Ch.rbrace])
        with ([Ch.lbrace] ++ (w ++ [Ch.rbrace])).
      change ([simple_token BRACKET [Ch.lbrace]] ++ [] ++ [simple_token BRACKET [Ch.rbrace]])
        with ([simple_token BRACKET [Ch.lbrace]] ++ ([] ++ [simple_token BRACKET [Ch.rbrace]])).
      apply consumes_app.
      { eapply consumes_char; [done|]. eapply tokenize_bracket; [|done]. tauto. }
      pose proof (drop_tail _ _ _ _ Hd) as Hd1. cbn [length].
      apply consumes_app; [by eapply consumes_ws|].
      pose proof (drop_more _ _ _ _ Hd1) as Hd2.
      eapply consumes_char; [done|]. eapply tokenize_bracket; [|done]. tauto.
    + assert (Hr : render (JObject w (m :: members))
                   = [Ch.lbrace]
                     ++ JS.join [Ch.comma] (map member_text (m :: members))
                     ++ [Ch.rbrace]) by done.
      assert (Ht : tokens_of (JObject w (m :: members))
                   = [simple_token BRACKET [Ch.lbrace]]
                     ++ JS.join [comma_token]
                          (map member_tokens (m :: members))
                     ++ [simple_token BRACKET [Ch.rbrace]]) by done.
      rewrite Hr in Hd |- *. rewrite Ht.
      rewrite <- !app_assoc in Hd. cbn [app] in Hd.
      apply consumes_app.
      { eapply consumes_char; [done|]. eapply tokenize_bracket; [|done]. tauto. }
      pose proof (drop_tail _ _ _ _ Hd) as Hd1. cbn [length].
      apply consumes_app.
      { apply (tokenize_members _ _ _ (Ch.rbrace :: post)); try done.
        - apply Forall_forall. intros x Hx. rewrite Forall_forall in IH.
          apply IH; [done|]. rewrite forallb_forall in Hv.
          apply list_elem_of_In in Hx. specialize (Hv x Hx).
          apply andb_true_iff in Hv as [Hv _].
          by apply andb_true_iff in Hv as [_ Hv].
        - apply delimited_rbrace. }
      pose proof (drop_more _ _ _ _ Hd1) as Hd2.
      eapply consumes_char; [done|]. eapply tokenize_bracket; [|done]. tauto.
Qed.

(** The tokenizer cuts a strict JSON text into the tokens of its value. *)
Lemma tokenize_text (e : str * json * str) :
  valid_text e = true ->
  tokenize (render_text e) = tokens_of e.1.2.
Proof.
  intros Hv. unfold valid_text in Hv.
  apply andb_true_iff in Hv as [Hv Hw2]. apply andb_true_iff in Hv as [Hw1 Hv].
  assert (Hd : drop 0 (render_text e) = elem_text e ++ []).
  { by rewrite app_nil_r. }
  destruct (tokenize_element e (render_text e) 0 [] (tokenize_value _ Hv)
              Hw1 Hw2 Hd I) as (n & Hn & Hrun).
  unfold tokenize.
  replace (length (render_text e))
    with (n + (length (render_text e) - n)) by (unfold elem_text, render_text in *; lia).
  rewrite Hrun. simpl.
  destruct (length (render_text e) - n); [done|].
  simpl. unfold elem_text, render_text. by rewrite lookup_ge_None_2.
Qed.

End tokenizer_strict.

(** ** The leaves of a strict JSON text *)

Section strict_leaves.
Import Store Parser Strict.

Lemma string_chars_char c rest content rest' :
  valid_char c = true ->
  JS.string_chars rest = Some (content, rest') ->
  JS.string_chars (render_char c ++ rest) = Some (char_value c :: content, rest').
Proof.
  intros Hv Hr. destruct c as [c|e|h1 h2 h3 h4]; simpl in Hv.
  - bool_hyps. cbn [render_char app JS.string_chars char_value].
    rewrite (proj2 (N.eqb_neq c Ch.dquote)) by done.
    rewrite (proj2 (N.eqb_neq c Ch.backslash)) by done.
    rewrite (proj2 (N.ltb_ge c 32)) by done. by rewrite Hr.
  - apply bool_decide_eq_true in Hv as [x Hx].
    cbn [render_char app JS.string_chars char_value].
    change ((Ch.backslash =? Ch.dquote)%N) with false.
    change ((Ch.backslash =? Ch.backslash)%N) with true. cbn [andb].
    assert ((e =? 117)%N = false) as ->.
    { apply N.eqb_neq. intros ->. done. }
    by rewrite Hx, Hr.
  - rewrite !andb_true_iff in Hv. destruct Hv as (H1 & H2 & H3 & H4 & _).
    apply bool_decide_eq_true in H1 as [d1 Hd1], H2 as [d2 Hd2],
      H3 as [d3 Hd3], H4 as [d4 Hd4].
    cbn [render_char app JS.string_chars char_value].
    change ((Ch.backslash =? Ch.dquote)%N) with false.
    change ((Ch.backslash =? Ch.backslash)%N) with true.
    change ((117 =? 117)%N) with true. cbn [andb].
    by rewrite Hd1, Hd2, Hd3, Hd4, Hr.
Qed.

Lemma string_chars_render chars rest :
  forallb valid_char chars = true ->
  JS.string_chars (concat (map render_char chars) ++ Ch.dquote :: rest)
  = Some (string_value chars, rest).
Proof.
  induction chars as [|c chars IH]; intros Hv.
  - done.
  - simpl in Hv. apply andb_true_iff in Hv as [Hc Hv].
    cbn [map concat string_value]. rewrite <- app_assoc.
    by apply string_chars_char, IH.
Qed.

Lemma JSON_parse_render chars :
  forallb valid_char chars = true ->
  JS.JSON_parse (render_string chars) = Some (string_value chars).
Proof.
  intros Hv. unfold JS.JSON_parse, render_string.
  change (JS.drop_while JS.is_json_space (Ch.dquote :: ?l)) with (Ch.dquote :: l).
  change ((Ch.dquote =? Ch.dquote)%N) with true. cbn match.
  by rewrite (string_chars_render chars [] Hv).
Qed.

Lemma render_char_ge32 c x :
  valid_char c = true -> x ∈ render_char c -> (32 <= x)%N.
Proof.
  intros Hv Hx. destruct c as [c|e|h1 h2 h3 h4]; simpl in Hv, Hx.
  - apply list_elem_of_singleton in Hx as ->. bool_hyps. done.
  - apply bool_decide_eq_true in Hv as [y Hy].
    apply elem_of_cons in Hx as [->|Hx]; [done|].
    apply list_elem_of_singleton in Hx as ->.
    unfold JS.simple_escape in Hy.
    repeat (case_match; [bool_hyps; subst; done|]). done.
  - rewrite !andb_true_iff in Hv. destruct Hv as (H1 & H2 & H3 & H4 & _).
    apply bool_decide_eq_true in H1, H2, H3, H4.
    assert (Hhex : forall h, is_Some (JS.hex_digit_value h) -> (32 <= h)%N).
    { intros h [d Hd]. unfold JS.hex_digit_value, JS.digit_value, is_digit in Hd.
      destruct ((48 <=? h)%N && (h <=? 57)%N) eqn:E1; [bool_hyps; lia|].
      destruct ((97 <=? h)%N && (h <=? 122)%N) eqn:E2; [bool_hyps; lia|].
      destruct ((65 <=? h)%N && (h <=? 90)%N) eqn:E3; [bool_hyps; lia|done]. }
    repeat (apply elem_of_cons in Hx as [->|Hx]; [first [done|by apply Hhex]|]).
    by apply elem_of_nil in Hx.
Qed.

Lemma escape_controls_id (l : str) :
  Forall (fun x => (32 <= x)%N) l ->
  mbind (M := list) (fun c => if (c <? 32)%N then escape_control c else [c]) l
  = l.
Proof.
  induction 1 as [|x l Hx Hl IH]; [done|].
  cbn [mbind list_bind]. rewrite (proj2 (N.ltb_ge x 32)) by done.
  simpl. f_equal. exact IH.
Qed.

Lemma render_string_ge32 chars :
  forallb valid_char chars = true ->
  Forall (fun x => (32 <= x)%N) (render_string chars).
Proof.
  intros Hv. unfold render_string. constructor; [done|].
  apply Forall_app. split; [|by constructor].
  apply Forall_forall. intros x Hx.
  apply list_elem_of_In, in_concat in Hx as (l & Hl & Hx).
  apply in_map_iff in Hl as (c & <- & Hc).
  rewrite forallb_forall in Hv.
  apply (render_char_ge32 c); [by apply Hv|by apply list_elem_of_In].
Qed.

Lemma parseStringValue_render chars :
  forallb valid_char chars = true ->
  parseStringValue (string_token chars) = Ok (string_value chars).
Proof.
  intros Hv. unfold parseStringValue, string_token. cbn [value simple_token].
  rewrite escape_controls_id by by apply render_string_ge32.
  by rewrite JSON_parse_render.
Qed.

Lemma take_while_app p text post :
  forallb p text = true ->
  match post with [] => True | c :: _ => p c = false end ->
  JS.take_while p (text ++ post) = text.
Proof.
  intros Ht Hp. unfold JS.take_while. rewrite span_len_app by done.
  by rewrite take_app_length.
Qed.

Lemma drop_while_app p text post :
  forallb p text = true ->
  match post with [] => True | c :: _ => p c = false end ->
  JS.drop_while p (text ++ post) = post.
Proof.
  intros Ht Hp. unfold JS.drop_while. rewrite span_len_app by done.
  by rewrite drop_app_length.
Qed.

Lemma exponent_part_valid marker sign digits :
  (marker = 101%N \/ marker = 69%N) ->
  (sign = [] \/ sign = [Ch.plus] \/ sign = [Ch.minus]) ->
  digits <> [] -> forallb is_digit digits = true ->
  JS.exponent_part (marker :: sign ++ digits)
  = let e := Z.of_N (JS.digits_value 10 digits) in
    if bool_decide (sign = [Ch.minus]) then (- e)%Z else e.
Proof.
  intros Hm Hs Hne Hd. unfold JS.exponent_part.
  assert (((marker =? 101)%N || (marker =? 69)%N) = true) as ->.
  { destruct Hm as [-> | ->]; done. }
  assert (Htw : JS.take_while is_digit digits = digits).
  { rewrite <- (app_nil_r digits) at 1. by apply take_while_app. }
  destruct digits as [|d ds]; [done|].
  assert (Hd0 : is_digit d = true) by (simpl in Hd; by bool_hyps).
  assert (Hdr := digit_range d Hd0).
  destruct Hs as [-> | [-> | ->]].
  - cbn [app JS.split_sign].
    rewrite (proj2 (N.eqb_neq d Ch.minus)) by (unfold Ch.minus; lia).
    rewrite (proj2 (N.eqb_neq d Ch.plus)) by (unfold Ch.plus; lia).
    by rewrite Htw.
  - cbn [app JS.split_sign].
    change ((Ch.plus =? Ch.minus)%N) with false.
    change ((Ch.plus =? Ch.plus)%N) with true. cbn match.
    by rewrite Htw.
  - cbn [app JS.split_sign].
    change ((Ch.minus =? Ch.minus)%N) with true. cbn match.
    by rewrite Htw.
Qed.

Lemma parseFloat_magnitude n :
  valid_number n = true ->
  JS.parseFloat (magnitude_text n) = number_value (mkNumber false (jint n) (jfrac n) (jexp n)).
Proof.
  intros (d & ds & Hi & Hd & Hds & _ & Hf & He)%valid_number_inv.
  assert (Hdr := digit_range d Hd).
  unfold JS.parseFloat, number_value, magnitude_text.
  cbn [jneg jint jfrac jexp JS.signed]. rewrite Hi.
  set (tail := (match jfrac n with Some f => Ch.dot :: f | None => [] end
                ++ match jexp n with
                   | Some (marker, sign, digits) => marker :: sign ++ digits
                   | None => []
                   end)).
  assert (Htail : match tail with [] => True | c :: _ => is_digit c = false end).
  { subst tail. destruct (jfrac n) as [f|]; [done|].
    destruct (jexp n) as [[[marker sign] digits]|]; [|done].
    destruct He as ([-> | ->] & _); done. }
  assert (Hsp : JS.drop_while is_regex_space ((d :: ds) ++ tail)
                = (d :: ds) ++ tail).
  { unfold JS.drop_while. cbn [app span_len].
    assert (is_regex_space d = false) as ->; [|done].
    unfold is_regex_space.
    rewrite (proj2 (N.leb_gt d 13)) by lia.
    rewrite (proj2 (N.leb_gt 8192 d)) by lia.
    rewrite !andb_false_r, !andb_false_l.
    repeat (rewrite (proj2 (N.eqb_neq d _)) by lia). done. }
  rewrite Hsp.
  assert (Hsign : JS.split_sign ((d :: ds) ++ tail) = (false, (d :: ds) ++ tail)).
  { cbn [app JS.split_sign].
    rewrite (proj2 (N.eqb_neq d Ch.minus)) by (unfold Ch.minus; lia).
    by rewrite (proj2 (N.eqb_neq d Ch.plus)) by (unfold Ch.plus; lia). }
  rewrite Hsign.
  assert (bool_decide (take 8 ((d :: ds) ++ tail) = lit "Infinity") = false)
    as ->.
  { apply bool_decide_eq_false. cbn. intros [= ->]. lia. }
  assert (Hdig : forallb is_digit (d :: ds) = true).
  { simpl. by rewrite Hd, Hds. }
  rewrite take_while_app, drop_while_app by done.
  subst tail. destruct (jfrac n) as [f|].
  - destruct Hf as [Hfne Hfd]. cbn [app default].
    change ((Ch.dot =? Ch.dot)%N) with true. cbn match.
    assert (Hexp : match match jexp n with
                         | Some (marker, sign, digits) => marker :: sign ++ digits
                         | None => []
                         end with [] => True | c :: _ => is_digit c = false end).
    { destruct (jexp n) as [[[marker sign] digits]|]; [|done].
      destruct He as ([-> | ->] & _); done. }
    rewrite take_while_app, drop_while_app by done.
    cbn [app]. f_equal. f_equal.
    destruct (jexp n) as [[[marker sign] digits]|]; [|done].
    destruct He as (Hm & Hs & Hne & Hdg).
    by rewrite exponent_part_valid.
  - cbn [app default].
    destruct (jexp n) as [[[marker sign] digits]|].
    + destruct He as (Hm & Hs & Hne & Hdg).
      assert ((marker =? Ch.dot)%N = false) as ->.
      { destruct Hm as [-> | ->]; done. }
      rewrite app_nil_r. cbn [app length]. f_equal.
      by rewrite exponent_part_valid.
    + rewrite !app_nil_r. done.
Qed.

Lemma parseNumberValue_valid n :
  valid_number n = true ->
  parseNumberValue (number_token n) = number_value n.
Proof.
  intros Hv. unfold parseNumberValue, number_token.
  cbn [radix value isNegative].
  rewrite !bool_decide_eq_false_2 by done.
  rewrite parseFloat_magnitude by done.
  unfold number_value. cbn [jneg jint jfrac jexp JS.signed].
  by destruct (jneg n).
Qed.

Lemma parseValueToken_number n :
  valid_number n = true ->
  parseValueToken (number_token n) = Ok (VNumber (number_value n)).
Proof.
  intros Hv. unfold parseValueToken. cbn [number_token type].
  by rewrite parseNumberValue_valid.
Qed.

Lemma parseValueToken_null :
  parseValueToken (simple_token IDENTIFIER (lit "null")) = Ok VNull.
Proof. by vm_compute. Qed.

Lemma parseValueToken_true :
  parseValueToken (simple_token IDENTIFIER (lit "true")) = Ok (VBool true).
Proof. by vm_compute. Qed.

Lemma parseValueToken_false :
  parseValueToken (simple_token IDENTIFIER (lit "false")) = Ok (VBool false).
Proof. by vm_compute. Qed.

End strict_leaves.

(** ** The parser on the tokens of a strict JSON text *)

Section parser_strict.
Import Store Parser Strict.

Lemma parse_run_refl tokens i st : parse_run tokens i 0 i st st.
Proof. by intros fuel. Qed.

Lemma parse_run_trans tokens i1 n1 i2 n2 i3 st1 st2 st3 :
  parse_run tokens i1 n1 i2 st1 st2 -> parse_run tokens i2 n2 i3 st2 st3 ->
  parse_run tokens i1 (n1 + n2) i3 st1 st3.
Proof. intros H1 H2 fuel. rewrite <- Nat.add_assoc, H1. apply H2. Qed.

Lemma parse_run_step tokens i token st i' st' :
  tokens !! i = Some token -> parse_step tokens i token st = Next i' st' ->
  parse_run tokens i 1 i' st st'.
Proof. intros Ht Hs fuel. cbn [Nat.add parse_loop]. by rewrite Ht, Hs. Qed.

Lemma alter_as_insert {A} (f : A -> A) (l : list A) i x :
  l !! i = Some x -> alter f i l = <[i := f x]> l.
Proof.
  revert i. induction l as [|y l IH]; intros [|i] H; simplify_eq/=; [done|].
  f_equal. by apply IH.
Qed.

(** *** Reading trees out of a growing store *)

Lemma ge_value_mono lo lo' v : ge_value lo v -> lo' <= lo -> ge_value lo' v.
Proof. destruct v; simpl; try done. lia. Qed.

Lemma Forall2_impl_Forall {A B} (P : A -> Prop) (R R' : A -> B -> Prop) l k :
  Forall P l -> Forall2 R l k ->
  (forall x y, P x -> R x y -> R' x y) -> Forall2 R' l k.
Proof.
  intros HP HR Himpl. induction HR as [|x y l k Hxy HR IH];
    inversion HP; simplify_eq; constructor; auto.
Qed.

Lemma reify_transport fuel : forall fuel' h h' lo v t,
  heap_fwd h ->
  (forall b o, lo <= b -> h !! b = Some o -> h' !! b = Some o) ->
  ge_value lo v -> fuel <= fuel' ->
  reify fuel h v = Some t -> reify fuel' h' v = Some t.
Proof.
  induction fuel as [|fuel IH];
    intros fuel' h h' lo v t Hfwd Hagree Hge Hle Hr.
  - destruct v; destruct fuel'; done.
  - destruct fuel' as [|fuel']; [lia|].
    destruct v as [| | | | |a]; try done.
    cbn [reify] in Hr |- *. simpl in Hge.
    destruct (h !! a) as [o|] eqn:Ha; [|done].
    rewrite (Hagree a o Hge Ha).
    pose proof (Hfwd a o Ha) as Hcell.
    assert (Hsub : forall x t', ge_value (S a) x ->
              reify fuel h x = Some t' -> reify fuel' h' x = Some t').
    { intros x t' Hx Hrx. apply (IH fuel' h h' lo); try done; [|lia].
      eapply ge_value_mono; [exact Hx|lia]. }
    destruct o as [p props|elems].
    + destruct Hcell as [Hp Hprops].
      apply bind_Some in Hr as (p' & Hp' & Hr).
      apply bind_Some in Hr as (props' & Hprops' & Hr).
      simplify_eq.
      assert (match p with
              | ObjectPrototype => Some TObjectPrototype
              | NullPrototype => Some TNull
              | RefPrototype b => reify fuel' h' (VRef b)
              end = Some p') as ->.
      { destruct p; try done. apply Hsub; [simpl; lia|done]. }
      cbn [mbind option_bind].
      assert (mapM (fun kv => pair kv.1 <$> reify fuel' h' kv.2) props
              = Some props') as ->; [|done].
      apply mapM_Some. apply mapM_Some in Hprops'.
      rewrite Forall_fmap in Hprops.
      eapply Forall2_impl_Forall; [exact Hprops|exact Hprops'|].
      intros [k x] y Hx Hxy. simpl in *.
      destruct (reify fuel h x) as [t'|] eqn:E; [|done].
      by rewrite (Hsub x t' Hx E).
    + apply fmap_Some in Hr as (ts & Hts & ->).
      assert (mapM (reify fuel' h') elems = Some ts) as ->; [|done].
      apply mapM_Some. apply mapM_Some in Hts.
      eapply Forall2_impl_Forall; [exact Hcell|exact Hts|].
      intros x y Hx Hxy. by apply Hsub.
Qed.

Lemma reify_mono fuel fuel' h v t :
  heap_fwd h -> fuel <= fuel' ->
  reify fuel h v = Some t -> reify fuel' h v = Some t.
Proof.
  intros Hfwd Hle. apply (reify_transport fuel fuel' h h 0); try done.
  destruct v; simpl; try done; lia.
Qed.

Lemma reify_primitive fuel h v :
  match v with VRef _ => False | _ => True end ->
  reify fuel h v = reify 0 [] v.
Proof. destruct v; destruct fuel; done. Qed.

(** *** The store stays forward *)

Lemma set_own_Forall {V} (P : V -> Prop) (props : list (str * V)) k v :
  Forall P props.*2 -> P v -> Forall P (set_own props k v).*2.
Proof.
  intros Hp Hv. induction props as [|[k' v'] props IH]; simpl.
  - by constructor.
  - inversion Hp; simplify_eq. case_bool_decide; simpl; constructor; auto.
Qed.

Lemma fwd_cell_linked a c cell v :
  fwd_cell a cell -> ge_value (S a) v -> fwd_cell a (linked c cell v).
Proof.
  destruct cell as [p props|elems]; simpl.
  - intros [Hp Hprops] Hv. split; [done|]. by apply set_own_Forall.
  - intros He Hv. apply Forall_app. split; [done|]. by constructor.
Qed.

Lemma heap_fwd_insert h a o :
  heap_fwd h -> fwd_cell a o -> heap_fwd (<[a := o]> h).
Proof.
  intros Hfwd Ho b o' Hb. destruct (decide (a = b)) as [->|Hne].
  - destruct (decide (b < length h)).
    + rewrite list_lookup_insert_eq in Hb by done. by simplify_eq.
    + rewrite list_insert_ge in Hb by lia. by apply Hfwd.
  - rewrite list_lookup_insert_ne in Hb by done. by apply Hfwd.
Qed.

Lemma heap_fwd_app h cells :
  heap_fwd h ->
  (forall i o, cells !! i = Some o -> fwd_cell (length h + i) o) ->
  heap_fwd (h ++ cells).
Proof.
  intros Hfwd Hc b o Hb. apply lookup_app_Some in Hb as [Hb|[Hlen Hb]].
  - by apply Hfwd.
  - replace b with (length h + (b - length h)) by lia. by apply Hc.
Qed.

Lemma heap_fwd_snoc h o :
  heap_fwd h -> fwd_cell (length h) o -> heap_fwd (h ++ [o]).
Proof.
  intros Hfwd Ho. apply heap_fwd_app; [done|].
  intros [|i] o' Hi; simplify_eq/=. by rewrite Nat.add_0_r.
Qed.

(** *** The steps of the loop in a state that expects a value *)

Lemma property_set_slot h a k v p props :
  h !! a = Some (JSObject p props) -> k <> proto_key ->
  property_set h a k v = <[a := JSObject p (set_own props k v)]> h.
Proof.
  intros Ha Hk. unfold property_set. rewrite Ha.
  by rewrite (bool_decide_eq_false_2 _ Hk).
Qed.

Lemma array_push_slot h a v elems :
  h !! a = Some (JSArray elems) ->
  array_push h a v = <[a := JSArray (elems ++ [v])]> h.
Proof. intros Ha. unfold array_push. by rewrite Ha. Qed.

Lemma skip_next_is_comma tokens i post :
  drop (i + 1) tokens = post ->
  (if next_is_comma tokens i then i + 2 else i + 1) = i + 1 + skip post.
Proof.
  intros Hd. unfold next_is_comma, skip.
  rewrite <- (Nat.add_0_r (i + 1)), (drop_lookup _ _ _ 0 Hd).
  destruct post as [|t post]; simpl; [lia|].
  case_bool_decide; lia.
Qed.

Lemma not_key_position st r c cell :
  value_slot st r c cell -> is_key_position st = false.
Proof.
  intros [Hcur _ Hrec _ _ Hkey]. unfold is_key_position.
  rewrite (current_Some _ _ _ Hcur Hrec).
  destruct (ctype c); [|done]. by destruct Hkey as (k & -> & _).
Qed.

Lemma assign_in_slot st r c cell v tokens i :
  value_slot st r c cell ->
  assignValue v st tokens i
  = (AssignContinue (next_is_comma tokens i),
     after_value st r c cell v [] []).
Proof.
  intros [Hcur Htop Hrec Hcell Hkind Hkey]. unfold assignValue.
  rewrite (current_Some _ _ _ Hcur Hrec), Hcur.
  f_equal. unfold after_value. rewrite !app_nil_r.
  destruct st as [h cs stk cur]. destruct c as [t a key].
  simpl in *. subst cur.
  destruct cell as [p props|elems]; simpl in Hkind; subst t.
  - destruct Hkey as (k & -> & Hk). simpl.
    rewrite (property_set_slot _ _ _ _ _ _ Hcell Hk).
    unfold set_key, set_heap. simpl.
    by rewrite (alter_as_insert _ _ _ _ Hrec).
  - simpl in Hkey. subst key.
    rewrite (array_push_slot _ _ _ _ Hcell).
    unfold set_heap. simpl. f_equal.
    symmetry. by apply list_insert_id.
Qed.

Lemma create_in_slot t st r c cell :
  value_slot st r c cell ->
  createContainer t st
  = (mkState
       (<[cvalue c := linked c cell (VRef (length (heap_of st)))]> (heap_of st)
        ++ [match t with
            | OBJECT => JSObject ObjectPrototype []
            | ARRAY => JSArray []
            end])
       (<[r := clear_key c]> (containers st)
        ++ [mkContainer t (length (heap_of st)) None])
       (stacks st ++ [length (containers st)]) (Some r),
     length (containers st)).
Proof.
  intros [Hcur Htop Hrec Hcell Hkind Hkey]. unfold createContainer.
  destruct st as [h cs stk cur]. destruct c as [ct a key].
  simpl in *. subst cur. unfold current. simpl. rewrite Hrec. simpl.
  pose proof (lookup_lt_Some _ _ _ Hcell) as Hlt.
  assert (Hcell' : forall o, (h ++ [o]) !! a = Some cell).
  { intros o. by rewrite lookup_app_l. }
  destruct cell as [p props|elems]; simpl in Hkind; subst ct.
  - destruct Hkey as (k & -> & Hk). simpl.
    rewrite (property_set_slot _ a k _ p props (Hcell' _) Hk).
    rewrite (alter_as_insert _ _ _ _ Hrec).
    rewrite insert_app_l by done. simpl.
    by rewrite length_insert.
  - simpl in Hkey. subst key. simpl.
    rewrite (array_push_slot _ a _ elems (Hcell' _)).
    rewrite insert_app_l by done. simpl.
    rewrite (list_insert_id cs r) by done. done.
Qed.

(** *** The steps of the loop on the tokens of a text *)

Lemma step_scalar tokens i token post st r c cell v :
  drop i tokens = token :: post ->
  follows post ->
  type token = STRING \/ type token = NUMBER \/ type token = IDENTIFIER ->
  parseValueToken token = Ok v ->
  value_slot st r c cell ->
  parse_step tokens i token st
  = Next (i + 1 + skip post) (after_value st r c cell v [] []).
Proof.
  intros Hd Hpost Hty Hv Hslot. unfold parse_step.
  assert (Hb : type token <> BRACKET).
  { intros E. rewrite E in Hty. by destruct Hty as [?|[?|?]]. }
  assert (Hp : type token <> PUNCTUATION).
  { intros E. rewrite E in Hty. by destruct Hty as [?|[?|?]]. }
  rewrite (bool_decide_eq_false_2 _ Hb).
  rewrite (not_key_position _ _ _ _ Hslot).
  rewrite (bool_decide_eq_false_2 _ Hp).
  unfold step_value.
  assert (decode_value tokens i token st = Ok (v, i)) as ->.
  { unfold decode_value. rewrite Hv, (slot_current _ _ _ _ Hslot).
    destruct (type token) eqn:E; try done.
    rewrite (drop_tail _ _ _ _ Hd).
    assert (identifier_run post = []) as ->; [|done].
    destruct post as [|t post]; [done|]. simpl in *. by destruct (type t). }
  rewrite (assign_in_slot _ _ _ _ _ _ _ Hslot).
  f_equal. apply skip_next_is_comma. by apply drop_tail in Hd.
Qed.

Lemma step_open t tokens i st r c cell :
  value_slot st r c cell ->
  parse_step tokens i
    (simple_token BRACKET
       match t with OBJECT => [Ch.lbrace] | ARRAY => [Ch.lbracket] end) st
  = Next (i + 1) (after_open t st r c cell).
Proof.
  intros Hslot. unfold parse_step, step_bracket.
  change (bool_decide (type (simple_token BRACKET _) = BRACKET)) with true.
  cbn match.
  assert (handleBracketToken
            (simple_token BRACKET
               match t with OBJECT => [Ch.lbrace] | ARRAY => [Ch.lbracket] end)
            st tokens i
          = let '(st', c) := createContainer t st in
            Ok (BracketContinue (Some c) false, st')) as ->.
  { by destruct t. }
  by rewrite (create_in_slot t _ _ _ _ Hslot).
Qed.

Lemma step_close t tokens i post st stk m r :
  drop i tokens
  = simple_token BRACKET
      match t with OBJECT => [Ch.rbrace] | ARRAY => [Ch.rbracket] end :: post ->
  stacks st = stk ++ [m] -> last stk = Some r ->
  parse_step tokens i
    (simple_token BRACKET
       match t with OBJECT => [Ch.rbrace] | ARRAY => [Ch.rbracket] end) st
  = Next (i + 1 + skip post)
      (mkState (heap_of st) (containers st) stk (Some r)).
Proof.
  intros Hd Hstk Htop. unfold parse_step, step_bracket.
  change (bool_decide (type (simple_token BRACKET _) = BRACKET)) with true.
  cbn match.
  assert (handleBracketToken
            (simple_token BRACKET
               match t with OBJECT => [Ch.rbrace] | ARRAY => [Ch.rbracket] end)
            st tokens i
          = closeContainer st tokens i
              match t with
              | OBJECT => UnmatchedClosingBrace
              | ARRAY => UnmatchedClosingBracket
              end) as ->.
  { by destruct t. }
  unfold closeContainer. rewrite Hstk, last_snoc, removelast_last, Htop.
  simpl. f_equal. apply skip_next_is_comma. by apply drop_tail in Hd.
Qed.

Lemma step_name tokens i k st m n p props :
  forallb valid_char k = true ->
  key_slot st m n p props ->
  parse_step tokens i (string_token k) st
  = Next (i + 1) (set_key m (Some (string_value k)) st).
Proof.
  intros Hk [Hcur Htop Hrec Hcell]. unfold parse_step.
  change (bool_decide (type (string_token k) = BRACKET)) with false.
  cbn match.
  assert (is_key_position st = true) as ->.
  { apply is_key_position_spec. exists (mkContainer OBJECT n None).
    split; [|done]. by apply (current_Some _ m). }
  unfold step_key, handleObjectKey. change (type (string_token k)) with STRING.
  cbn match. by rewrite parseStringValue_render, Hcur.
Qed.

Lemma step_colon tokens i next post st r c cell :
  drop i tokens = colon_token :: next :: post ->
  value next <> [Ch.comma] -> value next <> [Ch.rbrace] ->
  value_slot st r c cell ->
  parse_step tokens i colon_token st = Next (i + 1) st.
Proof.
  intros Hd Hc Hb Hslot. unfold parse_step.
  change (bool_decide (type colon_token = BRACKET)) with false. cbn match.
  rewrite (not_key_position _ _ _ _ Hslot).
  change (bool_decide (type colon_token = PUNCTUATION)) with true. cbn match.
  unfold step_punctuation, handlePunctuationToken.
  rewrite bool_decide_eq_false_2.
  2:{ intros E. pose proof (slot_top _ _ _ _ Hslot) as Ht.
      by rewrite E in Ht. }
  change (bool_decide (value colon_token = [Ch.comma])) with false.
  change (bool_decide (value colon_token = [Ch.colon])) with true. cbn match.
  rewrite (drop_head _ _ _ _ (drop_tail _ _ _ _ Hd)).
  by rewrite !bool_decide_eq_false_2.
Qed.

Lemma tokens_of_head j :
  valid j = true ->
  exists t rest,
    tokens_of j = t :: rest /\ value t <> [Ch.comma] /\ value t <> [Ch.rbrace].
Proof.
  destruct j as [ | | |n|s|w elems|w members]; intros Hv.
  1-3: by do 2 eexists; split_and!; [reflexivity|..].
  - simpl in Hv. apply valid_number_inv in Hv as (d & ds & Hi & Hd & _).
    apply digit_range in Hd.
    do 2 eexists. split; [reflexivity|].
    unfold number_token, magnitude_text. cbn [value]. rewrite Hi.
    split; intros [= ->]; unfold Ch.comma, Ch.rbrace in *; lia.
  - by do 2 eexists; split_and!; [reflexivity|..].
  - by do 2 eexists; split_and!; [reflexivity|..].
  - by do 2 eexists; split_and!; [reflexivity|..].
Qed.

(** *** States that expect a value or a name *)

Lemma after_open_array st r c cell :
  value_slot st r c cell ->
  value_slot (after_open ARRAY st r c cell) (length (containers st))
    (mkContainer ARRAY (length (heap_of st)) None) (JSArray []).
Proof.
  intros [Hcur Htop Hrec Hcell Hkind Hkey].
  pose proof (lookup_lt_Some _ _ _ Hrec).
  split; simpl; try done.
  - by rewrite last_snoc.
  - rewrite lookup_app_r by by rewrite length_insert.
    by rewrite length_insert, Nat.sub_diag.
  - rewrite lookup_app_r by by rewrite length_insert.
    by rewrite length_insert, Nat.sub_diag.
Qed.

Lemma after_open_object st r c cell :
  value_slot st r c cell ->
  key_slot (after_open OBJECT st r c cell) (length (containers st))
    (length (heap_of st)) ObjectPrototype [].
Proof.
  intros [Hcur Htop Hrec Hcell Hkind Hkey].
  split; simpl; try done.
  - by rewrite last_snoc.
  - rewrite lookup_app_r by by rewrite length_insert.
    by rewrite length_insert, Nat.sub_diag.
  - rewrite lookup_app_r by by rewrite length_insert.
    by rewrite length_insert, Nat.sub_diag.
Qed.

Lemma after_open_fwd t st r c cell :
  value_slot st r c cell -> heap_fwd (heap_of st) ->
  heap_fwd (heap_of (after_open t st r c cell)).
Proof.
  intros [Hcur Htop Hrec Hcell Hkind Hkey] Hfwd. simpl.
  pose proof (lookup_lt_Some _ _ _ Hcell).
  apply heap_fwd_snoc.
  - apply heap_fwd_insert; [done|]. apply fwd_cell_linked; [by apply Hfwd|].
    simpl. lia.
  - destruct t; simpl; [split|]; done.
Qed.

Lemma after_value_fwd st r c cell v :
  value_slot st r c cell -> heap_fwd (heap_of st) ->
  ge_value (length (heap_of st)) v ->
  heap_fwd (heap_of (after_value st r c cell v [] [])).
Proof.
  intros [Hcur Htop Hrec Hcell Hkind Hkey] Hfwd Hv. simpl.
  pose proof (lookup_lt_Some _ _ _ Hcell).
  rewrite app_nil_r.
  apply heap_fwd_insert; [done|]. apply fwd_cell_linked; [by apply Hfwd|].
  eapply ge_value_mono; [done|lia].
Qed.

Lemma after_value_array st m n vs0 v cells recs :
  value_slot st m (mkContainer ARRAY n None) (JSArray vs0) ->
  after_value st m (mkContainer ARRAY n None) (JSArray vs0) v cells recs
  = mkState (<[n := JSArray (vs0 ++ [v])]> (heap_of st) ++ cells)
      (containers st ++ recs) (stacks st) (Some m).
Proof.
  intros [_ _ Hrec _ _ _]. unfold after_value. simpl. f_equal. f_equal.
  by apply list_insert_id.
Qed.

(** The store after a cell before [lo] was replaced and cells were
    appended agrees with the store before, from [lo] on. *)
Lemma agree_insert_app (h : heap) n o cells lo :
  n < lo ->
  forall b o', lo <= b -> h !! b = Some o' ->
    (<[n := o]> h ++ cells) !! b = Some o'.
Proof.
  intros Hn b o' Hb Ho'. apply lookup_app_l_Some.
  rewrite list_lookup_insert_ne by lia. done.
Qed.

(** *** The elements of an array *)

Lemma parse_elements (elems : list (str * json * str)) :
  Forall (fun e => parses e.1.2) elems ->
  forall tokens i post st m n vs0,
    drop i tokens
    = JS.join [comma_token] (map (fun e => tokens_of e.1.2) elems)
      ++ simple_token BRACKET [Ch.rbracket] :: post ->
    value_slot st m (mkContainer ARRAY n None) (JSArray vs0) ->
    heap_fwd (heap_of st) ->
    exists k vs cells recs,
      parse_run tokens i k
        (i + length (JS.join [comma_token]
                       (map (fun e => tokens_of e.1.2) elems)))
        st (mkState (<[n := JSArray (vs0 ++ vs)]> (heap_of st) ++ cells)
              (containers st ++ recs) (stacks st) (Some m)) /\
      Forall (ge_value (length (heap_of st))) vs /\
      heap_fwd (<[n := JSArray (vs0 ++ vs)]> (heap_of st) ++ cells) /\
      Forall2 (fun v (e : str * json * str) =>
                 reify (length cells)
                   (<[n := JSArray (vs0 ++ vs)]> (heap_of st) ++ cells) v
                 = Some (denote e.1.2)) vs elems.
Proof.
  induction 1 as [|e elems He Helems IH];
    intros tokens i post st m n vs0 Hd Hslot Hfwd.
  - exists 0, [], [], [].
    destruct Hslot as [Hcur Htop Hrec Hcell Hkind Hkey].
    destruct st as [h cs stk cur]. simpl in *. subst cur.
    rewrite !app_nil_r. rewrite (list_insert_id h n) by done.
    split; [rewrite Nat.add_0_r; apply parse_run_refl|].
    split; [done|]. split; [done|]. constructor.
  - set (J := JS.join [comma_token] (map (fun e : str * json * str => tokens_of e.1.2) elems))
      in *.
    set (sep := match elems with [] => [] | _ => comma_token :: J end).
    assert (Hjoin : JS.join [comma_token]
                      (map (fun e : str * json * str => tokens_of e.1.2) (e :: elems))
                    = tokens_of e.1.2 ++ sep).
    { subst sep J. destruct elems as [|e2 elems']; cbn [map].
      - by rewrite join_singleton, app_nil_r.
      - by rewrite join_cons_cons. }
    rewrite Hjoin in Hd |- *. rewrite <- app_assoc in Hd.
    assert (Hfol : follows (sep ++ simple_token BRACKET [Ch.rbracket] :: post)).
    { subst sep. by destruct elems. }
    destruct (He tokens i _ st m _ _ Hd Hfol Hslot Hfwd)
      as (k1 & v & cells1 & recs1 & Hrun1 & Hge1 & Hfwd1 & Hre1).
    rewrite (after_value_array _ _ _ _ _ _ _ Hslot) in Hrun1, Hfwd1, Hre1.
    set (i1 := i + length (tokens_of e.1.2)
               + skip (sep ++ simple_token BRACKET [Ch.rbracket] :: post))
      in *.
    assert (Hnext :
      drop i1 tokens = J ++ simple_token BRACKET [Ch.rbracket] :: post /\
      i1 + length J = i + length (tokens_of e.1.2 ++ sep)).
    { apply drop_more in Hd. subst i1 sep J.
      destruct elems as [|e2 elems'].
      - simpl. rewrite !Nat.add_0_r. split; [done|]. by rewrite app_nil_r.
      - change (skip _) with 1. split; [by apply drop_tail in Hd|].
        rewrite length_app. simpl. lia. }
    destruct Hnext as [Hd1 Hidx].
    destruct Hslot as [Hcur Htop Hrec Hcell Hkind Hkey].
    destruct st as [h cs stk cur]. simpl in *. subst cur.
    pose proof (lookup_lt_Some _ _ _ Hcell) as Hn.
    set (st1 := mkState (<[n := JSArray (vs0 ++ [v])]> h ++ cells1)
                  (cs ++ recs1) stk (Some m)) in *.
    assert (Hslot1 : value_slot st1 m (mkContainer ARRAY n None)
                       (JSArray (vs0 ++ [v]))).
    { split; simpl; try done.
      - by apply lookup_app_l_Some.
      - apply lookup_app_l_Some. by apply list_lookup_insert_eq. }
    destruct (IH tokens i1 post st1 m n (vs0 ++ [v]) Hd1 Hslot1 Hfwd1)
      as (k2 & vs & cells2 & recs2 & Hrun2 & Hge2 & Hfwd2 & Hre2).
    simpl in Hrun2, Hge2, Hfwd2, Hre2.
    assert (Hheap :
      <[n := JSArray ((vs0 ++ [v]) ++ vs)]>
        (<[n := JSArray (vs0 ++ [v])]> h ++ cells1) ++ cells2
      = <[n := JSArray (vs0 ++ v :: vs)]> h ++ cells1 ++ cells2).
    { rewrite insert_app_l by (by rewrite length_insert).
      rewrite list_insert_insert_eq.
      by rewrite <- (app_assoc vs0 [v] vs), <- (app_assoc _ cells1 cells2). }
    rewrite Hheap in Hrun2, Hfwd2, Hre2.
    rewrite <- (app_assoc cs recs1 recs2) in Hrun2.
    rewrite Hidx in Hrun2.
    exists (k1 + k2), (v :: vs), (cells1 ++ cells2), (recs1 ++ recs2).
    split; [exact (parse_run_trans _ _ _ _ _ _ _ _ _ Hrun1 Hrun2)|].
    split.
    { constructor; [done|]. eapply Forall_impl; [exact Hge2|].
      intros x Hx. eapply ge_value_mono; [exact Hx|].
      rewrite length_app, length_insert. lia. }
    split; [done|].
    constructor.
    + apply (reify_transport (length cells1) _
               (<[n := JSArray (vs0 ++ [v])]> h ++ cells1) _ (length h));
        try done.
      * intros b o Hb Ho. rewrite <- Hheap.
        apply (agree_insert_app _ n _ cells2 (length h)); done.
      * rewrite length_app. lia.
    + eapply Forall2_impl; [exact Hre2|].
      intros x y Hxy. simpl in Hxy.
      eapply reify_mono; [done| |exact Hxy]. rewrite length_app. lia.
Qed.

(** *** The members of an object *)

Lemma set_own_rel fuel h props tprops k v t :
  Forall2 (prop_rel fuel h) props tprops ->
  reify fuel h v = Some t ->
  Forall2 (prop_rel fuel h) (set_own props k v) (set_own tprops k t).
Proof.
  intros HR Hv.
  induction HR as [|[k1 v1] [k2 t2] props tprops [Hk Hr] HR IH];
    simpl in *.
  - constructor; [done|constructor].
  - subst k2. case_bool_decide; constructor; done.
Qed.

Lemma parse_members
    (members : list (str * list jchar * str * (str * json * str))) :
  Forall member_ok members ->
  forall tokens i post st m n p props0 tprops0 fuel0,
    drop i tokens
    = JS.join [comma_token] (map member_tokens members)
      ++ simple_token BRACKET [Ch.rbrace] :: post ->
    key_slot st m n p props0 ->
    heap_fwd (heap_of st) ->
    Forall2 (prop_rel fuel0 (heap_of st)) props0 tprops0 ->
    exists k props cells recs,
      parse_run tokens i k
        (i + length (JS.join [comma_token] (map member_tokens members)))
        st (mkState (<[n := JSObject p props]> (heap_of st) ++ cells)
              (containers st ++ recs) (stacks st) (Some m)) /\
      heap_fwd (<[n := JSObject p props]> (heap_of st) ++ cells) /\
      Forall2
        (prop_rel (fuel0 + length cells)
           (<[n := JSObject p props]> (heap_of st) ++ cells))
        props
        (fold_left
           (fun props (m : str * list jchar * str * (str * json * str)) =>
              set_own props (string_value m.1.1.2) (denote m.2.1.2))
           members tprops0).
Proof.
  induction 1 as [|mem members Hmem Hmembers IH];
    intros tokens i post st m n p props0 tprops0 fuel0 Hd Hslot Hfwd Hrel.
  - exists 0, props0, [], [].
    destruct Hslot as [Hcur Htop Hrec Hcell].
    destruct st as [h cs stk cur]. simpl in *. subst cur.
    rewrite !app_nil_r, !Nat.add_0_r. rewrite (list_insert_id h n) by done.
    split; [apply parse_run_refl|]. done.
  - destruct mem as [[[w1 key] w2] [[w3 v] w4]].
    destruct Hmem as (Hkey & Hnp & Hvalid & Hv). simpl in Hkey, Hnp, Hvalid, Hv.
    set (J := JS.join [comma_token] (map member_tokens members)) in *.
    set (sep := match members with [] => [] | _ => comma_token :: J end).
    set (K := string_value key) in *.
    assert (Hjoin : JS.join [comma_token]
                      (map member_tokens ((w1, key, w2, (w3, v, w4)) :: members))
                    = string_token key :: colon_token :: tokens_of v ++ sep).
    { subst sep J. destruct members as [|m2 members']; cbn [map].
      - rewrite join_singleton. unfold member_tokens. simpl.
        by rewrite app_nil_r.
      - rewrite join_cons_cons. done. }
    rewrite Hjoin in Hd |- *.
    change ((string_token key :: colon_token :: tokens_of v ++ sep) ++ ?x)
      with (string_token key :: colon_token :: (tokens_of v ++ sep) ++ x)
      in Hd.
    rewrite <- app_assoc in Hd.
    set (rest := sep ++ simple_token BRACKET [Ch.rbrace] :: post) in *.
    assert (Hfol : follows rest).
    { subst rest sep. by destruct members. }
    (* the name *)
    pose proof (parse_run_step tokens i _ st _ _ (drop_head _ _ _ _ Hd)
                  (step_name tokens i key st m n p props0 Hkey Hslot))
      as Hrun0.
    destruct Hslot as [Hcur Htop Hrec Hcell].
    destruct st as [h cs stk cur]. simpl in *. subst cur.
    pose proof (lookup_lt_Some _ _ _ Hcell) as Hn.
    unfold set_key in Hrun0. simpl in Hrun0.
    rewrite (alter_as_insert _ _ _ _ Hrec) in Hrun0. simpl in Hrun0.
    set (c1 := mkContainer OBJECT n (Some K)) in *.
    set (st1 := mkState h (<[m := c1]> cs) stk (Some m)) in *.
    assert (Hslot1 : value_slot st1 m c1 (JSObject p props0)).
    { split; simpl; try done.
      - apply list_lookup_insert_eq. by eapply lookup_lt_Some.
      - by exists K. }
    (* the colon *)
    destruct (tokens_of_head v Hvalid) as (t & tl & Ht & Htc & Htb).
    pose proof (drop_tail _ _ _ _ Hd) as Hd1.
    assert (Hd1' : drop (i + 1) tokens = colon_token :: t :: tl ++ rest).
    { by rewrite Hd1, Ht. }
    pose proof (parse_run_step tokens (i + 1) _ st1 _ _ (drop_head _ _ _ _ Hd1)
                  (step_colon tokens (i + 1) t _ st1 m c1 _ Hd1' Htc Htb Hslot1))
      as Hrun1.
    (* the value *)
    pose proof (drop_tail _ _ _ _ Hd1) as Hd2.
    destruct (Hv tokens (i + 1 + 1) rest st1 m c1 _ Hd2 Hfol Hslot1 Hfwd)
      as (k2 & v' & cells1 & recs1 & Hrun2 & Hge2 & Hfwd2 & Hre2).
    unfold after_value, linked, clear_key in Hrun2, Hfwd2, Hre2.
    simpl in Hrun2, Hfwd2, Hre2, Hge2.
    rewrite list_insert_insert_eq in Hrun2.
    rewrite (list_insert_id cs m) in Hrun2 by done.
    set (heap2 := <[n := JSObject p (set_own props0 K v')]> h ++ cells1) in *.
    set (st2 := mkState heap2 (cs ++ recs1) stk (Some m)) in *.
    set (i1 := i + 1 + 1 + length (tokens_of v) + skip rest) in *.
    assert (Hnext :
      drop i1 tokens = J ++ simple_token BRACKET [Ch.rbrace] :: post /\
      i1 + length J
      = i + length (string_token key :: colon_token :: tokens_of v ++ sep)).
    { apply drop_more in Hd2. subst i1 rest sep J.
      destruct members as [|m2 members'].
      - simpl. rewrite !Nat.add_0_r. split; [done|].
        rewrite app_nil_r. lia.
      - change (skip _) with 1. split; [by apply drop_tail in Hd2|].
        simpl. rewrite length_app. simpl. lia. }
    destruct Hnext as [Hd3 Hidx].
    assert (Hslot2 : key_slot st2 m n p (set_own props0 K v')).
    { split; simpl; try done.
      - by apply lookup_app_l_Some.
      - apply lookup_app_l_Some. by apply list_lookup_insert_eq. }
    assert (Hrel2 : Forall2 (prop_rel (fuel0 + length cells1) heap2)
                      (set_own props0 K v') (set_own tprops0 K (denote v))).
    { apply set_own_rel.
      - pose proof (Hfwd n _ Hcell) as [_ Hprops].
        rewrite Forall_fmap in Hprops.
        eapply Forall2_impl_Forall; [exact Hprops|exact Hrel|].
        intros [kx x] [ky y] Hx [Hk Hxy]. simpl in *. split; [done|]. simpl.
        apply (reify_transport fuel0 _ h _ (S n)); try done; [|lia].
        intros b o Hb Ho. apply (agree_insert_app _ n _ _ (S n)); [lia|done..].
      - eapply reify_mono; [done| |exact Hre2]. lia. }
    destruct (IH tokens i1 post st2 m n p _ _ _ Hd3 Hslot2 Hfwd2 Hrel2)
      as (k3 & props & cells2 & recs2 & Hrun3 & Hfwd3 & Hrel3).
    simpl in Hrun3, Hfwd3, Hrel3.
    assert (Hheap :
      <[n := JSObject p props]> heap2 ++ cells2
      = <[n := JSObject p props]> h ++ cells1 ++ cells2).
    { subst heap2. rewrite insert_app_l by (by rewrite length_insert).
      rewrite list_insert_insert_eq. by rewrite <- app_assoc. }
    rewrite Hheap in Hrun3, Hfwd3, Hrel3.
    rewrite <- (app_assoc cs recs1 recs2) in Hrun3.
    rewrite Hidx in Hrun3.
    exists (1 + (1 + (k2 + k3))), props, (cells1 ++ cells2), (recs1 ++ recs2).
    split.
    { eapply parse_run_trans; [exact Hrun0|].
      eapply parse_run_trans; [exact Hrun1|].
      eapply parse_run_trans; [exact Hrun2|exact Hrun3]. }
    split; [done|].
    rewrite length_app, Nat.add_assoc. exact Hrel3.
Qed.

(** *** Values *)

Lemma parses_scalar j token v :
  tokens_of j = [token] ->
  type token = STRING \/ type token = NUMBER \/ type token = IDENTIFIER ->
  parseValueToken token = Ok v ->
  match v with VRef _ => False | _ => True end ->
  reify 0 [] v = Some (denote j) ->
  parses j.
Proof.
  intros Htok Hty Hv Hprim Hre tokens i post st r c cell Hd Hfol Hslot Hfwd.
  rewrite Htok in Hd |- *.
  assert (Hge : forall lo, ge_value lo v) by (by destruct v).
  exists 1, v, [], []. split_and!.
  - apply (parse_run_step tokens i token); [by eapply drop_head|].
    by eapply step_scalar.
  - apply Hge.
  - by apply after_value_fwd.
  - by rewrite reify_primitive.
Qed.

Lemma parseValueToken_string s :
  forallb valid_char s = true ->
  parseValueToken (string_token s) = Ok (VString (string_value s)).
Proof.
  intros Hs. unfold parseValueToken. change (type (string_token s)) with STRING.
  cbn match. by rewrite parseStringValue_render.
Qed.

Lemma tokens_of_array w elems :
  tokens_of (JArray w elems)
  = simple_token BRACKET [Ch.lbracket]
    :: JS.join [comma_token]
         (map (fun e : str * json * str => tokens_of e.1.2) elems)
    ++ [simple_token BRACKET [Ch.rbracket]].
Proof. done. Qed.

Lemma tokens_of_object w members :
  tokens_of (JObject w members)
  = simple_token BRACKET [Ch.lbrace]
    :: JS.join [comma_token] (map member_tokens members)
    ++ [simple_token BRACKET [Ch.rbrace]].
Proof. done. Qed.

Lemma mapM_prop_rel fuel h props tprops :
  Forall2 (prop_rel fuel h) props tprops ->
  mapM (fun kv : str * jsvalue => pair kv.1 <$> reify fuel h kv.2) props
  = Some tprops.
Proof.
  intros HR. apply mapM_Some. eapply Forall2_impl; [exact HR|].
  intros [k v] [k' t] [Hk Hv]. simpl in *. subst k'. by rewrite Hv.
Qed.

Lemma parses_array w elems :
  Forall (fun e : str * json * str => parses e.1.2) elems ->
  parses (JArray w elems).
Proof.
  intros Helems tokens i post st r c cell Hd Hfol Hslot Hfwd.
  rewrite tokens_of_array in Hd |- *.
  set (J := JS.join [comma_token]
              (map (fun e : str * json * str => tokens_of e.1.2) elems)) in *.
  change ((?x :: J ++ [?y]) ++ post) with (x :: (J ++ [y]) ++ post) in Hd.
  rewrite <- app_assoc in Hd. cbn [app] in Hd.
  pose proof (parse_run_step tokens i _ st _ _ (drop_head _ _ _ _ Hd)
                (step_open ARRAY tokens i st r c cell Hslot)) as Hrun0.
  pose proof (drop_tail _ _ _ _ Hd) as Hd1.
  destruct (parse_elements elems Helems tokens (i + 1) post _ _ _ []
              Hd1 (after_open_array _ _ _ _ Hslot)
              (after_open_fwd ARRAY _ _ _ _ Hslot Hfwd))
    as (k & vs & cells & recs & Hrun1 & Hge1 & Hfwd1 & Hre1).
  fold J in Hrun1.
  pose proof (drop_more _ _ _ _ Hd1) as Hd2.
  destruct Hslot as [Hcur Htop Hrec Hcell Hkind Hkey].
  destruct st as [h cs stk cur]. simpl in *. subst cur.
  match type of Hrun1 with
  | parse_run _ _ _ _ _ ?s =>
    pose proof (parse_run_step tokens (i + 1 + length J) _ s _ _
                  (drop_head _ _ _ _ Hd2)
                  (step_close ARRAY tokens _ post s stk (length cs) r Hd2
                     eq_refl Htop)) as Hrun2
  end.
  simpl in Hrun2.
  pose proof (lookup_lt_Some _ _ _ Hcell) as Ha.
  set (L := linked c cell (VRef (length h))) in *.
  assert (Hheap :
    <[length h := JSArray vs]> (<[cvalue c := L]> h ++ [JSArray []]) ++ cells
    = <[cvalue c := L]> h ++ JSArray vs :: cells).
  { rewrite insert_app_r_alt by (by rewrite length_insert).
    rewrite length_insert, Nat.sub_diag. simpl. by rewrite <- app_assoc. }
  rewrite Hheap in Hrun1, Hrun2, Hfwd1, Hre1.
  rewrite <- app_assoc in Hrun1, Hrun2. simpl in Hrun1, Hrun2.
  exists (1 + (k + 1)), (VRef (length h)), (JSArray vs :: cells),
    (mkContainer ARRAY (length h) None :: recs).
  unfold after_value. simpl. fold L. split_and!.
  - replace (i + S (length (J ++ [simple_token BRACKET [Ch.rbracket]]))
             + skip post)
      with (i + 1 + length J + 1 + skip post)
      by (rewrite length_app; simpl; lia).
    exact (parse_run_trans _ _ _ _ _ _ _ _ _ Hrun0
             (parse_run_trans _ _ _ _ _ _ _ _ _ Hrun1 Hrun2)).
  - done.
  - done.
  - rewrite lookup_app_r by (by rewrite length_insert).
    rewrite length_insert, Nat.sub_diag. simpl.
    assert (mapM (reify (length cells)
                    (<[cvalue c := L]> h ++ JSArray vs :: cells)) vs
            = Some (map (fun e : str * json * str => denote e.1.2) elems))
      as ->; [|done].
    apply mapM_Some. by apply Forall2_fmap_r.
Qed.

Lemma parses_object w members :
  Forall member_ok members -> parses (JObject w members).
Proof.
  intros Hmembers tokens i post st r c cell Hd Hfol Hslot Hfwd.
  rewrite tokens_of_object in Hd |- *.
  set (J := JS.join [comma_token] (map member_tokens members)) in *.
  change ((?x :: J ++ [?y]) ++ post) with (x :: (J ++ [y]) ++ post) in Hd.
  rewrite <- app_assoc in Hd. cbn [app] in Hd.
  pose proof (parse_run_step tokens i _ st _ _ (drop_head _ _ _ _ Hd)
                (step_open OBJECT tokens i st r c cell Hslot)) as Hrun0.
  pose proof (drop_tail _ _ _ _ Hd) as Hd1.
  destruct (parse_members members Hmembers tokens (i + 1) post _ _ _ _ [] [] 0
              Hd1 (after_open_object _ _ _ _ Hslot)
              (after_open_fwd OBJECT _ _ _ _ Hslot Hfwd)
              (Forall2_nil_2 _ _ _))
    as (k & props & cells & recs & Hrun1 & Hfwd1 & Hre1).
  fold J in Hrun1.
  pose proof (drop_more _ _ _ _ Hd1) as Hd2.
  destruct Hslot as [Hcur Htop Hrec Hcell Hkind Hkey].
  destruct st as [h cs stk cur]. simpl in *. subst cur.
  match type of Hrun1 with
  | parse_run _ _ _ _ _ ?s =>
    pose proof (parse_run_step tokens (i + 1 + length J) _ s _ _
                  (drop_head _ _ _ _ Hd2)
                  (step_close OBJECT tokens _ post s stk (length cs) r Hd2
                     eq_refl Htop)) as Hrun2
  end.
  simpl in Hrun2.
  pose proof (lookup_lt_Some _ _ _ Hcell) as Ha.
  set (L := linked c cell (VRef (length h))) in *.
  assert (Hheap :
    <[length h := JSObject ObjectPrototype props]>
      (<[cvalue c := L]> h ++ [JSObject ObjectPrototype []]) ++ cells
    = <[cvalue c := L]> h ++ JSObject ObjectPrototype props :: cells).
  { rewrite insert_app_r_alt by (by rewrite length_insert).
    rewrite length_insert, Nat.sub_diag. simpl. by rewrite <- app_assoc. }
  rewrite Hheap in Hrun1, Hrun2, Hfwd1, Hre1.
  rewrite <- app_assoc in Hrun1, Hrun2. simpl in Hrun1, Hrun2.
  exists (1 + (k + 1)), (VRef (length h)),
    (JSObject ObjectPrototype props :: cells),
    (mkContainer OBJECT (length h) None :: recs).
  unfold after_value. simpl. fold L. split_and!.
  - replace (i + S (length (J ++ [simple_token BRACKET [Ch.rbrace]]))
             + skip post)
      with (i + 1 + length J + 1 + skip post)
      by (rewrite length_app; simpl; lia).
    exact (parse_run_trans _ _ _ _ _ _ _ _ _ Hrun0
             (parse_run_trans _ _ _ _ _ _ _ _ _ Hrun1 Hrun2)).
  - done.
  - done.
  - rewrite lookup_app_r by (by rewrite length_insert).
    rewrite length_insert, Nat.sub_diag. simpl.
    by rewrite (mapM_prop_rel _ _ _ _ Hre1).
Qed.

Lemma members_ok members :
  Forall (fun m : str * list jchar * str * (str * json * str) =>
            valid m.2.1.2 = true -> no_proto_key m.2.1.2 = true ->
            parses m.2.1.2) members ->
  valid (JObject [] members) = true ->
  no_proto_key (JObject [] members) = true ->
  Forall member_ok members.
Proof.
  intros IH Hv Hn. simpl in Hv, Hn.
  rewrite forallb_forall in Hv, Hn. rewrite Forall_forall in IH.
  apply Forall_forall. intros m Hm.
  pose proof (Hv m (proj1 (list_elem_of_In _ _) Hm)) as Hvm.
  pose proof (Hn m (proj1 (list_elem_of_In _ _) Hm)) as Hnm.
  bool_hyps. unfold member_ok. split_and!; try done. by apply IH.
Qed.

Lemma parses_value j :
  valid j = true -> no_proto_key j = true -> parses j.
Proof.
  induction j as [ | | |n|s|w elems IH|w members IH] using json_nested_ind;
    intros Hv Hn.
  - by apply (parses_scalar _ (simple_token IDENTIFIER (lit "null")) VNull);
      [done|auto|..].
  - by apply (parses_scalar _ (simple_token IDENTIFIER (lit "true"))
                (VBool true)); [done|auto|..].
  - by apply (parses_scalar _ (simple_token IDENTIFIER (lit "false"))
                (VBool false)); [done|auto|..].
  - apply (parses_scalar _ (number_token n) (VNumber (number_value n)));
      [done|auto|by apply parseValueToken_number|done..].
  - apply (parses_scalar _ (string_token s) (VString (string_value s)));
      [done|auto|by apply parseValueToken_string|done..].
  - apply parses_array. simpl in Hv, Hn.
    apply andb_true_iff in Hv as [_ Hv].
    rewrite forallb_forall in Hv, Hn. rewrite Forall_forall in IH.
    apply Forall_forall. intros e He.
    pose proof (Hv e (proj1 (list_elem_of_In _ _) He)) as Hve.
    pose proof (Hn e (proj1 (list_elem_of_In _ _) He)) as Hne.
    bool_hyps. by apply IH.
  - apply parses_object. apply members_ok; [done| |done].
    simpl in Hv |- *. by apply andb_true_iff in Hv as [_ Hv].
Qed.

(** *** A whole text *)

Lemma step_close_top t tokens i st m c :
  stacks st = [m] -> containers st !! m = Some c ->
  parse_step tokens i
    (simple_token BRACKET
       match t with OBJECT => [Ch.rbrace] | ARRAY => [Ch.rbracket] end) st
  = Return (VRef (cvalue c))
      (mkState (heap_of st) (containers st) [] (currentContainer st)).
Proof.
  intros Hstk Hrec. unfold parse_step, step_bracket.
  change (bool_decide (type (simple_token BRACKET _) = BRACKET)) with true.
  cbn match.
  assert (handleBracketToken
            (simple_token BRACKET
               match t with OBJECT => [Ch.rbrace] | ARRAY => [Ch.rbracket] end)
            st tokens i
          = closeContainer st tokens i
              match t with
              | OBJECT => UnmatchedClosingBrace
              | ARRAY => UnmatchedClosingBracket
              end) as ->.
  { by destruct t. }
  unfold closeContainer. rewrite Hstk. simpl. by rewrite Hrec.
Qed.

Lemma parse_scalar_text token v :
  type token = STRING \/ type token = NUMBER \/ type token = IDENTIFIER ->
  parseValueToken token = Ok v ->
  parse [token] = Some (Ok (v, init)).
Proof.
  intros Hty Hv. unfold parse. change (length [token] + 1) with 2.
  cbn [parse_loop]. change ([token] !! 0) with (Some token). cbn match.
  assert (parse_step [token] 0 token init = Return v init) as ->; [|done].
  unfold parse_step.
  assert (Hb : type token <> BRACKET).
  { intros E. rewrite E in Hty. by destruct Hty as [?|[?|?]]. }
  assert (Hp : type token <> PUNCTUATION).
  { intros E. rewrite E in Hty. by destruct Hty as [?|[?|?]]. }
  rewrite (bool_decide_eq_false_2 _ Hb), (bool_decide_eq_false_2 _ Hp).
  change (is_key_position init) with false. cbn match.
  unfold step_value, decode_value. rewrite Hv.
  change (currentContainer init) with (@None nat).
  by destruct (type token).
Qed.

Lemma parse_array_text w elems :
  Forall (fun e : str * json * str => parses e.1.2) elems ->
  exists v st,
    parse (tokens_of (JArray w elems)) = Some (Ok (v, st)) /\
    reify (length (heap_of st)) (heap_of st) v
    = Some (denote (JArray w elems)).
Proof.
  intros Helems. rewrite tokens_of_array.
  set (J := JS.join [comma_token]
              (map (fun e : str * json * str => tokens_of e.1.2) elems)).
  set (tokens := simple_token BRACKET [Ch.lbracket]
                 :: J ++ [simple_token BRACKET [Ch.rbracket]]).
  set (st0 := mkState [JSArray []] [mkContainer ARRAY 0 None] [0] (Some 0)).
  assert (Hrun0 : parse_run tokens 0 1 1 init st0).
  { by apply (parse_run_step tokens 0 (simple_token BRACKET [Ch.lbracket])). }
  assert (Hslot : value_slot st0 0 (mkContainer ARRAY 0 None) (JSArray [])).
  { by split. }
  assert (Hfwd : heap_fwd (heap_of st0)).
  { intros [|a] o Ho; simplify_eq/=. constructor. }
  assert (Hd : drop 1 tokens = J ++ simple_token BRACKET [Ch.rbracket] :: []).
  { done. }
  destruct (parse_elements elems Helems tokens 1 [] st0 0 0 [] Hd Hslot Hfwd)
    as (k & vs & cells & recs & Hrun1 & Hge1 & Hfwd1 & Hre1).
  fold J in Hrun1. simpl in Hrun1, Hfwd1, Hre1.
  pose proof (drop_head _ _ _ _ (drop_more _ _ _ _ Hd)) as Hlast.
  set (st2 := mkState (JSArray vs :: cells)
                (mkContainer ARRAY 0 None :: recs) [0] (Some 0)) in *.
  exists (VRef 0),
    (mkState (heap_of st2) (containers st2) [] (currentContainer st2)).
  split.
  - apply (parse_from_fuel tokens 0 init (1 + k + 1)); [constructor|].
    rewrite (parse_run_trans _ _ _ _ _ _ _ _ _ Hrun0 Hrun1 1).
    cbn [parse_loop]. change (S (length J)) with (1 + length J).
    rewrite Hlast.
    by rewrite (step_close_top ARRAY tokens _ st2 0 (mkContainer ARRAY 0 None)).
  - simpl.
    assert (mapM (reify (length cells) (JSArray vs :: cells)) vs
            = Some (map (fun e : str * json * str => denote e.1.2) elems))
      as ->; [|done].
    apply mapM_Some. by apply Forall2_fmap_r.
Qed.

Lemma parse_object_text w members :
  Forall member_ok members ->
  exists v st,
    parse (tokens_of (JObject w members)) = Some (Ok (v, st)) /\
    reify (length (heap_of st)) (heap_of st) v
    = Some (denote (JObject w members)).
Proof.
  intros Hmembers. rewrite tokens_of_object.
  set (J := JS.join [comma_token] (map member_tokens members)).
  set (tokens := simple_token BRACKET [Ch.lbrace]
                 :: J ++ [simple_token BRACKET [Ch.rbrace]]).
  set (st0 := mkState [JSObject ObjectPrototype []]
                [mkContainer OBJECT 0 None] [0] (Some 0)).
  assert (Hrun0 : parse_run tokens 0 1 1 init st0).
  { by apply (parse_run_step tokens 0 (simple_token BRACKET [Ch.lbrace])). }
  assert (Hslot : key_slot st0 0 0 ObjectPrototype []).
  { by split. }
  assert (Hfwd : heap_fwd (heap_of st0)).
  { intros [|a] o Ho; simplify_eq/=. split; [done|constructor]. }
  assert (Hd : drop 1 tokens = J ++ simple_token BRACKET [Ch.rbrace] :: []).
  { done. }
  destruct (parse_members members Hmembers tokens 1 [] st0 0 0 _ [] [] 0
              Hd Hslot Hfwd (Forall2_nil_2 _ _ _))
    as (k & props & cells & recs & Hrun1 & Hfwd1 & Hre1).
  fold J in Hrun1. simpl in Hrun1, Hfwd1, Hre1.
  pose proof (drop_head _ _ _ _ (drop_more _ _ _ _ Hd)) as Hlast.
  set (st2 := mkState (JSObject ObjectPrototype props :: cells)
                (mkContainer OBJECT 0 None :: recs) [0] (Some 0)) in *.
  exists (VRef 0),
    (mkState (heap_of st2) (containers st2) [] (currentContainer st2)).
  split.
  - apply (parse_from_fuel tokens 0 init (1 + k + 1)); [constructor|].
    rewrite (parse_run_trans _ _ _ _ _ _ _ _ _ Hrun0 Hrun1 1).
    cbn [parse_loop]. change (S (length J)) with (1 + length J).
    rewrite Hlast.
    by rewrite (step_close_top OBJECT tokens _ st2 0
                  (mkContainer OBJECT 0 None)).
  - simpl. by rewrite (mapM_prop_rel _ _ _ _ Hre1).
Qed.

Lemma parse_tokens_of j :
  valid j = true -> no_proto_key j = true ->
  exists v st,
    parse (tokens_of j) = Some (Ok (v, st)) /\
    reify (length (heap_of st)) (heap_of st) v = Some (denote j).
Proof.
  intros Hv Hn. destruct j as [ | | |n|s|w elems|w members].
  - exists VNull, init. by split; [apply parse_scalar_text; auto|].
  - exists (VBool true), init. by split; [apply parse_scalar_text; auto|].
  - exists (VBool false), init. by split; [apply parse_scalar_text; auto|].
  - exists (VNumber (number_value n)), init. split; [|done].
    apply parse_scalar_text; [auto|by apply parseValueToken_number].
  - exists (VString (string_value s)), init. split; [|done].
    apply parse_scalar_text; [auto|by apply parseValueToken_string].
  - apply parse_array_text. simpl in Hv, Hn.
    apply andb_true_iff in Hv as [_ Hv].
    rewrite forallb_forall in Hv, Hn.
    apply Forall_forall. intros e He.
    pose proof (Hv e (proj1 (list_elem_of_In _ _) He)) as Hve.
    pose proof (Hn e (proj1 (list_elem_of_In _ _) He)) as Hne.
    bool_hyps. by apply parses_value.
  - apply parse_object_text. apply members_ok; [|by simpl in *; bool_hyps|done].
    apply Forall_forall. intros m _. apply parses_value.
Qed.

End parser_strict.

(** ** The order in which an object lists its properties *)

Section property_order.
Import Store.

Lemma with_value_fst {V} k (v : V) (kv : str * V) :
  (if bool_decide (kv.1 = k) then (k, v) else kv).1 = kv.1.
Proof. by case_bool_decide. Qed.

Lemma insert_index_with_value {V} k (v : V) n (kv : str * V) l :
  insert_index n (if bool_decide (kv.1 = k) then (k, v) else kv)
    (map (fun x => (x.1, if bool_decide (x.2.1 = k) then (k, v) else x.2)) l)
  = map (fun x => (x.1, if bool_decide (x.2.1 = k) then (k, v) else x.2))
      (insert_index n kv l).
Proof.
  induction l as [|[m kv'] l IH]; [done|]. cbn [map insert_index fst snd].
  destruct (n <? m)%N; [done|]. cbn [map fst snd]. by rewrite IH.
Qed.

Lemma index_properties_with_value {V} k (v : V) props :
  index_properties (with_value k v props)
  = map (fun x => (x.1, if bool_decide (x.2.1 = k) then (k, v) else x.2))
      (index_properties props).
Proof.
  induction props as [|kv props IH]; [done|].
  unfold with_value in *. cbn [map index_properties].
  rewrite with_value_fst, IH.
  destruct (array_index kv.1); [|done]. apply insert_index_with_value.
Qed.

(** Replacing a value does not change the order of the listing. *)
Lemma own_property_order_with_value {V} k (v : V) props :
  own_property_order (with_value k v props)
  = with_value k v (own_property_order props).
Proof.
  unfold own_property_order. rewrite index_properties_with_value.
  unfold with_value at 2. rewrite map_app. f_equal.
  - rewrite <- !list_fmap_compose. by apply list_fmap_ext.
  - unfold with_value. induction props as [|kv props IH]; [done|].
    cbn [map]. rewrite !filter_cons, with_value_fst.
    destruct (decide (array_index kv.1 = None)); cbn [map]; by rewrite IH.
Qed.

Lemma insert_index_perm {V} n (kv : str * V) l :
  (insert_index n kv l).*2 ≡ₚ kv :: l.*2.
Proof.
  induction l as [|[m kv'] l IH]; [done|]. cbn [insert_index].
  destruct (n <? m)%N; [done|]. cbn [fmap list_fmap snd]. rewrite IH.
  apply Permutation_swap.
Qed.

(** The listing holds the properties of the object, each once. *)
Lemma own_property_order_perm {V} (props : list (str * V)) :
  own_property_order props ≡ₚ props.
Proof.
  unfold own_property_order. induction props as [|kv props IH]; [done|].
  cbn [index_properties]. rewrite filter_cons.
  destruct (array_index kv.1) as [n|] eqn:E.
  - rewrite decide_False by done. rewrite insert_index_perm.
    cbn [app]. by rewrite IH.
  - rewrite decide_True by done. rewrite <- Permutation_middle. by rewrite IH.
Qed.

Lemma with_value_absent {V} k (v : V) props :
  k ∉ props.*1 -> with_value k v props = props.
Proof.
  induction props as [|kv props IH]; [done|]. rewrite fmap_cons.
  intros Hk. apply not_elem_of_cons in Hk as [Hne Hk].
  unfold with_value in *. cbn [map]. rewrite bool_decide_eq_false_2 by done.
  by rewrite IH.
Qed.

Lemma with_value_present {V} k (v v0 : V) l1 l2 :
  k ∉ l1.*1 -> k ∉ l2.*1 ->
  with_value k v (l1 ++ (k, v0) :: l2) = l1 ++ (k, v) :: l2.
Proof.
  intros H1 H2. unfold with_value. rewrite map_app. cbn [map fst].
  rewrite bool_decide_eq_true_2 by done.
  fold (with_value k v l1). fold (with_value k v l2).
  by rewrite !with_value_absent.
Qed.

(** An object whose names are distinct lists the property [k] once. *)
Lemma own_property_order_split {V} k (v0 : V) props :
  NoDup props.*1 -> (k, v0) ∈ props ->
  exists o1 o2,
    own_property_order props = o1 ++ (k, v0) :: o2
    /\ (k ∉ o1.*1) /\ (k ∉ o2.*1).
Proof.
  intros Hnd Hin.
  pose proof (own_property_order_perm props) as Hp.
  assert (Hin' : (k, v0) ∈ own_property_order props) by by rewrite Hp.
  apply list_elem_of_split in Hin' as (o1 & o2 & Ho).
  exists o1, o2. split; [done|].
  assert (Hnd' : NoDup (own_property_order props).*1) by by rewrite Hp.
  rewrite Ho, fmap_app, fmap_cons in Hnd'. cbn [fst] in Hnd'.
  apply NoDup_app in Hnd' as (_ & Hd & Hnd').
  apply NoDup_cons in Hnd' as [Hk2 _]. split; [|done].
  intros Hk1. apply (Hd k Hk1). by left.
Qed.

End property_order.

(** ** Decimal runs *)

Section decimal_runs.
Import Store Parser Strict.

Lemma exponent_part_none rest :
  starts_exponent rest = false -> JS.exponent_part rest = 0%Z.
Proof.
  unfold starts_exponent, JS.exponent_part. destruct rest as [|c r]; [done|].
  destruct ((c =? 101)%N || (c =? 69)%N); [|done]. cbn [andb].
  destruct (JS.split_sign r) as [sign r'] eqn:E. cbn [snd].
  destruct r' as [|d r'']; [done|]. intros Hd.
  unfold JS.take_while. cbn [span_len]. by rewrite Hd.
Qed.

Lemma exponent_part_rest marker sign digits rest :
  (marker = 101%N \/ marker = 69%N) ->
  (sign = [] \/ sign = [Ch.plus] \/ sign = [Ch.minus]) ->
  digits <> [] -> forallb is_digit digits = true ->
  match rest with [] => True | c :: _ => is_digit c = false end ->
  JS.exponent_part (marker :: sign ++ digits ++ rest)
  = let e := Z.of_N (JS.digits_value 10 digits) in
    if bool_decide (sign = [Ch.minus]) then (- e)%Z else e.
Proof.
  intros Hm Hs Hne Hd Hrest. unfold JS.exponent_part.
  assert (((marker =? 101)%N || (marker =? 69)%N) = true) as ->.
  { destruct Hm as [-> | ->]; done. }
  assert (Htw : JS.take_while is_digit (digits ++ rest) = digits)
    by by apply take_while_app.
  destruct digits as [|d ds]; [done|].
  assert (Hd0 : is_digit d = true) by (simpl in Hd; by bool_hyps).
  assert (Hdr := digit_range d Hd0).
  destruct Hs as [-> | [-> | ->]].
  - cbn [app JS.split_sign].
    rewrite (proj2 (N.eqb_neq d Ch.minus)) by (unfold Ch.minus; lia).
    rewrite (proj2 (N.eqb_neq d Ch.plus)) by (unfold Ch.plus; lia).
    cbn [app] in Htw. by rewrite Htw.
  - cbn [app JS.split_sign].
    change ((Ch.plus =? Ch.minus)%N) with false.
    change ((Ch.plus =? Ch.plus)%N) with true. cbn match.
    cbn [app] in Htw. by rewrite Htw.
  - cbn [app JS.split_sign].
    change ((Ch.minus =? Ch.minus)%N) with true. cbn match.
    cbn [app] in Htw. by rewrite Htw.
Qed.

Lemma decimal_literal_head n :
  decimal_literal n = true ->
  exists c r, magnitude_text n = c :: r
    /\ (is_digit c = true \/ c = Ch.dot).
Proof.
  unfold decimal_literal, magnitude_text. intros H. bool_hyps.
  destruct (jint n) as [|d ds].
  - destruct (jfrac n) as [f|]; [|done]. cbn [app]. eauto.
  - cbn [app]. exists d. eexists. split; [done|]. left.
    match goal with H : forallb is_digit (d :: ds) = true |- _ =>
      simpl in H; by apply andb_true_iff in H as [? _] end.
Qed.

(** [parseFloat] reads a decimal literal and ignores what follows it. *)
Lemma parseFloat_prefix n rest :
  decimal_literal n = true -> ends_literal n rest = true ->
  JS.parseFloat (magnitude_text n ++ rest)
  = number_value (mkNumber false (jint n) (jfrac n) (jexp n)).
Proof.
  intros Hlit Hend.
  destruct (decimal_literal_head n Hlit) as (c0 & r0 & Hhead & Hc0).
  unfold decimal_literal in Hlit.
  apply andb_true_iff in Hlit as [Hlit He].
  apply andb_true_iff in Hlit as [Hlit Hne].
  apply andb_true_iff in Hlit as [Hi Hf].
  apply negb_true_iff, bool_decide_eq_false in Hne.
  assert (Hc0r : (46 <= c0 <= 57)%N).
  { destruct Hc0 as [Hd| ->]; [apply digit_range in Hd; lia|done]. }
  unfold JS.parseFloat, number_value.
  cbn [jneg jint jfrac jexp JS.signed].
  assert (Hsp : JS.drop_while is_regex_space (magnitude_text n ++ rest)
                = magnitude_text n ++ rest).
  { rewrite Hhead. unfold JS.drop_while. cbn [app span_len].
    assert (is_regex_space c0 = false) as ->; [|done].
    unfold is_regex_space.
    rewrite (proj2 (N.leb_gt c0 13)) by lia.
    rewrite (proj2 (N.leb_gt 8192 c0)) by lia.
    rewrite !andb_false_r, !andb_false_l.
    repeat (rewrite (proj2 (N.eqb_neq c0 _)) by lia). done. }
  rewrite Hsp.
  assert (Hsign : JS.split_sign (magnitude_text n ++ rest)
                  = (false, magnitude_text n ++ rest)).
  { rewrite Hhead. cbn [app JS.split_sign].
    rewrite (proj2 (N.eqb_neq c0 Ch.minus)) by (unfold Ch.minus; lia).
    by rewrite (proj2 (N.eqb_neq c0 Ch.plus)) by (unfold Ch.plus; lia). }
  rewrite Hsign.
  assert (bool_decide (take 8 (magnitude_text n ++ rest) = lit "Infinity")
          = false) as ->.
  { apply bool_decide_eq_false. rewrite Hhead. cbn. intros [= ->]. lia. }
  unfold magnitude_text. rewrite <- !app_assoc.
  set (etext := match jexp n with
                | Some (marker, sign, digits) => marker :: sign ++ digits
                | None => []
                end).
  assert (Hrest : match rest with [] => True | c :: _ => is_digit c = false end).
  { destruct rest as [|c r]; [done|]. cbn [ends_literal] in Hend.
    apply andb_true_iff in Hend as [Hc _]. by apply negb_true_iff in Hc. }
  assert (Hetext : match etext ++ rest with
                   | [] => True | c :: _ => is_digit c = false end).
  { subst etext. destruct (jexp n) as [[[marker sign] digits]|]; [|done].
    cbn [app]. bool_hyps.
    match goal with H : (_ || _) = true |- _ =>
      apply orb_true_iff in H as [H|H]; apply N.eqb_eq in H; by subst end. }
  assert (Hexp : JS.exponent_part (etext ++ rest)
                 = match jexp n with
                   | Some (_, sign, digits) =>
                     let e := Z.of_N (JS.digits_value 10 digits) in
                     if bool_decide (sign = [Ch.minus]) then (- e)%Z else e
                   | None => 0%Z
                   end).
  { subst etext. destruct (jexp n) as [[[marker sign] digits]|] eqn:Ee.
    - apply andb_true_iff in He as [He Hdg].
      apply andb_true_iff in He as [Hm Hs].
      unfold nonempty_digits in Hdg. apply andb_true_iff in Hdg as [Hdn Hdg].
      apply negb_true_iff, bool_decide_eq_false in Hdn.
      rewrite <- app_comm_cons, <- app_assoc.
      apply exponent_part_rest; try done.
      + apply orb_true_iff in Hm as [Hm|Hm]; apply N.eqb_eq in Hm; auto.
      + repeat (apply orb_true_iff in Hs as [Hs|Hs]);
          apply bool_decide_eq_true in Hs; auto.
    - cbn [app]. apply exponent_part_none.
      destruct rest as [|c r]; [done|]. cbn [ends_literal] in Hend.
      rewrite Ee in Hend.
      apply andb_true_iff in Hend as [_ Hend].
      apply andb_true_iff in Hend as [Hend _].
      by apply negb_true_iff in Hend. }
  destruct (jfrac n) as [f|] eqn:Ef.
  - change (default [] (Some f)) with f in *. rewrite <- app_comm_cons.
    rewrite take_while_app, drop_while_app by done.
    change ((Ch.dot =? Ch.dot)%N) with true. cbn match.
    rewrite take_while_app, drop_while_app by done.
    rewrite Hexp. unfold id.
    destruct (jint n ++ f) as [|d ds] eqn:Eds; [done|]. done.
  - cbn [default app] in *. rewrite app_nil_r in Hne |- *.
    rewrite take_while_app, drop_while_app by done.
    assert (Hnodot : match etext ++ rest with
                     | c :: _ => (c =? Ch.dot)%N = false | [] => True end).
    { subst etext. destruct (jexp n) as [[[marker sign] digits]|] eqn:Ee.
      - cbn [app]. bool_hyps.
        match goal with H : (_ || _) = true |- _ =>
          apply orb_true_iff in H as [H|H]; apply N.eqb_eq in H; by subst end.
      - cbn [app]. destruct rest as [|c r]; [done|].
        cbn [ends_literal] in Hend. rewrite Ee, Ef in Hend.
        apply andb_true_iff in Hend as [_ Hend].
        apply andb_true_iff in Hend as [_ Hend].
        by apply negb_true_iff in Hend. }
    destruct (etext ++ rest) as [|c r] eqn:Er.
    + rewrite Hexp, app_nil_r. destruct (jint n) as [|d ds]; done.
    + rewrite Hnodot, Hexp, app_nil_r. destruct (jint n) as [|d ds]; done.
Qed.

End decimal_runs.

(** ** The claims of the specification *)

Section claims.
Import Store Parser Tokenizer.

(** C1. The claim is that [decode] returns on every valid strict JSON text
    the value a strict decoder returns. It holds for the texts without a
    member named [__proto__] ([strict_json_refinement] below) and fails for
    the others: on the valid text [{`__proto__`: 1}] a strict decoder
    returns an object whose own property [__proto__] is 1, and [decode]
    returns an object without own property, since [assignValue] defines
    the member by the assignment [value[key] = v], which reaches the setter
    of [Object.prototype]; on [{`__proto__`: {`x`: 1}}] the decoded object
    has no own property either, and the object [{x: 1}] as its
    prototype. *)
Theorem C1_proto_member_is_not_defined :
  Strict.valid_text ex_c1_proto = true /\
  Strict.render_text ex_c1_proto = qlit "{`__proto__`: 1}" /\
  Strict.denote ex_c1_proto.1.2 = obj [(proto_key, num 1)] /\
  decode (Strict.render_text ex_c1_proto) = Some (Ok (obj [])) /\
  Strict.valid_text ex_c1_proto_object = true /\
  Strict.render_text ex_c1_proto_object = qlit "{`__proto__`: {`x`: 1}}" /\
  Strict.denote ex_c1_proto_object.1.2
  = obj [(proto_key, obj [(lit "x", num 1)])] /\
  decode (Strict.render_text ex_c1_proto_object)
  = Some (Ok (TObject (obj [(lit "x", num 1)]) [])).
Proof. split_and!; by vm_compute. Qed.

(** C2. A closing bracket token, [}] or []], met with a non-empty stack
    pops the innermost container whatever its shape. When the stack becomes
    empty the value of the popped container is returned at once, whatever
    tokens follow; otherwise the loop goes on with the parent as current
    container (skipping a comma that follows). The input [{`a`:[1}] decodes
    to [{a: [1]}]. *)
Theorem C2_closing_bracket_pops_innermost tokens i token st below top c :
  tokens !! i = Some token ->
  type token = BRACKET ->
  value token = [Ch.rbrace] \/ value token = [Ch.rbracket] ->
  stacks st = below ++ [top] ->
  containers st !! top = Some c ->
  let popped cur := mkState (heap_of st) (containers st) below cur in
  match last below with
  | None =>
    parse_step tokens i token st
      = Return (VRef (cvalue c)) (popped (currentContainer st)) /\
    (forall fuel,
       parse_loop (S fuel) tokens i st
         = Some (Ok (VRef (cvalue c), popped (currentContainer st)))) /\
    (reachable tokens i st ->
     parse tokens = Some (Ok (VRef (cvalue c), popped (currentContainer st))))
  | Some parent =>
    parse_step tokens i token st
      = Next (if next_is_comma tokens i then i + 2 else i + 1)
          (popped (Some parent))
  end /\
  decode (qlit "{`a`:[1}") = Some (Ok (obj [(lit "a", TArray [num 1])])).
Proof.
  intros Htok Hty Hv Hst Hc popped. split; [|reflexivity].
  assert (Hstep : parse_step tokens i token st
    = match closeContainer st tokens i UnmatchedClosingBrace with
      | Ok (BracketReturn v, st') => Return v st'
      | Ok (BracketContinue newContainer skipNext, st') =>
        Next (if skipNext then i + 2 else i + 1)
          match newContainer with
          | Some c => mkState (heap_of st') (containers st') (stacks st') (Some c)
          | None => st'
          end
      | Throw e => Raise e
      end).
  { unfold parse_step. rewrite Hty. rewrite bool_decide_eq_true_2 by done.
    unfold step_bracket, handleBracketToken.
    destruct Hv as [-> | ->]; simpl; [done|].
    unfold closeContainer. rewrite Hst, last_snoc. done. }
  rewrite Hstep. unfold closeContainer.
  rewrite Hst, last_snoc, removelast_last.
  destruct (last below) as [parent|] eqn:Hlast.
  - done.
  - rewrite Hc. split_and!; [done| |].
    + intros fuel. simpl. rewrite Htok, Hstep. unfold closeContainer.
      by rewrite Hst, last_snoc, removelast_last, Hlast, Hc.
    + intros Hr. apply (parse_from_fuel _ _ _ 1 _ Hr).
      simpl. rewrite Htok, Hstep. unfold closeContainer.
      by rewrite Hst, last_snoc, removelast_last, Hlast, Hc.
Qed.

(** C2 at the first []] of [[{]] ...]: it closes the object. *)
Lemma C2_witness :
  run 2 ex_c2_tokens = Some (2, ex_c2_state) /\
  parse_step ex_c2_tokens 2 (simple_token BRACKET (lit "]")) ex_c2_state
  = Next 3
      (mkState [JSArray [VRef 1]; JSObject ObjectPrototype []]
         [mkContainer ARRAY 0 None; mkContainer OBJECT 1 None] [0] (Some 0)).
Proof.
  split; [vm_compute; reflexivity|].
  refine (proj1 (C2_closing_bracket_pops_innermost ex_c2_tokens 2
    (simple_token BRACKET (lit "]")) ex_c2_state [0] 1
    (mkContainer OBJECT 1 None) _ _ _ _ _)).
  - reflexivity.
  - reflexivity.
  - right. reflexivity.
  - reflexivity.
  - reflexivity.
Defined.

(** C3. When the scan of a string reaches a raw newline or carriage
    return and the text scanned so far ends with a backslash, a quote and
    an optional comma or colon, the token ends before the backslash, and
    the tokenizer skips the escape and the optional separator: it resumes
    at the newline, so that nothing after it is taken as content of the
    string. *)
Theorem C3_bad_escape_recovery pre quoteChar content q2 sep nl rest :
  let s := pre ++ quoteChar :: content ++ [Ch.backslash; q2] ++ sep
               ++ nl :: rest in
  let startPos := length pre in
  let p := startPos + 1 + length content + 2 + length sep in
  quoteChar = Ch.dquote \/ quoteChar = Ch.squote ->
  q2 = Ch.dquote \/ q2 = Ch.squote ->
  sep = [] \/ sep = [Ch.comma] \/ sep = [Ch.colon] ->
  nl = Ch.lf \/ nl = Ch.cr ->
  scan_reaches s startPos quoteChar p ->
  let token :=
    simple_token STRING
      (Ch.dquote
       :: (if (quoteChar =? Ch.squote)%N
           then escapeDoubleQuotes None content else content)
       ++ [Ch.dquote]) in
  s !! p = Some nl /\
  slice s (startPos + 1) p = content ++ [Ch.backslash; q2] ++ sep /\
  parseStringToken s startPos
    = mkStringTokenResult token (startPos + 1 + length content) true /\
  tokenize_step s startPos quoteChar = ([token], p) /\
  (forall fuel tokens,
     tokenize_loop (S fuel) s startPos tokens
     = tokenize_loop fuel s p (tokens ++ [token])).
Proof.
  intros s startPos p Hq Hq2 Hsep Hnl Hreach token.
  assert (Hdrop1 : drop (startPos + 1) s
                   = content ++ [Ch.backslash; q2] ++ sep ++ nl :: rest).
  { subst s startPos. apply drop_app_cons. }
  assert (Hlen : length (content ++ [Ch.backslash; q2] ++ sep)
                 = p - (startPos + 1)).
  { rewrite !length_app. simpl. lia. }
  assert (Hbefore : slice s (startPos + 1) p
                    = content ++ [Ch.backslash; q2] ++ sep).
  { unfold slice. rewrite Hdrop1, <- Hlen. apply take_app3_length. }
  assert (Hdropp : drop p s = nl :: rest).
  { replace p with ((startPos + 1) + length (content ++ [Ch.backslash; q2] ++ sep))
      by lia.
    rewrite <- drop_drop, Hdrop1. apply drop_app3_length. }
  assert (Hp : s !! p = Some nl).
  { rewrite <- (Nat.add_0_r p), <- lookup_drop, Hdropp. done. }
  assert (Hat : forall j, startPos + 1 + length content + j < p ->
            s !! (startPos + 1 + length content + j)
            = ([Ch.backslash; q2] ++ sep) !! j).
  { intros j Hj. rewrite <- Nat.add_assoc, <- lookup_drop, Hdrop1.
    rewrite lookup_app_r by lia.
    replace (length content + j - length content) with j by lia.
    rewrite (app_assoc [_; _]). rewrite lookup_app_l; [done|].
    rewrite length_app. simpl. lia. }
  assert (Hstart : s !! startPos = Some quoteChar)
    by apply lookup_app_cons.
  assert (Hscan :
    scanString s startPos quoteChar (drop (startPos + 1) s) (startPos + 1)
    = (startPos + 1 + length content,
       Some (quoteChar :: content ++ [quoteChar]))).
  { rewrite (scanString_reaches _ _ _ _ Hreach), Hdropp. cbn [scanString].
    assert ((nl =? quoteChar)%N = false) as ->
      by (destruct Hnl as [-> | ->], Hq as [-> | ->]; done).
    assert ((nl =? Ch.backslash)%N = false) as ->
      by (destruct Hnl as [-> | ->]; done).
    assert ((nl =? Ch.lf)%N || (nl =? Ch.cr)%N = true) as ->
      by (destruct Hnl as [-> | ->]; done).
    rewrite Hbefore, (matchEscapedQuote_suffix _ _ _ Hq2 Hsep).
    by rewrite take_app_length. }
  assert (Htok : parseStringToken s startPos
    = mkStringTokenResult token (startPos + 1 + length content) true).
  { unfold parseStringToken. rewrite Hstart.
    change (default 0%N (Some quoteChar)) with quoteChar.
    rewrite Hscan.
    subst token. f_equal. f_equal.
    destruct Hq as [-> | ->]; cbn [N.eqb Pos.eqb Ch.dquote Ch.squote]; [done|].
    unfold slice. cbn [drop length]. rewrite length_app. cbn [length].
    replace (S (length content + 1) - 1 - 1) with (length content) by lia.
    by rewrite drop_0, take_app_length. }
  assert (Hstep : tokenize_step s startPos quoteChar = ([token], p)).
  { unfold tokenize_step.
    assert ((quoteChar <=? Ch.space)%N = false) as ->
      by (destruct Hq as [-> | ->]; done).
    assert ((quoteChar =? Ch.slash)%N = false) as ->
      by (destruct Hq as [-> | ->]; done).
    cbn [fst].
    assert ((quoteChar =? Ch.dquote)%N || (quoteChar =? Ch.squote)%N = true)
      as -> by (destruct Hq as [-> | ->]; done).
    rewrite Htok. cbn [st_newPos skippedBadEscape st_token].
    assert (Hlt : p < length s) by by eapply lookup_lt_Some.
    pose proof (Hat 0) as H0. pose proof (Hat 1) as H1.
    rewrite Nat.add_0_r in H0. rewrite H0, H1 by lia.
    cbn [app lookup list_lookup].
    rewrite (bool_decide_eq_true_2 (Some Ch.backslash = Some Ch.backslash))
      by done.
    assert (bool_decide (Some q2 = Some Ch.dquote)
            || bool_decide (Some q2 = Some Ch.squote) = true) as ->
      by (destruct Hq2 as [-> | ->]; done).
    assert ((startPos + 1 + length content <? length s) = true) as ->
      by (apply Nat.ltb_lt; lia).
    assert ((startPos + 1 + length content + 1 <? length s) = true) as ->
      by (apply Nat.ltb_lt; lia).
    assert ((startPos + 1 + length content + 2 <? length s) = true) as ->
      by (apply Nat.ltb_lt; lia).
    cbn [andb]. f_equal.
    destruct Hsep as [-> | [-> | ->]].
    - assert (startPos + 1 + length content + 2 = p) as -> by (subst p; simpl; lia).
      rewrite Hp. destruct Hnl as [-> | ->]; done.
    - rewrite (Hat 2) by (subst p; simpl; lia). subst p. simpl. lia.
    - rewrite (Hat 2) by (subst p; simpl; lia). subst p. simpl. lia. }
  split_and!; [done|done|done|done|].
  intros fuel tokens. cbn [tokenize_loop]. by rewrite Hstart, Hstep.
Qed.

(** The array of strings of the specification: the first string is cut
    before the bad escape and the second one is a token of its own. *)
Lemma C3_example :
  tokenize ex_c3_input
  = [simple_token BRACKET (lit "["); simple_token STRING (qlit "`abc`");
     simple_token STRING (qlit "`def`"); simple_token BRACKET (lit "]")].
Proof. reflexivity. Qed.

(** C3 at the first string of that array. *)
Lemma C3_witness :
  let s := qlit "`abc\`," ++ [Ch.lf] ++ qlit "`def`" in
  scan_reaches s 0 Ch.dquote 7 /\
  s !! 7 = Some Ch.lf /\
  slice s 1 7 = lit "abc" ++ [Ch.backslash; Ch.dquote] ++ [Ch.comma] /\
  parseStringToken s 0
  = mkStringTokenResult (simple_token STRING (qlit "`abc`")) 4 true /\
  tokenize_step s 0 Ch.dquote = ([simple_token STRING (qlit "`abc`")], 7).
Proof.
  cbv zeta.
  assert (Hreach : scan_reaches (qlit "`abc\`," ++ [Ch.lf] ++ qlit "`def`")
                     0 Ch.dquote 7).
  { apply (scan_plain _ 0 _ 6 Ch.comma);
      [|reflexivity|discriminate|discriminate|discriminate].
    apply (scan_escape _ 0 _ 4); [|reflexivity|discriminate].
    apply (scan_plain _ 0 _ 3 (ch "c"));
      [|reflexivity|discriminate|discriminate|discriminate].
    apply (scan_plain _ 0 _ 2 (ch "b"));
      [|reflexivity|discriminate|discriminate|discriminate].
    apply (scan_plain _ 0 _ 1 (ch "a"));
      [|reflexivity|discriminate|discriminate|discriminate].
    apply (scan_start _ 0). }
  split; [exact Hreach|].
  pose proof (C3_bad_escape_recovery [] Ch.dquote (lit "abc") Ch.dquote
                [Ch.comma] Ch.lf (qlit "`def`")
                (or_introl eq_refl) (or_introl eq_refl)
                (or_intror (or_introl eq_refl)) (or_introl eq_refl) Hreach)
    as (H1 & H2 & H3 & H4 & _).
  split_and!; [exact H1|exact H2|exact H3|exact H4].
Defined.

(** C4. The claim is that a key that is pending when the tokens end is
    resolved to [null]. The code says so too ([handleUnclosedContainers]:
    handle any pending keys with null values) and does it for every key
    ([end_of_input_resolution] below) but [__proto__]: the assignment
    [value[key] = null] reaches the setter of [Object.prototype], as in
    C1, so that [{`__proto__`] decodes to an object without own property
    whose prototype is [null], where [{`a`] decodes to [{a: null}]. *)
Theorem C4_pending_proto_key_is_not_defined :
  decode (qlit "{`a`") = Some (Ok (obj [(lit "a", TNull)])) /\
  decode (qlit "{`__proto__`") = Some (Ok (TObject TNull [])).
Proof. split; vm_compute; reflexivity. Qed.

(** X19. When the tokens end with containers still open, [parse] returns
    the value of the first-pushed container, after the pending key of the
    innermost container (when it is an object that has one) got the value
    [null]: a key other than [__proto__] is then an own property of the
    object with the value [null], created after the properties the object
    has or updated where it stands. When the tokens end with an empty stack
    [parse] returns [undefined]. The input [{] decodes to the empty object
    and the empty input to [undefined]. *)
Theorem end_of_input_resolution tokens i st :
  reachable tokens i st ->
  tokens !! i = None ->
  parse tokens = Some (Ok (handleUnclosedContainers st)) /\
  (stacks st = [] -> handleUnclosedContainers st = (VUndefined, st)) /\
  (forall outermost above innermost,
     stacks st = outermost :: above ->
     last (stacks st) = Some innermost ->
     exists c0 c,
       containers st !! outermost = Some c0 /\
       containers st !! innermost = Some c /\
       currentContainer st = Some innermost /\
       handleUnclosedContainers st
         = (VRef (cvalue c0), resolve_pending_key st) /\
       resolve_pending_key st
         = match ctype c, ckey c with
           | OBJECT, Some k =>
             set_key innermost None
               (set_heap (property_set (heap_of st) (cvalue c) k VNull) st)
           | _, _ => st
           end /\
       (forall k p props,
          ctype c = OBJECT -> ckey c = Some k -> k <> proto_key ->
          heap_of st !! cvalue c = Some (JSObject p props) ->
          heap_of (resolve_pending_key st) !! cvalue c
            = Some (JSObject p (set_own props k VNull)) /\
          (k, VNull) ∈ set_own props k VNull /\
          containers (resolve_pending_key st) !! innermost
            = Some (mkContainer OBJECT (cvalue c) None))) /\
  decode (lit "{") = Some (Ok (obj [])) /\
  decode [] = Some (Ok TUndefined).
Proof.
  intros Hr Hend. pose proof (reachable_wf _ _ _ Hr) as [Hw1 Hw2 Hw3].
  split_and!; [| |intros outermost above innermost Hst Hlast|reflexivity..].
  - apply (parse_from_fuel _ _ _ 1 _ Hr). simpl. by rewrite Hend.
  - intros Hst. unfold handleUnclosedContainers. by rewrite Hst.
  - assert (Ho : outermost < length (containers st)).
    { rewrite Hst in Hw2. by apply Forall_cons in Hw2 as [? _]. }
    assert (Hi : innermost < length (containers st)).
    { rewrite Forall_forall in Hw2. apply Hw2.
      apply last_Some_elem_of. done. }
    apply lookup_lt_is_Some in Ho as [c0 Hc0].
    apply lookup_lt_is_Some in Hi as [c Hc].
    rewrite Hlast in Hw1.
    exists c0, c. split_and!; try done.
    + unfold handleUnclosedContainers. rewrite Hst. f_equal.
      pose proof (resolve_pending_key_containers_cvalue st outermost) as E.
      rewrite Hc0 in E. simpl in E.
      destruct (containers (resolve_pending_key st) !! outermost);
        simpl in E; congruence.
    + unfold resolve_pending_key.
      rewrite Hw1, (current_Some _ _ _ Hw1 Hc). done.
    + intros k p props Hty Hk Hne Hh.
      rewrite (resolve_pending_key_eq _ _ _ _ Hw1 Hc Hty Hk).
      split_and!.
      * by apply property_set_own.
      * apply set_own_elem.
      * simpl. rewrite list_lookup_alter_eq, Hc. simpl. by rewrite Hty.
Qed.

(** X19 at the end of [{a{b]: the key [b] of the inner object gets
    [null] and the outer object is returned. *)
Lemma end_of_input_resolution_witness :
  run 4 ex_c4_tokens = Some (4, ex_c4_state) /\
  ex_c4_tokens !! 4 = None /\
  parse ex_c4_tokens
  = Some (Ok (VRef 0,
       mkState
         [JSObject ObjectPrototype [(lit "a", VRef 1)];
          JSObject ObjectPrototype [(lit "b", VNull)]]
         [mkContainer OBJECT 0 None; mkContainer OBJECT 1 None]
         [0; 1] (Some 1))).
Proof.
  split_and!; [vm_compute; reflexivity|reflexivity|].
  refine (proj1 (end_of_input_resolution ex_c4_tokens 4 ex_c4_state _ _)).
  - apply (run_reachable 4). vm_compute. reflexivity.
  - reflexivity.
Defined.

(** C5. A comma processed inside an open container appends a [null]
    placeholder when the current container is an array, and changes nothing
    when it is an object, in key position or not. [[1, , 3]] decodes to
    [[1, null, 3]] and [{`a`: 1,, `b`: 2}] to [{a: 1, b: 2}]. *)
Theorem C5_comma_placeholder_only_in_array tokens i token st r c :
  type token = PUNCTUATION ->
  value token = [Ch.comma] ->
  stacks st <> [] ->
  currentContainer st = Some r ->
  containers st !! r = Some c ->
  parse_step tokens i token st
    = Next (i + 1)
        match ctype c with
        | ARRAY => set_heap (array_push (heap_of st) (cvalue c) VNull) st
        | OBJECT => st
        end /\
  (forall elems,
     heap_of st !! cvalue c = Some (JSArray elems) ->
     array_push (heap_of st) (cvalue c) VNull !! cvalue c
       = Some (JSArray (elems ++ [VNull]))) /\
  decode (lit "[1, , 3]") = Some (Ok (TArray [num 1; TNull; num 3])) /\
  decode (qlit "{`a`: 1,, `b`: 2}")
    = Some (Ok (obj [(lit "a", num 1); (lit "b", num 2)])).
Proof.
  intros Hty Hv Hst Hcur Hc.
  pose proof (current_Some _ _ _ Hcur Hc) as Hcurrent.
  split_and!; [|intros elems Hh|reflexivity|reflexivity].
  - unfold parse_step. rewrite Hty.
    rewrite bool_decide_eq_false_2 by done.
    rewrite bool_decide_eq_true_2 by done.
    unfold is_key_position. rewrite Hcurrent.
    destruct (ctype c) eqn:Ect, (ckey c) eqn:Eck.
    + unfold step_punctuation, handlePunctuationToken.
      rewrite bool_decide_eq_false_2 by done. rewrite Hv.
      rewrite bool_decide_eq_true_2 by done. by rewrite Hcurrent, Ect.
    + unfold step_key, handleObjectKey. rewrite Hty, Hv.
      by rewrite bool_decide_eq_true_2.
    + unfold step_punctuation, handlePunctuationToken.
      rewrite bool_decide_eq_false_2 by done. rewrite Hv.
      rewrite bool_decide_eq_true_2 by done. by rewrite Hcurrent, Ect.
    + unfold step_punctuation, handlePunctuationToken.
      rewrite bool_decide_eq_false_2 by done. rewrite Hv.
      rewrite bool_decide_eq_true_2 by done. by rewrite Hcurrent, Ect.
  - unfold array_push. rewrite Hh.
    apply list_lookup_insert_eq. by eapply lookup_lt_Some.
Qed.

(** C5 at a comma in an empty open array. *)
Lemma C5_witness :
  parse_step [] 0 (simple_token PUNCTUATION [Ch.comma]) ex_c5_state
  = Next 1 (mkState [JSArray [VNull]] [mkContainer ARRAY 0 None] [0] (Some 0)).
Proof.
  refine (proj1 (C5_comma_placeholder_only_in_array []
    0 (simple_token PUNCTUATION [Ch.comma]) ex_c5_state 0
    (mkContainer ARRAY 0 None) _ _ _ _ _)).
  - reflexivity.
  - reflexivity.
  - discriminate.
  - reflexivity.
  - reflexivity.
Defined.

(** C6, amended. A colon processed while the current object has a
    pending key other than [__proto__] makes the key an own property with
    the value [null] (created after the properties the object has, or
    updated where it stands) and clears it when the colon is the last token
    or the text of the next token is a comma or a closing brace; before any
    other token, a closing square bracket included, it changes nothing.
    [{`name`: `John`, `age`:] decodes to [{name: `John`, age: null}]. The
    key [__proto__] is the defect of C1 and C4 and is left out. *)
Theorem C6_colon_without_value tokens i token st r c k :
  type token = PUNCTUATION ->
  value token = [Ch.colon] ->
  stacks st <> [] ->
  currentContainer st = Some r ->
  containers st !! r = Some c ->
  ctype c = OBJECT ->
  ckey c = Some k ->
  let resolved :=
    set_key r None
      (set_heap (property_set (heap_of st) (cvalue c) k VNull) st) in
  (tokens !! (i + 1) = None \/
   (exists next, tokens !! (i + 1) = Some next /\
      (value next = [Ch.comma] \/ value next = [Ch.rbrace])) ->
   parse_step tokens i token st = Next (i + 1) resolved) /\
  (forall next, tokens !! (i + 1) = Some next ->
     value next <> [Ch.comma] -> value next <> [Ch.rbrace] ->
     parse_step tokens i token st = Next (i + 1) st) /\
  (containers resolved !! r = Some (mkContainer OBJECT (cvalue c) None)) /\
  (forall p props, heap_of st !! cvalue c = Some (JSObject p props) ->
     k <> proto_key ->
     heap_of resolved !! cvalue c = Some (JSObject p (set_own props k VNull))
     /\ (k, VNull) ∈ set_own props k VNull
     /\ (forall a, a <> cvalue c -> heap_of resolved !! a = heap_of st !! a)) /\
  decode (qlit "{`name`: `John`, `age`:")
    = Some (Ok (obj [(lit "name", TString (lit "John"));
                     (lit "age", TNull)])).
Proof.
  intros Hty Hv Hst Hcur Hc Hct Hk resolved.
  pose proof (current_Some _ _ _ Hcur Hc) as Hcurrent.
  assert (Hstep : parse_step tokens i token st
                  = step_punctuation tokens i token st).
  { unfold parse_step. rewrite Hty.
    rewrite bool_decide_eq_false_2 by done.
    rewrite bool_decide_eq_true_2 by done.
    unfold is_key_position. by rewrite Hcurrent, Hct, Hk. }
  rewrite Hstep. unfold step_punctuation, handlePunctuationToken.
  rewrite bool_decide_eq_false_2 by done. rewrite Hv.
  rewrite bool_decide_eq_false_2 by done.
  rewrite bool_decide_eq_true_2 by done.
  rewrite (resolve_pending_key_eq _ _ _ _ Hcur Hc Hct Hk).
  split_and!.
  - intros [->|(next & -> & [->| ->])]; [done| |].
    + by rewrite bool_decide_eq_true_2.
    + rewrite bool_decide_eq_false_2 by done.
      by rewrite bool_decide_eq_true_2.
  - intros next -> H1 H2. by rewrite !bool_decide_eq_false_2.
  - subst resolved. simpl. rewrite list_lookup_alter_eq, Hc. simpl.
    by rewrite Hct.
  - intros p props Hh Hne. subst resolved. simpl. split_and!.
    + by apply property_set_own.
    + apply set_own_elem.
    + intros a Ha. unfold property_set. rewrite Hh.
      rewrite bool_decide_eq_false_2 by done. simpl.
      by apply list_lookup_insert_ne.
  - reflexivity.
Qed.

(** C6 as stated fails before a closing square bracket: in [{`a`:]] the
    colon leaves the key [a] pending, and the bracket then closes the
    object without it. *)
Lemma C6_counterexample :
  let tokens := Tokenizer.tokenize (qlit "{`a`:]") in
  exists st colon c,
    run 2 tokens = Some (2, st) /\
    tokens !! 2 = Some colon /\
    type colon = PUNCTUATION /\ value colon = [Ch.colon] /\
    tokens !! 3 = Some (simple_token BRACKET [Ch.rbracket]) /\
    current st = Some c /\ ctype c = OBJECT /\ ckey c = Some (lit "a") /\
    parse_step tokens 2 colon st = Next 3 st /\
    decode (qlit "{`a`:]") = Some (Ok (obj [])).
Proof.
  eexists _, _, _. split_and!; try reflexivity.
Qed.

(** C6 at a colon that ends the input. *)
Lemma C6_witness :
  parse_step [simple_token PUNCTUATION [Ch.colon]] 0
    (simple_token PUNCTUATION [Ch.colon]) ex_c6_state
  = Next 1
      (mkState [JSObject ObjectPrototype [(lit "age", VNull)]]
         [mkContainer OBJECT 0 None] [0] (Some 0)).
Proof.
  refine (proj1 (C6_colon_without_value
    [simple_token PUNCTUATION [Ch.colon]] 0
    (simple_token PUNCTUATION [Ch.colon]) ex_c6_state 0
    (mkContainer OBJECT 0 (Some (lit "age"))) (lit "age") _ _ _ _ _ _ _) _).
  - reflexivity.
  - reflexivity.
  - discriminate.
  - reflexivity.
  - reflexivity.
  - reflexivity.
  - reflexivity.
  - left. reflexivity.
Defined.

(** C7, amended. The leaf decoding of an IDENTIFIER token lower-cases its
    text and looks it up in the four alias tables: [true], [false], [null]
    or [undefined] for a text of the matching table, and the text itself,
    as a string, for any other text. It is what the loop decodes and
    assigns or returns for an identifier in value position at top level,
    and inside a container when no identifier follows. Inside a container
    an identifier that other identifiers follow is joined with them by
    single spaces into one string, without alias matching. No identifier
    makes the loop throw. *)
Theorem C7_identifier_aliases tokens i (token : Token) st :
  let text := value token in
  let lower := JS.toLowerCase text in
  let truthy := map lit ["t"; "tr"; "tru"; "true"]%string in
  let falsy := map lit ["f"; "fa"; "fal"; "fals"; "false"]%string in
  let null_like :=
    map lit ["n"; "nu"; "nul"; "null"; "no"; "non"; "none"; "nil";
             "nill"]%string in
  let undefined_like :=
    map lit ["u"; "un"; "und"; "unde"; "undef"; "undefi"; "undefin";
             "undefined"]%string in
  (lower ∈ truthy -> parseIdentifierValue token = VBool true) /\
  (lower ∈ falsy -> parseIdentifierValue token = VBool false) /\
  (lower ∈ null_like -> parseIdentifierValue token = VNull) /\
  (lower ∈ undefined_like -> parseIdentifierValue token = VUndefined) /\
  (lower ∉ truthy ++ falsy ++ null_like ++ undefined_like ->
   parseIdentifierValue token = VString text) /\
  (type token = IDENTIFIER ->
   parseValueToken token = Ok (parseIdentifierValue token) /\
   parse [token] = Some (Ok (parseIdentifierValue token, init)) /\
   (currentContainer st = None \/
    (forall next, tokens !! (i + 1) = Some next -> type next <> IDENTIFIER) ->
    decode_value tokens i token st = Ok (parseIdentifierValue token, i) /\
    (is_key_position st = false ->
     parse_step tokens i token st
     = match assignValue (parseIdentifierValue token) st tokens i with
       | (AssignReturn v, st') => Return v st'
       | (AssignContinue skipNext, st') =>
         Next (if skipNext then i + 2 else i + 1) st'
       end)) /\
   (forall ids post,
      currentContainer st <> None ->
      drop (i + 1) tokens = ids ++ post -> ids <> [] ->
      Forall (fun t => type t = IDENTIFIER) ids -> follows post ->
      decode_value tokens i token st
      = Ok (VString (JS.join [Ch.space] (value token :: map value ids)),
            i + length ids)) /\
   (forall e, parse_step tokens i token st <> Raise e)).
Proof.
  cbv zeta. split_and!; [..|intros Hty; split_and!].
  1-5: unfold parseIdentifierValue, has;
       generalize (JS.toLowerCase (value token)) as lower; intros lower H.
  - by rewrite bool_decide_eq_true_2.
  - repeat (apply elem_of_cons in H as [->|H]); [..|by apply elem_of_nil in H];
      reflexivity.
  - repeat (apply elem_of_cons in H as [->|H]); [..|by apply elem_of_nil in H];
      reflexivity.
  - repeat (apply elem_of_cons in H as [->|H]); [..|by apply elem_of_nil in H];
      reflexivity.
  - rewrite !elem_of_app in H.
    rewrite !bool_decide_eq_false_2 by (intros ?; apply H; auto 10). done.
  - unfold parseValueToken. by rewrite Hty.
  - unfold parse. cbn [length Nat.add parse_loop lookup list_lookup].
    unfold parse_step. rewrite Hty.
    rewrite !bool_decide_eq_false_2 by done.
    unfold is_key_position, step_value, decode_value, parseValueToken.
    rewrite Hty. reflexivity.
  - intros Hsingle.
    assert (Hd : decode_value tokens i token st
                 = Ok (parseIdentifierValue token, i)).
    { unfold decode_value, parseValueToken. rewrite Hty.
      destruct (currentContainer st) as [r|] eqn:Hcur; [|done].
      destruct Hsingle as [?|Hnext]; [done|].
      assert (identifier_run (drop (i + 1) tokens) = []) as ->; [|done].
      destruct (drop (i + 1) tokens) as [|next rest] eqn:Hdrop; [done|].
      cbn [identifier_run].
      pose proof (Hnext next (drop_head _ _ _ _ Hdrop)) as Hne.
      by destruct (type next). }
    split; [done|]. intros Hkey. unfold parse_step. rewrite Hty, Hkey.
    rewrite !bool_decide_eq_false_2 by done.
    unfold step_value. by rewrite Hd.
  - intros ids post Hcur Hdrop Hne Hids Hpost.
    unfold decode_value. rewrite Hty.
    destruct (currentContainer st) as [r|]; [|done].
    rewrite Hdrop, (identifier_run_ids ids post Hids Hpost).
    cbn [length]. rewrite length_map.
    assert ((1 <? S (length ids)) = true) as ->.
    { apply Nat.ltb_lt. destruct ids; [by destruct Hne|simpl; lia]. }
    do 2 f_equal. lia.
  - intros e. unfold parse_step. rewrite Hty.
    rewrite !bool_decide_eq_false_2 by done.
    destruct (is_key_position st).
    + unfold step_key, handleObjectKey. rewrite Hty.
      by destruct (currentContainer st).
    + unfold step_value.
      assert (exists v j, decode_value tokens i token st = Ok (v, j))
        as (v & j & ->).
      { unfold decode_value, parseValueToken. rewrite Hty.
        destruct (currentContainer st); [|by eauto].
        destruct (1 <? _); by eauto. }
      by destruct (assignValue v st tokens j) as [[]].
Qed.

(** C7 as stated fails for an identifier that another identifier follows
    inside a container: in [[true false]] the identifier [true] is not
    decoded to the Boolean, the array holds the one string [true false]. *)
Lemma C7_counterexample :
  let tokens := Tokenizer.tokenize (lit "[true false]") in
  tokens !! 1 = Some (simple_token IDENTIFIER (lit "true")) /\
  parseIdentifierValue (simple_token IDENTIFIER (lit "true")) = VBool true /\
  run 1 tokens = Some (1, ex_c5_state) /\
  decode_value tokens 1 (simple_token IDENTIFIER (lit "true")) ex_c5_state
  = Ok (VString (lit "true false"), 2) /\
  decode (lit "[true false]") = Some (Ok (TArray [TString (lit "true false")])) /\
  decode (lit "[true]") = Some (Ok (TArray [TBool true])).
Proof. split_and!; vm_compute; reflexivity. Qed.

(** C7 at three identifiers, and at [hello] as the last element of an
    array. *)
Lemma C7_witness :
  parseIdentifierValue (simple_token IDENTIFIER (lit "Tru")) = VBool true /\
  parseIdentifierValue (simple_token IDENTIFIER (lit "NIL")) = VNull /\
  parseIdentifierValue (simple_token IDENTIFIER (lit "hello"))
  = VString (lit "hello") /\
  decode_value ex_merge_tokens 2 (simple_token IDENTIFIER (lit "world"))
    ex_c5_state
  = Ok (VString (lit "world"), 2).
Proof.
  split_and!.
  - refine (proj1 (C7_identifier_aliases [] 0
                     (simple_token IDENTIFIER (lit "Tru")) init) _).
    apply list_elem_of_In. vm_compute. right; right; left; reflexivity.
  - refine (proj1 (proj2 (proj2 (C7_identifier_aliases [] 0
                                   (simple_token IDENTIFIER (lit "NIL"))
                                   init))) _).
    apply list_elem_of_In. vm_compute. do 7 right; left; reflexivity.
  - refine (proj1 (proj2 (proj2 (proj2 (proj2
              (C7_identifier_aliases [] 0
                 (simple_token IDENTIFIER (lit "hello")) init))))) _).
    intros H. apply list_elem_of_In in H. vm_compute in H.
    intuition discriminate.
  - refine (proj1 (proj1 (proj2 (proj2 (proj2 (proj2 (proj2 (proj2 (proj2
              (C7_identifier_aliases ex_merge_tokens 2
                 (simple_token IDENTIFIER (lit "world")) ex_c5_state)))))
              eq_refl))) _)).
    right. intros next [= <-]. discriminate.
Defined.

(** C8. When the loop meets a closing bracket or a punctuation token
    with an empty stack, [parse] throws and returns no value. The input
    [}] throws. *)
Theorem C8_structural_error_on_empty_stack tokens i token st :
  reachable tokens i st ->
  tokens !! i = Some token ->
  stacks st = [] ->
  (type token = BRACKET /\ value token = [Ch.rbrace] ->
   parse_step tokens i token st = Raise UnmatchedClosingBrace /\
   parse tokens = Some (Throw UnmatchedClosingBrace)) /\
  (type token = BRACKET /\ value token = [Ch.rbracket] ->
   parse_step tokens i token st = Raise UnmatchedClosingBracket /\
   parse tokens = Some (Throw UnmatchedClosingBracket)) /\
  (type token = PUNCTUATION ->
   parse_step tokens i token st = Raise UnexpectedPunctuation /\
   parse tokens = Some (Throw UnexpectedPunctuation)) /\
  decode (lit "}") = Some (Throw UnmatchedClosingBrace).
Proof.
  intros Hr Htok Hst.
  pose proof (wf_empty_stack _ (reachable_wf _ _ _ Hr) Hst) as Hcur.
  assert (Hraise : forall e, parse_step tokens i token st = Raise e ->
            parse_step tokens i token st = Raise e /\
            parse tokens = Some (Throw e)).
  { intros e He. split; [done|].
    apply (parse_from_fuel _ _ _ 1 _ Hr). simpl. by rewrite Htok, He. }
  split_and!.
  - intros [Hty Hv]. apply Hraise. unfold parse_step. rewrite Hty.
    rewrite bool_decide_eq_true_2 by done.
    unfold step_bracket, handleBracketToken. rewrite Hv. simpl.
    unfold closeContainer. by rewrite Hst.
  - intros [Hty Hv]. apply Hraise. unfold parse_step. rewrite Hty.
    rewrite bool_decide_eq_true_2 by done.
    unfold step_bracket, handleBracketToken. rewrite Hv. simpl.
    unfold closeContainer. by rewrite Hst.
  - intros Hty. apply Hraise. unfold parse_step. rewrite Hty.
    rewrite bool_decide_eq_false_2 by done.
    unfold is_key_position. rewrite (current_None _ Hcur).
    rewrite bool_decide_eq_true_2 by done.
    unfold step_punctuation, handlePunctuationToken.
    by rewrite Hst.
  - reflexivity.
Qed.

(** C8 at a stream that starts with a comma. *)
Lemma C8_witness :
  let tokens := [simple_token PUNCTUATION [Ch.comma]] in
  reachable tokens 0 init /\
  parse_step tokens 0 (simple_token PUNCTUATION [Ch.comma]) init
    = Raise UnexpectedPunctuation /\
  parse tokens = Some (Throw UnexpectedPunctuation).
Proof.
  split; [apply reachable_init|].
  exact (proj1 (proj2 (proj2
    (C8_structural_error_on_empty_stack
       [simple_token PUNCTUATION [Ch.comma]] 0
       (simple_token PUNCTUATION [Ch.comma]) init
       (reachable_init _) eq_refl eq_refl))) eq_refl).
Defined.

(** C9, amended. The leaf decoding of a NUMBER token never throws, and no
    step of the loop throws on a NUMBER token: the token decodes to a
    number. A token [0x], [0o] or [0b] without digit decodes to NaN. A
    decimal token whose text is a decimal literal (digits, an optional dot
    with digits, an optional exponent) and a rest that does not continue it
    decodes to the value of the literal, negated for a negative token:
    [1.2.3] decodes to 1.2 and [1e5e2] to 100000. *)
Theorem C9_number_leaf_never_throws tokens i token st :
  type token = NUMBER ->
  parseValueToken token = Ok (VNumber (parseNumberValue token)) /\
  (forall e, parse_step tokens i token st <> Raise e) /\
  (forall R p,
     radix_marker R p = true -> radix token = Some R ->
     value token = [Ch.zero; p] ->
     parseNumberValue token = JS.NaN) /\
  (forall n rest,
     radix token = Some RADIX.DECIMAL ->
     value token = Strict.magnitude_text n ++ rest ->
     decimal_literal n = true -> ends_literal n rest = true ->
     parseNumberValue token
     = JS.signed (isNegative token)
         (Strict.number_value
            (Strict.mkNumber false (Strict.jint n) (Strict.jfrac n)
               (Strict.jexp n)))) /\
  decode (lit "0x") = Some (Ok (TNumber JS.NaN)) /\
  decode (lit "[0x]") = Some (Ok (TArray [TNumber JS.NaN])) /\
  decode (lit "[0o, 0B]") = Some (Ok (TArray [TNumber JS.NaN; TNumber JS.NaN])) /\
  decode (lit "1.2.3") = Some (Ok (TNumber (JS.of_decimal 12 (-1)))) /\
  decode (lit "1e5e2") = Some (Ok (num 100000)).
Proof.
  intros Hty. split_and!.
  - unfold parseValueToken. by rewrite Hty.
  - intros e. unfold parse_step. rewrite Hty.
    rewrite !bool_decide_eq_false_2 by done.
    destruct (is_key_position st).
    + unfold step_key, handleObjectKey. rewrite Hty.
      repeat case_match; done.
    + unfold step_value, decode_value, parseValueToken. rewrite Hty.
      destruct (assignValue _ _ _ _) as [[]]; done.
  - intros R p Hm HR Hv. unfold parseNumberValue. rewrite HR, Hv.
    unfold radix_marker in Hm.
    repeat (apply orb_true_iff in Hm as [Hm|Hm]);
      apply andb_true_iff in Hm as [HR' Hp];
      apply N.eqb_eq in HR'; subst R;
      apply orb_true_iff in Hp as [Hp|Hp];
      apply N.eqb_eq in Hp; subst p;
      by destruct (isNegative token).
  - intros n rest HR Hv Hlit Hend. unfold parseNumberValue. rewrite HR, Hv.
    rewrite !bool_decide_eq_false_2 by done.
    rewrite (parseFloat_prefix n rest Hlit Hend).
    by destruct (isNegative token).
  - reflexivity.
  - reflexivity.
  - reflexivity.
  - vm_compute. reflexivity.
  - vm_compute. reflexivity.
Qed.

(** C9 at the token of [0x] and at the token of [1.2.3]. *)
Lemma C9_witness :
  let token := mkToken NUMBER (lit "0x") (Some 16%N) false false in
  let run := mkToken NUMBER (lit "1.2.3") (Some 10%N) false false in
  Tokenizer.tokenize (lit "0x") = [token] /\
  parseValueToken token = Ok (VNumber JS.NaN) /\
  parse [token] = Some (Ok (VNumber JS.NaN, init)) /\
  Tokenizer.tokenize (lit "1.2.3") = [run] /\
  parseNumberValue run = JS.of_decimal 12 (-1).
Proof.
  split_and!; [reflexivity| |reflexivity|reflexivity|].
  - exact (proj1 (C9_number_leaf_never_throws
      [] 0 (mkToken NUMBER (lit "0x") (Some 16%N) false false) init eq_refl)).
  - exact (proj1 (proj2 (proj2 (proj2 (C9_number_leaf_never_throws
      [] 0 (mkToken NUMBER (lit "1.2.3") (Some 10%N) false false) init
      eq_refl))))
      (Strict.mkNumber false (lit "1") (Some (lit "2")) None) (lit ".3")
      eq_refl eq_refl eq_refl eq_refl).
Defined.

(** C9 as stated fails on [0x]: the decoder returns NaN and throws
    nothing. *)
Lemma C9_counterexample :
  Tokenizer.tokenize (lit "0x")
    = [mkToken NUMBER (lit "0x") (Some RADIX.HEXADECIMAL) false false] /\
  JS.parseInt (lit "0x") 16 = JS.NaN /\
  decode (lit "0x") = Some (Ok (TNumber JS.NaN)).
Proof. split_and!; reflexivity. Qed.

(** C10, amended. Assigning a value to a key that the current object
    already has replaces the value where the key stands, in the order of
    creation of the properties and in the order in which the object lists
    them (the names that are array indices first, in ascending order, then
    the other names in the order of their creation): the other entries and
    both orders are unchanged, and the key occurs once. [{`a`:1,`a`:2}]
    decodes to [{a: 2}]. *)
Theorem C10_assign_existing_key_overwrites tokens i st v r c k p props :
  reachable tokens i st ->
  currentContainer st = Some r ->
  containers st !! r = Some c ->
  ctype c = OBJECT ->
  ckey c = Some k ->
  heap_of st !! cvalue c = Some (JSObject p props) ->
  k ∈ props.*1 ->
  (exists l1 v0 l2,
     props = l1 ++ (k, v0) :: l2 /\ (k ∉ l1.*1) /\ (k ∉ l2.*1) /\
     heap_of (assignValue v st tokens i).2 !! cvalue c
       = Some (JSObject p (l1 ++ (k, v) :: l2)) /\
     exists o1 o2,
       own_property_order props = o1 ++ (k, v0) :: o2 /\
       (k ∉ o1.*1) /\ (k ∉ o2.*1) /\
       own_property_order (l1 ++ (k, v) :: l2) = o1 ++ (k, v) :: o2) /\
  decode (qlit "{`a`:1,`a`:2}") = Some (Ok (obj [(lit "a", num 2)])).
Proof.
  intros Hr Hcur Hc Hty Hk Hh Hin. split; [|reflexivity].
  pose proof (reachable_keys_nodup _ _ _ Hr _ _ _ Hh) as Hnd.
  destruct (set_own_present props k v Hin) as (l1 & v0 & l2 & -> & Hni & Hset).
  assert (Hni2 : k ∉ l2.*1).
  { rewrite fmap_app, fmap_cons in Hnd.
    apply NoDup_app in Hnd as (_ & _ & Hnd).
    by apply NoDup_cons in Hnd as [? _]. }
  exists l1, v0, l2. split_and!; [done|done|done| |].
  - unfold assignValue. rewrite Hcur, (current_Some _ _ _ Hcur Hc), Hty, Hk.
    simpl. unfold property_set. rewrite Hh.
    assert (has_key (l1 ++ (k, v0) :: l2) k = true) as ->
      by by apply bool_decide_eq_true_2.
    rewrite andb_false_r. simpl. rewrite Hset.
    apply list_lookup_insert_eq. by eapply lookup_lt_Some.
  - destruct (own_property_order_split k v0 (l1 ++ (k, v0) :: l2) Hnd)
      as (o1 & o2 & Ho & Ho1 & Ho2).
    { apply elem_of_app. right. by left. }
    exists o1, o2. split_and!; [done..|].
    rewrite <- (with_value_present k v v0 l1 l2) by done.
    rewrite own_property_order_with_value, Ho.
    by apply with_value_present.
Qed.

(** C10 as stated fails for a name that is created before an array index:
    in [{`b`:1,`1`:2,`b`:3}] the name [b] is inserted first, the object
    lists it second, after the index [1], and the assignment of 3 leaves
    it there. *)
Lemma C10_counterexample :
  decode (qlit "{`b`:1") = Some (Ok (obj [(lit "b", num 1)])) /\
  decode (qlit "{`b`:1,`1`:2")
  = Some (Ok (obj [(lit "1", num 2); (lit "b", num 1)])) /\
  decode (qlit "{`b`:1,`1`:2,`b`:3}")
  = Some (Ok (obj [(lit "1", num 2); (lit "b", num 3)])).
Proof. split_and!; vm_compute; reflexivity. Qed.

(** C10 at the second value of [{a:x,a:y]. *)
Lemma C10_witness :
  run 6 ex_c10_tokens = Some (7, ex_c10_state) /\
  (exists l1 v0 l2,
     [(lit "a", VString (lit "x"))] = l1 ++ (lit "a", v0) :: l2 /\
     (lit "a" ∉ l1.*1) /\ (lit "a" ∉ l2.*1) /\
     heap_of (assignValue (VString (lit "y")) ex_c10_state ex_c10_tokens 7).2
       !! 0
       = Some (JSObject ObjectPrototype
                 (l1 ++ (lit "a", VString (lit "y")) :: l2)) /\
     exists o1 o2,
       own_property_order [(lit "a", VString (lit "x"))]
       = o1 ++ (lit "a", v0) :: o2 /\
       (lit "a" ∉ o1.*1) /\ (lit "a" ∉ o2.*1) /\
       own_property_order (l1 ++ (lit "a", VString (lit "y")) :: l2)
       = o1 ++ (lit "a", VString (lit "y")) :: o2).
Proof.
  split; [vm_compute; reflexivity|].
  apply (C10_assign_existing_key_overwrites ex_c10_tokens 7 ex_c10_state
           (VString (lit "y")) 0 (mkContainer OBJECT 0 (Some (lit "a")))
           (lit "a") ObjectPrototype [(lit "a", VString (lit "x"))]).
  - apply (run_reachable 6). vm_compute. reflexivity.
  - reflexivity.
  - reflexivity.
  - reflexivity.
  - reflexivity.
  - reflexivity.
  - apply elem_of_cons. left. reflexivity.
Defined.

(** X1. Refinement of a strict decoder away from [__proto__]: for every
    valid strict JSON text (RFC 8259: a value between white space) none of
    whose objects has a member named [__proto__], [decode] returns, it does
    not throw, and the value it returns is the one a strict decoder
    returns: the same numbers (the nearest binary64 value of the decimal,
    negated when the minus sign is there), the same strings, the elements
    of an array in the order of the text, and the own properties of an
    object in the order in which an object lists them (the names that are
    array indices first, in ascending order, then the other names in the
    order in which they first occur), each with the value of the last
    member of that name. *)
Theorem strict_json_refinement (e : str * Strict.json * str) :
  Strict.valid_text e = true -> Strict.no_proto_key e.1.2 = true ->
  decode (Strict.render_text e) = Some (Ok (Strict.denote e.1.2)).
Proof.
  intros Hv Hn. unfold decode. rewrite (tokenize_text e Hv).
  unfold Strict.valid_text in Hv. bool_hyps.
  destruct (parse_tokens_of e.1.2) as (v & st & -> & Hre); [done..|].
  by rewrite Hre.
Qed.

(** X1 at the example text, and at [{`b`:1,`2`:2,`1`:3}], whose value
    lists the names [1], [2] and [b] in this order. *)
Lemma strict_json_refinement_witness :
  (Strict.valid_text ex_strict_text = true /\
   Strict.no_proto_key ex_strict_text.1.2 = true /\
   decode (Strict.render_text ex_strict_text)
   = Some (Ok (Strict.denote ex_strict_text.1.2))) /\
  Strict.render_text ex_index_text = qlit "{`b`:1,`2`:2,`1`:3}" /\
  Strict.denote ex_index_text.1.2
  = obj [(lit "1", num 3); (lit "2", num 2); (lit "b", num 1)] /\
  decode (Strict.render_text ex_index_text)
  = Some (Ok (Strict.denote ex_index_text.1.2)).
Proof.
  split_and!; [vm_compute; reflexivity..| |vm_compute; reflexivity
              |vm_compute; reflexivity|].
  - apply (strict_json_refinement ex_strict_text); vm_compute; reflexivity.
  - apply (strict_json_refinement ex_index_text); vm_compute; reflexivity.
Defined.

End claims.

(** ** The tokenizer always advances *)

Section tokenizer_progress.
Import Store Parser Tokenizer Strict.

Lemma scan_while_ge p s pos : pos <= scan_while p s pos.
Proof. unfold scan_while. lia. Qed.

Lemma scan_while_gt p s pos c :
  s !! pos = Some c -> p c = true -> pos < scan_while p s pos.
Proof.
  intros Hc Hp. unfold scan_while.
  rewrite (drop_lookup_cons _ _ _ Hc). simpl. rewrite Hp. lia.
Qed.

Lemma scanString_gt s sp q : forall n rest pos,
  length rest <= n -> sp < pos -> sp < (scanString s sp q rest pos).1.
Proof.
  induction n as [|n IH]; intros rest pos Hlen Hpos.
  - destruct rest; [simpl; lia|simpl in Hlen; lia].
  - destruct rest as [|c rest1]; [simpl; lia|]. simpl in Hlen.
    cbn [scanString].
    destruct (c =? q)%N; [simpl; lia|].
    destruct (c =? Ch.backslash)%N.
    { destruct rest1 as [|c1 rest2]; [simpl; lia|].
      apply IH; [simpl in Hlen; lia|lia]. }
    destruct ((c =? Ch.lf)%N || (c =? Ch.cr)%N).
    { destruct (matchEscapedQuote _); [simpl; lia|].
      apply IH; lia. }
    apply IH; lia.
Qed.

Lemma skipBlock_ge : forall rest pos, pos <= skipBlock rest pos.
Proof.
  induction rest as [|c rest IH]; intros pos; [done|].
  cbn [skipBlock]. destruct rest as [|c' rest2]; [done|].
  destruct ((c =? Ch.star)%N && (c' =? Ch.slash)%N); [lia|].
  specialize (IH (pos + 1)). lia.
Qed.

Lemma skipComment_advances s pos :
  (skipComment s pos).1 = true -> pos < (skipComment s pos).2.
Proof.
  unfold skipComment.
  destruct (length s <=? pos + 1) eqn:Hlen; [done|].
  apply Nat.leb_gt in Hlen.
  destruct (bool_decide (s !! (pos + 1) = Some Ch.slash)).
  - intros _. cbn [snd].
    pose proof (scan_while_ge (fun c => negb (is_newline c)) s (pos + 2)).
    repeat case_match; lia.
  - destruct (bool_decide (s !! (pos + 1) = Some Ch.star)); [|done].
    intros _. cbn [snd].
    pose proof (skipBlock_ge (drop (pos + 2) s) (pos + 2)).
    case_match; lia.
Qed.

Lemma parseIdentifierToken_advances s pos :
  pos < (parseIdentifierToken s pos).2.
Proof.
  unfold parseIdentifierToken.
  pose proof (scan_while_ge (fun c => negb (is_identifier_stop c)) s pos).
  destruct (pos <? _) eqn:E; simpl; [by apply Nat.ltb_lt in E|lia].
Qed.

Lemma parseNumberToken_advances s pos :
  pos < (parseNumberToken s pos).2.
Proof.
  unfold parseNumberToken.
  set (signed := bool_decide (s !! pos = Some Ch.minus)
                 || negb (bool_decide (s !! pos = Some Ch.minus))
                    && bool_decide (s !! pos = Some Ch.plus)).
  set (p := if signed then pos + 1 else pos).
  assert (Hp : pos <= p) by (subst p; destruct signed; lia).
  pose proof (parseIdentifierToken_advances s pos) as Hid.
  destruct (s !! p) as [firstChar|] eqn:Hfirst; [|done].
  destruct (bool_decide (s !! pos = Some Ch.dot)
            || (pos <? p) && (firstChar =? Ch.dot)%N).
  - destruct ((firstChar =? Ch.dot)%N && _); [|done].
    cbn [snd]. pose proof (scan_while_ge is_decimal_run s (p + 1)). lia.
  - destruct (is_digit firstChar) eqn:Hd; [|done].
    assert (Hrun : is_decimal_run firstChar = true).
    { unfold is_decimal_run. by rewrite Hd. }
    pose proof (scan_while_gt is_decimal_run s p firstChar Hfirst Hrun).
    pose proof (scan_while_ge is_decimal_run s (p + 1)).
    pose proof (scan_while_ge is_hex_digit s (p + 2)).
    pose proof (scan_while_ge is_octal_digit s (p + 2)).
    pose proof (scan_while_ge is_binary_digit s (p + 2)).
    repeat case_match; cbn [snd]; lia.
Qed.

Lemma tokenize_step_advances s pos c :
  pos < (tokenize_step s pos c).2.
Proof.
  unfold tokenize_step.
  destruct (c <=? Ch.space)%N; [simpl; lia|].
  set (commentResult := if (c =? Ch.slash)%N then skipComment s pos
                        else (false, pos)).
  destruct (commentResult.1) eqn:Hc.
  { cbn [snd]. subst commentResult. destruct (c =? Ch.slash)%N; [|done].
    by apply skipComment_advances. }
  destruct ((c =? Ch.dquote)%N || (c =? Ch.squote)%N).
  { cbn [snd]. unfold parseStringToken.
    pose proof (scanString_gt s pos (default 0%N (s !! pos))
                  (length (drop (pos + 1) s)) (drop (pos + 1) s) (pos + 1)
                  (le_n _) ltac:(lia)) as Hs.
    destruct (scanString s pos _ _ _) as [p early]. cbn [fst] in Hs.
    cbn [st_newPos skippedBadEscape].
    repeat case_match; lia. }
  destruct ((c =? Ch.lbrace)%N || (c =? Ch.rbrace)%N
            || (c =? Ch.lbracket)%N || (c =? Ch.rbracket)%N); [simpl; lia|].
  destruct ((c =? Ch.comma)%N || (c =? Ch.colon)%N
            || (c =? Ch.zh_colon)%N || (c =? Ch.zh_comma)%N); [simpl; lia|].
  destruct (is_digit c || (c =? Ch.minus)%N || (c =? Ch.plus)%N
            || (c =? Ch.dot)%N).
  - cbn [snd]. apply parseNumberToken_advances.
  - cbn [snd]. apply parseIdentifierToken_advances.
Qed.

(** More rounds than the length of the input change nothing: the loop of
    [tokenize] has reached the end of the input. *)
Lemma tokenize_loop_enough s : forall fuel pos tokens k,
  length s <= fuel + pos ->
  tokenize_loop (fuel + k) s pos tokens = tokenize_loop fuel s pos tokens.
Proof.
  induction fuel as [|fuel IH]; intros pos tokens k Hlen.
  - simpl. destruct k; [done|]. simpl. by rewrite lookup_ge_None_2 by lia.
  - cbn [Nat.add tokenize_loop].
    destruct (s !! pos) as [c|] eqn:Hc; [|done].
    pose proof (tokenize_step_advances s pos c) as Hadv.
    destruct (tokenize_step s pos c) as [pushed pos']. cbn [snd] in Hadv.
    apply IH. lia.
Qed.

Lemma tokenize_of_run s n pos toks :
  tokenize_run s 0 n pos toks -> length s <= pos -> tokenize s = toks.
Proof.
  intros Hrun Hpos. unfold tokenize.
  rewrite <- (tokenize_loop_enough s (length s) 0 [] n) by lia.
  rewrite Nat.add_comm, Hrun. simpl.
  destruct (length s) eqn:E; [done|]. simpl. by rewrite lookup_ge_None_2 by lia.
Qed.

End tokenizer_progress.

(** ** The shape of the tokens *)

Section tokenizer_tokens.
Import Store Parser Tokenizer Strict.

Lemma span_len_take p (l : str) : forallb p (take (span_len p l) l) = true.
Proof.
  induction l as [|c l IH]; [done|]. simpl.
  destruct (p c) eqn:E; [|done]. simpl. by rewrite E, IH.
Qed.

Lemma span_len_le p (l : str) : span_len p l <= length l.
Proof.
  induction l as [|c l IH]; simpl; [lia|]. destruct (p c); simpl; lia.
Qed.

Lemma slice_scan_while p s pos :
  slice s pos (scan_while p s pos) = take (span_len p (drop pos s)) (drop pos s).
Proof. unfold slice, scan_while. f_equal. lia. Qed.

Lemma parseIdentifierToken_wf s pos t :
  (parseIdentifierToken s pos).1 = Some t -> token_wf t = true.
Proof.
  unfold parseIdentifierToken.
  set (p := fun c => negb (is_identifier_stop c)).
  destruct (pos <? scan_while p s pos) eqn:E; [|done].
  intros [= <-]. apply Nat.ltb_lt in E.
  unfold token_wf. cbn [type value simple_token].
  rewrite slice_scan_while, span_len_take, andb_true_r.
  apply negb_true_iff, bool_decide_eq_false. intros Hnil.
  apply (f_equal length) in Hnil. rewrite length_take in Hnil.
  unfold scan_while in E. simpl in Hnil.
  pose proof (span_len_le p (drop pos s)). lia.
Qed.

Lemma slice_nonempty (s : str) a b c :
  s !! a = Some c -> a < b -> exists r, slice s a b = c :: r.
Proof.
  intros Hc Hab. unfold slice. rewrite (drop_lookup_cons _ _ _ Hc).
  destruct (b - a) as [|n] eqn:E; [lia|]. simpl. by eexists.
Qed.

Lemma parseNumberToken_wf s pos t :
  (parseNumberToken s pos).1 = Some t -> token_wf t = true.
Proof.
  unfold parseNumberToken.
  set (neg := bool_decide (s !! pos = Some Ch.minus)).
  set (posi := negb neg && bool_decide (s !! pos = Some Ch.plus)).
  set (p := if neg || posi then pos + 1 else pos).
  destruct (s !! p) as [firstChar|] eqn:Hfirst;
    [|apply parseIdentifierToken_wf].
  assert (Hnum : forall R q,
            R ∈ [Some RADIX.BINARY; Some RADIX.OCTAL; Some RADIX.DECIMAL;
                 Some RADIX.HEXADECIMAL] ->
            p < q ->
            token_wf (mkToken NUMBER (slice s p q) R neg posi) = true).
  { intros R q HR Hq. unfold token_wf. cbn [type value radix isNegative isPositive].
    destruct (slice_nonempty s p q firstChar Hfirst Hq) as [r ->].
    rewrite (bool_decide_eq_true_2 _ HR). simpl.
    subst posi. by destruct neg. }
  destruct (bool_decide (s !! pos = Some Ch.dot)
            || (pos <? p) && (firstChar =? Ch.dot)%N).
  - destruct ((firstChar =? Ch.dot)%N && _);
      [|apply parseIdentifierToken_wf].
    cbn [fst]. intros [= <-]. apply Hnum.
    + apply list_elem_of_In; simpl; auto 10.
    + pose proof (scan_while_ge is_decimal_run s (p + 1)). lia.
  - destruct (is_digit firstChar) eqn:Hd; [|apply parseIdentifierToken_wf].
    assert (Hrun : is_decimal_run firstChar = true).
    { unfold is_decimal_run. by rewrite Hd. }
    pose proof (scan_while_gt is_decimal_run s p firstChar Hfirst Hrun).
    pose proof (scan_while_ge is_decimal_run s (p + 1)).
    pose proof (scan_while_ge is_hex_digit s (p + 2)).
    pose proof (scan_while_ge is_octal_digit s (p + 2)).
    pose proof (scan_while_ge is_binary_digit s (p + 2)).
    repeat case_match; cbn [fst]; intros [= <-]; apply Hnum;
      first [lia|apply list_elem_of_In; simpl; auto 10].
Qed.

Lemma last_snoc_Some {A} (l : list A) x : last (l ++ [x]) = Some x.
Proof. apply last_snoc. Qed.

Lemma scanString_early s sp q : forall n rest pos tv,
  length rest <= n ->
  (scanString s sp q rest pos).2 = Some tv ->
  exists body, tv = q :: body ++ [q].
Proof.
  induction n as [|n IH]; intros rest pos tv Hlen.
  - destruct rest; [done|simpl in Hlen; lia].
  - destruct rest as [|c rest1]; [done|]. simpl in Hlen.
    cbn [scanString].
    destruct (c =? q)%N; [done|].
    destruct (c =? Ch.backslash)%N.
    { destruct rest1 as [|c1 rest2]; [done|].
      apply IH. simpl in Hlen. lia. }
    destruct ((c =? Ch.lf)%N || (c =? Ch.cr)%N).
    { destruct (matchEscapedQuote _).
      - intros [= <-]. by eexists.
      - apply IH. lia. }
    apply IH. lia.
Qed.

Lemma parseStringToken_wf s pos q :
  s !! pos = Some q -> q = Ch.dquote \/ q = Ch.squote ->
  token_wf (st_token (parseStringToken s pos)) = true.
Proof.
  intros Hq Hquote. unfold parseStringToken. rewrite Hq.
  change (default 0%N (Some q)) with q.
  pose proof (scanString_gt s pos q (length (drop (pos + 1) s))
                (drop (pos + 1) s) (pos + 1) (le_n _) ltac:(lia)) as Hs.
  pose proof (scanString_early s pos q (length (drop (pos + 1) s))
                (drop (pos + 1) s) (pos + 1)) as He.
  destruct (scanString s pos q _ _) as [p early]. cbn [fst snd] in Hs, He.
  cbn [st_token].
  destruct (q =? Ch.squote)%N eqn:Esq.
  { unfold token_wf. cbn [type value simple_token head].
    by rewrite app_comm_cons, last_snoc, !bool_decide_eq_true_2. }
  destruct Hquote as [-> | ->]; [|done].
  unfold token_wf. cbn [type value simple_token].
  destruct early as [tv|].
  - destruct (He tv (le_n _) eq_refl) as [body ->].
    cbn [head]. by rewrite app_comm_cons, last_snoc, !bool_decide_eq_true_2.
  - destruct (slice_nonempty s pos p _ Hq Hs) as [r Hr]. rewrite Hr.
    unfold endsWith.
    destruct (last (Ch.dquote :: r)) as [d|] eqn:Hl.
    + destruct (d =? Ch.dquote)%N eqn:Ed.
      * apply N.eqb_eq in Ed. subst d. cbn [head]. rewrite Hl.
        by rewrite !bool_decide_eq_true_2.
      * cbn [head app]. by rewrite app_comm_cons, last_snoc,
          !bool_decide_eq_true_2.
    + cbn [head app]. by rewrite app_comm_cons, last_snoc,
        !bool_decide_eq_true_2.
Qed.

Lemma tokenize_step_wf s pos c :
  s !! pos = Some c ->
  Forall (fun t => token_wf t = true) (tokenize_step s pos c).1.
Proof.
  intros Hc. unfold tokenize_step.
  destruct (c <=? Ch.space)%N; [by constructor|].
  destruct ((if (c =? Ch.slash)%N then skipComment s pos else (false, pos)).1);
    [by constructor|].
  destruct ((c =? Ch.dquote)%N || (c =? Ch.squote)%N) eqn:Hq.
  { cbn [fst]. constructor; [|constructor].
    apply (parseStringToken_wf s pos c Hc).
    apply orb_true_iff in Hq as [Hq|Hq]; apply N.eqb_eq in Hq; auto. }
  destruct ((c =? Ch.lbrace)%N || (c =? Ch.rbrace)%N
            || (c =? Ch.lbracket)%N || (c =? Ch.rbracket)%N) eqn:Hb.
  { cbn [fst]. constructor; [|constructor].
    rewrite !orb_true_iff in Hb.
    destruct Hb as [[[Hb|Hb]|Hb]|Hb]; apply N.eqb_eq in Hb; by subst c. }
  destruct ((c =? Ch.comma)%N || (c =? Ch.colon)%N
            || (c =? Ch.zh_colon)%N || (c =? Ch.zh_comma)%N) eqn:Hp.
  { cbn [fst]. constructor; [|constructor].
    rewrite !orb_true_iff in Hp.
    destruct Hp as [[[Hp|Hp]|Hp]|Hp]; apply N.eqb_eq in Hp; by subst c. }
  destruct (is_digit c || (c =? Ch.minus)%N || (c =? Ch.plus)%N
            || (c =? Ch.dot)%N).
  - cbn [fst]. destruct (parseNumberToken s pos).1 as [t|] eqn:E;
      [|by constructor].
    constructor; [|constructor]. by eapply parseNumberToken_wf.
  - cbn [fst]. destruct (parseIdentifierToken s pos).1 as [t|] eqn:E;
      [|by constructor].
    constructor; [|constructor]. by eapply parseIdentifierToken_wf.
Qed.

Lemma tokenize_loop_wf s : forall fuel pos tokens,
  Forall (fun t => token_wf t = true) tokens ->
  Forall (fun t => token_wf t = true) (tokenize_loop fuel s pos tokens).
Proof.
  induction fuel as [|fuel IH]; intros pos tokens Htok; [done|].
  cbn [tokenize_loop]. destruct (s !! pos) as [c|] eqn:Hc; [|done].
  pose proof (tokenize_step_wf s pos c Hc) as Hstep.
  destruct (tokenize_step s pos c) as [pushed pos']. cbn [fst] in Hstep.
  apply IH. by apply Forall_app.
Qed.

End tokenizer_tokens.

(** ** The store is a forest *)

Section store_forest.
Import Store Parser Tokenizer Strict.

Lemma within_mono lo hi lo' hi' v :
  within lo hi v -> lo' <= lo -> hi <= hi' -> within lo' hi' v.
Proof. destruct v; simpl; try done. lia. Qed.

Lemma cell_within_mono a n n' o :
  cell_within a n o -> n <= n' -> cell_within a n' o.
Proof.
  intros H Hn. destruct o as [p props|elems]; simpl in *.
  - destruct H as [Hp Hprops]. split.
    + destruct p; try done. lia.
    + eapply Forall_impl; [exact Hprops|]. intros v Hv.
      eapply within_mono; [exact Hv|lia..].
  - eapply Forall_impl; [exact H|]. intros v Hv.
    eapply within_mono; [exact Hv|lia..].
Qed.

Lemma forest_nil : forest [].
Proof. by intros a o ?. Qed.

Lemma forest_insert h a o :
  forest h -> cell_within a (length h) o -> forest (<[a := o]> h).
Proof.
  intros Hf Ho b o' Hb. rewrite length_insert.
  destruct (decide (a = b)) as [->|Hne].
  - apply list_lookup_insert_Some in Hb as [(_ & ? & _)|(? & _)]; [|done].
    by subst.
  - rewrite list_lookup_insert_ne in Hb by done. by apply Hf.
Qed.

Lemma forest_alloc h o :
  forest h -> cell_within (length h) (S (length h)) o -> forest (h ++ [o]).
Proof.
  intros Hf Ho b o' Hb. rewrite length_app. simpl.
  apply lookup_app_Some in Hb as [Hb|[Hlen Hb]].
  - eapply cell_within_mono; [by apply Hf|lia].
  - apply list_lookup_singleton_Some in Hb as [Hb ->].
    replace b with (length h) by lia.
    eapply cell_within_mono; [exact Ho|lia].
Qed.

Lemma property_set_forest h a k v :
  forest h -> within (S a) (length h) v -> forest (property_set h a k v).
Proof.
  intros Hf Hv. unfold property_set.
  destruct (h !! a) as [[p props|elems]|] eqn:Ha; try done.
  pose proof (Hf a _ Ha) as [Hp Hprops].
  destruct (bool_decide (k = proto_key) && negb (has_key props k)
            && reaches_proto_accessor (length h) h p).
  - destruct v; try done.
    + apply forest_insert; [done|]. by split.
    + apply forest_insert; [done|]. split; [|done]. simpl in Hv. lia.
  - apply forest_insert; [done|]. split; [done|].
    by apply set_own_Forall.
Qed.

Lemma array_push_forest h a v :
  forest h -> within (S a) (length h) v -> forest (array_push h a v).
Proof.
  intros Hf Hv. unfold array_push.
  destruct (h !! a) as [[p props|elems]|] eqn:Ha; try done.
  apply forest_insert; [done|]. simpl.
  apply Forall_app. split; [exact (Hf a _ Ha)|]. by constructor.
Qed.

Lemma resolve_pending_key_forest st :
  forest (heap_of st) -> forest (heap_of (resolve_pending_key st)).
Proof.
  intros Hf. unfold resolve_pending_key.
  repeat case_match; try done. simpl. by apply property_set_forest.
Qed.

Lemma createContainer_forest t st st' c :
  wf st -> forest (heap_of st) -> createContainer t st = (st', c) ->
  forest (heap_of st').
Proof.
  intros Hwf Hf Hc. unfold createContainer in Hc.
  set (fresh := match t with
                | OBJECT => JSObject ObjectPrototype []
                | ARRAY => JSArray []
                end) in *.
  assert (Hf' : forest (heap_of st ++ [fresh])).
  { apply forest_alloc; [done|]. subst fresh. destruct t; simpl; [split|]; done. }
  assert (Hcur : forall r c0,
            currentContainer st = Some r -> containers st !! r = Some c0 ->
            cvalue c0 < length (heap_of st)).
  { intros r c0 _ Hc0. destruct Hwf as [_ _ Hshape].
    rewrite Forall_forall in Hshape.
    pose proof (Hshape c0 (list_elem_of_lookup_2 _ _ _ Hc0)) as Hs.
    unfold shape_ok in Hs.
    destruct (heap_of st !! cvalue c0) eqn:E; [|done].
    by eapply lookup_lt_Some. }
  unfold current, set_heap in Hc. simpl in Hc.
  destruct (currentContainer st) as [r|] eqn:Hr; simpl in Hc;
    [|by simplify_eq].
  destruct (containers st !! r) as [c0|] eqn:Hc0; simpl in Hc;
    [|by simplify_eq].
  pose proof (Hcur r c0 eq_refl Hc0) as Hlt.
  assert (Hv : within (S (cvalue c0)) (length (heap_of st ++ [fresh]))
                 (VRef (length (heap_of st)))).
  { simpl. rewrite length_app. simpl. lia. }
  destruct (ctype c0), (ckey c0); simplify_eq; simpl; try done.
  - by apply property_set_forest.
  - by apply array_push_forest.
  - by apply array_push_forest.
Qed.

(** The values of the leaves are primitive. *)
Lemma decode_value_primitive tokens i token st v j lo hi :
  decode_value tokens i token st = Ok (v, j) -> within lo hi v.
Proof.
  unfold decode_value, parseValueToken, parseIdentifierValue.
  intros H. repeat case_match; simplify_eq; done.
Qed.

Lemma assignValue_forest v st tokens i :
  forest (heap_of st) -> (forall lo hi, within lo hi v) ->
  forest (heap_of (assignValue v st tokens i).2).
Proof.
  intros Hf Hv. unfold assignValue.
  repeat case_match; simpl; try done.
  - by apply property_set_forest.
  - by apply array_push_forest.
Qed.

Lemma parse_step_forest tokens i token st i' st' :
  wf st -> forest (heap_of st) ->
  parse_step tokens i token st = Next i' st' -> forest (heap_of st').
Proof.
  unfold parse_step. intros Hwf Hf H.
  repeat case_match.
  - unfold step_bracket, handleBracketToken, closeContainer in H.
    repeat case_match; simplify_eq; simpl; try done.
    all: by eapply createContainer_forest.
  - unfold step_key in H. repeat case_match; simplify_eq; done.
  - unfold step_punctuation, handlePunctuationToken in H.
    repeat case_match; simplify_eq; simpl; try done.
    all: try (by apply resolve_pending_key_forest).
    by apply array_push_forest.
  - unfold step_value in H.
    destruct (decode_value tokens i token st) as [[v j]|] eqn:Hd; [|done].
    pose proof (assignValue_forest v st tokens j Hf
                  (fun lo hi => decode_value_primitive _ _ _ _ _ _ lo hi Hd))
      as Ha.
    destruct (assignValue v st tokens j) as [[|skipNext] st1]; [done|].
    by simplify_eq.
Qed.

Lemma reachable_forest tokens i st :
  reachable tokens i st -> forest (heap_of st).
Proof.
  induction 1 as [|i st token i' st' Hr IH Htok Hstep]; [apply forest_nil|].
  eapply parse_step_forest; [|done..]. by eapply reachable_wf.
Qed.

(** The value a step returns, and its state. *)
Lemma wf_record_bound st r c :
  wf st -> containers st !! r = Some c -> cvalue c < length (heap_of st).
Proof.
  intros [_ _ Hshape] Hc. rewrite Forall_forall in Hshape.
  pose proof (Hshape c (list_elem_of_lookup_2 _ _ _ Hc)) as Hs.
  unfold shape_ok in Hs.
  destruct (heap_of st !! cvalue c) eqn:E; [|done].
  by eapply lookup_lt_Some.
Qed.

Lemma parse_step_return tokens i token st v st' :
  wf st -> forest (heap_of st) -> keys_nodup (heap_of st) ->
  parse_step tokens i token st = Return v st' ->
  heap_of st' = heap_of st /\ within 0 (length (heap_of st)) v.
Proof.
  unfold parse_step. intros Hwf Hf Hk H.
  repeat case_match.
  - unfold step_bracket, handleBracketToken, closeContainer,
      createObjectContainer, createArrayContainer, createContainer in H.
    repeat case_match; simplify_eq; simpl; (split; [done|]); try done.
    all: match goal with
         | Hc : containers _ !! _ = Some _ |- _ =>
           pose proof (wf_record_bound _ _ _ Hwf Hc)
         end; lia.
  - unfold step_key in H. repeat case_match; simplify_eq; done.
  - unfold step_punctuation in H. repeat case_match; simplify_eq; done.
  - unfold step_value in H.
    destruct (decode_value tokens i token st) as [[v0 j]|] eqn:Hd; [|done].
    pose proof (decode_value_primitive _ _ _ _ _ _ 0 (length (heap_of st)) Hd).
    unfold assignValue in H. repeat case_match; simplify_eq; done.
Qed.

Lemma handleUnclosedContainers_result st :
  wf st -> forest (heap_of st) -> keys_nodup (heap_of st) ->
  forest (heap_of (handleUnclosedContainers st).2) /\
  keys_nodup (heap_of (handleUnclosedContainers st).2) /\
  within 0 (length (heap_of (handleUnclosedContainers st).2))
    (handleUnclosedContainers st).1.
Proof.
  intros Hwf Hf Hk. unfold handleUnclosedContainers.
  destruct (stacks st) as [|first rest] eqn:Hs; [done|]. cbn [fst snd].
  split; [by apply resolve_pending_key_forest|].
  split; [by apply resolve_pending_key_nodup|].
  destruct (containers (resolve_pending_key st) !! first) as [c|] eqn:Hc;
    [|done].
  pose proof (wf_record_bound _ _ _ (wf_resolve_pending_key _ Hwf) Hc).
  simpl. lia.
Qed.

(** Where the loop ends. *)
Lemma parse_loop_result tokens : forall fuel i st v st',
  parse_loop fuel tokens i st = Some (Ok (v, st')) ->
  reachable tokens i st ->
  exists j st0,
    reachable tokens j st0 /\
    ((tokens !! j = None /\ handleUnclosedContainers st0 = (v, st')) \/
     (exists token,
        tokens !! j = Some token /\
        parse_step tokens j token st0 = Return v st')).
Proof.
  induction fuel as [|fuel IH]; intros i st v st' H Hr; [done|].
  cbn [parse_loop] in H.
  destruct (tokens !! i) as [token|] eqn:Htok.
  - destruct (parse_step tokens i token st) as [i1 st1|v1 st1|e] eqn:Hstep.
    + apply (IH _ _ _ _ H). by eapply reachable_next.
    + simplify_eq. exists i, st. split; [done|]. right. eauto.
    + done.
  - simplify_eq. exists i, st. split; [done|]. left.
    split; [done|]. by destruct (handleUnclosedContainers st).
Qed.

Lemma parse_result tokens v st :
  parse tokens = Some (Ok (v, st)) ->
  forest (heap_of st) /\ keys_nodup (heap_of st)
  /\ within 0 (length (heap_of st)) v.
Proof.
  intros H. unfold parse in H.
  destruct (parse_loop_result _ _ _ _ _ _ H (reachable_init _))
    as (j & st0 & Hr & Hend).
  pose proof (reachable_wf _ _ _ Hr) as Hwf.
  pose proof (reachable_forest _ _ _ Hr) as Hf.
  pose proof (reachable_keys_nodup _ _ _ Hr) as Hk.
  destruct Hend as [[_ Hu]|(token & _ & Hstep)].
  - pose proof (handleUnclosedContainers_result st0 Hwf Hf Hk) as Hres.
    by rewrite Hu in Hres.
  - destruct (parse_step_return _ _ _ _ _ _ Hwf Hf Hk Hstep) as [Hh Hv].
    by rewrite Hh.
Qed.

(** Reading a value out of a forest succeeds. *)
Lemma reify_forest h : forall fuel v,
  forest h -> within 0 (length h) v ->
  (forall b, v = VRef b -> length h - b <= fuel) ->
  is_Some (reify fuel h v).
Proof.
  induction fuel as [|fuel IH]; intros v Hf Hv Hfuel.
  - destruct v as [| | | | |b]; try by eexists.
    simpl in Hv. specialize (Hfuel b eq_refl). lia.
  - destruct v as [| | | | |b]; try by eexists.
    simpl in Hv. specialize (Hfuel b eq_refl). cbn [reify].
    destruct (lookup_lt_is_Some_2 h b ltac:(lia)) as [o Ho]. rewrite Ho.
    pose proof (Hf b o Ho) as Hcell.
    assert (Hsub : forall x, within (S b) (length h) x ->
              is_Some (reify fuel h x)).
    { intros x Hx. apply IH; [done| |].
      - eapply within_mono; [exact Hx|lia..].
      - intros c ->. simpl in Hx. lia. }
    destruct o as [p props|elems].
    + destruct Hcell as [Hp Hprops].
      assert (is_Some (match p with
                       | ObjectPrototype => Some TObjectPrototype
                       | NullPrototype => Some TNull
                       | RefPrototype b0 => reify fuel h (VRef b0)
                       end)) as [p' ->].
      { destruct p; try by eexists. apply Hsub. simpl. lia. }
      cbn [mbind option_bind].
      assert (is_Some (mapM (fun kv : str * jsvalue =>
                               pair kv.1 <$> reify fuel h kv.2) props))
        as [props' ->]; [|by eexists].
      apply mapM_is_Some. rewrite Forall_fmap in Hprops.
      eapply Forall_impl; [exact Hprops|]. intros [k x] Hx. simpl in *.
      destruct (Hsub x Hx) as [t ->]. by eexists.
    + assert (is_Some (mapM (reify fuel h) elems)) as [ts ->]; [|by eexists].
      apply mapM_is_Some. eapply Forall_impl; [exact Hcell|].
      intros x Hx. by apply Hsub.
Qed.

End store_forest.

(** ** Quoted strings *)

Section quoted_strings.
Import Store Parser Tokenizer Strict.

Lemma matchEscapedQuote_no_backslash b :
  Ch.backslash ∉ b -> matchEscapedQuote b = None.
Proof.
  intros Hb. unfold matchEscapedQuote.
  assert (Hno : forall i, bool_decide (b !! i = Some Ch.backslash) = false).
  { intros i. apply bool_decide_eq_false_2. intros Hi.
    apply Hb. by eapply list_elem_of_lookup_2. }
  by rewrite !Hno, !andb_false_r.
Qed.

(** The scan of a run of characters without backslash and closing quote:
    [pre] is what was scanned before. *)
Lemma scanString_raw s sp q : forall content pre rest,
  drop (sp + 1) s = pre ++ content ++ rest ->
  Ch.backslash ∉ pre ++ content -> q ∉ content ->
  scanString s sp q (content ++ rest) (sp + 1 + length pre)
  = scanString s sp q rest (sp + 1 + length pre + length content).
Proof.
  induction content as [|c content IH]; intros pre rest Hd Hb Hq.
  - simpl. by rewrite Nat.add_0_r.
  - cbn [app scanString].
    assert (c <> q) by (intros ->; apply Hq; by left).
    assert (c <> Ch.backslash).
    { intros ->. apply Hb. apply elem_of_app. right. by left. }
    rewrite (proj2 (N.eqb_neq c q)), (proj2 (N.eqb_neq c Ch.backslash)) by done.
    assert (Hslice : slice s (sp + 1) (sp + 1 + length pre) = pre).
    { by apply (slice_drop s (sp + 1) pre (c :: content ++ rest)). }
    rewrite Hslice.
    rewrite (matchEscapedQuote_no_backslash pre).
    2:{ intros Hin. apply Hb. apply elem_of_app. by left. }
    assert (Hnext : scanString s sp q (content ++ rest)
                      (sp + 1 + length pre + 1)
                    = scanString s sp q rest
                        (sp + 1 + length pre + length (c :: content))).
    { specialize (IH (pre ++ [c]) rest).
      rewrite length_app in IH. simpl in IH.
      rewrite Nat.add_assoc in IH. rewrite IH.
      - f_equal. simpl. lia.
      - by rewrite <- app_assoc.
      - by rewrite <- app_assoc.
      - intros Hin. apply Hq. by right. }
    by destruct ((c =? Ch.lf)%N || (c =? Ch.cr)%N).
Qed.

Lemma escapeDoubleQuotes_id prev content :
  Ch.dquote ∉ content -> escapeDoubleQuotes prev content = content.
Proof.
  revert prev. induction content as [|c content IH]; intros prev Hq; [done|].
  cbn [escapeDoubleQuotes].
  assert ((c =? Ch.dquote)%N = false) as ->.
  { apply N.eqb_neq. intros ->. apply Hq. by left. }
  simpl. f_equal. apply IH. intros Hin. apply Hq. by right.
Qed.

Lemma slice_inner (q : N) (content : str) (q' : N) :
  slice ((q :: content) ++ [q']) 1 (length ((q :: content) ++ [q']) - 1)
  = content.
Proof.
  unfold slice. rewrite length_app. cbn [drop app length].
  replace (S (length content) + 1 - 1 - 1) with (length content) by lia.
  rewrite drop_0. by rewrite take_app_length.
Qed.

(** The text of the token of a quoted run, closed or not. *)
Lemma parseStringToken_raw s pos q content post :
  q = Ch.dquote \/ q = Ch.squote ->
  q ∉ content -> Ch.backslash ∉ content ->
  drop pos s = q :: content ++ post ->
  (post = [] /\ content <> []) \/ (exists post', post = q :: post') ->
  parseStringToken s pos
  = mkStringTokenResult
      (simple_token STRING
         (Ch.dquote :: escapeDoubleQuotes None content ++ [Ch.dquote]))
      (pos + 1 + length content + (if post is [] then 0 else 1)) false.
Proof.
  intros Hquote Hq Hb Hd Hpost. unfold parseStringToken.
  rewrite (drop_head _ _ _ _ Hd).
  change (default 0%N (Some q)) with q.
  pose proof (drop_tail _ _ _ _ Hd) as Hd1.
  rewrite Hd1.
  pose proof (scanString_raw s pos q content [] post Hd1 Hb Hq) as Hscan.
  simpl in Hscan. rewrite Nat.add_0_r in Hscan. rewrite Hscan.
  assert (Hq' : q <> Ch.backslash) by (destruct Hquote as [-> | ->]; done).
  destruct Hpost as [[-> Hne]|[post' ->]].
  - (* no closing quote *)
    cbn [scanString]. rewrite Nat.add_0_r.
    assert (Hslice : slice s pos (pos + 1 + length content) = q :: content).
    { rewrite app_nil_r in Hd.
      replace (pos + 1 + length content) with (pos + length (q :: content))
        by (simpl; lia).
      apply (slice_drop s pos (q :: content) []). by rewrite app_nil_r. }
    rewrite Hslice.
    assert (endsWith (q :: content) q = false) as ->.
    { unfold endsWith. destruct content as [|c content]; [done|].
      rewrite last_cons.
      destruct (last (c :: content)) as [d|] eqn:Hl;
        [|by apply last_None in Hl].
      apply N.eqb_neq. intros ->. apply Hq.
      apply last_Some in Hl as [l' ->]. apply elem_of_app. right. by left. }
    f_equal. f_equal.
    destruct Hquote as [-> | ->].
    + change ((Ch.dquote =? Ch.squote)%N) with false. cbn match.
      by rewrite escapeDoubleQuotes_id.
    + change ((Ch.squote =? Ch.squote)%N) with true. cbn match.
      by rewrite (slice_inner Ch.squote content Ch.squote).
  - cbn [scanString]. rewrite N.eqb_refl.
    assert (Hslice : slice s pos (pos + 1 + length content + 1)
                     = q :: content ++ [q]).
    { replace (pos + 1 + length content + 1)
        with (pos + length (q :: content ++ [q]))
        by (simpl; rewrite length_app; simpl; lia).
      apply (slice_drop s pos (q :: content ++ [q]) post').
      rewrite Hd. simpl. by rewrite <- app_assoc. }
    rewrite Hslice.
    assert (endsWith (q :: content ++ [q]) q = true) as ->.
    { unfold endsWith. rewrite app_comm_cons, last_snoc. apply N.eqb_refl. }
    f_equal. f_equal.
    destruct Hquote as [-> | ->].
    + change ((Ch.dquote =? Ch.squote)%N) with false. cbn match.
      by rewrite escapeDoubleQuotes_id.
    + change ((Ch.squote =? Ch.squote)%N) with true. cbn match.
      change (Ch.squote :: content ++ [Ch.squote])
        with ((Ch.squote :: content) ++ [Ch.squote]).
      by rewrite (slice_inner Ch.squote content Ch.squote).
Qed.

(** The replacement of a control character is a [u] escape of that
    character. *)
Lemma escape_control_decodes c :
  (c < 32)%N ->
  exists h3 h4 d3 d4,
    escape_control c = [Ch.backslash; 117%N; 48%N; 48%N; h3; h4] /\
    JS.hex_digit_value h3 = Some d3 /\ JS.hex_digit_value h4 = Some d4 /\
    (0 * 4096 + 0 * 256 + d3 * 16 + d4)%N = c.
Proof.
  intros Hc. rewrite <- (N2Nat.id c).
  assert (Hn : N.to_nat c < 32) by lia.
  revert Hn. generalize (N.to_nat c). clear Hc. intros n Hn.
  do 32 (destruct n as [|n];
         [by eexists _, _, _, _; split_and!; vm_compute; reflexivity|]).
  lia.
Qed.

Lemma string_chars_escaped : forall content prev,
  Ch.backslash ∉ content -> prev <> Some Ch.backslash ->
  JS.string_chars
    (mbind (M := list)
       (fun c => if (c <? 32)%N then escape_control c else [c])
       (escapeDoubleQuotes prev content ++ [Ch.dquote]))
  = Some (content, []).
Proof.
  induction content as [|c content IH]; intros prev Hb Hprev; [done|].
  assert (Hc : c <> Ch.backslash) by (intros ->; apply Hb; by left).
  assert (Hb' : Ch.backslash ∉ content) by (intros H; apply Hb; by right).
  assert (Hprev' : Some c <> Some Ch.backslash) by congruence.
  specialize (IH (Some c) Hb' Hprev').
  cbn [escapeDoubleQuotes].
  rewrite (bool_decide_eq_false_2 _ Hprev). cbn [negb]. rewrite andb_true_r.
  destruct (c =? Ch.dquote)%N eqn:Edq.
  - apply N.eqb_eq in Edq. subst c.
    cbn [app mbind list_bind] in IH |- *.
    change ((Ch.backslash <? 32)%N) with false.
    change ((Ch.dquote <? 32)%N) with false. cbn [app JS.string_chars].
    change ((Ch.backslash =? Ch.dquote)%N) with false.
    change ((Ch.backslash =? Ch.backslash)%N) with true.
    change ((Ch.dquote =? 117)%N) with false.
    change (JS.simple_escape Ch.dquote) with (Some Ch.dquote).
    cbn match. by rewrite IH.
  - cbn [app mbind list_bind] in IH |- *.
    destruct (c <? 32)%N eqn:Elt.
    + apply N.ltb_lt in Elt.
      destruct (escape_control_decodes c Elt)
        as (h3 & h4 & d3 & d4 & -> & H3 & H4 & Hval).
      cbn [app JS.string_chars].
      change ((Ch.backslash =? Ch.dquote)%N) with false.
      change ((Ch.backslash =? Ch.backslash)%N) with true.
      change ((117 =? 117)%N) with true.
      change (JS.hex_digit_value 48) with (Some 0%N).
      cbn match. by rewrite H3, H4, IH, Hval.
    + cbn [app JS.string_chars]. rewrite Edq, Elt.
      rewrite (proj2 (N.eqb_neq c Ch.backslash) Hc). by rewrite IH.
Qed.

Lemma parseStringValue_raw content :
  Ch.backslash ∉ content ->
  parseStringValue
    (simple_token STRING
       (Ch.dquote :: escapeDoubleQuotes None content ++ [Ch.dquote]))
  = Ok content.
Proof.
  intros Hb. unfold parseStringValue. cbn [value simple_token mbind list_bind].
  change ((Ch.dquote <? 32)%N) with false. cbn [app].
  unfold JS.JSON_parse.
  change (JS.drop_while JS.is_json_space (Ch.dquote :: ?l))
    with (Ch.dquote :: l).
  change ((Ch.dquote =? Ch.dquote)%N) with true. cbn match.
  by rewrite (string_chars_escaped content None Hb).
Qed.

(** A single token that covers the input. *)
Lemma tokenize_single s c tok :
  s !! 0 = Some c -> tokenize_step s 0 c = ([tok], length s) ->
  tokenize s = [tok].
Proof.
  intros Hc Hs. apply (tokenize_of_run s 1 (length s)); [|done].
  by apply (tokenize_run_step s 0 c).
Qed.

Lemma tokenize_step_quote s pos q :
  q = Ch.dquote \/ q = Ch.squote ->
  skippedBadEscape (parseStringToken s pos) = false ->
  tokenize_step s pos q
  = ([st_token (parseStringToken s pos)], st_newPos (parseStringToken s pos)).
Proof.
  intros Hq Hskip. unfold tokenize_step. rewrite Hskip.
  by destruct Hq as [-> | ->].
Qed.

Lemma decode_quoted q content post :
  q = Ch.dquote \/ q = Ch.squote ->
  q ∉ content -> Ch.backslash ∉ content ->
  (post = [] /\ content <> []) \/ post = [q] ->
  decode (q :: content ++ post) = Some (Ok (TString content)).
Proof.
  intros Hquote Hq Hb Hpost. unfold decode.
  set (s := q :: content ++ post).
  assert (Htok : parseStringToken s 0
    = mkStringTokenResult
        (simple_token STRING
           (Ch.dquote :: escapeDoubleQuotes None content ++ [Ch.dquote]))
        (length s) false).
  { rewrite (parseStringToken_raw s 0 q content post Hquote Hq Hb eq_refl).
    - f_equal. subst s. simpl. rewrite length_app.
      destruct Hpost as [[-> _]| ->]; simpl; lia.
    - destruct Hpost as [?| ->]; [by left|right; by eexists]. }
  rewrite (tokenize_single s q
             (simple_token STRING
                (Ch.dquote :: escapeDoubleQuotes None content ++ [Ch.dquote])));
    [|done|].
  - rewrite (parse_scalar_text _ (VString content)); [done|by left|].
    unfold parseValueToken. cbn [type simple_token].
    by rewrite parseStringValue_raw.
  - rewrite tokenize_step_quote; [|done|by rewrite Htok]. by rewrite Htok.
Qed.

End quoted_strings.

(** ** Errors of the leaves *)

Section leaf_errors.
Import Store Parser Tokenizer Strict.

Lemma parse_raise tokens i token st e :
  reachable tokens i st -> tokens !! i = Some token ->
  parse_step tokens i token st = Raise e ->
  parse tokens = Some (Throw e).
Proof.
  intros Hr Htok He. apply (parse_from_fuel _ _ _ 1 _ Hr).
  simpl. by rewrite Htok, He.
Qed.

Lemma parse_return tokens i token st v st' :
  reachable tokens i st -> tokens !! i = Some token ->
  parse_step tokens i token st = Return v st' ->
  parse tokens = Some (Ok (v, st')).
Proof.
  intros Hr Htok He. apply (parse_from_fuel _ _ _ 1 _ Hr).
  simpl. by rewrite Htok, He.
Qed.




End leaf_errors.

(** ** Literals with a radix *)

Section radix_literals.
Import Store Parser Tokenizer Strict.

Lemma is_radix_digit_hex c : JS.is_radix_digit 16 c = is_hex_digit c.
Proof.
  unfold JS.is_radix_digit, JS.digit_value, is_hex_digit, is_digit.
  destruct ((48 <=? c)%N && (c <=? 57)%N) eqn:E1.
  { bool_hyps. simpl. apply N.ltb_lt. lia. }
  destruct ((97 <=? c)%N && (c <=? 122)%N) eqn:E2.
  { bool_hyps. simpl.
    destruct (c <=? 102)%N eqn:E3; bool_hyps.
    - rewrite (proj2 (N.leb_le 97 c)) by lia. simpl. apply N.ltb_lt. lia.
    - rewrite andb_false_r. simpl.
      rewrite (proj2 (N.leb_gt c 70)) by lia. rewrite andb_false_r.
      apply N.ltb_ge. lia. }
  destruct ((65 <=? c)%N && (c <=? 90)%N) eqn:E3.
  { bool_hyps. simpl.
    assert (((97 <=? c)%N && (c <=? 102)%N) = false) as ->.
    { apply andb_false_iff. left. apply N.leb_gt. lia. }
    rewrite (proj2 (N.leb_le 65 c)) by lia. simpl.
    destruct (c <=? 70)%N eqn:E4; bool_hyps.
    - apply N.ltb_lt. lia.
    - apply N.ltb_ge. lia. }
  simpl. symmetry.
  apply andb_false_iff in E2, E3.
  apply orb_false_iff. split; apply andb_false_iff.
  - destruct E2 as [E2|E2]; bool_hyps; [left; apply N.leb_gt; lia|].
    right. apply N.leb_gt. lia.
  - destruct E3 as [E3|E3]; bool_hyps; [left; apply N.leb_gt; lia|].
    right. apply N.leb_gt. lia.
Qed.

Lemma is_radix_digit_octal c : JS.is_radix_digit 8 c = is_octal_digit c.
Proof.
  unfold JS.is_radix_digit, JS.digit_value, is_octal_digit, is_digit.
  destruct ((48 <=? c)%N && (c <=? 57)%N) eqn:E1.
  { bool_hyps. rewrite (proj2 (N.leb_le 48 c)) by lia. simpl.
    destruct (c <=? 55)%N eqn:E; bool_hyps;
      [apply N.ltb_lt|apply N.ltb_ge]; lia. }
  destruct ((97 <=? c)%N && (c <=? 122)%N) eqn:E2.
  { bool_hyps. rewrite (proj2 (N.leb_gt c 55)) by lia.
    rewrite andb_false_r. apply N.ltb_ge. lia. }
  destruct ((65 <=? c)%N && (c <=? 90)%N) eqn:E3.
  { bool_hyps. rewrite (proj2 (N.leb_gt c 55)) by lia.
    rewrite andb_false_r. apply N.ltb_ge. lia. }
  symmetry. apply andb_false_iff in E1.
  apply andb_false_iff.
  destruct E1 as [E1|E1]; bool_hyps; [left|right]; apply N.leb_gt; lia.
Qed.

Lemma is_radix_digit_binary c : JS.is_radix_digit 2 c = is_binary_digit c.
Proof.
  unfold JS.is_radix_digit, JS.digit_value, is_binary_digit, is_digit.
  destruct ((48 <=? c)%N && (c <=? 57)%N) eqn:E1.
  { bool_hyps.
    destruct (c =? 48)%N eqn:E; bool_hyps; [subst; done|].
    destruct (c =? 49)%N eqn:E'; bool_hyps; [subst; done|].
    simpl. apply N.ltb_ge. lia. }
  assert ((c =? 48)%N = false) as ->.
  { apply N.eqb_neq. intros ->. done. }
  assert ((c =? 49)%N = false) as ->.
  { apply N.eqb_neq. intros ->. done. }
  destruct ((97 <=? c)%N && (c <=? 122)%N) eqn:E2.
  { bool_hyps. apply N.ltb_ge. lia. }
  destruct ((65 <=? c)%N && (c <=? 90)%N) eqn:E3.
  { bool_hyps. apply N.ltb_ge. lia. }
  done.
Qed.

End radix_literals.

Ltac decide_all :=
  repeat match goal with
         | |- context [bool_decide ?P] =>
           first [rewrite (bool_decide_eq_true_2 P) by done
                 |rewrite (bool_decide_eq_false_2 P) by done]
         end.

Section radix_decode.
Import Store Parser Tokenizer Strict.

Lemma radix_marker_cases R p :
  radix_marker R p = true ->
  (R = 16%N /\ (p = 120%N \/ p = 88%N)) \/
  (R = 8%N /\ (p = 111%N \/ p = 79%N)) \/
  (R = 2%N /\ (p = 98%N \/ p = 66%N)).
Proof.
  unfold radix_marker. rewrite !orb_true_iff, !andb_true_iff, !orb_true_iff.
  rewrite !N.eqb_eq. tauto.
Qed.

Lemma forallb_pointwise {A} (p q : A -> bool) (l : list A) :
  (forall x, p x = q x) -> forallb p l = forallb q l.
Proof. intros H. induction l as [|x l IH]; simpl; [done|]. by rewrite H, IH. Qed.

Lemma scan_to_end p (s : str) pos ds :
  drop pos s = ds -> forallb p ds = true ->
  scan_while p s pos = pos + length ds.
Proof.
  intros Hd Hp. apply (scan_while_app p s pos ds []); [|done..].
  by rewrite app_nil_r.
Qed.

Lemma slice_to_end (s : str) pos : slice s pos (length s) = drop pos s.
Proof. unfold slice. apply take_ge. rewrite length_drop. lia. Qed.

Lemma parseNumberToken_radix sign R p ds :
  sign = [] \/ sign = [Ch.minus] \/ sign = [Ch.plus] ->
  radix_marker R p = true ->
  forallb (JS.is_radix_digit R) ds = true -> ds <> [] ->
  let s := sign ++ 48%N :: p :: ds in
  parseNumberToken s 0
  = (Some (mkToken NUMBER (48%N :: p :: ds) (Some R)
             (bool_decide (sign = [Ch.minus]))
             (bool_decide (sign = [Ch.plus]))),
     length s).
Proof.
  intros Hsign Hm Hds Hne s.
  assert (Hhex : R = 16%N -> forallb is_hex_digit ds = true).
  { intros ->. rewrite <- Hds. apply forallb_pointwise.
    intros c. symmetry. apply is_radix_digit_hex. }
  assert (Hoct : R = 8%N -> forallb is_octal_digit ds = true).
  { intros ->. rewrite <- Hds. apply forallb_pointwise.
    intros c. symmetry. apply is_radix_digit_octal. }
  assert (Hbin : R = 2%N -> forallb is_binary_digit ds = true).
  { intros ->. rewrite <- Hds. apply forallb_pointwise.
    intros c. symmetry. apply is_radix_digit_binary. }
  destruct ds as [|d ds]; [done|].
  unfold parseNumberToken.
  destruct Hsign as [-> | [-> | ->]];
    destruct (radix_marker_cases R p Hm)
      as [[-> [-> | ->]]|[[-> [-> | ->]]|[-> [-> | ->]]]];
    subst s;
    repeat (cbn -[scan_while slice forallb]; decide_all);
    (rewrite (scan_to_end _ _ _ (d :: ds)); [|done|by auto]);
    repeat match goal with
           | |- context [slice ?s ?a ?b] =>
             change (slice s a b) with (slice s a (length s));
             rewrite (slice_to_end s a)
           end;
    reflexivity.
Qed.

Lemma radix_digit_range R c :
  JS.is_radix_digit R c = true -> (48 <= c <= 122)%N.
Proof.
  unfold JS.is_radix_digit, JS.digit_value, is_digit.
  destruct ((48 <=? c)%N && (c <=? 57)%N) eqn:E1; [bool_hyps; lia|].
  destruct ((97 <=? c)%N && (c <=? 122)%N) eqn:E2; [bool_hyps; lia|].
  destruct ((65 <=? c)%N && (c <=? 90)%N) eqn:E3; [bool_hyps; lia|done].
Qed.

Lemma regex_space_range c : (48 <= c <= 122)%N -> is_regex_space c = false.
Proof.
  intros Hc. unfold is_regex_space.
  rewrite (proj2 (N.leb_gt c 13)) by lia.
  rewrite (proj2 (N.leb_gt 8192 c)) by lia.
  rewrite !andb_false_r, !andb_false_l.
  repeat (rewrite (proj2 (N.eqb_neq c _)) by lia). done.
Qed.

Lemma parseInt_digits R ds :
  (R = 16 \/ R = 8 \/ R = 2)%N ->
  forallb (JS.is_radix_digit R) ds = true -> ds <> [] ->
  JS.parseInt ds R = JS.of_N (JS.digits_value R ds)
  \/ (R = 16%N /\ exists p r, ds = 48%N :: p :: r
                              /\ ((p =? 120)%N || (p =? 88)%N) = true).
Proof.
  intros HR Hds Hne. destruct ds as [|d ds']; [by destruct Hne|].
  pose proof Hds as Hd. cbn [forallb] in Hd.
  apply andb_true_iff in Hd as [Hd Hds'].
  pose proof (radix_digit_range R d Hd) as Hrange.
  unfold JS.parseInt.
  assert (JS.drop_while is_regex_space (d :: ds') = d :: ds') as ->.
  { unfold JS.drop_while. cbn [span_len].
    by rewrite (regex_space_range d Hrange). }
  cbn [JS.split_sign].
  rewrite (proj2 (N.eqb_neq d Ch.minus)) by (unfold Ch.minus; lia).
  rewrite (proj2 (N.eqb_neq d Ch.plus)) by (unfold Ch.plus; lia).
  assert (((R <? 2)%N || (36 <? R)%N) = false) as ->.
  { destruct HR as [-> | [-> | ->]]; done. }
  destruct ds' as [|c1 r].
  - left. rewrite <- (app_nil_r [d]) at 1.
    rewrite take_while_app by done. done.
  - destruct ((R =? 16)%N && (d =? 48)%N && ((c1 =? 120)%N || (c1 =? 88)%N))
      eqn:E.
    + right. bool_hyps. split; [lia|]. exists c1, r. split; [|done].
      f_equal. lia.
    + left. rewrite <- (app_nil_r (d :: c1 :: r)) at 1.
      rewrite take_while_app by done. done.
Qed.

Lemma parseNumberValue_radix R p ds neg posi :
  radix_marker R p = true ->
  forallb (JS.is_radix_digit R) ds = true -> ds <> [] ->
  parseNumberValue (mkToken NUMBER (48%N :: p :: ds) (Some R) neg posi)
  = JS.signed neg (JS.of_N (JS.digits_value R ds)).
Proof.
  intros Hm Hds Hne. unfold parseNumberValue.
  cbn [radix value isNegative]. unfold JS.signed.
  assert (Hp : JS.is_radix_digit R p = false).
  { destruct (radix_marker_cases R p Hm)
      as [[-> [-> | ->]]|[[-> [-> | ->]]|[-> [-> | ->]]]]; done. }
  assert (Hval : (if bool_decide (Some R = Some RADIX.HEXADECIMAL)
                  then JS.parseInt (48%N :: p :: ds) 16
                  else if bool_decide (Some R = Some RADIX.OCTAL)
                  then JS.parseInt (slice_from (48%N :: p :: ds) 2) 8
                  else if bool_decide (Some R = Some RADIX.BINARY)
                  then JS.parseInt (slice_from (48%N :: p :: ds) 2) 2
                  else JS.parseFloat (48%N :: p :: ds))
                 = JS.of_N (JS.digits_value R ds)).
  { destruct ds as [|d ds']; [by destruct Hne|].
    destruct (radix_marker_cases R p Hm)
      as [[-> Hp16]|[[-> Hp8]|[-> Hp2]]].
    - rewrite bool_decide_eq_true_2 by done.
      unfold JS.parseInt.
      change (JS.drop_while is_regex_space (48%N :: ?l)) with (48%N :: l).
      cbn [JS.split_sign].
      change ((48 =? Ch.minus)%N) with false.
      change ((48 =? Ch.plus)%N) with false. cbn match.
      change (((16 <? 2)%N || (36 <? 16)%N)) with false. cbn match.
      change ((16 =? 16)%N) with true. change ((48 =? 48)%N) with true.
      assert (((p =? 120)%N || (p =? 88)%N) = true) as ->.
      { destruct Hp16 as [-> | ->]; done. }
      cbn [andb]. rewrite <- (app_nil_r (d :: ds')) at 1.
      rewrite take_while_app by done. done.
    - rewrite bool_decide_eq_false_2 by done.
      rewrite bool_decide_eq_true_2 by done.
      change (slice_from (48%N :: p :: d :: ds') 2) with (d :: ds').
      destruct (parseInt_digits 8 (d :: ds')) as [->|[? _]]; auto; done.
    - rewrite !bool_decide_eq_false_2 by done.
      rewrite bool_decide_eq_true_2 by done.
      change (slice_from (48%N :: p :: d :: ds') 2) with (d :: ds').
      destruct (parseInt_digits 2 (d :: ds')) as [->|[? _]]; auto; done. }
  by rewrite Hval.
Qed.

End radix_decode.

(** ** Identifiers and keys *)

Section identifiers_and_keys.
Import Store Parser Tokenizer Strict.

(** At top level the first identifier alone is decoded and returned. *)
Lemma step_identifier_top tokens i token st :
  type token = IDENTIFIER -> currentContainer st = None ->
  parse_step tokens i token st = Return (parseIdentifierValue token) st.
Proof.
  intros Hty Hcur. unfold parse_step. rewrite Hty.
  rewrite bool_decide_eq_false_2 by done.
  unfold is_key_position. rewrite (current_None _ Hcur).
  rewrite bool_decide_eq_false_2 by done.
  unfold step_value, decode_value, parseValueToken, assignValue.
  by rewrite Hty, Hcur.
Qed.

(** Tokens in key position. *)
Lemma step_key_position tokens i token st m n p props :
  key_slot st m n p props ->
  parse_step tokens i token st
  = match type token with
    | BRACKET => step_bracket tokens i token st
    | _ => step_key i token st
    end.
Proof.
  intros [Hcur Htop Hrec Hcell]. unfold parse_step.
  assert (is_key_position st = true) as ->.
  { apply is_key_position_spec. exists (mkContainer OBJECT n None).
    split; [|done]. by apply (current_Some _ m). }
  destruct (type token); done.
Qed.

Lemma step_bare_key tokens i token st m n p props :
  key_slot st m n p props ->
  type token = IDENTIFIER \/ type token = NUMBER ->
  parse_step tokens i token st
  = Next (i + 1)
      (set_key m
         (Some (if bool_decide (type token = NUMBER) && isNegative token
                then Ch.minus :: value token
                else if bool_decide (type token = NUMBER) && isPositive token
                then Ch.plus :: value token
                else value token)) st).
Proof.
  intros Hslot Hty. rewrite (step_key_position _ _ _ _ _ _ _ _ Hslot).
  unfold step_key, handleObjectKey. rewrite (kslot_current _ _ _ _ _ Hslot).
  destruct Hty as [-> | ->]; [done|].
  rewrite bool_decide_eq_true_2 by done. cbn [andb].
  by destruct (isNegative token), (isPositive token).
Qed.

Lemma step_key_punctuation tokens i token st m n p props :
  key_slot st m n p props ->
  type token = PUNCTUATION -> value token <> [Ch.comma] ->
  parse_step tokens i token st = Raise (UnexpectedKeyToken (value token)).
Proof.
  intros Hslot Hty Hv. rewrite (step_key_position _ _ _ _ _ _ _ _ Hslot).
  unfold step_key, handleObjectKey. rewrite Hty.
  by rewrite bool_decide_eq_false_2.
Qed.

End identifiers_and_keys.

(** ** Comments *)

Section comments.
Import Store Parser Tokenizer Strict.

Lemma has_block_end_cons x y r :
  has_block_end (x :: y :: r)
  = ((x =? Ch.star)%N && (y =? Ch.slash)%N) || has_block_end (y :: r).
Proof. done. Qed.

Lemma skipBlock_cons x y r p :
  skipBlock (x :: y :: r) p
  = if (x =? Ch.star)%N && (y =? Ch.slash)%N then p + 2
    else skipBlock (y :: r) (p + 1).
Proof. done. Qed.

Lemma skipBlock_end : forall c rest p,
  has_block_end (c ++ [Ch.star]) = false ->
  skipBlock (c ++ Ch.star :: Ch.slash :: rest) p = p + length c + 2.
Proof.
  induction c as [|x c IH]; intros rest p Hc.
  - simpl. lia.
  - specialize (IH rest (p + 1)).
    destruct c as [|y c'].
    + cbn [app] in *. rewrite has_block_end_cons in Hc.
      apply orb_false_iff in Hc as [Hxy _].
      rewrite skipBlock_cons, Hxy, IH by done. simpl. lia.
    + cbn [app] in *. rewrite has_block_end_cons in Hc.
      apply orb_false_iff in Hc as [Hxy Hc].
      rewrite skipBlock_cons, Hxy, IH by done. simpl. lia.
Qed.

Lemma skipBlock_none : forall c p,
  has_block_end c = false ->
  skipBlock c p = p + (length c - 1).
Proof.
  induction c as [|x c IH]; intros p Hc; [simpl; lia|].
  destruct c as [|y r]; [simpl; lia|].
  rewrite has_block_end_cons in Hc. apply orb_false_iff in Hc as [Hxy Hc].
  rewrite skipBlock_cons, Hxy, IH by done. simpl. lia.
Qed.

Lemma tokenize_step_slash s pos :
  tokenize_step s pos Ch.slash
  = if (skipComment s pos).1 then ([], (skipComment s pos).2)
    else (option_list (parseIdentifierToken s pos).1,
          (parseIdentifierToken s pos).2).
Proof.
  unfold tokenize_step. change ((Ch.slash <=? Ch.space)%N) with false.
  change ((Ch.slash =? Ch.slash)%N) with true. cbn match.
  destruct (skipComment s pos).1; reflexivity.
Qed.

(** An iteration at a slash where [skipComment] finds a comment. *)
Lemma tokenize_run_comment s pos pos' :
  s !! pos = Some Ch.slash -> skipComment s pos = (true, pos') ->
  tokenize_run s pos 1 pos' [].
Proof.
  intros Hs Hc. apply (tokenize_run_step s pos Ch.slash); [done|].
  by rewrite tokenize_step_slash, Hc.
Qed.

(** A line comment ends after the line break that follows it. *)
Lemma skipComment_line s pos c rest :
  drop pos s = Ch.slash :: Ch.slash :: c ++ rest ->
  forallb (fun x => negb (is_newline x)) c = true ->
  match rest with [] => True | x :: _ => is_newline x = true end ->
  skipComment s pos = (true, pos + 2 + length c + line_break rest).
Proof.
  intros Hd Hc Hrest.
  pose proof (f_equal length Hd) as Hlen.
  rewrite length_drop in Hlen. cbn [length] in Hlen. rewrite length_app in Hlen.
  assert (Hd2 : drop (pos + 2) s = c ++ rest).
  { replace (pos + 2) with (pos + length [Ch.slash; Ch.slash]) by done.
    by apply (drop_more s pos [Ch.slash; Ch.slash]). }
  assert (Hscan : scan_while (fun x => negb (is_newline x)) s (pos + 2)
                  = pos + 2 + length c).
  { apply (scan_while_app _ s (pos + 2) c rest Hd2 Hc).
    destruct rest as [|x rest']; [done|]. by rewrite Hrest. }
  assert (Hd3 : drop (pos + 2 + length c) s = rest) by by apply drop_more.
  unfold skipComment.
  assert ((length s <=? pos + 1) = false) as -> by (apply Nat.leb_gt; lia).
  rewrite (bool_decide_eq_true_2 (s !! (pos + 1) = Some Ch.slash)).
  2:{ rewrite (drop_lookup s pos _ 1 Hd). done. }
  rewrite Hscan. cbn [fst snd].
  destruct rest as [|x rest'].
  - assert ((pos + 2 + length c <? length s) = false) as ->.
    { apply Nat.ltb_ge. simpl in Hlen. lia. }
    simpl. f_equal. lia.
  - assert ((pos + 2 + length c <? length s) = true) as ->.
    { apply Nat.ltb_lt. simpl in Hlen. lia. }
    pose proof (drop_head _ _ _ _ Hd3) as Hx.
    rewrite Hx. cbn [andb].
    unfold is_newline in Hrest. cbn [line_break].
    destruct (x =? Ch.cr)%N eqn:Ecr.
    + apply N.eqb_eq in Ecr. subst x.
      rewrite (bool_decide_eq_false_2 (Some Ch.cr = Some Ch.lf)) by done.
      rewrite (bool_decide_eq_true_2 (Some Ch.cr = Some Ch.cr)) by done.
      cbn [orb].
      replace (pos + 2 + length c + 1 - 1) with (pos + 2 + length c) by lia.
      rewrite Hx. rewrite (bool_decide_eq_true_2 (Some Ch.cr = Some Ch.cr)) by done.
      destruct rest' as [|x' rest''].
      * assert ((pos + 2 + length c + 1 <? length s) = false) as ->.
        { apply Nat.ltb_ge. simpl in Hlen. lia. }
        done.
      * assert ((pos + 2 + length c + 1 <? length s) = true) as ->.
        { apply Nat.ltb_lt. simpl in Hlen. lia. }
        rewrite (drop_lookup s _ _ 1 Hd3). cbn [lookup list_lookup andb].
        destruct (x' =? Ch.lf)%N eqn:Elf.
        -- apply N.eqb_eq in Elf. subst x'.
           rewrite bool_decide_eq_true_2 by done. f_equal. lia.
        -- apply N.eqb_neq in Elf.
           rewrite bool_decide_eq_false_2 by congruence. done.
    + rewrite orb_false_r in Hrest.
      rewrite Hrest. apply N.eqb_eq in Hrest. subst x.
      rewrite (bool_decide_eq_true_2 (Some Ch.lf = Some Ch.lf)) by done.
      cbn [orb].
      replace (pos + 2 + length c + 1 - 1) with (pos + 2 + length c) by lia.
      rewrite Hx.
      rewrite (bool_decide_eq_false_2 (Some Ch.lf = Some Ch.cr)) by done.
      by rewrite andb_false_r.
Qed.

Lemma has_block_end_at : forall l i,
  has_block_end l = false ->
  l !! i = Some Ch.star -> l !! (i + 1) = Some Ch.slash -> False.
Proof.
  induction l as [|x l IH]; intros i Hl Hi Hi1; [done|].
  destruct l as [|y r]; [by destruct i|].
  rewrite has_block_end_cons in Hl. apply orb_false_iff in Hl as [Hxy Hl].
  destruct i as [|i].
  - simpl in Hi, Hi1. by simplify_eq.
  - simpl in Hi, Hi1. by apply (IH i).
Qed.

(** A block comment ends after its [*/]. When one character only follows
    it, the comment ends after this character. *)
Lemma skipComment_block s pos c rest :
  drop pos s = Ch.slash :: Ch.star :: c ++ Ch.star :: Ch.slash :: rest ->
  has_block_end (c ++ [Ch.star]) = false ->
  skipComment s pos
  = (true,
     pos + 2 + length c + 2 + (if length rest <=? 1 then length rest else 0)).
Proof.
  intros Hd Hc.
  pose proof (f_equal length Hd) as Hlen.
  rewrite length_drop in Hlen. cbn [length] in Hlen.
  rewrite length_app in Hlen. cbn [length] in Hlen.
  assert (Hd2 : drop (pos + 2) s = c ++ Ch.star :: Ch.slash :: rest).
  { replace (pos + 2) with (pos + length [Ch.slash; Ch.star]) by done.
    by apply (drop_more s pos [Ch.slash; Ch.star]). }
  unfold skipComment.
  assert ((length s <=? pos + 1) = false) as -> by (apply Nat.leb_gt; lia).
  rewrite (bool_decide_eq_false_2 (s !! (pos + 1) = Some Ch.slash)).
  2:{ rewrite (drop_lookup s pos _ 1 Hd). done. }
  rewrite (bool_decide_eq_true_2 (s !! (pos + 1) = Some Ch.star)).
  2:{ rewrite (drop_lookup s pos _ 1 Hd). done. }
  rewrite Hd2, skipBlock_end by done. cbn [fst snd].
  rewrite (bool_decide_eq_false_2 (s !! (pos + 2 + length c + 2 - 1)
                                   = Some Ch.star)).
  2:{ replace (pos + 2 + length c + 2 - 1) with (pos + 2 + (length c + 1))
        by lia.
      rewrite (drop_lookup s (pos + 2) _ (length c + 1) Hd2).
      rewrite lookup_app_r by lia.
      replace (length c + 1 - length c) with 1 by lia. done. }
  cbn [andb negb]. rewrite andb_true_r.
  destruct (length rest <=? 1) eqn:E.
  - apply Nat.leb_le in E.
    rewrite (proj2 (Nat.leb_le _ _)) by lia. f_equal. lia.
  - apply Nat.leb_gt in E.
    rewrite (proj2 (Nat.leb_gt _ _)) by lia. f_equal. lia.
Qed.

(** A block comment that is not closed runs to the end of the input,
    unless the input ends with the slash after its opening. *)
Lemma skipComment_unterminated s pos c :
  drop pos s = Ch.slash :: Ch.star :: c ->
  has_block_end c = false -> c <> [Ch.slash] ->
  skipComment s pos = (true, length s).
Proof.
  intros Hd Hc' Hne.
  pose proof (f_equal length Hd) as Hlen.
  rewrite length_drop in Hlen. cbn [length] in Hlen.
  assert (Hd1 : drop (pos + 1) s = Ch.star :: c) by by eapply drop_tail.
  assert (Hd2 : drop (pos + 2) s = c).
  { replace (pos + 2) with (pos + 1 + 1) by lia. by eapply drop_tail. }
  unfold skipComment.
  assert ((length s <=? pos + 1) = false) as -> by (apply Nat.leb_gt; lia).
  rewrite (bool_decide_eq_false_2 (s !! (pos + 1) = Some Ch.slash)).
  2:{ rewrite (drop_lookup s pos _ 1 Hd). done. }
  rewrite (bool_decide_eq_true_2 (s !! (pos + 1) = Some Ch.star)).
  2:{ rewrite (drop_lookup s pos _ 1 Hd). done. }
  rewrite Hd2, skipBlock_none by done. cbn [fst snd].
  set (q := pos + 2 + (length c - 1)).
  assert ((length s - 1 <=? q) = true) as ->.
  { apply Nat.leb_le. subst q. lia. }
  assert (bool_decide (s !! (q - 1) = Some Ch.star)
          && bool_decide (s !! q = Some Ch.slash) = false) as ->; [|done].
  apply andb_false_iff.
  destruct (decide (s !! (q - 1) = Some Ch.star)) as [H1|H1];
    [|left; by apply bool_decide_eq_false_2].
  right. apply bool_decide_eq_false_2. intros H2.
  destruct c as [|x [|y r]].
  - subst q. simpl in *. rewrite lookup_ge_None_2 in H2 by lia. done.
  - subst q. simpl in *. replace (pos + 2 + 0) with (pos + 2 + 0)%nat in H2 by lia.
    rewrite (drop_lookup s (pos + 2) _ 0 Hd2) in H2. simpl in H2.
    by simplify_eq.
  - assert (Hq : q - 1 = pos + 2 + (length r)) by (subst q; simpl; lia).
    assert (Hq2 : q = pos + 2 + (length r + 1)) by (subst q; simpl; lia).
    rewrite Hq, (drop_lookup s (pos + 2) _ _ Hd2) in H1.
    rewrite Hq2, (drop_lookup s (pos + 2) _ _ Hd2) in H2.
    exact (has_block_end_at _ _ Hc' H1 H2).
Qed.

(** When the input ends with the slash after the opening of a block
    comment, the comment ends before this slash. *)
Lemma skipComment_slash s pos :
  drop pos s = [Ch.slash; Ch.star; Ch.slash] ->
  skipComment s pos = (true, length s - 1).
Proof.
  intros Hd.
  pose proof (f_equal length Hd) as Hlen.
  rewrite length_drop in Hlen. cbn [length] in Hlen.
  assert (Hd2 : drop (pos + 2) s = [Ch.slash]).
  { replace (pos + 2) with (pos + length [Ch.slash; Ch.star]) by done.
    by apply (drop_more s pos [Ch.slash; Ch.star]). }
  unfold skipComment.
  assert ((length s <=? pos + 1) = false) as -> by (apply Nat.leb_gt; lia).
  rewrite (bool_decide_eq_false_2 (s !! (pos + 1) = Some Ch.slash)).
  2:{ rewrite (drop_lookup s pos _ 1 Hd). done. }
  rewrite (bool_decide_eq_true_2 (s !! (pos + 1) = Some Ch.star)).
  2:{ rewrite (drop_lookup s pos _ 1 Hd). done. }
  rewrite Hd2. cbn [skipBlock fst snd].
  assert ((length s - 1 <=? pos + 2) = true) as ->
    by (apply Nat.leb_le; lia).
  rewrite (bool_decide_eq_true_2 (s !! (pos + 2 - 1) = Some Ch.star)).
  2:{ replace (pos + 2 - 1) with (pos + 1) by lia.
      rewrite (drop_lookup s pos _ 1 Hd). done. }
  rewrite (bool_decide_eq_true_2 (s !! (pos + 2) = Some Ch.slash)).
  2:{ rewrite (drop_lookup s pos _ 2 Hd). done. }
  cbn [andb negb]. f_equal. lia.
Qed.

(** The slash that ends the input is an identifier. *)
Lemma tokenize_final_slash s pos :
  drop pos s = [Ch.slash] ->
  tokenize_run s pos 1 (length s) [simple_token IDENTIFIER [Ch.slash]].
Proof.
  intros Hd.
  pose proof (f_equal length Hd) as Hlen.
  rewrite length_drop in Hlen. cbn [length] in Hlen.
  apply (tokenize_run_step s pos Ch.slash); [by eapply drop_head|].
  rewrite tokenize_step_slash. unfold skipComment.
  assert ((length s <=? pos + 1) = true) as -> by (apply Nat.leb_le; lia).
  cbn [fst snd]. unfold parseIdentifierToken.
  assert (Hscan : scan_while (fun c => negb (is_identifier_stop c)) s pos
                  = pos + 1).
  { apply (scan_to_end _ s pos [Ch.slash] Hd). done. }
  rewrite Hscan.
  assert ((pos <? pos + 1) = true) as -> by (apply Nat.ltb_lt; lia).
  replace (pos + 1) with (length s) by lia.
  by rewrite slice_to_end, Hd.
Qed.

(** A strict JSON text between two stretches that the tokenizer skips. *)
Lemma decode_framed s n1 p1 (e : str * json * str) post n2 p2 :
  tokenize_run s 0 n1 p1 [] ->
  drop p1 s = elem_text e ++ post -> delimited post ->
  valid_text e = true -> no_proto_key e.1.2 = true ->
  tokenize_run s (p1 + length (elem_text e)) n2 p2 [] ->
  length s <= p2 ->
  decode s = Some (Ok (denote e.1.2)).
Proof.
  intros Hrun1 Hd Hpost Hv Hn Hrun2 Hlen.
  unfold valid_text in Hv. bool_hyps.
  destruct (tokenize_element e s p1 post (tokenize_value _ ltac:(done))
              ltac:(done) ltac:(done) Hd Hpost) as (n & _ & Hrun).
  pose proof (tokenize_run_trans _ _ _ _ _ _ _ _ Hrun1
                (tokenize_run_trans _ _ _ _ _ _ _ _ Hrun Hrun2)) as Hall.
  rewrite app_nil_l, app_nil_r in Hall.
  unfold decode. rewrite (tokenize_of_run s _ p2 _ Hall Hlen).
  destruct (parse_tokens_of e.1.2) as (v & st & -> & Hre); [done..|].
  by rewrite Hre.
Qed.

End comments.

(** ** The entry point *)

Section entry_point.
Import Store Parser Tokenizer Strict.

Lemma json_space_regex_space c :
  JS.is_json_space c = true -> is_regex_space c = true.
Proof.
  unfold JS.is_json_space. rewrite !orb_true_iff, !N.eqb_eq.
  intros [[[-> | ->] | ->] | ->]; done.
Qed.

Lemma valid_ws_regex w : valid_ws w = true -> forallb is_regex_space w = true.
Proof.
  unfold valid_ws. rewrite !forallb_forall.
  intros H c Hc. by apply json_space_regex_space, H.
Qed.

Lemma digit_edge d : is_digit d = true -> edge_char d.
Proof.
  intros Hd. apply digit_range in Hd. split; [|lia].
  apply regex_space_range. lia.
Qed.

Lemma render_head j :
  valid j = true -> exists c r, render j = c :: r /\ edge_char c.
Proof.
  destruct j as [ | | |n|s|w elems|w members]; intros Hv.
  1-3: by do 2 eexists; split; [reflexivity|split].
  - simpl in Hv. apply valid_number_inv in Hv as (d & ds & Hi & Hd & _).
    cbn [render]. unfold render_number, magnitude_text. rewrite Hi.
    destruct (jneg n).
    + do 2 eexists. split; [reflexivity|by split].
    + do 2 eexists. split; [reflexivity|by apply digit_edge].
  - by do 2 eexists; split; [reflexivity|split].
  - destruct elems; by do 2 eexists; split; [reflexivity|split].
  - destruct members; by do 2 eexists; split; [reflexivity|split].
Qed.

Lemma last_app_Some {A} (l1 l2 : list A) x :
  last l2 = Some x -> last (l1 ++ l2) = Some x.
Proof. intros H. by rewrite last_app, H. Qed.

Lemma last_digit l :
  l <> [] -> forallb is_digit l = true ->
  exists c, last l = Some c /\ is_digit c = true.
Proof.
  intros Hne Hl. destruct (last l) as [c|] eqn:E; [|by apply last_None in E].
  exists c. split; [done|]. rewrite forallb_forall in Hl.
  apply Hl, list_elem_of_In. apply last_Some in E as [l' ->].
  apply elem_of_app. right. by left.
Qed.

Lemma magnitude_last n :
  valid_number n = true ->
  exists c, last (magnitude_text n) = Some c /\ is_digit c = true.
Proof.
  intros (d & ds & Hi & Hd & Hds & _ & Hf & He)%valid_number_inv.
  unfold magnitude_text.
  destruct (jexp n) as [[[marker sign] digits]|].
  - destruct He as (_ & _ & Hne & Hdg).
    destruct (last_digit digits Hne Hdg) as (c & Hc & Hcd).
    exists c. split; [|done].
    do 2 apply last_app_Some. rewrite last_cons.
    by rewrite (last_app_Some sign digits c Hc).
  - rewrite app_nil_r. destruct (jfrac n) as [f|].
    + destruct Hf as [Hne Hfd].
      destruct (last_digit f Hne Hfd) as (c & Hc & Hcd).
      exists c. split; [|done]. apply last_app_Some.
      by rewrite last_cons, Hc.
    + rewrite app_nil_r, Hi.
      apply last_digit; [done|]. simpl. by rewrite Hd, Hds.
Qed.

Lemma render_last j :
  valid j = true -> exists c, last (render j) = Some c /\ edge_char c.
Proof.
  destruct j as [ | | |n|s|w elems|w members]; intros Hv.
  1-3: by eexists; split; [reflexivity|split].
  - destruct (magnitude_last n Hv) as (c & Hc & Hcd).
    exists c. split; [|by apply digit_edge].
    cbn [render]. unfold render_number. by apply last_app_Some.
  - exists Ch.dquote. split; [|by split]. cbn [render]. unfold render_string.
    by rewrite app_comm_cons, last_snoc.
  - exists Ch.rbracket. split; [|by split]. cbn [render].
    destruct elems; by rewrite !app_assoc, last_snoc.
  - exists Ch.rbrace. split; [|by split]. cbn [render].
    destruct members; by rewrite !app_assoc, last_snoc.
Qed.

Lemma regex_space_not_tag c : is_regex_space c = true -> is_fence_tag c = false.
Proof.
  intros Hc. destruct (is_fence_tag c) eqn:E; [|done].
  assert (Hr : (43 <= c <= 122)%N).
  { unfold is_fence_tag, is_digit in E.
    repeat (apply orb_true_iff in E as [E|E]);
      bool_hyps; unfold Ch.plus, Ch.minus in *; lia. }
  unfold is_regex_space in Hc.
  repeat (apply orb_true_iff in Hc as [Hc|Hc]); bool_hyps; lia.
Qed.

Lemma strip_opening_fence_fenced w0 tag w1 c rest :
  forallb is_regex_space w0 = true -> forallb is_fence_tag tag = true ->
  forallb is_regex_space w1 = true -> w1 <> [] ->
  is_regex_space c = false ->
  strip_opening_fence (w0 ++ fence ++ tag ++ w1 ++ c :: rest) = c :: rest.
Proof.
  intros Hw0 Htag Hw1 Hne Hc. unfold strip_opening_fence.
  rewrite drop_while_app by done.
  change (drop 3 (fence ++ ?l)) with l.
  change (take 3 (fence ++ ?l)) with fence.
  rewrite bool_decide_eq_true_2 by done.
  rewrite drop_while_app; [|done|].
  - rewrite drop_while_app; [done|done|]. by rewrite Hc.
  - destruct w1 as [|x w1']; [by destruct Hne|]. cbn [app].
    apply regex_space_not_tag. simpl in Hw1. by bool_hyps.
Qed.

Lemma strip_opening_fence_bare w c rest :
  forallb is_regex_space w = true -> edge_char c ->
  strip_opening_fence (w ++ c :: rest) = w ++ c :: rest.
Proof.
  intros Hw [Hc1 Hc2]. unfold strip_opening_fence.
  rewrite drop_while_app; [|done|by rewrite Hc1].
  rewrite bool_decide_eq_false_2; [done|].
  destruct rest as [|? [|? ?]]; cbn; intros [=]; congruence.
Qed.

Lemma forallb_false_elem {A} (p : A -> bool) (l : list A) x :
  x ∈ l -> p x = false -> forallb p l = false.
Proof.
  intros Hx Hp. destruct (forallb p l) eqn:E; [|done].
  rewrite forallb_forall in E.
  by rewrite (E x (proj1 (list_elem_of_In _ _) Hx)) in Hp.
Qed.

Lemma drop_while_nonspace (u : str) x :
  last u = Some x -> is_regex_space x = false ->
  exists sp y u1,
    u = sp ++ y :: u1 /\ forallb is_regex_space sp = true
    /\ is_regex_space y = false /\ last (y :: u1) = Some x.
Proof.
  induction u as [|c u IH]; intros Hl Hx; [done|].
  destruct (is_regex_space c) eqn:Ec.
  - destruct u as [|c' u'].
    + simpl in Hl. simplify_eq. congruence.
    + rewrite last_cons_cons in Hl.
      destruct (IH Hl Hx) as (sp & y & u1 & -> & Hsp & Hy & Hlast).
      exists (c :: sp), y, u1. split_and!; try done.
      simpl. by rewrite Ec, Hsp.
  - exists [], c, u. by split_and!.
Qed.

(** No closing fence starts inside a text that is followed by a fence. *)
Lemma closing_fence_inside (u : str) x w2 w3 :
  last u = Some x -> is_regex_space x = false ->
  closing_fence_at (u ++ w2 ++ fence ++ w3) = false.
Proof.
  intros Hl Hx.
  destruct (drop_while_nonspace u x Hl Hx)
    as (sp & y & u1 & -> & Hsp & Hy & _).
  unfold closing_fence_at. rewrite <- app_assoc.
  rewrite drop_while_app; [|done|cbn [app]; by rewrite Hy].
  apply andb_false_iff. right.
  set (X := (y :: u1) ++ w2).
  assert (HX : 1 <= length X) by (subst X; simpl; lia).
  replace ((y :: u1) ++ w2 ++ fence ++ w3)
    with ((X ++ [96%N; 96%N]) ++ 96%N :: w3).
  2:{ subst X. unfold fence. rewrite <- !app_assoc. done. }
  rewrite drop_app_le by (rewrite length_app; simpl; lia).
  rewrite forallb_app. apply andb_false_iff. right. done.
Qed.

(** No closing fence starts in a text that ends with a character other
    than a backquote and white space. *)
Lemma closing_fence_bare (u : str) x w :
  last u = Some x -> edge_char x -> forallb is_regex_space w = true ->
  closing_fence_at (u ++ w) = false.
Proof.
  intros Hl [Hx1 Hx2] Hw.
  destruct (drop_while_nonspace u x Hl Hx1)
    as (sp & y & u1 & -> & Hsp & Hy & Hlast).
  unfold closing_fence_at. rewrite <- app_assoc.
  rewrite drop_while_app; [|done|cbn [app]; by rewrite Hy].
  apply last_Some in Hlast as [l' Hl'].
  rewrite Hl'. rewrite <- app_assoc. cbn [app].
  destruct (decide (length l' < 3)) as [Hshort|Hlong].
  - apply andb_false_iff. left. apply bool_decide_eq_false_2.
    intros Hf. apply Hx2.
    assert (Hin : x ∈ take 3 (l' ++ x :: w)).
    { apply list_elem_of_lookup. exists (length l').
      rewrite lookup_take_lt by lia.
      rewrite lookup_app_r by lia. by rewrite Nat.sub_diag. }
    rewrite Hf in Hin. unfold fence in Hin.
    repeat (apply elem_of_cons in Hin as [?|Hin]; [done|]).
    by apply elem_of_nil in Hin.
  - apply andb_false_iff. right.
    apply (forallb_false_elem _ _ x); [|done].
    apply list_elem_of_lookup. exists (length l' - 3).
    rewrite lookup_drop. replace (3 + (length l' - 3)) with (length l') by lia.
    rewrite lookup_app_r by lia. by rewrite Nat.sub_diag.
Qed.

Lemma closing_fence_spaces w :
  forallb is_regex_space w = true -> closing_fence_at w = false.
Proof.
  intros Hw. unfold closing_fence_at.
  rewrite <- (app_nil_r w), drop_while_app by done. done.
Qed.

Lemma find_closing_fence_eq (r : str) p :
  find_closing_fence r p
  = if closing_fence_at r then Some p
    else match r with
         | [] => None
         | _ :: r' => find_closing_fence r' (S p)
         end.
Proof. by destruct r. Qed.

Lemma find_closing_fence_at : forall (u tail : str) p,
  closing_fence_at tail = true ->
  (forall k, k < length u -> closing_fence_at (drop k u ++ tail) = false) ->
  find_closing_fence (u ++ tail) p = Some (p + length u).
Proof.
  induction u as [|c u IH]; intros tail p Ht Hu.
  - cbn [app length]. rewrite find_closing_fence_eq, Ht. f_equal. lia.
  - cbn [app]. rewrite find_closing_fence_eq.
    pose proof (Hu 0 ltac:(simpl; lia)) as H0. cbn [drop app] in H0.
    rewrite H0.
    rewrite IH; [f_equal; simpl; lia|done|].
    intros k Hk. apply (Hu (S k)). simpl. lia.
Qed.

Lemma find_closing_fence_none : forall (s : str) p,
  (forall k, k <= length s -> closing_fence_at (drop k s) = false) ->
  find_closing_fence s p = None.
Proof.
  induction s as [|c s IH]; intros p Hs.
  - rewrite find_closing_fence_eq.
    pose proof (Hs 0 (le_n _)) as H0. cbn [drop] in H0. by rewrite H0.
  - rewrite find_closing_fence_eq.
    pose proof (Hs 0 ltac:(lia)) as H0. cbn [drop] in H0. rewrite H0.
    apply IH. intros k Hk. apply (Hs (S k)). simpl. lia.
Qed.

Lemma last_drop {A} (l : list A) k x :
  last l = Some x -> k < length l -> last (drop k l) = Some x.
Proof.
  intros Hl Hk. apply last_Some in Hl as [l' ->].
  rewrite length_app in Hk. simpl in Hk.
  rewrite drop_app_le by lia. by rewrite last_snoc.
Qed.

Lemma forallb_drop {A} (p : A -> bool) : forall (l : list A) k,
  forallb p l = true -> forallb p (drop k l) = true.
Proof.
  induction l as [|c l IH]; intros [|k] Hl; try done.
  simpl in Hl. apply andb_true_iff in Hl as [_ Hl]. by apply IH.
Qed.

Lemma strip_closing_fence_fenced (body : str) x w2 w3 :
  last body = Some x -> is_regex_space x = false ->
  forallb is_regex_space w2 = true -> forallb is_regex_space w3 = true ->
  strip_closing_fence (body ++ w2 ++ fence ++ w3) = body.
Proof.
  intros Hl Hx Hw2 Hw3. unfold strip_closing_fence.
  rewrite (find_closing_fence_at body (w2 ++ fence ++ w3) 0).
  - cbn [Nat.add]. by rewrite take_app_length.
  - unfold closing_fence_at. rewrite drop_while_app by done.
    change (take 3 (fence ++ w3)) with fence.
    change (drop 3 (fence ++ w3)) with w3.
    by rewrite bool_decide_eq_true_2, Hw3.
  - intros k Hk. apply (closing_fence_inside _ x); [|done].
    by apply last_drop.
Qed.

Lemma strip_closing_fence_bare (body : str) x w :
  last body = Some x -> edge_char x -> forallb is_regex_space w = true ->
  strip_closing_fence (body ++ w) = body ++ w.
Proof.
  intros Hl Hx Hw. unfold strip_closing_fence.
  rewrite find_closing_fence_none; [done|].
  intros k Hk. destruct (decide (k < length body)) as [Hlt|Hge].
  - rewrite drop_app_le by lia. apply (closing_fence_bare _ x); [|done..].
    by apply last_drop.
  - rewrite drop_app_ge by lia. apply closing_fence_spaces.
    by apply forallb_drop.
Qed.

Lemma decode_render j :
  valid j = true -> no_proto_key j = true ->
  decode (render j) = Some (Ok (denote j)).
Proof.
  intros Hv Hn.
  apply (decode_framed (render j) 0 0 ([], j, []) [] 0 (length (render j))).
  - apply tokenize_run_refl.
  - unfold elem_text. simpl. by rewrite !app_nil_r.
  - done.
  - unfold valid_text. simpl. by rewrite Hv.
  - done.
  - unfold elem_text. simpl. rewrite app_nil_r. apply tokenize_run_refl.
  - done.
Qed.

Lemma jaison_bare (e : str * json * str) :
  valid_text e = true -> no_proto_key e.1.2 = true ->
  jaison (ArgString (render_text e)) = Some (Returns (denote e.1.2)).
Proof.
  intros Hv Hn. unfold jaison.
  assert (Hdec : decode (render_text e) = Some (Ok (denote e.1.2))).
  { unfold decode. rewrite (tokenize_text e Hv).
    unfold valid_text in Hv. bool_hyps.
    destruct (parse_tokens_of e.1.2) as (v & st & -> & Hre); [done..|].
    by rewrite Hre. }
  unfold valid_text in Hv. bool_hyps.
  destruct e as [[w1 j] w2]. cbn [fst snd] in *.
  destruct (render_head j ltac:(done)) as (c & r & Hr & Hc).
  destruct (render_last j ltac:(done)) as (x & Hx & Hxe).
  unfold render_text in *. cbn [fst snd] in *.
  assert (Hopen : strip_opening_fence (w1 ++ render j ++ w2)
                  = w1 ++ render j ++ w2).
  { rewrite Hr. cbn [app].
    by apply strip_opening_fence_bare; auto using valid_ws_regex. }
  rewrite Hopen. rewrite app_assoc.
  rewrite (strip_closing_fence_bare _ x); auto using valid_ws_regex.
  2:{ by apply last_app_Some. }
  rewrite <- app_assoc. by rewrite Hdec.
Qed.

End entry_point.

(** ** Closing brackets at the end of the input *)

Section missing_brackets.
Import Store Parser Tokenizer Strict.

Lemma closing_bracket_inv t :
  closing_bracket t = true ->
  type t = BRACKET /\ value t <> [Ch.comma] /\ value t <> [Ch.lbrace]
  /\ value t <> [Ch.lbracket]
  /\ (value t = [Ch.rbrace] \/ value t = [Ch.rbracket]).
Proof.
  unfold closing_bracket. intros H. bool_hyps.
  apply orb_true_iff in H0 as [Hv|Hv]; bool_hyps; rewrite Hv;
    split_and!; try done; auto.
Qed.

(** The tokens appended after the end are not commas. *)
Lemma next_is_comma_app tokens closers k :
  forallb closing_bracket closers = true ->
  next_is_comma (tokens ++ closers) k = next_is_comma tokens k.
Proof.
  intros Hcl. unfold next_is_comma.
  destruct (tokens !! (k + 1)) as [t|] eqn:E.
  - by rewrite (lookup_app_l_Some _ _ _ _ E).
  - apply lookup_ge_None in E. rewrite lookup_app_r by lia.
    destruct (closers !! (k + 1 - length tokens)) as [t|] eqn:E'; [|done].
    rewrite forallb_forall in Hcl.
    apply list_elem_of_lookup_2, list_elem_of_In, Hcl in E'.
    apply closing_bracket_inv in E' as (_ & Hc & _).
    by rewrite bool_decide_eq_false_2.
Qed.

(** They do not extend a run of identifiers either. *)
Lemma identifier_run_app closers : forall tokens,
  forallb closing_bracket closers = true ->
  identifier_run (tokens ++ closers) = identifier_run tokens.
Proof.
  intros tokens Hcl. induction tokens as [|t tokens IH].
  - destruct closers as [|c closers]; [done|]. simpl in Hcl. bool_hyps.
    cbn [app identifier_run].
    match goal with
    | H : closing_bracket c = true |- _ =>
      apply closing_bracket_inv in H as (-> & _)
    end.
    done.
  - cbn [app identifier_run]. by rewrite IH.
Qed.

(** An iteration on a token of [tokens] does the same when closing brackets
    follow the last token, provided a final colon is followed by a brace. *)
Lemma parse_step_app tokens closers i token st :
  forallb closing_bracket closers = true ->
  (value <$> last tokens = Some [Ch.colon] ->
   closers = [] \/ value <$> head closers = Some [Ch.rbrace]) ->
  tokens !! i = Some token ->
  parse_step (tokens ++ closers) i token st = parse_step tokens i token st.
Proof.
  intros Hcl Hcolon Htok. pose proof (lookup_lt_Some _ _ _ Htok) as Hlt.
  unfold parse_step.
  assert (Hb : step_bracket (tokens ++ closers) i token st
               = step_bracket tokens i token st).
  { unfold step_bracket, handleBracketToken, closeContainer.
    by rewrite next_is_comma_app. }
  assert (Hp : step_punctuation (tokens ++ closers) i token st
               = step_punctuation tokens i token st).
  { unfold step_punctuation, handlePunctuationToken.
    destruct (bool_decide (stacks st = [])); [done|].
    destruct (bool_decide (value token = [Ch.comma])); [done|].
    destruct (bool_decide (value token = [Ch.colon])) eqn:Ec; [|done].
    bool_hyps.
    destruct (tokens !! (i + 1)) as [t|] eqn:E.
    - by rewrite (lookup_app_l_Some _ _ _ _ E).
    - apply lookup_ge_None in E. rewrite lookup_app_r by lia.
      replace (i + 1 - length tokens) with 0 by lia.
      destruct closers as [|c closers]; [done|]. cbn [lookup list_lookup].
      destruct Hcolon as [?|Hc]; [|done|].
      + assert (Hlast : last tokens = Some token).
        { rewrite last_lookup. rewrite <- Htok. f_equal. lia. }
        by rewrite Hlast; simpl; f_equal.
      + simpl in Hc. simplify_eq.
        rewrite (bool_decide_eq_true_2 (value c = [Ch.rbrace])) by done.
        by rewrite orb_true_r. }
  assert (Hv : step_value (tokens ++ closers) i token st
               = step_value tokens i token st).
  { unfold step_value.
    assert (Hd : decode_value (tokens ++ closers) i token st
                 = decode_value tokens i token st).
    { unfold decode_value. rewrite drop_app_le by lia.
      by rewrite identifier_run_app. }
    rewrite Hd. destruct (decode_value tokens i token st) as [[v j]|]; [|done].
    unfold assignValue. by rewrite next_is_comma_app. }
  by rewrite Hb, Hp, Hv.
Qed.

Lemma reachable_app tokens closers i st :
  forallb closing_bracket closers = true ->
  (value <$> last tokens = Some [Ch.colon] ->
   closers = [] \/ value <$> head closers = Some [Ch.rbrace]) ->
  reachable tokens i st -> reachable (tokens ++ closers) i st.
Proof.
  intros Hcl Hcolon. induction 1 as [|i st token i' st' Hr IH Htok Hstep].
  - constructor.
  - apply (reachable_next _ i st token); [done| |].
    + by apply lookup_app_l_Some.
    + by rewrite parse_step_app.
Qed.

Lemma removelast_cons_length {A} : forall (l : list A) x,
  length (removelast (x :: l)) = length l.
Proof.
  induction l as [|y l IH]; intros x; [done|].
  change (removelast (x :: y :: l)) with (x :: removelast (y :: l)).
  change (length (x :: removelast (y :: l)))
    with (S (length (removelast (y :: l)))).
  by rewrite IH.
Qed.

(** As many closing brackets as there are open containers pop them all,
    and the last one returns the value of the first container. *)
Lemma parse_closers tokens : forall closers i st,
  drop i tokens = closers -> forallb closing_bracket closers = true ->
  length closers = length (stacks st) -> closers <> [] ->
  reachable tokens i st ->
  exists st',
    parse tokens
    = Some (Ok (match head (stacks st) ≫= (containers st !!.) with
                | Some c => VRef (cvalue c)
                | None => VUndefined
                end, st'))
    /\ heap_of st' = heap_of st.
Proof.
  induction closers as [|c closers IH]; intros i st Hd Hcl Hlen Hne Hr;
    [done|].
  simpl in Hcl. apply andb_true_iff in Hcl as [Hc Hcl].
  apply closing_bracket_inv in Hc as (Hty & _ & Hlb & Hlk & Hval).
  assert (Htok : tokens !! i = Some c).
  { rewrite <- (Nat.add_0_r i), <- lookup_drop. by rewrite Hd. }
  destruct (stacks st) as [|s0 stk] eqn:Hstk; [done|].
  destruct (last_is_Some (s0 :: stk)) as [_ Hlast].
  destruct Hlast as [top Htop]; [done|].
  assert (Hclose : forall e,
    closeContainer st tokens i e
    = match last (removelast (s0 :: stk)) with
      | Some t =>
        Ok (BracketContinue (Some t) (next_is_comma tokens i),
            mkState (heap_of st) (containers st) (removelast (s0 :: stk))
              (currentContainer st))
      | None =>
        Ok (BracketReturn
              match containers st !! top with
              | Some c => VRef (cvalue c)
              | None => VUndefined
              end,
            mkState (heap_of st) (containers st) (removelast (s0 :: stk))
              (currentContainer st))
      end).
  { intros e. unfold closeContainer. by rewrite Hstk, Htop. }
  assert (Hstep : parse_step tokens i c st
    = match last (removelast (s0 :: stk)) with
      | Some t =>
        Next (if next_is_comma tokens i then i + 2 else i + 1)
          (mkState (heap_of st) (containers st) (removelast (s0 :: stk))
             (Some t))
      | None =>
        Return
          match containers st !! top with
          | Some c => VRef (cvalue c)
          | None => VUndefined
          end
          (mkState (heap_of st) (containers st) (removelast (s0 :: stk))
             (currentContainer st))
      end).
  { unfold parse_step. rewrite bool_decide_eq_true_2 by done.
    unfold step_bracket, handleBracketToken.
    rewrite (bool_decide_eq_false_2 (value c = [Ch.lbrace])) by done.
    destruct Hval as [Hv|Hv].
    - rewrite (bool_decide_eq_true_2 (value c = [Ch.rbrace])) by done.
      rewrite Hclose. by destruct (last (removelast (s0 :: stk))).
    - rewrite (bool_decide_eq_false_2 (value c = [Ch.rbrace]))
        by (rewrite Hv; done).
      rewrite (bool_decide_eq_false_2 (value c = [Ch.lbracket])) by done.
      rewrite (bool_decide_eq_true_2 (value c = [Ch.rbracket])) by done.
      rewrite Hclose. by destruct (last (removelast (s0 :: stk))). }
  destruct stk as [|s1 stk'].
  - (* the last open container *)
    cbn in Hstep, Htop. simplify_eq.
    eexists. split; [by rewrite (parse_return _ _ _ _ _ _ Hr Htok Hstep)|done].
  - (* another container remains open *)
    destruct closers as [|c' closers']; [simpl in Hlen; lia|].
    assert (Hnext : next_is_comma tokens i = false).
    { unfold next_is_comma. rewrite <- lookup_drop, Hd. cbn.
      simpl in Hcl. apply andb_true_iff in Hcl as [Hc' _].
      apply closing_bracket_inv in Hc' as (_ & Hc' & _).
      by rewrite bool_decide_eq_false_2. }
    rewrite Hnext in Hstep.
    destruct (last_is_Some (removelast (s0 :: s1 :: stk'))) as [_ Hl].
    destruct Hl as [t Ht]; [by destruct stk'|].
    rewrite Ht in Hstep.
    pose proof (reachable_next _ _ _ _ _ _ Hr Htok Hstep) as Hr'.
    assert (Hd' : drop (i + 1) tokens = c' :: closers').
    { by rewrite <- drop_drop, Hd. }
    match type of Hr' with
    | reachable _ _ ?s =>
      assert (Hlen' : length (c' :: closers') = length (stacks s))
        by (cbn [stacks]; rewrite removelast_cons_length; simpl in *; lia);
      destruct (IH (i + 1) s Hd' Hcl Hlen' ltac:(done) Hr')
        as (st' & Hp & Hh)
    end.
    exists st'. split; [|done]. rewrite Hp. cbn [stacks containers].
    change (removelast (s0 :: s1 :: stk')) with (s0 :: removelast (s1 :: stk')).
    done.
Qed.

Lemma resolve_pending_key_none st :
  (forall c, current st = Some c -> ckey c = None) ->
  resolve_pending_key st = st.
Proof.
  intros H. unfold resolve_pending_key.
  destruct (currentContainer st) as [r|]; [|done].
  destruct (current st) as [c|]; [|done].
  rewrite (H c eq_refl). by destruct (ctype c).
Qed.

Lemma parse_at_end tokens st :
  reachable tokens (length tokens) st ->
  parse tokens = Some (Ok (handleUnclosedContainers st)).
Proof.
  intros Hr. apply (parse_from_fuel _ _ _ 1 _ Hr).
  cbn [parse_loop]. by rewrite lookup_ge_None_2.
Qed.

End missing_brackets.

(** ** Signs and dots *)

Section number_tokens.
Import Store Parser Tokenizer Strict.

Lemma number_start_not_stop c :
  is_number_start c = true -> is_identifier_stop c = false.
Proof.
  intros Hc.
  assert (Hr : (c = 43 \/ c = 45 \/ c = 46 \/ 48 <= c <= 57)%N).
  { unfold is_number_start, is_digit in Hc.
    repeat (apply orb_true_iff in Hc as [Hc|Hc]); bool_hyps;
      unfold Ch.minus, Ch.plus, Ch.dot in *; lia. }
  destruct (is_identifier_stop c) eqn:E; [|done].
  unfold is_identifier_stop, is_regex_space in E.
  repeat (apply orb_true_iff in E as [E|E]); bool_hyps;
    unfold Ch.dquote, Ch.lbrace, Ch.rbrace, Ch.lbracket, Ch.rbracket,
      Ch.comma, Ch.colon, Ch.zh_colon, Ch.zh_comma in *; lia.
Qed.

Lemma parseIdentifierToken_some s pos c :
  s !! pos = Some c -> is_identifier_stop c = false ->
  is_Some (parseIdentifierToken s pos).1.
Proof.
  intros Hc Hs. unfold parseIdentifierToken.
  assert (Hlt : pos < scan_while (fun c => negb (is_identifier_stop c)) s pos).
  { apply (scan_while_gt _ _ _ c); [done|]. by rewrite Hs. }
  apply Nat.ltb_lt in Hlt. rewrite Hlt. by eexists.
Qed.

Lemma parseNumberToken_some s pos c :
  s !! pos = Some c -> is_number_start c = true ->
  is_Some (parseNumberToken s pos).1.
Proof.
  intros Hc Hn.
  pose proof (parseIdentifierToken_some s pos c Hc
                (number_start_not_stop c Hn)) as Hid.
  unfold parseNumberToken. repeat case_match; try done; by eexists.
Qed.

End number_tokens.

(** ** Further properties of the code *)

Section further_properties.
Import Store Parser Tokenizer Strict.

Lemma tokenize_step_number_start s pos c :
  is_number_start c = true ->
  tokenize_step s pos c
  = (option_list (parseNumberToken s pos).1, (parseNumberToken s pos).2).
Proof.
  intros Hc. destruct (is_digit c) eqn:Hd; [by apply tokenize_step_digit|].
  unfold is_number_start in Hc. rewrite Hd in Hc. cbn [orb] in Hc.
  repeat (apply orb_true_iff in Hc as [Hc|Hc]);
    apply N.eqb_eq in Hc; subst c; reflexivity.
Qed.

(** X2. The loop of [tokenize] always ends: one iteration moves the
    position forward, whatever the input, the position and the character it
    is run on, and [length s] iterations reach the end of [s], so that more
    iterations push no token. *)
Theorem tokenize_terminates s :
  (forall pos c, pos < (tokenize_step s pos c).2) /\
  (forall k, tokenize_loop (length s + k) s 0 [] = tokenize s).
Proof.
  split.
  - intros pos c. apply tokenize_step_advances.
  - intros k. unfold tokenize. apply tokenize_loop_enough. lia.
Qed.

(** X3. Every token of [tokenize] is well formed: the text of a STRING
    token starts and ends with a double quote (single quotes are
    normalised, a missing closing quote is added); a BRACKET token is one of
    the four brackets; the text of a PUNCTUATION token is the ASCII comma or
    colon (the fullwidth ones are normalised); a NUMBER token has a
    non-empty text, a radix among 2, 8, 10 and 16 and at most one of the two
    sign flags; the text of an IDENTIFIER token is not empty and holds no
    character that ends an identifier; no COMMENT token is produced. *)
Theorem tokenize_well_formed s :
  Forall (fun t => token_wf t = true) (tokenize s).
Proof. unfold tokenize. by apply tokenize_loop_wf. Qed.

(** X4. At a digit, a sign or a dot the tokenizer always pushes a token:
    [parseNumberToken] never hands back the [null] token of
    [parseIdentifierToken], which [tokenize] would push unchecked. *)
Theorem number_branch_pushes_a_token s pos c :
  s !! pos = Some c -> is_number_start c = true ->
  exists t,
    (parseNumberToken s pos).1 = Some t /\
    tokenize_step s pos c = ([t], (parseNumberToken s pos).2).
Proof.
  intros Hc Hn. destruct (parseNumberToken_some s pos c Hc Hn) as [t Ht].
  exists t. split; [done|].
  rewrite tokenize_step_number_start by done. by rewrite Ht.
Qed.

(** X4 at a lone minus sign, which becomes an identifier. *)
Lemma number_branch_pushes_a_token_witness :
  exists t,
    (parseNumberToken (lit "-") 0).1 = Some t /\
    tokenize_step (lit "-") 0 Ch.minus
    = ([t], (parseNumberToken (lit "-") 0).2).
Proof.
  apply (number_branch_pushes_a_token (lit "-") 0 Ch.minus); reflexivity.
Defined.

(** X5. [parse] returns or throws on every list of tokens, and what it
    returns is a finite tree: in the store it leaves, every reference goes
    to an object or array created later (no cycle, no dangling reference),
    the own property names of every object are distinct, and the returned
    value reads as a tree. So [decode] gives a result on every input. *)
Theorem parse_returns_a_tree tokens :
  ((exists e, parse tokens = Some (Throw e)) \/
   (exists v st t,
      parse tokens = Some (Ok (v, st)) /\
      forest (heap_of st) /\ keys_nodup (heap_of st) /\
      within 0 (length (heap_of st)) v /\
      reify (length (heap_of st)) (heap_of st) v = Some t)) /\
  (forall input, exists r, decode input = Some r).
Proof.
  assert (Hparse : forall tokens,
    (exists e, parse tokens = Some (Throw e)) \/
    (exists v st t,
       parse tokens = Some (Ok (v, st)) /\
       forest (heap_of st) /\ keys_nodup (heap_of st) /\
       within 0 (length (heap_of st)) v /\
       reify (length (heap_of st)) (heap_of st) v = Some t)).
  { clear tokens. intros tokens.
    destruct (parse_total tokens) as [[[v st]|e] Hp]; [right|left; eauto].
    destruct (parse_result _ _ _ Hp) as (Hf & Hk & Hw).
    destruct (reify_forest (heap_of st) (length (heap_of st)) v Hf Hw)
      as [t Ht]; [intros; lia|].
    by exists v, st, t. }
  split; [apply Hparse|].
  intros input. unfold decode.
  destruct (Hparse (tokenize input)) as [[e ->]|(v & st & t & -> & _ & _ & _ & ->)];
    by eexists.
Qed.

(** X6. A text that is one quoted string, in double or in single quotes,
    whose content holds neither a backslash nor the quote that delimits it,
    decodes to exactly this content: raw control characters such as line
    feeds and tabs are kept, and so are double quotes between single
    quotes. The closing quote may be missing when the content is not empty.
    A lone double quote throws, a lone single quote is the empty string. *)
Theorem quoted_string_round_trip q content post :
  q = Ch.dquote \/ q = Ch.squote ->
  q ∉ content -> Ch.backslash ∉ content ->
  (post = [] /\ content <> []) \/ post = [q] ->
  decode (q :: content ++ post) = Some (Ok (TString content)) /\
  decode [Ch.dquote] = Some (Throw SyntaxError) /\
  decode [Ch.squote] = Some (Ok (TString [])).
Proof.
  intros Hq Hc Hb Hpost. split; [by apply decode_quoted|].
  split; reflexivity.
Qed.

(** X6 at the unclosed text ['say `hi`] followed by a line feed, the
    backquotes standing for double quotes. *)
Lemma quoted_string_round_trip_witness :
  decode (Ch.squote :: (qlit "say `hi`" ++ [Ch.lf]) ++ [])
  = Some (Ok (TString (qlit "say `hi`" ++ [Ch.lf]))).
Proof.
  refine (proj1 (quoted_string_round_trip Ch.squote
                   (qlit "say `hi`" ++ [Ch.lf]) [] _ _ _ _)).
  - right. reflexivity.
  - apply (bool_decide_unpack _). vm_compute. exact I.
  - apply (bool_decide_unpack _). vm_compute. exact I.
  - left. split; [reflexivity|discriminate].
Defined.



(** X8. A literal [0x], [0o] or [0b] (the letter in either case) followed
    by digits of its radix, with an optional sign before it, decodes to
    the number these digits denote in the radix, negated after a minus
    sign. *)
Theorem radix_literal_value sign R p ds :
  sign = [] \/ sign = [Ch.minus] \/ sign = [Ch.plus] ->
  radix_marker R p = true ->
  forallb (JS.is_radix_digit R) ds = true -> ds <> [] ->
  decode (sign ++ 48%N :: p :: ds)
  = Some (Ok (TNumber (JS.signed (bool_decide (sign = [Ch.minus]))
                         (JS.of_N (JS.digits_value R ds))))).
Proof.
  intros Hsign Hm Hds Hne. unfold decode.
  set (s := sign ++ 48%N :: p :: ds).
  set (tok := mkToken NUMBER (48%N :: p :: ds) (Some R)
                (bool_decide (sign = [Ch.minus]))
                (bool_decide (sign = [Ch.plus]))).
  pose proof (parseNumberToken_radix sign R p ds Hsign Hm Hds Hne) as Htok.
  fold s tok in Htok.
  assert (Hstep : exists c, s !! 0 = Some c /\
                    tokenize_step s 0 c = ([tok], length s)).
  { destruct Hsign as [-> | [-> | ->]].
    - exists 48%N. split; [done|]. unfold tokenize_step. by rewrite Htok.
    - exists Ch.minus. split; [done|]. unfold tokenize_step. by rewrite Htok.
    - exists Ch.plus. split; [done|]. unfold tokenize_step. by rewrite Htok. }
  destruct Hstep as (c & Hc & Hstep).
  rewrite (tokenize_single s c tok Hc Hstep).
  rewrite (parse_scalar_text tok (VNumber (parseNumberValue tok)));
    [|by right; left|done].
  simpl. subst tok. by rewrite parseNumberValue_radix.
Qed.

(** X8 at [-0xfF]. *)
Lemma radix_literal_value_witness :
  decode (lit "-0xfF") = Some (Ok (TNumber (JS.neg (JS.of_N 255)))).
Proof.
  apply (radix_literal_value [Ch.minus] 16 (ch "x") (lit "fF")).
  - right. left. reflexivity.
  - reflexivity.
  - reflexivity.
  - discriminate.
Defined.

(** X9. A plus sign before a decimal number of the JSON grammar is
    accepted and dropped: the text decodes to the value of the number
    without sign. *)
Theorem plus_sign_is_dropped n :
  valid_number n = true ->
  decode (Ch.plus :: magnitude_text n)
  = Some (Ok (TNumber
                (number_value (mkNumber false (jint n) (jfrac n) (jexp n))))).
Proof.
  intros Hv. unfold decode.
  set (s := Ch.plus :: magnitude_text n).
  set (tok := mkToken NUMBER (magnitude_text n) (Some RADIX.DECIMAL)
                false true).
  assert (Hd : drop 1 s = magnitude_text n ++ []) by (by rewrite app_nil_r).
  destruct (number_scan s 1 n [] Hv Hd I) as (d & Hs1 & Hdig & Hscan).
  pose proof (digit_range d Hdig) as Hr.
  assert (Hlen : length s = 1 + length (magnitude_text n)) by done.
  assert (Htok : parseNumberToken s 0 = (Some tok, length s)).
  { unfold parseNumberToken.
    change (s !! 0) with (Some Ch.plus).
    rewrite (bool_decide_eq_false_2 (Some Ch.plus = Some Ch.minus)) by done.
    rewrite (bool_decide_eq_true_2 (Some Ch.plus = Some Ch.plus)) by done.
    rewrite (bool_decide_eq_false_2 (Some Ch.plus = Some Ch.dot)) by done.
    cbn [negb andb orb]. change (0 + 1) with 1. rewrite Hs1.
    change (0 <? 1) with true.
    assert ((d =? Ch.dot)%N = false) as ->
      by (apply N.eqb_neq; unfold Ch.dot; lia).
    cbn [negb andb orb]. rewrite Hdig.
    assert (Hslice : slice s 1 (1 + length (magnitude_text n))
                     = magnitude_text n).
    { by apply (slice_drop _ _ _ []). }
    destruct ((d =? Ch.zero)%N && (1 + 1 <? length s)).
    - cbv zeta in Hscan. destruct Hscan as (-> & -> & -> & ->).
      rewrite Hslice. by rewrite Hlen.
    - rewrite Hscan. rewrite Hslice. by rewrite Hlen. }
  assert (Hstep : tokenize_step s 0 Ch.plus = ([tok], length s)).
  { unfold tokenize_step. by rewrite Htok. }
  rewrite (tokenize_single s Ch.plus tok eq_refl Hstep).
  rewrite (parse_scalar_text tok (VNumber (parseNumberValue tok)));
    [|by right; left|done].
  simpl. do 3 f_equal. subst tok. unfold parseNumberValue.
  cbn [radix value isNegative].
  rewrite !bool_decide_eq_false_2 by done.
  by rewrite parseFloat_magnitude.
Qed.

(** X9 at [+1.5]. *)
Lemma plus_sign_is_dropped_witness :
  decode (lit "+1.5") = Some (Ok (TNumber (number_value ex_number))).
Proof.
  apply (plus_sign_is_dropped ex_number). reflexivity.
Defined.



(** X11. In key position (the current container is an object without
    pending key) an IDENTIFIER or NUMBER token becomes the pending key with
    its text, the sign of a number put back in front of it; a PUNCTUATION
    token other than a comma throws, with the text of the token in the
    message. *)
Theorem key_position_tokens tokens i token st m n p props :
  key_slot st m n p props ->
  (type token = IDENTIFIER \/ type token = NUMBER ->
   parse_step tokens i token st
   = Next (i + 1)
       (set_key m
          (Some (if bool_decide (type token = NUMBER) && isNegative token
                 then Ch.minus :: value token
                 else if bool_decide (type token = NUMBER) && isPositive token
                 then Ch.plus :: value token
                 else value token)) st)) /\
  (type token = PUNCTUATION -> value token <> [Ch.comma] ->
   parse_step tokens i token st = Raise (UnexpectedKeyToken (value token)) /\
   (reachable tokens i st -> tokens !! i = Some token ->
    parse tokens = Some (Throw (UnexpectedKeyToken (value token))))).
Proof.
  intros Hslot. split.
  - intros Hty. by eapply step_bare_key.
  - intros Hty Hv.
    pose proof (step_key_punctuation tokens i token st m n p props Hslot
                  Hty Hv) as Hstep.
    split; [done|]. intros Hr Htok. by eapply parse_raise.
Qed.

(** X11 at [{-5], after the brace. *)
Lemma key_position_tokens_witness :
  run 1 ex_key_tokens = Some (1, ex_key_state) /\
  parse_step ex_key_tokens 1
    (mkToken NUMBER (lit "5") (Some RADIX.DECIMAL) true false) ex_key_state
  = Next 2
      (mkState [JSObject ObjectPrototype []]
         [mkContainer OBJECT 0 (Some (lit "-5"))] [0] (Some 0)).
Proof.
  split; [reflexivity|].
  refine (proj1 (key_position_tokens ex_key_tokens 1
                   (mkToken NUMBER (lit "5") (Some RADIX.DECIMAL) true false)
                   ex_key_state 0 0 ObjectPrototype [] _) _).
  - by constructor.
  - right. reflexivity.
Defined.

(** X12. A line comment [//] is skipped up to the end of its line, with
    the line break that ends it (a line feed, a carriage return, or both
    in this order), or up to the end of the input; no token is pushed. *)
Theorem line_comment_is_skipped s pos c rest :
  drop pos s = Ch.slash :: Ch.slash :: c ++ rest ->
  forallb (fun x => negb (is_newline x)) c = true ->
  match rest with [] => True | x :: _ => is_newline x = true end ->
  skipComment s pos = (true, pos + 2 + length c + line_break rest) /\
  tokenize_run s pos 1 (pos + 2 + length c + line_break rest) [].
Proof.
  intros Hd Hc Hrest.
  pose proof (skipComment_line s pos c rest Hd Hc Hrest) as Hskip.
  split; [done|].
  apply tokenize_run_comment; [by eapply drop_head|done].
Qed.

(** X12 at [//c], a carriage return, a line feed and [1]. *)
Lemma line_comment_is_skipped_witness :
  skipComment (lit "//c" ++ [Ch.cr; Ch.lf] ++ lit "1") 0 = (true, 5) /\
  tokenize_run (lit "//c" ++ [Ch.cr; Ch.lf] ++ lit "1") 0 1 5 [].
Proof.
  apply (line_comment_is_skipped (lit "//c" ++ [Ch.cr; Ch.lf] ++ lit "1") 0
           (lit "c") ([Ch.cr; Ch.lf] ++ lit "1")); reflexivity.
Defined.

(** X13. A block comment is skipped up to the first [*/] after its
    opening, and no token is pushed. When one character is left after the
    comment, this character is skipped too. *)
Theorem block_comment_is_skipped s pos c rest :
  drop pos s = Ch.slash :: Ch.star :: c ++ Ch.star :: Ch.slash :: rest ->
  has_block_end (c ++ [Ch.star]) = false ->
  skipComment s pos
  = (true,
     pos + 2 + length c + 2 + (if length rest <=? 1 then length rest else 0))
  /\
  tokenize_run s pos 1
    (pos + 2 + length c + 2 + (if length rest <=? 1 then length rest else 0))
    [].
Proof.
  intros Hd Hc.
  pose proof (skipComment_block s pos c rest Hd Hc) as Hskip.
  split; [done|].
  apply tokenize_run_comment; [by eapply drop_head|done].
Qed.

(** X13 at [/*c*/1], where the digit is lost. *)
Lemma block_comment_is_skipped_witness :
  (skipComment (lit "/*c*/1") 0 = (true, 6) /\
   tokenize_run (lit "/*c*/1") 0 1 6 []) /\
  tokenize (lit "/*c*/1") = [].
Proof.
  split; [|reflexivity].
  apply (block_comment_is_skipped (lit "/*c*/1") 0 (lit "c") (lit "1"));
    reflexivity.
Defined.

(** X14. A block comment that is not closed hides the rest of the input:
    nothing after its opening is tokenized. There is one exception: when
    the input ends with the slash that follows the opening, the comment
    ends before this slash, and the slash becomes an identifier. *)
Theorem unterminated_block_comment s pos c :
  drop pos s = Ch.slash :: Ch.star :: c ->
  has_block_end c = false ->
  (c <> [Ch.slash] ->
   skipComment s pos = (true, length s) /\
   tokenize_run s pos 1 (length s) []) /\
  (c = [Ch.slash] ->
   skipComment s pos = (true, length s - 1) /\
   tokenize_run s pos 2 (length s) [simple_token IDENTIFIER [Ch.slash]]).
Proof.
  intros Hd Hc. split.
  - intros Hne.
    pose proof (skipComment_unterminated s pos c Hd Hc Hne) as Hskip.
    split; [done|].
    apply tokenize_run_comment; [by eapply drop_head|done].
  - intros ->.
    pose proof (skipComment_slash s pos Hd) as Hskip.
    split; [done|].
    pose proof (f_equal length Hd) as Hlen.
    rewrite length_drop in Hlen. cbn [length] in Hlen.
    apply (tokenize_run_trans s pos 1 (length s - 1) [] 1 (length s)).
    + apply tokenize_run_comment; [by eapply drop_head|done].
    + apply tokenize_final_slash.
      replace (length s - 1) with (pos + length [Ch.slash; Ch.star])
        by (simpl; lia).
      by apply (drop_more s pos [Ch.slash; Ch.star]).
Qed.

(** X14 at [/* {`a`: 1}] and at [/*/]. *)
Lemma unterminated_block_comment_witness :
  (skipComment (qlit "/* {`a`: 1}") 0 = (true, 11) /\
   tokenize_run (qlit "/* {`a`: 1}") 0 1 11 []) /\
  (skipComment (lit "/*/") 0 = (true, 2) /\
   tokenize_run (lit "/*/") 0 2 3 [simple_token IDENTIFIER [Ch.slash]]) /\
  tokenize (lit "/*/") = [simple_token IDENTIFIER [Ch.slash]].
Proof.
  split; [|split; [|reflexivity]].
  - apply (proj1 (unterminated_block_comment (qlit "/* {`a`: 1}") 0
                    (qlit " {`a`: 1}") eq_refl eq_refl)).
    discriminate.
  - apply (proj2 (unterminated_block_comment (lit "/*/") 0 [Ch.slash]
                    eq_refl eq_refl)).
    reflexivity.
Defined.

(** X15. Comments around a strict JSON text do not change its value: a
    block comment before the text and a line comment after it, the text
    ending with white space, decode to the value of the text. *)
Theorem commented_text_value c1 (e : str * json * str) c2 :
  has_block_end (c1 ++ [Ch.star]) = false ->
  valid_text e = true -> no_proto_key e.1.2 = true -> e.2 <> [] ->
  forallb (fun x => negb (is_newline x)) c2 = true ->
  decode (Ch.slash :: Ch.star :: c1 ++ Ch.star :: Ch.slash
            :: render_text e ++ Ch.slash :: Ch.slash :: c2)
  = Some (Ok (denote e.1.2)).
Proof.
  intros Hc1 Hv Hn Hw Hc2.
  destruct e as [[w1 j] w2]. cbn [fst snd] in *.
  unfold render_text. cbn [fst snd].
  set (tail := Ch.slash :: Ch.slash :: c2).
  set (s := Ch.slash :: Ch.star :: c1 ++ Ch.star :: Ch.slash
              :: (w1 ++ render j ++ w2) ++ tail).
  pose proof Hv as Hv'. unfold valid_text in Hv'. cbn [fst snd] in Hv'.
  bool_hyps.
  set (p1 := 2 + length c1 + 2).
  assert (Hrun1 : tokenize_run s 0 1 p1 []).
  { pose proof (tokenize_run_comment s 0 _ eq_refl
                  (skipComment_block s 0 c1
                     ((w1 ++ render j ++ w2) ++ tail) eq_refl Hc1)) as Hb.
    assert (Hlong : (length ((w1 ++ render j ++ w2) ++ tail) <=? 1) = false).
    { apply Nat.leb_gt. rewrite length_app. subst tail. simpl. lia. }
    rewrite Hlong in Hb. subst p1.
    by replace (0 + 2 + length c1 + 2 + 0) with (2 + length c1 + 2) in Hb
      by lia. }
  assert (Hd : drop p1 s = elem_text (w1, j, []) ++ w2 ++ tail).
  { subst p1 s. unfold elem_text. cbn [fst snd].
    change (Ch.slash :: Ch.star :: c1 ++ Ch.star :: Ch.slash
              :: (w1 ++ render j ++ w2) ++ tail)
      with ([Ch.slash; Ch.star] ++ c1 ++ [Ch.star; Ch.slash]
              ++ (w1 ++ render j ++ w2) ++ tail).
    rewrite !app_assoc.
    rewrite <- (app_assoc _ w2 tail), <- (app_assoc _ (render j)),
      <- (app_assoc _ w1).
    rewrite drop_app_length'; [by rewrite app_nil_r, <- !app_assoc|].
    rewrite !length_app. simpl. lia. }
  set (p2 := p1 + length (elem_text (w1, j, []))).
  assert (Hd2 : drop p2 s = w2 ++ tail) by (by apply drop_more in Hd).
  assert (Hd3 : drop (p2 + length w2) s = tail) by (by apply drop_more in Hd2).
  pose proof (tokenize_ws s p2 w2 tail ltac:(done) Hd2) as Hrun2.
  pose proof (tokenize_run_comment s (p2 + length w2) _
                (drop_head _ _ _ _ Hd3)
                (skipComment_line s (p2 + length w2) c2 []
                   ltac:(by rewrite app_nil_r) Hc2 I)) as Hrun3.
  pose proof (tokenize_run_trans _ _ _ _ _ _ _ _ Hrun2 Hrun3) as Hrun.
  apply (decode_framed s 1 p1 (w1, j, []) (w2 ++ tail) (length w2 + 1)
           (p2 + length w2 + 2 + length c2 + line_break []) Hrun1 Hd).
  - destruct w2 as [|c w2]; [done|]. cbn [app delimited]. left.
    match goal with H : valid_ws (c :: w2) = true |- _ =>
      simpl in H; by apply andb_true_iff in H as [? _] end.
  - unfold valid_text. cbn [fst snd]. by rewrite !andb_true_r, andb_true_iff.
  - done.
  - exact Hrun.
  - cbn [line_break]. apply (f_equal length) in Hd3.
    rewrite length_drop in Hd3. subst tail. simpl in Hd3. simpl. lia.
Qed.

(** X15 at an object with a header and a trailing remark. *)
Lemma commented_text_value_witness :
  decode (lit "/* header */" ++ render_text ex_strict_text ++ lit "// done")
  = Some (Ok (denote ex_strict_text.1.2)).
Proof.
  apply (commented_text_value (lit " header ") ex_strict_text (lit " done")).
  - reflexivity.
  - vm_compute. reflexivity.
  - vm_compute. reflexivity.
  - discriminate.
  - reflexivity.
Defined.

(** X16. [jaison] takes a strict JSON text out of a Markdown code block:
    white space, the opening fence, a language tag of letters, digits,
    [_], [+] and [-], white space that is not empty, the text of a value,
    white space, the closing fence and white space. The value returned is
    the one of the text; backquotes inside its strings do no harm. *)
Theorem jaison_fenced_text w0 tag w1 j w2 w3 :
  valid_ws w0 = true -> forallb is_fence_tag tag = true ->
  valid_ws w1 = true -> w1 <> [] ->
  valid_ws w2 = true -> valid_ws w3 = true ->
  valid j = true -> no_proto_key j = true ->
  jaison (ArgString (w0 ++ fence ++ tag ++ w1 ++ render j ++ w2 ++ fence ++ w3))
  = Some (Returns (denote j)).
Proof.
  intros Hw0 Htag Hw1 Hne Hw2 Hw3 Hv Hn. unfold jaison.
  destruct (render_head j Hv) as (c & r & Hr & [Hc _]).
  destruct (render_last j Hv) as (x & Hx & [Hx1 _]).
  assert (Hopen : strip_opening_fence
                    (w0 ++ fence ++ tag ++ w1 ++ render j ++ w2 ++ fence ++ w3)
                  = render j ++ w2 ++ fence ++ w3).
  { rewrite Hr. cbn [app].
    by apply strip_opening_fence_fenced; auto using valid_ws_regex. }
  rewrite Hopen.
  rewrite (strip_closing_fence_fenced _ x); auto using valid_ws_regex.
  by rewrite decode_render.
Qed.

(** X16 at a block tagged [json]. *)
Lemma jaison_fenced_text_witness :
  jaison (ArgString (fence ++ lit "json" ++ [Ch.lf]
                       ++ render ex_strict_text.1.2 ++ [Ch.lf] ++ fence))
  = Some (Returns (denote ex_strict_text.1.2)).
Proof.
  refine (eq_trans _
    (jaison_fenced_text [] (lit "json") [Ch.lf] ex_strict_text.1.2 [Ch.lf] []
       _ _ _ _ _ _ _ _)).
  - by rewrite app_nil_r.
  - reflexivity.
  - reflexivity.
  - reflexivity.
  - discriminate.
  - reflexivity.
  - reflexivity.
  - vm_compute. reflexivity.
  - vm_compute. reflexivity.
Defined.

(** X17. The two replacements of [jaison] leave a strict JSON text as it
    is, whatever its strings hold: [jaison] returns the value of the text,
    as [decode] does. *)
Theorem jaison_strict_text (e : str * json * str) :
  valid_text e = true -> no_proto_key e.1.2 = true ->
  strip_closing_fence (strip_opening_fence (render_text e)) = render_text e /\
  jaison (ArgString (render_text e)) = Some (Returns (denote e.1.2)).
Proof.
  intros Hv Hn. split; [|by apply jaison_bare].
  pose proof Hv as Hv'. unfold valid_text in Hv'. bool_hyps.
  destruct e as [[w1 j] w2]. cbn [fst snd] in *.
  destruct (render_head j ltac:(done)) as (c & r & Hr & Hc).
  destruct (render_last j ltac:(done)) as (x & Hx & Hxe).
  unfold render_text. cbn [fst snd].
  assert (Hopen : strip_opening_fence (w1 ++ render j ++ w2)
                  = w1 ++ render j ++ w2).
  { rewrite Hr. cbn [app].
    by apply strip_opening_fence_bare; auto using valid_ws_regex. }
  rewrite Hopen, app_assoc.
  apply (strip_closing_fence_bare _ x); auto using valid_ws_regex.
  by apply last_app_Some.
Qed.

(** X17 at the example text. *)
Lemma jaison_strict_text_witness :
  jaison (ArgString (render_text ex_strict_text))
  = Some (Returns (denote ex_strict_text.1.2)).
Proof.
  apply (jaison_strict_text ex_strict_text); vm_compute; reflexivity.
Defined.

(** X18. Closing brackets that are missing at the end of the input do not
    matter. When the tokens end with containers open and no pending key,
    appending one closing bracket per open container, braces or square
    brackets in any order, gives the same value over the same store,
    provided a final colon is followed by a brace. *)
Theorem missing_closing_brackets tokens st closers :
  reachable tokens (length tokens) st ->
  length closers = length (stacks st) -> closers <> [] ->
  forallb closing_bracket closers = true ->
  (forall c, current st = Some c -> ckey c = None) ->
  (value <$> last tokens = Some [Ch.colon] ->
   value <$> head closers = Some [Ch.rbrace]) ->
  exists v st1 st2,
    parse tokens = Some (Ok (v, st1))
    /\ parse (tokens ++ closers) = Some (Ok (v, st2))
    /\ heap_of st1 = heap_of st2 /\ heap_of st1 = heap_of st.
Proof.
  intros Hr Hlen Hne Hcl Hkey Hcolon.
  assert (Hr' : reachable (tokens ++ closers) (length tokens) st).
  { apply reachable_app; [done| |done]. intros H. right. by apply Hcolon. }
  destruct (parse_closers (tokens ++ closers) closers (length tokens) st)
    as (st2 & Hp2 & Hh2); [by rewrite drop_app_length|done..|].
  exists (handleUnclosedContainers st).1, (handleUnclosedContainers st).2, st2.
  split_and!.
  - rewrite (parse_at_end _ _ Hr). by destruct (handleUnclosedContainers st).
  - rewrite Hp2. do 3 f_equal. unfold handleUnclosedContainers.
    rewrite resolve_pending_key_none by done.
    destruct (stacks st) as [|s0 stk]; [|done].
    by destruct closers.
  - rewrite Hh2. unfold handleUnclosedContainers.
    rewrite resolve_pending_key_none by done. by destruct (stacks st).
  - unfold handleUnclosedContainers.
    rewrite resolve_pending_key_none by done. by destruct (stacks st).
Qed.

(** X18 at [[{a:x], closed by [}]]. *)
Lemma missing_closing_brackets_witness :
  run 5 ex_open_tokens = Some (5, ex_open_state) /\
  exists v st1 st2,
    parse ex_open_tokens = Some (Ok (v, st1))
    /\ parse (ex_open_tokens ++ ex_closers) = Some (Ok (v, st2))
    /\ heap_of st1 = heap_of st2 /\ heap_of st1 = heap_of ex_open_state.
Proof.
  split; [vm_compute; reflexivity|].
  apply (missing_closing_brackets ex_open_tokens ex_open_state ex_closers).
  - apply (run_reachable 5). vm_compute. reflexivity.
  - reflexivity.
  - discriminate.
  - reflexivity.
  - intros c [= <-]. reflexivity.
  - discriminate.
Defined.

End further_properties.
